(** * QuicTransportBase: close lifecycle, callback registry, byte events,
      flow-control bounds and ECN validation

    A shallow embedding of the parts of [quic/api/QuicTransportBase.cpp] that
    decide how a connection closes, how read and byte-event callbacks are
    registered and cancelled, how much the application may write, and how
    ECN marking is validated.

    Conventions.
    - [uint64_t] values are [Z]; where the source does arithmetic that can
      wrap, the wrap-around is written out with [wrap64].
    - A raw callback pointer is an [option CallbackPtr]; [None] is [nullptr].
    - The transport object and the connection state it owns are records;
      the F14 maps keyed by stream id are [gmap]s.
    - Everything the transport does to the outside world (application
      callbacks, observers, the socket, the stream manager's own sets, the
      methods the derived transports implement) is appended to [trace_], in
      program order.  Application callbacks are opaque to the transport: the
      model records each invocation and does not follow calls a callback
      makes back into the transport.  The module [Reentrant] embeds the
      close and the byte-event paths once more with the application as a
      parameter, so that a callback can change the transport; there the
      checks the source makes after a callback decide something.
    - [CHECK]/[CHECK_NOTNULL] failures and null dereferences end the
      process; functions that contain one return an [Outcome]. *)

From Stdlib Require Import ZArith Lia List Bool String Sorted.
From stdpp Require Import base option list sorting gmap strings.
From stdpp Require Import pretty.

Local Open Scope Z_scope.

(** ** Integers *)

Definition wrap64 (z : Z) : Z := z mod 2 ^ 64.

(** [folly::chrono::ceil<std::chrono::milliseconds>] of a duration given in
    microseconds. *)
Definition ceil_milliseconds (us : Z) : Z := - ((- us) / 1000).

(** ** Identifiers and error codes *)

Abbreviation StreamId := Z (only parsing).
Abbreviation StreamGroupId := Z (only parsing).
Abbreviation ApplicationErrorCode := Z (only parsing).
Abbreviation CallbackPtr := nat (only parsing).
Abbreviation EventBasePtr := nat (only parsing).

Inductive QuicNodeType := Client | Server.

Inductive CloseState := OPEN | GRACEFUL_CLOSING | CLOSED.

(** The enumerators are those the transport surfaces; [OTHER] stands for the
    remaining enumerators of the declaration in [QuicConstants.h]. *)
Module LocalErrorCode.
Inductive t :=
| NO_ERROR
| INVALID_OPERATION
| CONNECTION_CLOSED
| STREAM_NOT_EXISTS
| STREAM_CLOSED
| INVALID_WRITE_CALLBACK
| CALLBACK_ALREADY_INSTALLED
| INVALID_WRITE_DATA
| APP_ERROR
| TRANSPORT_ERROR
| INTERNAL_ERROR
| PACER_NOT_AVAILABLE
| KNOB_FRAME_UNSUPPORTED
| RTX_POLICIES_LIMIT_EXCEEDED
| IDLE_TIMEOUT
| SHUTTING_DOWN
| CONNECTION_RESET
| CONNECTION_ABANDONED
| OTHER (n : nat).
End LocalErrorCode.

Module TransportErrorCode.
Inductive t :=
| NO_ERROR
| INTERNAL_ERROR
| PROTOCOL_VIOLATION
| INVALID_MIGRATION
| OTHER (n : nat).
End TransportErrorCode.

#[global] Instance CloseState_eq_dec : EqDecision CloseState.
Proof. solve_decision. Defined.
#[global] Instance LocalErrorCode_eq_dec : EqDecision LocalErrorCode.t.
Proof. solve_decision. Defined.
#[global] Instance TransportErrorCode_eq_dec : EqDecision TransportErrorCode.t.
Proof. solve_decision. Defined.

(** [QuicErrorCode] is a variant over the three families of codes. *)
Inductive QuicErrorCode :=
| ApplicationError (c : ApplicationErrorCode)
| LocalError (c : LocalErrorCode.t)
| TransportError (c : TransportErrorCode.t).

Definition asLocalErrorCode (c : QuicErrorCode) : option LocalErrorCode.t :=
  match c with LocalError l => Some l | _ => None end.

Definition asTransportErrorCode (c : QuicErrorCode)
  : option TransportErrorCode.t :=
  match c with TransportError t => Some t | _ => None end.

Definition asApplicationErrorCode (c : QuicErrorCode)
  : option ApplicationErrorCode :=
  match c with ApplicationError a => Some a | _ => None end.

Record QuicError := mkQuicError {
  code : QuicErrorCode;
  message : string
}.

#[global] Instance QuicErrorCode_eq_dec : EqDecision QuicErrorCode.
Proof. solve_decision. Defined.
#[global] Instance QuicError_eq_dec : EqDecision QuicError.
Proof. solve_decision. Defined.

(** [folly::Expected<T, LocalErrorCode>]. *)
Inductive Expected (A : Type) :=
| Value (a : A)
| Unexpected (e : LocalErrorCode.t).
Arguments Value {A} a.
Arguments Unexpected {A} e.

(** ** Streams, callbacks and byte events *)

Module StreamRecvState.
Inductive t := Open | Closed | Invalid.
End StreamRecvState.

(** The attributes of [QuicStreamState] this file reads directly.  What the
    flow-control and stream helper functions compute from a stream is taken
    from [Externals] below. *)
Record QuicStreamState := mkQuicStreamState {
  groupId : option StreamGroupId;
  recvState : StreamRecvState.t;
  streamOpaque : Z;
  writeBuffer : list Byte.byte;
  writeBufferStartOffset : Z
}.

Inductive ByteEventType := ACK | TX.

Record ByteEventDetail := mkByteEventDetail {
  offset : Z;
  callback : CallbackPtr
}.

(** An entry of [readCallbacks_].  The flags a new entry starts with are set
    by the constructor in the class header; a new entry is taken to start
    resumed, with no EOM delivered. *)
Record ReadCallbackData := mkReadCallbackData {
  readCb : option CallbackPtr;
  resumed : bool;
  deliveredEOM : bool
}.

Definition ReadCallbackData_of (cb : option CallbackPtr) : ReadCallbackData :=
  mkReadCallbackData cb true false.

Record PeekCallbackData := mkPeekCallbackData {
  peekCb : option CallbackPtr;
  peekResumed : bool
}.

#[global] Instance ByteEventType_eq_dec : EqDecision ByteEventType.
Proof. solve_decision. Defined.
#[global] Instance ByteEventDetail_eq_dec : EqDecision ByteEventDetail.
Proof. solve_decision. Defined.

(** ** ECN *)

Inductive ECNState :=
| NotAttempted
| AttemptingECN
| AttemptingL4S
| ValidatedECN
| ValidatedL4S
| FailedValidation.

#[global] Instance ECNState_eq_dec : EqDecision ECNState.
Proof. solve_decision. Defined.

(** Modelled from the spec: the declaration of the [socketTos] union is not
    part of this file's source; the spec gives the byte as [dscp << 2 | ecn],
    a six-bit dscp above a two-bit ecn field. *)
Record SocketTos := mkSocketTos {
  dscp : Z;
  ecn : Z
}.

Definition tosValue (t : SocketTos) : Z :=
  Z.lor (Z.shiftl (Z.land (dscp t) 63) 2) (Z.land (ecn t) 3).

(** A packet processor is something the application added, or the tracker
    object owned by [conn_->ecnL4sTracker]. *)
Inductive PacketProcessor :=
| AppPacketProcessor (p : nat)
| EcnL4sTracker.

#[global] Instance PacketProcessor_eq_dec : EqDecision PacketProcessor.
Proof. solve_decision. Defined.

(** The counters of [ackStates.appDataAckState] that ECN validation reads. *)
Record AckState := mkAckState {
  minimumExpectedEcnMarksEchoed : Z;
  ecnCECountEchoed : Z;
  ecnECT0CountEchoed : Z;
  ecnECT1CountEchoed : Z
}.

(** ** The trace of outside effects *)

Inductive TimerId :=
| lossTimeout_
| ackTimeout_
| pathValidationTimeout_
| idleTimeout_
| keepaliveTimeout_
| drainTimeout_
| pingTimeout_
| excessWriteTimeout_.

Inductive Event :=
(* application callbacks *)
| onByteEventRegistered (cb : CallbackPtr) (id : StreamId) (off : Z)
    (ty : ByteEventType)
| onByteEventCanceled (cb : CallbackPtr) (id : StreamId) (off : Z)
    (ty : ByteEventType)
| onByteEvent (cb : CallbackPtr) (id : StreamId) (off : Z) (ty : ByteEventType)
| readError (cb : CallbackPtr) (id : StreamId) (err : QuicError)
| readErrorWithGroup (cb : CallbackPtr) (id : StreamId) (g : StreamGroupId)
    (err : QuicError)
| peekError (cb : CallbackPtr) (id : StreamId) (err : QuicError)
| onConnectionWriteError (cb : CallbackPtr) (err : QuicError)
| onStreamWriteError (cb : CallbackPtr) (id : StreamId) (err : QuicError)
| onConnectionSetupError (cb : CallbackPtr) (err : QuicError)
| onConnectionEnd (cb : CallbackPtr)
| onConnectionEndWithError (cb : CallbackPtr) (err : QuicError)
| onConnectionError (cb : CallbackPtr) (err : QuicError)
(* observers, statistics, qlog *)
| closeStarted (maybeCloseReason : option QuicError)
| closing
| statsOnConnectionClose (c : QuicErrorCode)
| qlogTransportSummary
| qlogConnectionClose (drainConnection sendCloseImmediately : bool)
(* the event base and the socket *)
| evbScheduleTimeout (t : TimerId) (ms : Z)
| socketPauseRead
| socketClose
| socketSetTosOrTrafficClass (v : Z)
(* the stream manager and other collaborators *)
| removeDeliverable (id : StreamId)
| removeTx (id : StreamId)
| clearOpenStreams
| clearActionable
| clearWritable
| clearPendingEvents
| clearAcks
| resetOutstandings
| updatePacingOnClose
| processTxStopSending (id : StreamId)
| sendStopSendingFrame (id : StreamId) (err : ApplicationErrorCode)
(* methods of the derived transports *)
| closeTransport
| writeData
| unbindConnection
(* parts of this file that are not followed further *)
| checkForClosedStreamPass
| updateWriteLooperPass (thisIteration : bool).

(** The error an application callback was handed, if the callback takes
    one.  (The observers' [closeStarted] is handed the caller's [errorCode],
    which is not a cancel code.) *)
Definition deliveredError (e : Event) : option QuicError :=
  match e with
  | readError _ _ err
  | readErrorWithGroup _ _ _ err
  | peekError _ _ err
  | onConnectionWriteError _ err
  | onStreamWriteError _ _ err
  | onConnectionSetupError _ err
  | onConnectionEndWithError _ err
  | onConnectionError _ err => Some err
  | _ => None
  end.

#[global] Instance TimerId_eq_dec : EqDecision TimerId.
Proof. solve_decision. Defined.

Definition TimerId_to_nat (t : TimerId) : nat :=
  match t with
  | lossTimeout_ => 0
  | ackTimeout_ => 1
  | pathValidationTimeout_ => 2
  | idleTimeout_ => 3
  | keepaliveTimeout_ => 4
  | drainTimeout_ => 5
  | pingTimeout_ => 6
  | excessWriteTimeout_ => 7
  end%nat.

Definition TimerId_of_nat (n : nat) : option TimerId :=
  match n with
  | 0 => Some lossTimeout_
  | 1 => Some ackTimeout_
  | 2 => Some pathValidationTimeout_
  | 3 => Some idleTimeout_
  | 4 => Some keepaliveTimeout_
  | 5 => Some drainTimeout_
  | 6 => Some pingTimeout_
  | 7 => Some excessWriteTimeout_
  | _ => None
  end%nat.

#[global] Instance TimerId_countable : Countable TimerId.
Proof.
  apply (inj_countable TimerId_to_nat TimerId_of_nat).
  intros []; reflexivity.
Defined.

(** ** Connection state and the transport object *)

(** The settings this file's modelled functions consult. *)
Record TransportSettings := mkTransportSettings {
  shouldDrain : bool;
  totalBufferSpaceAvailable : Z;
  backpressureHeadroomFactor : Z;
  dropIngressOnStopSending : bool
}.

(** [*conn_].  [sumCurStreamBufferLen] is the field of [flowControlState],
    [totalPacketsSent] the field of [lossState], [streams] what the stream
    manager's [streamExists]/[getStream] answer from.  [connOpaque] stands
    for the rest of the state (loss state, flow control, crypto streams),
    which only the helper functions of [Externals] read. *)
Record QuicConnectionStateBase := mkConn {
  nodeType : QuicNodeType;
  peerConnectionError : option QuicError;
  localConnectionError : option QuicError;
  transportSettings : TransportSettings;
  sumCurStreamBufferLen : Z;
  appDataAckState : AckState;
  totalPacketsSent : Z;
  ecnState : ECNState;
  socketTos : SocketTos;
  ecnL4sTracker : bool;
  packetProcessors : list PacketProcessor;
  streams : gmap Z QuicStreamState;
  readableStreams : list Z;
  peekableStreams : list Z;
  datagramReadBuffer : list Z;
  datagramWriteBuffer : list Z;
  qLogger : bool;
  statsCallback : bool;
  congestionController : bool;
  connOpaque : Z
}.

(** A closure handed to [evb->runInLoop] by [runOnEvbAsync]: the event base
    it was scheduled on, and the byte event it has to re-check and fire. *)
Record LoopCallback := mkLoopCallback {
  scheduledOn : nat;
  readyId : Z;
  readyCb : nat;
  readyOffset : Z;
  readyType : ByteEventType
}.

(** The transport object.  [socket_] is [Some bound] while a socket is held;
    [timers_] holds the scheduled timers with their timeout in milliseconds;
    a looper flag is [true] while the looper is running. *)
Record QuicTransportBase := mkTransport {
  conn_ : QuicConnectionStateBase;
  closeState_ : CloseState;
  evb_ : option nat;
  socket_ : option bool;
  socketObserverContainer : bool;
  useConnectionEndWithErrorCallback_ : bool;
  transportReadyNotified_ : bool;
  exceptionCloseWhat_ : option string;
  timers_ : gmap TimerId Z;
  readLooper_ : bool;
  peekLooper_ : bool;
  writeLooper_ : bool;
  readCallbacks_ : gmap Z ReadCallbackData;
  peekCallbacks_ : gmap Z PeekCallbackData;
  deliveryCallbacks_ : gmap Z (list ByteEventDetail);
  txCallbacks_ : gmap Z (list ByteEventDetail);
  pendingWriteCallbacks_ : gmap Z nat;
  connWriteCallback_ : option nat;
  connCallback_ : option nat;
  connSetupCallback_ : option nat;
  datagramCallback_ : option nat;
  pingCallback_ : option nat;
  evbLoop_ : list LoopCallback;
  trace_ : list Event
}.

(** Field updates. *)
Definition conn_set_localConnectionError (v : option QuicError)
    (r : QuicConnectionStateBase)
  : QuicConnectionStateBase :=
  let 'mkConn x0 x1 _ x3 x4 x5 x6 x7 x8 x9 x10 x11 x12 x13 x14 x15 x16 x17
      x18 x19 := r in
  mkConn x0 x1 v x3 x4 x5 x6 x7 x8 x9 x10 x11 x12 x13 x14 x15 x16 x17 x18 x19.
Definition conn_set_appDataAckState (v : AckState) (r : QuicConnectionStateBase)
  : QuicConnectionStateBase :=
  let 'mkConn x0 x1 x2 x3 x4 _ x6 x7 x8 x9 x10 x11 x12 x13 x14 x15 x16 x17
      x18 x19 := r in
  mkConn x0 x1 x2 x3 x4 v x6 x7 x8 x9 x10 x11 x12 x13 x14 x15 x16 x17 x18 x19.
Definition conn_set_totalPacketsSent (v : Z) (r : QuicConnectionStateBase)
  : QuicConnectionStateBase :=
  let 'mkConn x0 x1 x2 x3 x4 x5 _ x7 x8 x9 x10 x11 x12 x13 x14 x15 x16 x17
      x18 x19 := r in
  mkConn x0 x1 x2 x3 x4 x5 v x7 x8 x9 x10 x11 x12 x13 x14 x15 x16 x17 x18 x19.
Definition conn_set_ecnState (v : ECNState) (r : QuicConnectionStateBase)
  : QuicConnectionStateBase :=
  let 'mkConn x0 x1 x2 x3 x4 x5 x6 _ x8 x9 x10 x11 x12 x13 x14 x15 x16 x17
      x18 x19 := r in
  mkConn x0 x1 x2 x3 x4 x5 x6 v x8 x9 x10 x11 x12 x13 x14 x15 x16 x17 x18 x19.
Definition conn_set_socketTos (v : SocketTos) (r : QuicConnectionStateBase)
  : QuicConnectionStateBase :=
  let 'mkConn x0 x1 x2 x3 x4 x5 x6 x7 _ x9 x10 x11 x12 x13 x14 x15 x16 x17
      x18 x19 := r in
  mkConn x0 x1 x2 x3 x4 x5 x6 x7 v x9 x10 x11 x12 x13 x14 x15 x16 x17 x18 x19.
Definition conn_set_ecnL4sTracker (v : bool) (r : QuicConnectionStateBase)
  : QuicConnectionStateBase :=
  let 'mkConn x0 x1 x2 x3 x4 x5 x6 x7 x8 _ x10 x11 x12 x13 x14 x15 x16 x17
      x18 x19 := r in
  mkConn x0 x1 x2 x3 x4 x5 x6 x7 x8 v x10 x11 x12 x13 x14 x15 x16 x17 x18 x19.
Definition conn_set_packetProcessors (v : list PacketProcessor)
    (r : QuicConnectionStateBase)
  : QuicConnectionStateBase :=
  let 'mkConn x0 x1 x2 x3 x4 x5 x6 x7 x8 x9 _ x11 x12 x13 x14 x15 x16 x17
      x18 x19 := r in
  mkConn x0 x1 x2 x3 x4 x5 x6 x7 x8 x9 v x11 x12 x13 x14 x15 x16 x17 x18 x19.
Definition conn_set_streams (v : gmap Z QuicStreamState)
    (r : QuicConnectionStateBase)
  : QuicConnectionStateBase :=
  let 'mkConn x0 x1 x2 x3 x4 x5 x6 x7 x8 x9 x10 _ x12 x13 x14 x15 x16 x17
      x18 x19 := r in
  mkConn x0 x1 x2 x3 x4 x5 x6 x7 x8 x9 x10 v x12 x13 x14 x15 x16 x17 x18 x19.
Definition conn_set_readableStreams (v : list Z) (r : QuicConnectionStateBase)
  : QuicConnectionStateBase :=
  let 'mkConn x0 x1 x2 x3 x4 x5 x6 x7 x8 x9 x10 x11 _ x13 x14 x15 x16 x17
      x18 x19 := r in
  mkConn x0 x1 x2 x3 x4 x5 x6 x7 x8 x9 x10 x11 v x13 x14 x15 x16 x17 x18 x19.
Definition conn_set_peekableStreams (v : list Z) (r : QuicConnectionStateBase)
  : QuicConnectionStateBase :=
  let 'mkConn x0 x1 x2 x3 x4 x5 x6 x7 x8 x9 x10 x11 x12 _ x14 x15 x16 x17
      x18 x19 := r in
  mkConn x0 x1 x2 x3 x4 x5 x6 x7 x8 x9 x10 x11 x12 v x14 x15 x16 x17 x18 x19.
Definition conn_set_datagramReadBuffer (v : list Z)
    (r : QuicConnectionStateBase)
  : QuicConnectionStateBase :=
  let 'mkConn x0 x1 x2 x3 x4 x5 x6 x7 x8 x9 x10 x11 x12 x13 _ x15 x16 x17
      x18 x19 := r in
  mkConn x0 x1 x2 x3 x4 x5 x6 x7 x8 x9 x10 x11 x12 x13 v x15 x16 x17 x18 x19.
Definition conn_set_datagramWriteBuffer (v : list Z)
    (r : QuicConnectionStateBase)
  : QuicConnectionStateBase :=
  let 'mkConn x0 x1 x2 x3 x4 x5 x6 x7 x8 x9 x10 x11 x12 x13 x14 _ x16 x17
      x18 x19 := r in
  mkConn x0 x1 x2 x3 x4 x5 x6 x7 x8 x9 x10 x11 x12 x13 x14 v x16 x17 x18 x19.
Definition conn_set_congestionController (v : bool)
    (r : QuicConnectionStateBase)
  : QuicConnectionStateBase :=
  let 'mkConn x0 x1 x2 x3 x4 x5 x6 x7 x8 x9 x10 x11 x12 x13 x14 x15 x16 x17
      _ x19 := r in
  mkConn x0 x1 x2 x3 x4 x5 x6 x7 x8 x9 x10 x11 x12 x13 x14 x15 x16 x17 v x19.

Definition set_conn_ (v : QuicConnectionStateBase)
    (r : QuicTransportBase)
  : QuicTransportBase :=
  let 'mkTransport _ x1 x2 x3 x4 x5 x6 x7 x8 x9 x10 x11 x12 x13 x14 x15 x16
      x17 x18 x19 x20 x21 x22 x23 := r in
  mkTransport v x1 x2 x3 x4 x5 x6 x7 x8 x9 x10 x11 x12 x13 x14 x15 x16 x17
      x18 x19 x20 x21 x22 x23.
Definition set_closeState_ (v : CloseState)
    (r : QuicTransportBase)
  : QuicTransportBase :=
  let 'mkTransport x0 _ x2 x3 x4 x5 x6 x7 x8 x9 x10 x11 x12 x13 x14 x15 x16
      x17 x18 x19 x20 x21 x22 x23 := r in
  mkTransport x0 v x2 x3 x4 x5 x6 x7 x8 x9 x10 x11 x12 x13 x14 x15 x16 x17
      x18 x19 x20 x21 x22 x23.
Definition set_socket_ (v : option bool)
    (r : QuicTransportBase)
  : QuicTransportBase :=
  let 'mkTransport x0 x1 x2 _ x4 x5 x6 x7 x8 x9 x10 x11 x12 x13 x14 x15 x16
      x17 x18 x19 x20 x21 x22 x23 := r in
  mkTransport x0 x1 x2 v x4 x5 x6 x7 x8 x9 x10 x11 x12 x13 x14 x15 x16 x17
      x18 x19 x20 x21 x22 x23.
Definition set_timers_ (v : gmap TimerId Z)
    (r : QuicTransportBase)
  : QuicTransportBase :=
  let 'mkTransport x0 x1 x2 x3 x4 x5 x6 x7 _ x9 x10 x11 x12 x13 x14 x15 x16
      x17 x18 x19 x20 x21 x22 x23 := r in
  mkTransport x0 x1 x2 x3 x4 x5 x6 x7 v x9 x10 x11 x12 x13 x14 x15 x16 x17
      x18 x19 x20 x21 x22 x23.
Definition set_readLooper_ (v : bool)
    (r : QuicTransportBase)
  : QuicTransportBase :=
  let 'mkTransport x0 x1 x2 x3 x4 x5 x6 x7 x8 _ x10 x11 x12 x13 x14 x15 x16
      x17 x18 x19 x20 x21 x22 x23 := r in
  mkTransport x0 x1 x2 x3 x4 x5 x6 x7 x8 v x10 x11 x12 x13 x14 x15 x16 x17
      x18 x19 x20 x21 x22 x23.
Definition set_peekLooper_ (v : bool)
    (r : QuicTransportBase)
  : QuicTransportBase :=
  let 'mkTransport x0 x1 x2 x3 x4 x5 x6 x7 x8 x9 _ x11 x12 x13 x14 x15 x16
      x17 x18 x19 x20 x21 x22 x23 := r in
  mkTransport x0 x1 x2 x3 x4 x5 x6 x7 x8 x9 v x11 x12 x13 x14 x15 x16 x17
      x18 x19 x20 x21 x22 x23.
Definition set_writeLooper_ (v : bool)
    (r : QuicTransportBase)
  : QuicTransportBase :=
  let 'mkTransport x0 x1 x2 x3 x4 x5 x6 x7 x8 x9 x10 _ x12 x13 x14 x15 x16
      x17 x18 x19 x20 x21 x22 x23 := r in
  mkTransport x0 x1 x2 x3 x4 x5 x6 x7 x8 x9 x10 v x12 x13 x14 x15 x16 x17
      x18 x19 x20 x21 x22 x23.
Definition set_readCallbacks_ (v : gmap Z ReadCallbackData)
    (r : QuicTransportBase)
  : QuicTransportBase :=
  let 'mkTransport x0 x1 x2 x3 x4 x5 x6 x7 x8 x9 x10 x11 _ x13 x14 x15 x16
      x17 x18 x19 x20 x21 x22 x23 := r in
  mkTransport x0 x1 x2 x3 x4 x5 x6 x7 x8 x9 x10 x11 v x13 x14 x15 x16 x17
      x18 x19 x20 x21 x22 x23.
Definition set_peekCallbacks_ (v : gmap Z PeekCallbackData)
    (r : QuicTransportBase)
  : QuicTransportBase :=
  let 'mkTransport x0 x1 x2 x3 x4 x5 x6 x7 x8 x9 x10 x11 x12 _ x14 x15 x16
      x17 x18 x19 x20 x21 x22 x23 := r in
  mkTransport x0 x1 x2 x3 x4 x5 x6 x7 x8 x9 x10 x11 x12 v x14 x15 x16 x17
      x18 x19 x20 x21 x22 x23.
Definition set_deliveryCallbacks_ (v : gmap Z (list ByteEventDetail))
    (r : QuicTransportBase)
  : QuicTransportBase :=
  let 'mkTransport x0 x1 x2 x3 x4 x5 x6 x7 x8 x9 x10 x11 x12 x13 _ x15 x16
      x17 x18 x19 x20 x21 x22 x23 := r in
  mkTransport x0 x1 x2 x3 x4 x5 x6 x7 x8 x9 x10 x11 x12 x13 v x15 x16 x17
      x18 x19 x20 x21 x22 x23.
Definition set_txCallbacks_ (v : gmap Z (list ByteEventDetail))
    (r : QuicTransportBase)
  : QuicTransportBase :=
  let 'mkTransport x0 x1 x2 x3 x4 x5 x6 x7 x8 x9 x10 x11 x12 x13 x14 _ x16
      x17 x18 x19 x20 x21 x22 x23 := r in
  mkTransport x0 x1 x2 x3 x4 x5 x6 x7 x8 x9 x10 x11 x12 x13 x14 v x16 x17
      x18 x19 x20 x21 x22 x23.
Definition set_pendingWriteCallbacks_ (v : gmap Z nat)
    (r : QuicTransportBase)
  : QuicTransportBase :=
  let 'mkTransport x0 x1 x2 x3 x4 x5 x6 x7 x8 x9 x10 x11 x12 x13 x14 x15 _
      x17 x18 x19 x20 x21 x22 x23 := r in
  mkTransport x0 x1 x2 x3 x4 x5 x6 x7 x8 x9 x10 x11 x12 x13 x14 x15 v x17
      x18 x19 x20 x21 x22 x23.
Definition set_connWriteCallback_ (v : option nat)
    (r : QuicTransportBase)
  : QuicTransportBase :=
  let 'mkTransport x0 x1 x2 x3 x4 x5 x6 x7 x8 x9 x10 x11 x12 x13 x14 x15 x16
      _ x18 x19 x20 x21 x22 x23 := r in
  mkTransport x0 x1 x2 x3 x4 x5 x6 x7 x8 x9 x10 x11 x12 x13 x14 x15 x16 v
      x18 x19 x20 x21 x22 x23.
Definition set_connCallback_ (v : option nat)
    (r : QuicTransportBase)
  : QuicTransportBase :=
  let 'mkTransport x0 x1 x2 x3 x4 x5 x6 x7 x8 x9 x10 x11 x12 x13 x14 x15 x16
      x17 _ x19 x20 x21 x22 x23 := r in
  mkTransport x0 x1 x2 x3 x4 x5 x6 x7 x8 x9 x10 x11 x12 x13 x14 x15 x16 x17
      v x19 x20 x21 x22 x23.
Definition set_connSetupCallback_ (v : option nat)
    (r : QuicTransportBase)
  : QuicTransportBase :=
  let 'mkTransport x0 x1 x2 x3 x4 x5 x6 x7 x8 x9 x10 x11 x12 x13 x14 x15 x16
      x17 x18 _ x20 x21 x22 x23 := r in
  mkTransport x0 x1 x2 x3 x4 x5 x6 x7 x8 x9 x10 x11 x12 x13 x14 x15 x16 x17
      x18 v x20 x21 x22 x23.
Definition set_datagramCallback_ (v : option nat)
    (r : QuicTransportBase)
  : QuicTransportBase :=
  let 'mkTransport x0 x1 x2 x3 x4 x5 x6 x7 x8 x9 x10 x11 x12 x13 x14 x15 x16
      x17 x18 x19 _ x21 x22 x23 := r in
  mkTransport x0 x1 x2 x3 x4 x5 x6 x7 x8 x9 x10 x11 x12 x13 x14 x15 x16 x17
      x18 x19 v x21 x22 x23.
Definition set_pingCallback_ (v : option nat)
    (r : QuicTransportBase)
  : QuicTransportBase :=
  let 'mkTransport x0 x1 x2 x3 x4 x5 x6 x7 x8 x9 x10 x11 x12 x13 x14 x15 x16
      x17 x18 x19 x20 _ x22 x23 := r in
  mkTransport x0 x1 x2 x3 x4 x5 x6 x7 x8 x9 x10 x11 x12 x13 x14 x15 x16 x17
      x18 x19 x20 v x22 x23.
Definition set_evbLoop_ (v : list LoopCallback)
    (r : QuicTransportBase)
  : QuicTransportBase :=
  let 'mkTransport x0 x1 x2 x3 x4 x5 x6 x7 x8 x9 x10 x11 x12 x13 x14 x15 x16
      x17 x18 x19 x20 x21 _ x23 := r in
  mkTransport x0 x1 x2 x3 x4 x5 x6 x7 x8 x9 x10 x11 x12 x13 x14 x15 x16 x17
      x18 x19 x20 x21 v x23.
Definition set_trace_ (v : list Event)
    (r : QuicTransportBase)
  : QuicTransportBase :=
  let 'mkTransport x0 x1 x2 x3 x4 x5 x6 x7 x8 x9 x10 x11 x12 x13 x14 x15 x16
      x17 x18 x19 x20 x21 x22 _ := r in
  mkTransport x0 x1 x2 x3 x4 x5 x6 x7 x8 x9 x10 x11 x12 x13 x14 x15 x16 x17
      x18 x19 x20 x21 x22 v.

(** ** What the file takes from its collaborators

    Functions and constants the source uses but does not define: the stream
    directionality predicates ([QuicStreamUtilities]), the flow-control and
    congestion helpers ([QuicFlowController], [QuicStateFunctions]), the
    stream offset helpers ([QuicStreamFunctions]), [calculatePTO] (in
    microseconds), and constants of [QuicConstants.h].  [ecnCountBits] is the
    width of the ECN counters of the ack state. *)
Record Externals := mkExternals {
  isSendingStream : QuicNodeType -> StreamId -> bool;
  isReceivingStream : QuicNodeType -> StreamId -> bool;
  getSendConnFlowControlBytesAPI : QuicConnectionStateBase -> Z;
  getSendStreamFlowControlBytesAPI : QuicStreamState -> Z;
  congestionControlWritableBytes : QuicConnectionStateBase -> Z;
  getLargestDeliverableOffset : QuicStreamState -> option Z;
  getLargestWriteOffsetTxed : QuicStreamState -> option Z;
  calculatePTO : QuicConnectionStateBase -> Z;
  kDrainFactor : Z;
  APP_NO_ERROR : ApplicationErrorCode;
  toString_LocalErrorCode : LocalErrorCode.t -> string;
  toString_ApplicationErrorCode : ApplicationErrorCode -> string;
  ecnCountBits : Z
}.

(** The result of a function that may end the process: it returns [a] in
    state [st], or the process stopped in state [st]. *)
Inductive Outcome (A : Type) :=
| Done (a : A) (st : QuicTransportBase)
| Aborted (st : QuicTransportBase).
Arguments Done {A} a st.
Arguments Aborted {A} st.

Definition finalState {A} (o : Outcome A) : QuicTransportBase :=
  match o with Done _ st => st | Aborted st => st end.

Definition andThen {A B} (o : Outcome A)
    (k : A -> QuicTransportBase -> Outcome B) : Outcome B :=
  match o with
  | Done a st => k a st
  | Aborted st => Aborted st
  end.

Definition is_nullptr {A} (p : option A) : bool :=
  match p with None => true | Some _ => false end.

Definition isOpen (st : QuicTransportBase) : bool :=
  bool_decide (closeState_ st = OPEN).

Definition isClosed (st : QuicTransportBase) : bool :=
  bool_decide (closeState_ st = CLOSED).

(** Appends an outside effect to the trace. *)
Definition log (e : Event) (st : QuicTransportBase) : QuicTransportBase :=
  set_trace_ (trace_ st ++ [e]) st.

(** An assignment through [conn_->]. *)
Definition update_conn (f : QuicConnectionStateBase -> QuicConnectionStateBase)
    (st : QuicTransportBase) : QuicTransportBase :=
  set_conn_ (f (conn_ st)) st.

(** *** Timers *)

(** [scheduleTimeout]: nothing happens without an event base. *)
Definition scheduleTimeout (t : TimerId) (ms : Z) (st : QuicTransportBase)
  : QuicTransportBase :=
  match evb_ st with
  | Some _ =>
      log (evbScheduleTimeout t ms) (set_timers_ (<[t := ms]> (timers_ st)) st)
  | None => st
  end.

Definition cancelTimeout (t : TimerId) (st : QuicTransportBase)
  : QuicTransportBase :=
  set_timers_ (delete t (timers_ st)) st.

Definition isTimeoutScheduled (t : TimerId) (st : QuicTransportBase) : bool :=
  bool_decide (is_Some (timers_ st !! t)).

Definition cancelLossTimeout : QuicTransportBase -> QuicTransportBase :=
  cancelTimeout lossTimeout_.

(** *** The stream manager's lookups *)

Definition getStream (id : StreamId) (st : QuicTransportBase)
  : option QuicStreamState :=
  streams (conn_ st) !! id.

Definition streamExists (id : StreamId) (st : QuicTransportBase) : bool :=
  bool_decide (is_Some (getStream id st)).

Section Transport.

Context (E : Externals).

(** *** Flow control *)

Definition bufferSpaceAvailable (st : QuicTransportBase) : Z :=
  let bytesBuffered := sumCurStreamBufferLen (conn_ st) in
  let totalBufferSpaceAvailable :=
    totalBufferSpaceAvailable (transportSettings (conn_ st)) in
  if totalBufferSpaceAvailable <? bytesBuffered
  then 0
  else totalBufferSpaceAvailable - bytesBuffered.

Definition getConnectionBufferAvailable (st : QuicTransportBase) : Z :=
  bufferSpaceAvailable st.

(** [multiplier] is a [uint8_t]; its product with the 64-bit writable bytes
    is computed in 64 bits. *)
Definition maxWritableOnConn (st : QuicTransportBase) : Z :=
  let connWritableBytes := getSendConnFlowControlBytesAPI E (conn_ st) in
  let availableBufferSpace := bufferSpaceAvailable st in
  let ret := Z.min connWritableBytes availableBufferSpace in
  let multiplier :=
    backpressureHeadroomFactor (transportSettings (conn_ st)) mod 256 in
  if 0 <? multiplier then
    let headRoom :=
      wrap64 (multiplier * congestionControlWritableBytes E (conn_ st)) in
    let bufferLen := sumCurStreamBufferLen (conn_ st) in
    let headRoom :=
      headRoom - (if headRoom <? bufferLen then headRoom else bufferLen) in
    Z.min ret headRoom
  else ret.

Definition maxWritableOnStream (stream : QuicStreamState)
    (st : QuicTransportBase) : Z :=
  let connWritableBytes := maxWritableOnConn st in
  let streamFlowControlBytes := getSendStreamFlowControlBytesAPI E stream in
  Z.min streamFlowControlBytes connWritableBytes.

Definition getMaxWritableOnStream (id : StreamId) (st : QuicTransportBase)
  : Outcome (Expected Z) :=
  if negb (streamExists id st) then
    Done (Unexpected LocalErrorCode.STREAM_NOT_EXISTS) st
  else if isReceivingStream E (nodeType (conn_ st)) id then
    Done (Unexpected LocalErrorCode.INVALID_OPERATION) st
  else
    match getStream id st with
    | None => Aborted st
    | Some stream => Done (Value (maxWritableOnStream stream st)) st
    end.

(** *** Loopers *)

Definition updateReadLooper (st : QuicTransportBase) : QuicTransportBase :=
  if negb (isOpen st) then set_readLooper_ false st
  else
    let wanted (s : StreamId) :=
      match readCallbacks_ st !! s with
      | None => false
      | Some d => negb (is_nullptr (readCb d)) && resumed d
      end in
    if existsb wanted (readableStreams (conn_ st))
       || negb (bool_decide (datagramReadBuffer (conn_ st) = []))
    then set_readLooper_ true st
    else set_readLooper_ false st.

Definition updatePeekLooper (st : QuicTransportBase) : QuicTransportBase :=
  if bool_decide (peekCallbacks_ st = ∅) || negb (isOpen st)
  then set_peekLooper_ false st
  else
    let wanted (s : StreamId) :=
      match peekCallbacks_ st !! s with
      | None => false
      | Some d => negb (is_nullptr (peekCb d)) && peekResumed d
      end in
    if existsb wanted (peekableStreams (conn_ st))
    then set_peekLooper_ true st
    else set_peekLooper_ false st.

(** On a closed connection the write looper is stopped.  Otherwise the
    decision depends on the idle timer and on [shouldWriteData]; that part
    is recorded in the trace and not followed. *)
Definition updateWriteLooper (thisIteration : bool) (st : QuicTransportBase)
  : QuicTransportBase :=
  if isClosed st then set_writeLooper_ false st
  else log (updateWriteLooperPass thisIteration) st.

(** On a closed connection nothing happens.  Otherwise the reaping pass over
    the closed streams runs; it is recorded in the trace and not followed. *)
Definition checkForClosedStream (st : QuicTransportBase) : QuicTransportBase :=
  if isClosed st then st else log checkForClosedStreamPass st.

(** *** Read callbacks *)

Definition stopSending (id : StreamId) (error : ApplicationErrorCode)
    (st : QuicTransportBase) : Outcome (Expected unit) :=
  if isSendingStream E (nodeType (conn_ st)) id then
    Done (Unexpected LocalErrorCode.INVALID_OPERATION) st
  else if negb (isOpen st) then
    Done (Unexpected LocalErrorCode.CONNECTION_CLOSED) st
  else if negb (streamExists id st) then
    Done (Unexpected LocalErrorCode.STREAM_NOT_EXISTS) st
  else
    match getStream id st with
    | None => Aborted st
    | Some stream =>
        match recvState stream with
        | StreamRecvState.Closed => Done (Value tt) st
        | _ =>
            let st :=
              if dropIngressOnStopSending (transportSettings (conn_ st))
              then log (processTxStopSending id) st
              else st in
            let st := log (sendStopSendingFrame id error) st in
            let st := updateWriteLooper true st in
            Done (Value tt) st
        end
    end.

Definition setReadCallbackInternal (id : StreamId) (cb : option CallbackPtr)
    (err : option ApplicationErrorCode) (st : QuicTransportBase)
  : Outcome (Expected unit) :=
  let assign (entry : ReadCallbackData) (st : QuicTransportBase) :=
    if is_nullptr (readCb entry) && negb (is_nullptr cb) then
      Done (Unexpected LocalErrorCode.INVALID_OPERATION) st
    else
      let entry' :=
        mkReadCallbackData cb (resumed entry) (deliveredEOM entry) in
      let st := set_readCallbacks_ (<[id := entry']> (readCallbacks_ st)) st in
      match cb, err with
      | None, Some e => stopSending id e st
      | _, _ => Done (Value tt) (updateReadLooper st)
      end in
  match readCallbacks_ st !! id with
  | None =>
      if is_nullptr cb then
        Done (Unexpected LocalErrorCode.INVALID_OPERATION) st
      else
        let entry := ReadCallbackData_of cb in
        assign entry
          (set_readCallbacks_ (<[id := entry]> (readCallbacks_ st)) st)
  | Some entry => assign entry st
  end.

Definition setReadCallback (id : StreamId) (cb : option CallbackPtr)
    (err : option ApplicationErrorCode) (st : QuicTransportBase)
  : Outcome (Expected unit) :=
  if isSendingStream E (nodeType (conn_ st)) id then
    Done (Unexpected LocalErrorCode.INVALID_OPERATION) st
  else if negb (isOpen st) then
    Done (Unexpected LocalErrorCode.CONNECTION_CLOSED) st
  else if negb (streamExists id st) then
    Done (Unexpected LocalErrorCode.STREAM_NOT_EXISTS) st
  else setReadCallbackInternal id cb err st.

(** *** Byte events *)

Definition getByteEventMap (type : ByteEventType) (st : QuicTransportBase)
  : gmap Z (list ByteEventDetail) :=
  match type with
  | ACK => deliveryCallbacks_ st
  | TX => txCallbacks_ st
  end.

Definition setByteEventMap (type : ByteEventType)
    (m : gmap Z (list ByteEventDetail)) (st : QuicTransportBase)
  : QuicTransportBase :=
  match type with
  | ACK => set_deliveryCallbacks_ m st
  | TX => set_txCallbacks_ m st
  end.

(** [std::upper_bound] with the comparison [o < p.offset]: the position of
    the first element whose offset exceeds [o], or the length of the queue.
    (The library searches by bisection and promises this result for a queue
    that is partitioned by the comparison, as a sorted one is.) *)
Fixpoint upper_bound (q : list ByteEventDetail) (o : Z) : nat :=
  match q with
  | [] => O
  | p :: rest => if o <? offset p then O else S (upper_bound rest o)
  end.

(** The predicate of both [std::find_if] calls: same offset, same
    recipient. *)
Definition sameByteEvent (o : Z) (cb : CallbackPtr) (p : ByteEventDetail)
  : bool :=
  (offset p =? o) && Nat.eqb (callback p) cb.

(** [deque::emplace(pos, offset, cb)]. *)
Definition emplace_at (pos : nat) (d : ByteEventDetail)
    (q : list ByteEventDetail) : list ByteEventDetail :=
  take pos q ++ d :: drop pos q.

(** [std::find_if] over the whole queue: the position of the first match. *)
Fixpoint find_if (f : ByteEventDetail -> bool) (q : list ByteEventDetail)
  : option nat :=
  match q with
  | [] => None
  | p :: rest => if f p then Some O else S <$> find_if f rest
  end.

(** [runOnEvbAsync]: the closure is queued on the current event base, which
    is dereferenced without a null check. *)
Definition runOnEvbAsync (id : StreamId) (cb : CallbackPtr) (o : Z)
    (type : ByteEventType) (st : QuicTransportBase) : Outcome unit :=
  match evb_ st with
  | None => Aborted st
  | Some evb =>
      Done tt
        (set_evbLoop_ (evbLoop_ st ++ [mkLoopCallback evb id cb o type]) st)
  end.

Definition registerByteEventCallback (type : ByteEventType) (id : StreamId)
    (o : Z) (cb : option CallbackPtr) (st : QuicTransportBase)
  : Outcome (Expected unit) :=
  if isReceivingStream E (nodeType (conn_ st)) id then
    Done (Unexpected LocalErrorCode.INVALID_OPERATION) st
  else if negb (isOpen st) then
    Done (Unexpected LocalErrorCode.CONNECTION_CLOSED) st
  else if negb (streamExists id st) then
    Done (Unexpected LocalErrorCode.STREAM_NOT_EXISTS) st
  else
    match cb with
    | None => Done (Value tt) st
    | Some cb =>
        let byteEventMap := getByteEventMap type st in
        let inserted : option (gmap Z (list ByteEventDetail)) :=
          match byteEventMap !! id with
          | None => Some (<[id := [mkByteEventDetail o cb]]> byteEventMap)
          | Some q =>
              let pos := upper_bound q o in
              if negb (Nat.eqb pos O)
                 && existsb (sameByteEvent o cb) (take pos q)
              then None
              else
                Some (<[id := emplace_at pos (mkByteEventDetail o cb) q]>
                        byteEventMap)
          end in
        match inserted with
        | None => Done (Unexpected LocalErrorCode.INVALID_OPERATION) st
        | Some m =>
            let st := setByteEventMap type m st in
            match getStream id st with
            | None => Aborted st
            | Some stream =>
                let st := log (onByteEventRegistered cb id o type) st in
                let maxOffsetReady :=
                  match type with
                  | ACK => getLargestDeliverableOffset E stream
                  | TX => getLargestWriteOffsetTxed E stream
                  end in
                match maxOffsetReady with
                | Some ready =>
                    if o <=? ready then
                      andThen (runOnEvbAsync id cb o type st)
                        (fun _ st => Done (Value tt) st)
                    else Done (Value tt) st
                | None => Done (Value tt) st
                end
            end
        end
    end.

Definition registerDeliveryCallback :=
  registerByteEventCallback ACK.

Definition registerTxCallback :=
  registerByteEventCallback TX.

(** The closure queued by [registerByteEventCallback], as the event loop
    runs it on a later turn. *)
Definition runLoopCallback (c : LoopCallback) (st : QuicTransportBase)
  : QuicTransportBase :=
  if negb (bool_decide (evb_ st = Some (scheduledOn c))) then st
  else if negb (isOpen st) then st
  else
    let byteEventMapL := getByteEventMap (readyType c) st in
    match byteEventMapL !! readyId c with
    | None => st
    | Some q =>
        match find_if (sameByteEvent (readyOffset c) (readyCb c)) q with
        | None => st
        | Some pos =>
            let st :=
              setByteEventMap (readyType c)
                (<[readyId c := delete pos q]> byteEventMapL) st in
            log (onByteEvent (readyCb c) (readyId c) (readyOffset c)
                   (readyType c)) st
        end
    end.

(** The [switch] that takes the stream out of the stream manager's
    deliverable or tx set. *)
Definition removeFromStreamManager (type : ByteEventType) (id : StreamId)
  : Event :=
  match type with
  | ACK => removeDeliverable id
  | TX => removeTx id
  end.

(** The walk over the front of a stream's queue.  [q] is the queue as it
    stands; the result is the queue that is left, the cancellations that
    were delivered, and whether the walk left the function early because
    the connection was not open after a callback.  A callback is opaque
    here, so [open] is what [closeState_] says throughout the walk;
    [Reentrant.cancelWalk] reads it after every callback. *)
Fixpoint cancelWalk (open : bool) (type : ByteEventType) (id : StreamId)
    (o : option Z) (q : list ByteEventDetail)
  : list ByteEventDetail * list Event * bool :=
  match q with
  | [] => ([], [], false)
  | front :: rest =>
      let cbOffset := offset front in
      if match o with None => true | Some o => cbOffset <? o end then
        let ev := onByteEventCanceled (callback front) id cbOffset type in
        if negb open then (rest, [ev], true)
        else
          let '(q', evs, early) := cancelWalk open type id o rest in
          (q', ev :: evs, early)
      else (q, [], false)
  end.

Definition cancelByteEventCallbacksForStream (type : ByteEventType)
    (id : StreamId) (o : option Z) (st : QuicTransportBase)
  : QuicTransportBase :=
  if isReceivingStream E (nodeType (conn_ st)) id then st
  else
    let byteEventMap := getByteEventMap type st in
    match byteEventMap !! id with
    | None => log (removeFromStreamManager type id) st
    | Some q =>
        let '(q', evs, early) := cancelWalk (isOpen st) type id o q in
        let st := setByteEventMap type (<[id := q']> byteEventMap) st in
        let st := set_trace_ (trace_ st ++ evs) st in
        if early then st
        else
          match q' with
          | [] =>
              let st := log (removeFromStreamManager type id) st in
              setByteEventMap type (delete id (getByteEventMap type st)) st
          | _ => st
          end
    end.

(** [invokeForEachByteEventType], a helper of the class header, is taken to
    visit ACK, then TX. *)
Definition cancelByteEventCallbacksForStream_allTypes (id : StreamId)
    (o : option Z) (st : QuicTransportBase) : QuicTransportBase :=
  cancelByteEventCallbacksForStream TX id o
    (cancelByteEventCallbacksForStream ACK id o st).

Definition cancelDeliveryCallbacksForStream (id : StreamId) (o : option Z)
  : QuicTransportBase -> QuicTransportBase :=
  cancelByteEventCallbacksForStream ACK id o.

(** [cancelByteEventCallbacks]: the map is moved out of the transport, which
    leaves the member empty, and every entry of the moved map is cancelled. *)
Definition cancelByteEventCallbacks (type : ByteEventType)
    (st : QuicTransportBase) : QuicTransportBase :=
  let byteEventMap := getByteEventMap type st in
  let st := setByteEventMap type ∅ st in
  let cancellations :=
    mjoin ((fun '(streamId, cbMap) =>
              (fun d => onByteEventCanceled (callback d) streamId (offset d)
                          type) <$> cbMap)
           <$> map_to_list byteEventMap) in
  set_trace_ (trace_ st ++ cancellations) st.

Definition cancelAllByteEventCallbacks (st : QuicTransportBase)
  : QuicTransportBase :=
  cancelByteEventCallbacks TX (cancelByteEventCallbacks ACK st).

(** *** Cancelling the application's callbacks *)

(** The loop over the copy of [readCallbacks_]: each entry is erased from
    the member map, and a registered callback is handed the error. *)
Fixpoint cancelReadCallbacks (err : QuicError)
    (readCallbacksCopy : list (Z * ReadCallbackData)) (st : QuicTransportBase)
  : Outcome unit :=
  match readCallbacksCopy with
  | [] => Done tt st
  | (id, data) :: rest =>
      let st := set_readCallbacks_ (delete id (readCallbacks_ st)) st in
      match readCb data with
      | None => cancelReadCallbacks err rest st
      | Some cb =>
          match getStream id st with
          | None => Aborted st
          | Some stream =>
              let ev :=
                match groupId stream with
                | None => readError cb id err
                | Some g => readErrorWithGroup cb id g err
                end in
              cancelReadCallbacks err rest (log ev st)
          end
      end
  end.

Fixpoint cancelPeekCallbacks (err : QuicError)
    (peekCallbacksCopy : list (Z * PeekCallbackData)) (st : QuicTransportBase)
  : QuicTransportBase :=
  match peekCallbacksCopy with
  | [] => st
  | (id, data) :: rest =>
      let st := set_peekCallbacks_ (delete id (peekCallbacks_ st)) st in
      match peekCb data with
      | None => cancelPeekCallbacks err rest st
      | Some cb => cancelPeekCallbacks err rest (log (peekError cb id err) st)
      end
  end.

Fixpoint cancelPendingWriteCallbacks (err : QuicError)
    (pendingWriteCallbacksCopy : list (Z * nat)) (st : QuicTransportBase)
  : QuicTransportBase :=
  match pendingWriteCallbacksCopy with
  | [] => st
  | (id, wcb) :: rest =>
      let st :=
        set_pendingWriteCallbacks_ (delete id (pendingWriteCallbacks_ st)) st in
      cancelPendingWriteCallbacks err rest
        (log (onStreamWriteError wcb id err) st)
  end.

(** Modelled from the spec: [streamManager->clearActionable()] belongs to the
    stream manager, whose source is not part of this file.  The call is
    recorded, and the sets of actionable streams kept here are emptied. *)
Definition streamManager_clearActionable (st : QuicTransportBase)
  : QuicTransportBase :=
  log clearActionable
    (update_conn (fun c => conn_set_readableStreams []
                             (conn_set_peekableStreams [] c)) st).

(** Modelled from the spec: [streamManager->clearOpenStreams()] belongs to
    the stream manager ("clear open streams").  The call is recorded, and no
    stream exists afterwards. *)
Definition streamManager_clearOpenStreams (st : QuicTransportBase)
  : QuicTransportBase :=
  log clearOpenStreams (update_conn (conn_set_streams ∅) st).

(** The [SCOPE_EXIT] block runs when the function returns. *)
Definition cancelAllAppCallbacks (err : QuicError) (st : QuicTransportBase)
  : Outcome unit :=
  let st := streamManager_clearActionable st in
  let st := cancelAllByteEventCallbacks st in
  andThen (cancelReadCallbacks err (map_to_list (readCallbacks_ st)) st)
    (fun _ st =>
       let st := set_datagramCallback_ None st in
       let st := set_pingCallback_ None st in
       let st :=
         cancelPeekCallbacks err (map_to_list (peekCallbacks_ st)) st in
       let st :=
         match connWriteCallback_ st with
         | Some connWriteCallback =>
             log (onConnectionWriteError connWriteCallback err)
               (set_connWriteCallback_ None st)
         | None => st
         end in
       let st :=
         cancelPendingWriteCallbacks err
           (map_to_list (pendingWriteCallbacks_ st)) st in
       let st := checkForClosedStream st in
       let st := updateReadLooper st in
       let st := updatePeekLooper st in
       let st := updateWriteLooper true st in
       Done tt st).

(** *** Closing *)

Definition maybeSetGenericAppError (error : option QuicError) : QuicError :=
  match error with
  | Some e => e
  | None =>
      mkQuicError (ApplicationError (APP_NO_ERROR E))
        (toString_ApplicationErrorCode E (APP_NO_ERROR E))
  end.

(** Modelled from the spec: [resetConnectionCallbacks] is defined in the
    class header, which is not part of this file's source.  After it the
    transport "can't invoke connection callbacks any more": both the
    connection-setup and the connection callback are dropped. *)
Definition resetConnectionCallbacks (st : QuicTransportBase)
  : QuicTransportBase :=
  set_connCallback_ None (set_connSetupCallback_ None st).

Definition closeUdpSocket (st : QuicTransportBase) : QuicTransportBase :=
  match socket_ st with
  | None => st
  | Some _ =>
      let st := if socketObserverContainer st then log closing st else st in
      let st := set_socket_ None st in
      let st := log socketPauseRead st in
      log socketClose st
  end.

Definition processCancelCode (cancelCode : QuicError) : bool :=
  match code cancelCode with
  | LocalError localErrorCode =>
      bool_decide (localErrorCode = LocalErrorCode.NO_ERROR)
      || bool_decide (localErrorCode = LocalErrorCode.IDLE_TIMEOUT)
      || bool_decide (localErrorCode = LocalErrorCode.SHUTTING_DOWN)
  | TransportError transportErrorCode =>
      bool_decide (transportErrorCode = TransportErrorCode.NO_ERROR)
  | ApplicationError appErrorCode =>
      bool_decide (appErrorCode = APP_NO_ERROR E)
  end.

Definition processConnectionSetupCallbacks (cancelCode : QuicError)
    (st : QuicTransportBase) : QuicTransportBase :=
  match connSetupCallback_ st with
  | Some cb => log (onConnectionSetupError cb cancelCode) st
  | None => st
  end.

Definition processConnectionCallbacks (cancelCode : QuicError)
    (st : QuicTransportBase) : QuicTransportBase :=
  match connCallback_ st with
  | None => st
  | Some cb =>
      if useConnectionEndWithErrorCallback_ st then
        log (onConnectionEndWithError cb cancelCode) st
      else if processCancelCode cancelCode then log (onConnectionEnd cb) st
      else log (onConnectionError cb cancelCode) st
  end.

Definition drainTimeoutExpired (st : QuicTransportBase) : QuicTransportBase :=
  log unbindConnection (closeUdpSocket st).

(** The code handed to the application: the peer's error if there is one,
    else the caller's, else [NO_ERROR]; the message of an exception that
    caused the close replaces the message. *)
Definition closeCancelCode (errorCode : option QuicError)
    (st : QuicTransportBase) : QuicError :=
  let cancelCode :=
    mkQuicError (LocalError LocalErrorCode.NO_ERROR)
      (toString_LocalErrorCode E LocalErrorCode.NO_ERROR) in
  let cancelCode :=
    match peerConnectionError (conn_ st), errorCode with
    | Some peer, _ => peer
    | None, Some e => e
    | None, None => cancelCode
    end in
  match exceptionCloseWhat_ st with
  | Some what => mkQuicError (code cancelCode) what
  | None => cancelCode
  end.

(** The classification of the cancel code: a stateless reset, an abandoned
    connection, an invalid migration. *)
Definition isReset (cancelCode : QuicError) : bool :=
  match asLocalErrorCode (code cancelCode) with
  | Some localError =>
      bool_decide (localError = LocalErrorCode.CONNECTION_RESET)
  | None => false
  end.

Definition isAbandon (cancelCode : QuicError) : bool :=
  match asLocalErrorCode (code cancelCode) with
  | Some localError =>
      bool_decide (localError = LocalErrorCode.CONNECTION_ABANDONED)
  | None => false
  end.

Definition isInvalidMigration (cancelCode : QuicError) : bool :=
  match asTransportErrorCode (code cancelCode) with
  | Some transportError =>
      bool_decide (transportError = TransportErrorCode.INVALID_MIGRATION)
  | None => false
  end.

(** The timeout of the drain timer, in milliseconds. *)
Definition drainTimeoutDuration (st : QuicTransportBase) : Z :=
  ceil_milliseconds (kDrainFactor E * calculatePTO E (conn_ st)).

(** A statement under an [if] without [else]. *)
Definition when (b : bool) (f : QuicTransportBase -> QuicTransportBase)
    (st : QuicTransportBase) : QuicTransportBase :=
  if b then f st else st.

(** [closeImpl].  The totals of crypto bytes only feed the qlog summary and
    are not kept.  An exception thrown by [writeData] is caught and logged,
    so the call is all that is recorded.  The debug-only [DCHECK] before the
    drain timer is scheduled is not part of the behaviour. *)
Definition closeImpl (errorCode : option QuicError)
    (drainConnection sendCloseImmediately : bool) (st : QuicTransportBase)
  : Outcome unit :=
  if isClosed st then Done tt st
  else
    let st :=
      when (socketObserverContainer st) (log (closeStarted errorCode)) st in
    let drainConnection :=
      drainConnection && shouldDrain (transportSettings (conn_ st)) in
    let st := when (qLogger (conn_ st)) (log qlogTransportSummary) st in
    let st := set_closeState_ CLOSED st in
    let st := log updatePacingOnClose st in
    let cancelCode := closeCancelCode errorCode st in
    let isReset := isReset cancelCode in
    let isAbandon := isAbandon cancelCode in
    let isInvalidMigration := isInvalidMigration cancelCode in
    let st :=
      match errorCode with
      | Some _ => update_conn (conn_set_localConnectionError errorCode) st
      | None => st
      end in
    let st :=
      when (qLogger (conn_ st))
        (log (qlogConnectionClose drainConnection sendCloseImmediately)) st in
    let st := cancelLossTimeout st in
    let st := cancelTimeout ackTimeout_ st in
    let st := cancelTimeout pathValidationTimeout_ st in
    let st := cancelTimeout idleTimeout_ st in
    let st := cancelTimeout keepaliveTimeout_ st in
    let st := cancelTimeout pingTimeout_ st in
    let st := cancelTimeout excessWriteTimeout_ st in
    let st := set_readLooper_ false st in
    let st := set_peekLooper_ false st in
    let st := set_writeLooper_ false st in
    andThen (cancelAllAppCallbacks cancelCode st)
      (fun _ st =>
         let st := log closeTransport st in
         let st := streamManager_clearOpenStreams st in
         let st := update_conn (conn_set_datagramReadBuffer []) st in
         let st := update_conn (conn_set_datagramWriteBuffer []) st in
         let st := log clearPendingEvents st in
         let st := streamManager_clearActionable st in
         let st := log clearWritable st in
         let st := log clearAcks st in
         let st :=
           if transportReadyNotified_ st then
             let st :=
               when (statsCallback (conn_ st))
                 (log (statsOnConnectionClose (code cancelCode))) st in
             processConnectionCallbacks cancelCode st
           else processConnectionSetupCallbacks cancelCode st in
         let st := resetConnectionCallbacks st in
         let st := log resetOutstandings st in
         let st := update_conn (conn_set_congestionController false) st in
         let sendCloseImmediately :=
           sendCloseImmediately && negb isReset && negb isAbandon in
         let st := when sendCloseImmediately (log writeData) st in
         let drainConnection :=
           drainConnection && negb isReset && negb isAbandon
           && negb isInvalidMigration in
         if drainConnection then
           Done tt (scheduleTimeout drainTimeout_ (drainTimeoutDuration st) st)
         else Done tt (drainTimeoutExpired st)).

(** [close] passes [drainConnection = true] and leaves
    [sendCloseImmediately] at its default, [true]. *)
Definition close (errorCode : option QuicError) (st : QuicTransportBase)
  : Outcome unit :=
  let st := resetConnectionCallbacks st in
  let errorCode := maybeSetGenericAppError errorCode in
  closeImpl (Some errorCode) true true st.

(** The debug-only [DCHECK] on the event base is not part of the
    behaviour. *)
Definition closeNow (errorCode : option QuicError) (st : QuicTransportBase)
  : Outcome unit :=
  let errorCode := maybeSetGenericAppError errorCode in
  andThen (closeImpl (Some errorCode) false true st)
    (fun _ st =>
       if isTimeoutScheduled drainTimeout_ st then
         Done tt (drainTimeoutExpired (cancelTimeout drainTimeout_ st))
       else Done tt st).

(** *** ECN validation *)

Definition addPacketProcessor (packetProcessor : PacketProcessor)
    (st : QuicTransportBase) : QuicTransportBase :=
  update_conn
    (fun c => conn_set_packetProcessors
                (packetProcessors c ++ [packetProcessor]) c) st.

Definition set_ecnState (v : ECNState)
  : QuicTransportBase -> QuicTransportBase :=
  update_conn (conn_set_ecnState v).

(** The sum of two echoed counters, in the counters' width. *)
Definition addEcnCounts (a b : Z) : Z := (a + b) mod 2 ^ ecnCountBits E.

(** The marked packets lie between the minimum expected and the packets
    sent. *)
Definition marksInRange (markedPacketCount : Z) (st : QuicTransportBase)
  : bool :=
  (minimumExpectedEcnMarksEchoed (appDataAckState (conn_ st))
     <=? markedPacketCount)
  && (markedPacketCount <=? totalPacketsSent (conn_ st)).

Definition validateECNState (st : QuicTransportBase) : Outcome unit :=
  let ack := appDataAckState (conn_ st) in
  if bool_decide (ecnState (conn_ st) = NotAttempted)
     || bool_decide (ecnState (conn_ st) = FailedValidation)
  then Done tt st
  else if minimumExpectedEcnMarksEchoed ack <? 10 then Done tt st
  else
    let markedPacketCount := ecnCECountEchoed ack in
    let st :=
      if bool_decide (ecnState (conn_ st) = AttemptingECN)
         || bool_decide (ecnState (conn_ st) = ValidatedECN)
      then
        let markedPacketCount :=
          addEcnCounts markedPacketCount (ecnECT0CountEchoed ack) in
        if marksInRange markedPacketCount st
           && (ecnECT1CountEchoed ack =? 0)
        then
          if negb (bool_decide (ecnState (conn_ st) = ValidatedECN))
          then set_ecnState ValidatedECN st
          else st
        else set_ecnState FailedValidation st
      else if bool_decide (ecnState (conn_ st) = AttemptingL4S)
              || bool_decide (ecnState (conn_ st) = ValidatedL4S)
      then
        let markedPacketCount :=
          addEcnCounts markedPacketCount (ecnECT1CountEchoed ack) in
        if marksInRange markedPacketCount st
           && (ecnECT0CountEchoed ack =? 0)
        then
          if negb (bool_decide (ecnState (conn_ st) = ValidatedL4S))
          then
            let st :=
              if negb (ecnL4sTracker (conn_ st)) then
                addPacketProcessor EcnL4sTracker
                  (update_conn (conn_set_ecnL4sTracker true) st)
              else st in
            set_ecnState ValidatedL4S st
          else st
        else set_ecnState FailedValidation st
      else st in
    if bool_decide (ecnState (conn_ st) = FailedValidation) then
      let st :=
        update_conn
          (fun c => conn_set_socketTos (mkSocketTos (dscp (socketTos c)) 0) c)
          st in
      match socket_ st with
      | Some true =>
          let st :=
            log (socketSetTosOrTrafficClass (tosValue (socketTos (conn_ st))))
              st in
          if ecnL4sTracker (conn_ st) then
            let st :=
              update_conn
                (fun c => conn_set_packetProcessors
                            (filter (fun pp => pp <> EcnL4sTracker)
                               (packetProcessors c)) c) st in
            Done tt (update_conn (conn_set_ecnL4sTracker false) st)
          else Done tt st
      | _ => Aborted st
      end
    else Done tt st.

(** What the ingress path does to the counters ECN validation reads, between
    two validations. *)
Definition recordEcnCounts (ack : AckState) (sent : Z) (st : QuicTransportBase)
  : QuicTransportBase :=
  update_conn
    (fun c => conn_set_appDataAckState ack (conn_set_totalPacketsSent sent c))
    st.

(** Validation after each of a series of ingress turns. *)
Fixpoint validateECNRounds (rounds : list (AckState * Z))
    (st : QuicTransportBase) : Outcome unit :=
  match rounds with
  | [] => Done tt st
  | (ack, sent) :: rest =>
      andThen (validateECNState (recordEcnCounts ack sent st))
        (fun _ st => validateECNRounds rest st)
  end.

End Transport.

(** ** Concrete instances, used to evaluate the definitions *)

(** Stream ids as the wire format lays them out: bit 0 names the initiator
    (0 for the client), bit 1 is set for unidirectional streams. *)
Definition isUnidirectionalStream (id : StreamId) : bool := Z.testbit id 1.
Definition isClientStream (id : StreamId) : bool := negb (Z.testbit id 0).

Definition exampleExternals : Externals := {|
  isSendingStream := fun node id =>
    isUnidirectionalStream id
    && match node with
       | Client => isClientStream id
       | Server => negb (isClientStream id)
       end;
  isReceivingStream := fun node id =>
    isUnidirectionalStream id
    && match node with
       | Client => negb (isClientStream id)
       | Server => isClientStream id
       end;
  getSendConnFlowControlBytesAPI := fun c => connOpaque c;
  getSendStreamFlowControlBytesAPI := fun s => streamOpaque s;
  congestionControlWritableBytes := fun _ => 12000;
  getLargestDeliverableOffset := fun s =>
    if 0 <=? streamOpaque s then Some (streamOpaque s) else None;
  getLargestWriteOffsetTxed := fun s =>
    if 0 <=? streamOpaque s then Some (streamOpaque s) else None;
  calculatePTO := fun _ => 150500;
  kDrainFactor := 3;
  APP_NO_ERROR := 15;
  toString_LocalErrorCode := fun _ => "No Error"%string;
  toString_ApplicationErrorCode := fun _ => "No Error"%string;
  ecnCountBits := 32
|}.

Definition exampleSettings (drain : bool) (space : Z) : TransportSettings :=
  mkTransportSettings drain space 0 false.

Definition exampleStream : QuicStreamState :=
  mkQuicStreamState None StreamRecvState.Open (-1) [] 0.

(** A server connection with streams 0 (bidirectional), 2 (client to
    server) and 3 (server to client). *)
Definition exampleConn (settings : TransportSettings) (buffered : Z)
  : QuicConnectionStateBase := {|
  nodeType := Server;
  peerConnectionError := None;
  localConnectionError := None;
  transportSettings := settings;
  sumCurStreamBufferLen := buffered;
  appDataAckState := mkAckState 0 0 0 0;
  totalPacketsSent := 0;
  ecnState := NotAttempted;
  socketTos := mkSocketTos 0 0;
  ecnL4sTracker := false;
  packetProcessors := [];
  streams := <[0 := exampleStream]> (<[2 := exampleStream]>
               (<[3 := exampleStream]> ∅));
  readableStreams := [];
  peekableStreams := [];
  datagramReadBuffer := [];
  datagramWriteBuffer := [];
  qLogger := false;
  statsCallback := false;
  congestionController := true;
  connOpaque := 1000
|}.

Definition exampleTransport (conn : QuicConnectionStateBase)
  : QuicTransportBase := {|
  conn_ := conn;
  closeState_ := OPEN;
  evb_ := Some 1%nat;
  socket_ := Some true;
  socketObserverContainer := false;
  useConnectionEndWithErrorCallback_ := false;
  transportReadyNotified_ := true;
  exceptionCloseWhat_ := None;
  timers_ := ∅;
  readLooper_ := false;
  peekLooper_ := false;
  writeLooper_ := false;
  readCallbacks_ := ∅;
  peekCallbacks_ := ∅;
  deliveryCallbacks_ := ∅;
  txCallbacks_ := ∅;
  pendingWriteCallbacks_ := ∅;
  connWriteCallback_ := None;
  connCallback_ := Some 100%nat;
  connSetupCallback_ := None;
  datagramCallback_ := None;
  pingCallback_ := None;
  evbLoop_ := [];
  trace_ := []
|}.

Definition exampleOpen : QuicTransportBase :=
  exampleTransport (exampleConn (exampleSettings true 65536) 0).

(** [exampleOpen] with data up to offset 100 of stream 3 already delivered
    and transmitted. *)
Definition exampleReady : QuicTransportBase :=
  update_conn
    (fun c => conn_set_streams
                (<[3 := mkQuicStreamState None StreamRecvState.Open 100 [] 0]>
                   (streams c)) c)
    exampleOpen.

(** An open connection with callbacks of every kind registered, closed
    because an exception was caught. *)
Definition exampleBusy : QuicTransportBase := {|
  conn_ := exampleConn (exampleSettings true 65536) 0;
  closeState_ := OPEN;
  evb_ := Some 1%nat;
  socket_ := Some true;
  socketObserverContainer := true;
  useConnectionEndWithErrorCallback_ := false;
  transportReadyNotified_ := true;
  exceptionCloseWhat_ := Some "stream offset overflow"%string;
  timers_ := <[idleTimeout_ := 60000]> ∅;
  readLooper_ := true;
  peekLooper_ := false;
  writeLooper_ := true;
  readCallbacks_ := <[0 := mkReadCallbackData (Some 7%nat) true false]> ∅;
  peekCallbacks_ := <[0 := mkPeekCallbackData (Some 8%nat) true]> ∅;
  deliveryCallbacks_ :=
    <[3 := [mkByteEventDetail 10 20%nat; mkByteEventDetail 15 21%nat]]> ∅;
  txCallbacks_ := ∅;
  pendingWriteCallbacks_ := <[3 := 9%nat]> ∅;
  connWriteCallback_ := Some 11%nat;
  connCallback_ := Some 100%nat;
  connSetupCallback_ := None;
  datagramCallback_ := None;
  pingCallback_ := None;
  evbLoop_ := [];
  trace_ := []
|}.

Definition exampleWriteError : QuicError :=
  mkQuicError (TransportError TransportErrorCode.INTERNAL_ERROR)
    "writeChain() error".

(** The open connection of [exampleOpen] with its event base detached. *)
Definition exampleDetached : QuicTransportBase := {|
  conn_ := exampleConn (exampleSettings true 65536) 0;
  closeState_ := OPEN;
  evb_ := None;
  socket_ := Some true;
  socketObserverContainer := false;
  useConnectionEndWithErrorCallback_ := false;
  transportReadyNotified_ := true;
  exceptionCloseWhat_ := None;
  timers_ := ∅;
  readLooper_ := false;
  peekLooper_ := false;
  writeLooper_ := false;
  readCallbacks_ := ∅;
  peekCallbacks_ := ∅;
  deliveryCallbacks_ := ∅;
  txCallbacks_ := ∅;
  pendingWriteCallbacks_ := ∅;
  connWriteCallback_ := None;
  connCallback_ := Some 100%nat;
  connSetupCallback_ := None;
  datagramCallback_ := None;
  pingCallback_ := None;
  evbLoop_ := [];
  trace_ := []
|}.

(** * What the properties are stated with *)

(** ** What a step of the close path carries over and emits *)

(** The events of a close that are checked against the cancel code: an
    application callback that takes an error must have been handed
    [cancelCode], and the socket and the drain timer are only touched by the
    last step of [closeImpl]. *)
Definition closeEvent (cancelCode : QuicError) (e : Event) : bool :=
  match e with
  | evbScheduleTimeout _ _ | unbindConnection
  | socketPauseRead | socketClose | closing => false
  | _ =>
      match deliveredError e with
      | Some q => bool_decide (q = cancelCode)
      | None => true
      end
  end.

(** [carries c st st']: [st'] follows [st] on the close path; the fields the
    close decisions read are the same, and the trace has grown by events
    that satisfy [closeEvent c]. *)
Record carries (c : QuicError) (st st' : QuicTransportBase) : Prop := {
  carries_closeState : closeState_ st' = closeState_ st;
  carries_evb : evb_ st' = evb_ st;
  carries_socket : socket_ st' = socket_ st;
  carries_drain : timers_ st' !! drainTimeout_ = timers_ st !! drainTimeout_;
  carries_what : exceptionCloseWhat_ st' = exceptionCloseWhat_ st;
  carries_peer :
    peerConnectionError (conn_ st') = peerConnectionError (conn_ st);
  carries_settings :
    transportSettings (conn_ st') = transportSettings (conn_ st);
  carries_observers :
    socketObserverContainer st' = socketObserverContainer st;
  carries_trace :
    exists evs,
      trace_ st' = trace_ st ++ evs
      /\ Forall (fun e => closeEvent c e = true) evs
}.

(** ** The phases of [closeImpl] *)

Section ClosePhases.

Context (E : Externals).

(** From the first statement to [updatePacingOnClose]. *)
Definition closeImplEntry (errorCode : option QuicError)
    (st : QuicTransportBase) : QuicTransportBase :=
  let st :=
    when (socketObserverContainer st) (log (closeStarted errorCode)) st in
  let st := when (qLogger (conn_ st)) (log qlogTransportSummary) st in
  let st := set_closeState_ CLOSED st in
  log updatePacingOnClose st.

(** From the recording of the local error to the stopping of the loopers. *)
Definition closeImplStop (errorCode : option QuicError)
    (drainConnection sendCloseImmediately : bool) (st : QuicTransportBase)
  : QuicTransportBase :=
  let st :=
    match errorCode with
    | Some _ => update_conn (conn_set_localConnectionError errorCode) st
    | None => st
    end in
  let st :=
    when (qLogger (conn_ st))
      (log (qlogConnectionClose drainConnection sendCloseImmediately)) st in
  let st := cancelLossTimeout st in
  let st := cancelTimeout ackTimeout_ st in
  let st := cancelTimeout pathValidationTimeout_ st in
  let st := cancelTimeout idleTimeout_ st in
  let st := cancelTimeout keepaliveTimeout_ st in
  let st := cancelTimeout pingTimeout_ st in
  let st := cancelTimeout excessWriteTimeout_ st in
  let st := set_readLooper_ false st in
  let st := set_peekLooper_ false st in
  set_writeLooper_ false st.

(** From [closeTransport()] to the final close packet. *)
Definition closeImplTeardown (cancelCode : QuicError)
    (sendCloseImmediately : bool) (st : QuicTransportBase)
  : QuicTransportBase :=
  let st := log closeTransport st in
  let st := streamManager_clearOpenStreams st in
  let st := update_conn (conn_set_datagramReadBuffer []) st in
  let st := update_conn (conn_set_datagramWriteBuffer []) st in
  let st := log clearPendingEvents st in
  let st := streamManager_clearActionable st in
  let st := log clearWritable st in
  let st := log clearAcks st in
  let st :=
    if transportReadyNotified_ st then
      let st :=
        when (statsCallback (conn_ st))
          (log (statsOnConnectionClose (code cancelCode))) st in
      processConnectionCallbacks E cancelCode st
    else processConnectionSetupCallbacks cancelCode st in
  let st := resetConnectionCallbacks st in
  let st := log resetOutstandings st in
  let st := update_conn (conn_set_congestionController false) st in
  when (sendCloseImmediately && negb (isReset cancelCode)
        && negb (isAbandon cancelCode)) (log writeData) st.

(** Whether [closeImpl] goes on to schedule the drain timer. *)
Definition drainPermitted (cancelCode : QuicError) (drainConnection : bool)
    (st : QuicTransportBase) : bool :=
  drainConnection && shouldDrain (transportSettings (conn_ st))
  && negb (isReset cancelCode) && negb (isAbandon cancelCode)
  && negb (isInvalidMigration cancelCode).

End ClosePhases.

(** The events of [drainTimeoutExpired]. *)
Definition drainExpiryEvents (st : QuicTransportBase) : list Event :=
  match socket_ st with
  | Some _ =>
      (if socketObserverContainer st then [closing] else [])
      ++ [socketPauseRead; socketClose]
  | None => []
  end ++ [unbindConnection].

(** Whether the last step of [closeImpl] may schedule the drain timer, in
    the words of the close path's classification. *)
Definition drainAllowed (cancelCode : QuicError) (drainConnection : bool)
    (st : QuicTransportBase) : Prop :=
  drainConnection = true
  /\ shouldDrain (transportSettings (conn_ st)) = true
  /\ code cancelCode <> LocalError LocalErrorCode.CONNECTION_RESET
  /\ code cancelCode <> LocalError LocalErrorCode.CONNECTION_ABANDONED
  /\ code cancelCode <> TransportError TransportErrorCode.INVALID_MIGRATION.

(** ** Ordering of the byte-event queues *)

(** The offsets of a queue are in non-decreasing order. *)
Definition queueSorted (q : list ByteEventDetail) : Prop :=
  Sorted Z.le (offset <$> q).

(** Every queue of both byte-event maps is ordered. *)
Definition byteEventsSorted (st : QuicTransportBase) : Prop :=
  forall type id q, getByteEventMap type st !! id = Some q -> queueSorted q.

(** Operations on the byte-event maps: a registration, an offset-bounded
    cancellation, and the event loop running a closure that a registration
    queued. *)
Inductive ByteEventOp :=
| OpRegister (type : ByteEventType) (id : StreamId) (o : Z)
    (cb : option CallbackPtr)
| OpCancel (type : ByteEventType) (id : StreamId) (o : option Z)
| OpRunLoopCallback (c : LoopCallback).

Definition applyByteEventOp (E : Externals) (st : QuicTransportBase)
    (op : ByteEventOp) : QuicTransportBase :=
  match op with
  | OpRegister type id o cb =>
      finalState (registerByteEventCallback E type id o cb st)
  | OpCancel type id o => cancelByteEventCallbacksForStream E type id o st
  | OpRunLoopCallback c => runLoopCallback c st
  end.

(** ** The L4S tracker among the packet processors *)

(** The tracker is among the packet processors exactly once while
    [conn_->ecnL4sTracker] is set, and not at all otherwise. *)
Definition trackerInstalls (st : QuicTransportBase) : nat :=
  count_occ PacketProcessor_eq_dec (packetProcessors (conn_ st)) EcnL4sTracker.

Definition trackerConsistent (st : QuicTransportBase) : Prop :=
  trackerInstalls st = if ecnL4sTracker (conn_ st) then 1%nat else 0%nat.

(** An L4S attempt on a bound socket (TOS with dscp 8 and ECT1), with one
    packet processor of the application, at the given echoed counters and
    number of packets sent. *)
Definition exampleL4S (ack : AckState) (sent : Z) : QuicTransportBase :=
  recordEcnCounts ack sent
    (update_conn
       (fun c => conn_set_ecnState AttemptingL4S
                   (conn_set_socketTos (mkSocketTos 8 1)
                      (conn_set_packetProcessors [AppPacketProcessor 1] c)))
       exampleOpen).

(** ** Streams of the read callbacks *)

(** Every stream that has a read callback registered is known to the stream
    manager. *)
Definition readCallbackStreamsExist (st : QuicTransportBase) : Prop :=
  forall id data cb,
    readCallbacks_ st !! id = Some data -> readCb data = Some cb ->
    is_Some (streams (conn_ st) !! id).

(** * Further parts of the transport

    The rest of the callback registry (pausing and resuming, peek
    callbacks, the bulk unsetters, the counters of pending byte events), the
    paths that fire and cancel byte events after a write or an ingress turn,
    the stream reads that close the connection when the stream layer throws,
    the timer expiries that end in [closeImpl], datagram reads, the TOS
    settings, the cmsgs of the packet processors and the retransmission
    policies of stream groups.

    Members of the connection that the records above do not carry are passed
    to the function that reads them and returned by the function that writes
    them. *)

Definition set_exceptionCloseWhat_ (v : option string)
    (r : QuicTransportBase)
  : QuicTransportBase :=
  let 'mkTransport x0 x1 x2 x3 x4 x5 x6 _ x8 x9 x10 x11 x12 x13 x14 x15 x16
      x17 x18 x19 x20 x21 x22 x23 := r in
  mkTransport x0 x1 x2 x3 x4 x5 x6 v x8 x9 x10 x11 x12 x13 x14 x15 x16 x17
      x18 x19 x20 x21 x22 x23.

(** A new entry of [peekCallbacks_]; as for read callbacks, the constructor
    of the class header is taken to start the entry resumed. *)
Definition PeekCallbackData_of (cb : option CallbackPtr) : PeekCallbackData :=
  mkPeekCallbackData cb true.

Section Registry.

Context (E : Externals).

(** ** Pausing and resuming reads *)

Definition pauseOrResumeRead (id : StreamId) (resume : bool)
    (st : QuicTransportBase) : Expected unit * QuicTransportBase :=
  if isSendingStream E (nodeType (conn_ st)) id then
    (Unexpected LocalErrorCode.INVALID_OPERATION, st)
  else if negb (isOpen st) then
    (Unexpected LocalErrorCode.CONNECTION_CLOSED, st)
  else if negb (streamExists id st) then
    (Unexpected LocalErrorCode.STREAM_NOT_EXISTS, st)
  else
    match readCallbacks_ st !! id with
    | None => (Unexpected LocalErrorCode.APP_ERROR, st)
    | Some entry =>
        if negb (Bool.eqb (resumed entry) resume) then
          let entry' :=
            mkReadCallbackData (readCb entry) resume (deliveredEOM entry) in
          let st := set_readCallbacks_ (<[id := entry']> (readCallbacks_ st)) st in
          (Value tt, updateReadLooper st)
        else (Value tt, st)
    end.

Definition pauseRead (id : StreamId) := pauseOrResumeRead id false.

Definition resumeRead (id : StreamId) := pauseOrResumeRead id true.

(** ** Peek callbacks *)

Definition setPeekCallbackInternal (id : StreamId) (cb : option CallbackPtr)
    (st : QuicTransportBase) : Expected unit * QuicTransportBase :=
  let assign (entry : PeekCallbackData) (st : QuicTransportBase) :=
    let entry' := mkPeekCallbackData cb (peekResumed entry) in
    let st := set_peekCallbacks_ (<[id := entry']> (peekCallbacks_ st)) st in
    (Value tt, updatePeekLooper st) in
  match peekCallbacks_ st !! id with
  | None =>
      if is_nullptr cb then
        (Unexpected LocalErrorCode.INVALID_OPERATION, st)
      else
        let entry := PeekCallbackData_of cb in
        assign entry
          (set_peekCallbacks_ (<[id := entry]> (peekCallbacks_ st)) st)
  | Some entry => assign entry st
  end.

(** The result of [setPeekCallbackInternal] is not looked at. *)
Definition setPeekCallback (id : StreamId) (cb : option CallbackPtr)
    (st : QuicTransportBase) : Expected unit * QuicTransportBase :=
  if negb (isOpen st) then
    (Unexpected LocalErrorCode.CONNECTION_CLOSED, st)
  else if negb (streamExists id st) then
    (Unexpected LocalErrorCode.STREAM_NOT_EXISTS, st)
  else (Value tt, snd (setPeekCallbackInternal id cb st)).

Definition pauseOrResumePeek (id : StreamId) (resume : bool)
    (st : QuicTransportBase) : Expected unit * QuicTransportBase :=
  if negb (isOpen st) then
    (Unexpected LocalErrorCode.CONNECTION_CLOSED, st)
  else if negb (streamExists id st) then
    (Unexpected LocalErrorCode.STREAM_NOT_EXISTS, st)
  else
    match peekCallbacks_ st !! id with
    | None => (Unexpected LocalErrorCode.APP_ERROR, st)
    | Some entry =>
        if negb (Bool.eqb (peekResumed entry) resume) then
          let entry' := mkPeekCallbackData (peekCb entry) resume in
          let st := set_peekCallbacks_ (<[id := entry']> (peekCallbacks_ st)) st in
          (Value tt, updatePeekLooper st)
        else (Value tt, st)
    end.

(** ** The bulk unsetters *)

(** The loop of [unsetAllReadCallbacks] over the keys of [readCallbacks_];
    the results of [setReadCallbackInternal] are not looked at.  The calls
    change the entries in place and add none, so the keys the loop visits
    are those the map had at the start. *)
Fixpoint unsetReadCallbacks (ids : list StreamId) (st : QuicTransportBase)
  : Outcome unit :=
  match ids with
  | [] => Done tt st
  | id :: rest =>
      andThen (setReadCallbackInternal E id None (Some (APP_NO_ERROR E)) st)
        (fun _ st => unsetReadCallbacks rest st)
  end.

Definition unsetAllReadCallbacks (st : QuicTransportBase) : Outcome unit :=
  unsetReadCallbacks (fst <$> map_to_list (readCallbacks_ st)) st.

Fixpoint unsetPeekCallbacks (ids : list StreamId) (st : QuicTransportBase)
  : QuicTransportBase :=
  match ids with
  | [] => st
  | id :: rest =>
      unsetPeekCallbacks rest (snd (setPeekCallbackInternal id None st))
  end.

Definition unsetAllPeekCallbacks (st : QuicTransportBase)
  : QuicTransportBase :=
  unsetPeekCallbacks (fst <$> map_to_list (peekCallbacks_ st)) st.

(** The loop of [unsetAllDeliveryCallbacks] over a copy of
    [deliveryCallbacks_].  The streams are visited in the order of
    [map_to_list]; [Reentrant.unsetAllDeliveryCallbacks] takes the order of
    the visit as a parameter. *)
Fixpoint cancelDeliveryCallbacksForStreams (ids : list StreamId)
    (st : QuicTransportBase) : QuicTransportBase :=
  match ids with
  | [] => st
  | id :: rest =>
      cancelDeliveryCallbacksForStreams rest
        (cancelDeliveryCallbacksForStream E id None st)
  end.

Definition unsetAllDeliveryCallbacks (st : QuicTransportBase)
  : QuicTransportBase :=
  let deliveryCallbacksCopy := deliveryCallbacks_ st in
  cancelDeliveryCallbacksForStreams
    (fst <$> map_to_list deliveryCallbacksCopy) st.

(** ** Counting the pending byte events *)

Definition getNumByteEventCallbacksForStreamOfType (type : ByteEventType)
    (id : StreamId) (st : QuicTransportBase) : nat :=
  match getByteEventMap type st !! id with
  | None => O
  | Some streamByteEvents => length streamByteEvents
  end.

Definition getNumByteEventCallbacksForStream (id : StreamId)
    (st : QuicTransportBase) : nat :=
  (getNumByteEventCallbacksForStreamOfType ACK id st
   + getNumByteEventCallbacksForStreamOfType TX id st)%nat.

(** ** The ping, datagram and stream-write callbacks *)

Definition setPingCallback (cb : option CallbackPtr) (st : QuicTransportBase)
  : Expected unit * QuicTransportBase :=
  if negb (isOpen st) then
    (Unexpected LocalErrorCode.CONNECTION_CLOSED, st)
  else (Value tt, set_pingCallback_ cb st).

Definition setDatagramCallback (cb : option CallbackPtr)
    (st : QuicTransportBase) : Expected unit * QuicTransportBase :=
  if negb (isOpen st) then
    (Unexpected LocalErrorCode.CONNECTION_CLOSED, st)
  else (Value tt, updateReadLooper (set_datagramCallback_ cb st)).

Definition unregisterStreamWriteCallback (id : StreamId)
    (st : QuicTransportBase) : Expected unit * QuicTransportBase :=
  if negb (streamExists id st) then
    (Unexpected LocalErrorCode.STREAM_NOT_EXISTS, st)
  else
    match pendingWriteCallbacks_ st !! id with
    | None => (Unexpected LocalErrorCode.INVALID_OPERATION, st)
    | Some _ =>
        (Value tt,
         set_pendingWriteCallbacks_ (delete id (pendingWriteCallbacks_ st)) st)
    end.

End Registry.

(** ** Firing and cancelling byte events after a write or an ingress turn

    The stream manager's sets of streams with pending TX or ACK events are
    its own; the functions below are handed the stream ids that [popTx] and
    [popDeliverable] yield, in that order, and return the ids that were not
    popped.  A callback is opaque, so the connection is as open after it as
    before; the checks of [closeState_] that follow a callback are kept as
    the source has them.  [Reentrant] has these functions once more, with
    callbacks that can close the connection. *)

Section ByteEventDelivery.

Context (E : Externals).

(** What [handleDeliveryCallbacks] does to the stream's write buffer: the
    buffer is trimmed up to the offset given, and the start offset moved by
    the amount trimmed.  The functions of this section do not depend on
    what the trim does to the stream; [Reentrant.deliverToStream] has the
    trim itself, [trimWriteBufferTo]. *)
Context (trimWriteBuffer : Z -> QuicStreamState -> QuicStreamState).

(** The loop over [getNextTxCallbackForStreamAndCleanup]: [q] is the
    stream's queue as it stands (empty if the stream has none).  The result
    tells whether the function was left because the connection was not open
    after a callback. *)
Fixpoint callTxCallbacksForStream (streamId : StreamId)
    (largestOffsetTxed : Z) (q : list ByteEventDetail) (st : QuicTransportBase)
  : QuicTransportBase * bool :=
  match q with
  | [] => (st, false)
  | front :: rest =>
      if largestOffsetTxed <? offset front then (st, false)
      else
        let txCallbacks :=
          match rest with
          | [] => delete streamId (txCallbacks_ st)
          | _ => <[streamId := rest]> (txCallbacks_ st)
          end in
        let st := set_txCallbacks_ txCallbacks st in
        let st :=
          log (onByteEvent (callback front) streamId (offset front) TX) st in
        if negb (isOpen st) then (st, true)
        else callTxCallbacksForStream streamId largestOffsetTxed rest st
  end.

Fixpoint processTxStreams (txStreams : list StreamId) (st : QuicTransportBase)
  : Outcome (list StreamId) :=
  match txStreams with
  | [] => Done [] st
  | streamId :: rest =>
      match getStream streamId st with
      | None => Aborted st
      | Some stream =>
          match getLargestWriteOffsetTxed E stream with
          | None => Aborted st
          | Some largestOffsetTxed =>
              let q := default [] (txCallbacks_ st !! streamId) in
              let '(st, returned) :=
                callTxCallbacksForStream streamId largestOffsetTxed q st in
              if returned then Done rest st else processTxStreams rest st
          end
      end
  end.

Definition processCallbacksAfterWriteData (txStreams : list StreamId)
    (st : QuicTransportBase) : Outcome (list StreamId) :=
  if negb (isOpen st) then Done txStreams st
  else processTxStreams txStreams st.

(** The loop over [hasDeliveryCallbacksToCall].  The round-trip time that
    the ACK event carries besides the stream and the offset is not part of
    [onByteEvent]. *)
Fixpoint callDeliveryCallbacksForStream (streamId : StreamId)
    (maxOffsetToDeliver : Z) (q : list ByteEventDetail)
    (st : QuicTransportBase) : QuicTransportBase * bool :=
  match q with
  | [] => (st, false)
  | front :: rest =>
      if negb (offset front <=? maxOffsetToDeliver) then (st, false)
      else
        let st :=
          set_deliveryCallbacks_ (<[streamId := rest]> (deliveryCallbacks_ st))
            st in
        let st :=
          log (onByteEvent (callback front) streamId (offset front) ACK) st in
        if negb (isOpen st) then (st, true)
        else callDeliveryCallbacksForStream streamId maxOffsetToDeliver rest st
  end.

(** The body of the loop of [handleDeliveryCallbacks] for one stream: the
    write buffer is trimmed and the callbacks that are due are called. *)
Definition deliverToStream (streamId : StreamId) (stream : QuicStreamState)
    (st : QuicTransportBase) : QuicTransportBase * bool :=
  let maxOffsetToDeliver := getLargestDeliverableOffset E stream in
  match maxOffsetToDeliver with
  | Some o =>
      let st :=
        update_conn
          (fun c => conn_set_streams
                      (<[streamId := trimWriteBuffer o stream]> (streams c)) c)
          st in
      callDeliveryCallbacksForStream streamId o
        (default [] (deliveryCallbacks_ st !! streamId)) st
  | None => (st, false)
  end.

(** The end of the body: a queue that has become empty is erased. *)
Definition eraseEmptyDeliveryQueue (streamId : StreamId)
    (st : QuicTransportBase) : QuicTransportBase :=
  match deliveryCallbacks_ st !! streamId with
  | Some [] =>
      set_deliveryCallbacks_ (delete streamId (deliveryCallbacks_ st)) st
  | _ => st
  end.

Fixpoint handleDeliveryCallbacks (deliverableStreams : list StreamId)
    (st : QuicTransportBase) : Outcome (list StreamId) :=
  match deliverableStreams with
  | [] => Done [] st
  | streamId :: rest =>
      match getStream streamId st with
      | None => Aborted st
      | Some stream =>
          let '(st, returned) := deliverToStream streamId stream st in
          if returned then Done rest st
          else handleDeliveryCallbacks rest (eraseEmptyDeliveryQueue streamId st)
      end
  end.

(** [resets] are the keys of [conn_->pendingEvents.resets], in the order
    the loop visits them. *)
Fixpoint handleCancelByteEventCallbacks (resets : list StreamId)
    (st : QuicTransportBase) : QuicTransportBase :=
  match resets with
  | [] => st
  | id :: rest =>
      let st := cancelByteEventCallbacksForStream_allTypes E id None st in
      if negb (isOpen st) then st
      else handleCancelByteEventCallbacks rest st
  end.

End ByteEventDelivery.

(** ** Reading from a stream

    [readDataFromQuicStream] and [consumeDataFromQuicStream] belong to the
    stream functions.  They work on the stream and, through it, on the
    connection state, and they may throw; what they leave behind is the
    connection state of either result. *)

Definition Buf := list Byte.byte.

Inductive Exception :=
| QuicTransportException (what : string) (errorCode : TransportErrorCode.t)
| QuicInternalException (what : string) (errorCode : LocalErrorCode.t)
| StdException (what : string).

Inductive StreamCall (A : Type) :=
| Returns (a : A) (conn : QuicConnectionStateBase)
| Throws (ex : Exception) (conn : QuicConnectionStateBase).
Arguments Returns {A} a conn.
Arguments Throws {A} ex conn.

(** The result of the three-argument [consume]: success, or the error with
    the read offset the stream was found at. *)
Inductive ConsumeResult :=
| Consumed
| ConsumeError (e : LocalErrorCode.t) (readOffset : option Z).

Section StreamIo.

Context (E : Externals).

Context (readDataFromQuicStream :
           StreamId -> Z -> QuicConnectionStateBase -> StreamCall (Buf * bool)).
Context (consumeDataFromQuicStream :
           StreamId -> Z -> QuicConnectionStateBase -> StreamCall unit).

(** The fields [currentReadOffset] and [streamReadError] of a stream. *)
Context (currentReadOffset : QuicStreamState -> Z).
Context (streamReadError : QuicStreamState -> option QuicErrorCode).

(** The three [catch] clauses: the text of the exception is kept in
    [exceptionCloseWhat_], the connection is closed with the code the
    exception maps to and the message of the calling function, and the
    caller is answered with a local error code.  [closeImpl] is called with
    its defaults, [drainConnection] and [sendCloseImmediately] both true. *)
Definition exceptionWhat (ex : Exception) : string :=
  match ex with
  | QuicTransportException what _ => what
  | QuicInternalException what _ => what
  | StdException what => what
  end.

Definition exceptionCloseCode (ex : Exception) : QuicErrorCode :=
  match ex with
  | QuicTransportException _ errorCode => TransportError errorCode
  | QuicInternalException _ errorCode => LocalError errorCode
  | StdException _ => TransportError TransportErrorCode.INTERNAL_ERROR
  end.

Definition exceptionLocalError (ex : Exception) : LocalErrorCode.t :=
  match ex with
  | QuicTransportException _ _ => LocalErrorCode.TRANSPORT_ERROR
  | QuicInternalException _ errorCode => errorCode
  | StdException _ => LocalErrorCode.INTERNAL_ERROR
  end.

Definition closeOnException (ex : Exception) (message : string)
    (st : QuicTransportBase) : Outcome LocalErrorCode.t :=
  let st := set_exceptionCloseWhat_ (Some (exceptionWhat ex)) st in
  andThen
    (closeImpl E (Some (mkQuicError (exceptionCloseCode ex) message)) true true
       st)
    (fun _ st => Done (exceptionLocalError ex) st).

Definition read (id : StreamId) (maxLen : Z) (st : QuicTransportBase)
  : Outcome (Expected (Buf * bool)) :=
  if isSendingStream E (nodeType (conn_ st)) id then
    Done (Unexpected LocalErrorCode.INVALID_OPERATION) st
  else if negb (isOpen st) then
    Done (Unexpected LocalErrorCode.CONNECTION_CLOSED) st
  else
    let body : Outcome (Expected (Buf * bool)) :=
      if negb (streamExists id st) then
        Done (Unexpected LocalErrorCode.STREAM_NOT_EXISTS) st
      else
        match getStream id st with
        | None => Aborted st
        | Some _ =>
            match readDataFromQuicStream id maxLen (conn_ st) with
            | Returns result conn =>
                let st := set_conn_ conn st in
                let st :=
                  if snd result then
                    match readCallbacks_ st !! id with
                    | Some entry =>
                        set_readCallbacks_
                          (<[id := mkReadCallbackData (readCb entry)
                                     (resumed entry) true]>
                             (readCallbacks_ st)) st
                    | None => st
                    end
                  else st in
                Done (Value result) st
            | Throws ex conn =>
                andThen (closeOnException ex "read() error" (set_conn_ conn st))
                  (fun e st => Done (Unexpected e) st)
            end
        end in
    andThen body
      (fun result st =>
         let st := updateReadLooper st in
         let st := updatePeekLooper st in
         Done result (updateWriteLooper true st)).

(** The error a caller is handed for a stream that carries a read error. *)
Definition readErrorAsLocal (err : QuicErrorCode) : LocalErrorCode.t :=
  match err with
  | LocalError e => e
  | _ => LocalErrorCode.INTERNAL_ERROR
  end.

Definition consumeAt (id : StreamId) (offset : Z) (amount : Z)
    (st : QuicTransportBase) : Outcome ConsumeResult :=
  if negb (isOpen st) then
    Done (ConsumeError LocalErrorCode.CONNECTION_CLOSED None) st
  else
    let body : Outcome ConsumeResult :=
      if negb (streamExists id st) then
        Done (ConsumeError LocalErrorCode.STREAM_NOT_EXISTS None) st
      else
        match getStream id st with
        | None => Aborted st
        | Some stream =>
            let readOffset := Some (currentReadOffset stream) in
            if negb (currentReadOffset stream =? offset) then
              Done (ConsumeError LocalErrorCode.INTERNAL_ERROR readOffset) st
            else
              match streamReadError stream with
              | Some err => Done (ConsumeError (readErrorAsLocal err) None) st
              | None =>
                  match consumeDataFromQuicStream id amount (conn_ st) with
                  | Returns _ conn => Done Consumed (set_conn_ conn st)
                  | Throws ex conn =>
                      andThen
                        (closeOnException ex "consume() error"
                           (set_conn_ conn st))
                        (fun e st => Done (ConsumeError e readOffset) st)
                  end
              end
        end in
    andThen body
      (fun result st =>
         let st := updatePeekLooper st in
         let st := updateReadLooper st in
         Done result (updateWriteLooper true st)).

(** The two-argument [consume]: the stream is looked up before the
    connection is asked whether it is open. *)
Definition consume (id : StreamId) (amount : Z) (st : QuicTransportBase)
  : Outcome (Expected unit) :=
  if negb (streamExists id st) then
    Done (Unexpected LocalErrorCode.STREAM_NOT_EXISTS) st
  else
    match getStream id st with
    | None => Aborted st
    | Some stream =>
        andThen (consumeAt id (currentReadOffset stream) amount st)
          (fun result st =>
             match result with
             | ConsumeError e _ => Done (Unexpected e) st
             | Consumed => Done (Value tt) st
             end)
    end.

End StreamIo.

(** ** Timers that end the connection *)

Section TimerExpiry.

Context (E : Externals).

(** The number of control streams, from the stream manager. *)
Context (numControlStreams : QuicConnectionStateBase -> Z).

(** [streamManager->streamCount()]. *)
Definition streamCount (st : QuicTransportBase) : Z :=
  Z.of_nat (size (streams (conn_ st))).

(** [folly::to<std::string>] of the three pieces of the message.  The
    debug-only [DCHECK] on [closeState_] is not part of the behaviour. *)
Definition idleTimeoutMessage (localError : LocalErrorCode.t)
    (st : QuicTransportBase) : string :=
  toString_LocalErrorCode E localError
  +:+ ", num non control streams: "
  +:+ pretty (wrap64 (streamCount st - numControlStreams (conn_ st))).

Definition idleTimeoutExpired (drain : bool) (st : QuicTransportBase)
  : Outcome unit :=
  let localError :=
    if drain then LocalErrorCode.IDLE_TIMEOUT
    else LocalErrorCode.SHUTTING_DOWN in
  closeImpl E
    (Some (mkQuicError (LocalError localError)
             (idleTimeoutMessage localError st)))
    drain (negb drain) st.

End TimerExpiry.

(** ** Datagrams *)

(** [readDatagrams]: [atMost] is a [size_t]; zero asks for everything. *)
Definition readDatagrams (atMost : Z) (st : QuicTransportBase)
  : Expected (list Z) * QuicTransportBase :=
  let datagrams := datagramReadBuffer (conn_ st) in
  if negb (isOpen st) then (Unexpected LocalErrorCode.CONNECTION_CLOSED, st)
  else
    let size := Z.of_nat (length datagrams) in
    let atMost := if atMost =? 0 then size else Z.min atMost size in
    let retDatagrams := take (Z.to_nat atMost) datagrams in
    (Value retDatagrams,
     update_conn
       (conn_set_datagramReadBuffer (drop (Z.to_nat atMost) datagrams)) st).

(** ** The TOS settings of the socket *)

Section SocketTosSettings.

(** The ECN codepoints ECT(0) and ECT(1) of [QuicConstants.h]. *)
Context (kEcnECT0 kEcnECT1 : Z).

(** [updateSocketTosSettings].  [enableEcnOnEgress] and [useL4sEcn] are the
    two fields of [conn_->transportSettings] the function reads. *)
Definition updateSocketTosSettings (enableEcnOnEgress useL4sEcn : bool)
    (dscpValue : Z) (st : QuicTransportBase) : QuicTransportBase :=
  let initialTosValue := tosValue (socketTos (conn_ st)) in
  let st :=
    update_conn
      (fun c => conn_set_socketTos
                  (mkSocketTos dscpValue (ecn (socketTos c))) c) st in
  let set_ecn (v : Z) (s : ECNState) (st : QuicTransportBase) :=
    update_conn
      (fun c => conn_set_ecnState s
                  (conn_set_socketTos (mkSocketTos (dscp (socketTos c)) v) c))
      st in
  let st :=
    if enableEcnOnEgress then
      if useL4sEcn then set_ecn kEcnECT1 AttemptingL4S st
      else set_ecn kEcnECT0 AttemptingECN st
    else set_ecn 0 NotAttempted st in
  match socket_ st with
  | Some true =>
      if negb (tosValue (socketTos (conn_ st)) =? initialTosValue) then
        log (socketSetTosOrTrafficClass (tosValue (socketTos (conn_ st)))) st
      else st
  | _ => st
  end.

End SocketTosSettings.

(** ** The cmsgs of the packet processors *)

(** [conn_->socketCmsgsState]. *)
Record SocketCmsgsState (CmsgKey : Type) `{Countable CmsgKey} :=
  mkSocketCmsgsState {
  additionalCmsgs : option (gmap CmsgKey Z);
  targetWriteCount : Z
}.
Arguments mkSocketCmsgsState {CmsgKey _ _} additionalCmsgs targetWriteCount.
Arguments additionalCmsgs {CmsgKey _ _} s.
Arguments targetWriteCount {CmsgKey _ _} s.

Section PrewriteRequests.

Context `{Countable CmsgKey}.

(** What [PacketProcessor::prewrite] answers: no request, or a request that
    may carry a map of cmsgs. *)
Context (prewrite : PacketProcessor -> option (option (gmap CmsgKey Z))).

(** [std::map::insert] of a range: a key that is already there keeps its
    value. *)
Definition insertRange (cmsgs : gmap CmsgKey Z) (range : gmap CmsgKey Z)
  : gmap CmsgKey Z :=
  cmsgs ∪ range.

Definition collectCmsgs (processors : list PacketProcessor)
  : gmap CmsgKey Z :=
  foldl (fun cmsgs pp =>
           match prewrite pp with
           | Some (Some requested) => insertRange cmsgs requested
           | _ => cmsgs
           end) ∅ processors.

(** [writeCount] is [conn_->writeCount]; the result is the new
    [conn_->socketCmsgsState]. *)
Definition updatePacketProcessorsPrewriteRequests (writeCount : Z)
    (st : QuicTransportBase) : SocketCmsgsState CmsgKey :=
  let cmsgs := collectCmsgs (packetProcessors (conn_ st)) in
  mkSocketCmsgsState
    (if bool_decide (cmsgs = ∅) then None else Some cmsgs) writeCount.

End PrewriteRequests.

(** ** Retransmission policies of stream groups *)

Section RetransmissionPolicies.

Context {QuicStreamGroupRetransmissionPolicy : Type}.

(** [retransmissionPolicies] is [conn_->retransmissionPolicies], returned as
    the call leaves it; [customProfilesEnabled] is what
    [checkCustomRetransmissionProfilesEnabled] answers and
    [advertisedMaxStreamGroups] the field of [conn_->transportSettings]. *)
Definition setStreamGroupRetransmissionPolicy (customProfilesEnabled : bool)
    (advertisedMaxStreamGroups : Z) (groupId : StreamGroupId)
    (policy : option QuicStreamGroupRetransmissionPolicy)
    (retransmissionPolicies : gmap Z QuicStreamGroupRetransmissionPolicy)
  : Expected unit * gmap Z QuicStreamGroupRetransmissionPolicy :=
  match policy with
  | None => (Value tt, delete groupId retransmissionPolicies)
  | Some policy =>
      if negb customProfilesEnabled then
        (Unexpected LocalErrorCode.INVALID_OPERATION, retransmissionPolicies)
      else if advertisedMaxStreamGroups
                <=? Z.of_nat (size retransmissionPolicies) then
        (Unexpected LocalErrorCode.RTX_POLICIES_LIMIT_EXCEEDED,
         retransmissionPolicies)
      else
        (Value tt,
         match retransmissionPolicies !! groupId with
         | Some _ => retransmissionPolicies
         | None => <[groupId := policy]> retransmissionPolicies
         end)
  end.

End RetransmissionPolicies.

(** * What the further properties are stated with *)

(** Whether the read looper has work on stream [s]: a read callback is
    registered for it and has not been paused. *)
Definition readWanted (st : QuicTransportBase) (s : StreamId) : bool :=
  match readCallbacks_ st !! s with
  | None => false
  | Some d => negb (is_nullptr (readCb d)) && resumed d
  end.

(** An entry of [readCallbacks_] or [peekCallbacks_] with its callback
    taken out. *)
Definition unsetRead (d : ReadCallbackData) : ReadCallbackData :=
  mkReadCallbackData None (resumed d) (deliveredEOM d).

Definition unsetPeek (d : PeekCallbackData) : PeekCallbackData :=
  mkPeekCallbackData None (peekResumed d).

(** The cancellations delivered for the entries of a queue, in the order of
    the queue. *)
Definition cancellations (type : ByteEventType) (id : StreamId)
    (q : list ByteEventDetail) : list Event :=
  (fun d => onByteEventCanceled (callback d) id (offset d) type) <$> q.

(** What the cancellation of a whole stream adds to the trace. *)
Definition streamCancellation (type : ByteEventType)
    (entry : StreamId * list ByteEventDetail) : list Event :=
  cancellations type entry.1 entry.2 ++ [removeFromStreamManager type entry.1].

(** The events fired for the entries of a queue, in the order of the
    queue. *)
Definition firings (type : ByteEventType) (id : StreamId)
    (q : list ByteEventDetail) : list Event :=
  (fun d => onByteEvent (callback d) id (offset d) type) <$> q.

(** The queue of a stream, empty if the stream has none. *)
Definition queueOf (type : ByteEventType) (id : StreamId)
    (st : QuicTransportBase) : list ByteEventDetail :=
  default [] (getByteEventMap type st !! id).

(** The largest offset of a stream that is ready for events of the type:
    acknowledged for ACK, transmitted for TX. *)
Definition largestReadyOffset (E : Externals) (type : ByteEventType)
    (id : StreamId) (st : QuicTransportBase) : option Z :=
  match getStream id st with
  | None => None
  | Some stream =>
      match type with
      | ACK => getLargestDeliverableOffset E stream
      | TX => getLargestWriteOffsetTxed E stream
      end
  end.

(** The entries of a stream's queue that are due at the stream's largest
    ready offset, and those that are not yet. *)
Definition dueEntries (E : Externals) (type : ByteEventType)
    (st : QuicTransportBase) (id : StreamId) : list ByteEventDetail :=
  match largestReadyOffset E type id st with
  | Some ready => filter (fun d => offset d <= ready) (queueOf type id st)
  | None => []
  end.

Definition pendingEntries (E : Externals) (type : ByteEventType)
    (st : QuicTransportBase) (id : StreamId) : list ByteEventDetail :=
  match largestReadyOffset E type id st with
  | Some ready => filter (fun d => ready < offset d) (queueOf type id st)
  | None => queueOf type id st
  end.

Definition dueFirings (E : Externals) (type : ByteEventType)
    (st : QuicTransportBase) (id : StreamId) : list Event :=
  firings type id (dueEntries E type st id).

(** No application callback is registered with the transport: the per-stream
    maps are empty and the connection-write, datagram and ping callbacks are
    null. *)
Record registryCleared (st : QuicTransportBase) : Prop := {
  cleared_read : readCallbacks_ st = ∅;
  cleared_peek : peekCallbacks_ st = ∅;
  cleared_delivery : deliveryCallbacks_ st = ∅;
  cleared_tx : txCallbacks_ st = ∅;
  cleared_pendingWrite : pendingWriteCallbacks_ st = ∅;
  cleared_connWrite : connWriteCallback_ st = None;
  cleared_datagram : datagramCallback_ st = None;
  cleared_ping : pingCallback_ st = None
}.

(** The three loopers are stopped. *)
Definition loopersStopped (st : QuicTransportBase) : Prop :=
  readLooper_ st = false /\ peekLooper_ st = false /\ writeLooper_ st = false.

(** A map after the keys of a list of entries were erased one by one. *)
Definition eraseKeys {V : Type} (m : gmap Z V) (l : list (Z * V)) : gmap Z V :=
  foldl (fun m entry => delete entry.1 m) m l.

(** The calls by which an application registers, pauses, unsets and cancels
    its callbacks. *)
Inductive RegistryOp :=
| OpSetReadCallback (id : StreamId) (cb : option CallbackPtr)
    (err : option ApplicationErrorCode)
| OpSetPeekCallback (id : StreamId) (cb : option CallbackPtr)
| OpPauseOrResumeRead (id : StreamId) (resume : bool)
| OpPauseOrResumePeek (id : StreamId) (resume : bool)
| OpRegisterByteEventCallback (type : ByteEventType) (id : StreamId) (o : Z)
    (cb : option CallbackPtr)
| OpCancelByteEventCallbacksForStream (type : ByteEventType) (id : StreamId)
    (o : option Z)
| OpSetPingCallback (cb : option CallbackPtr)
| OpSetDatagramCallback (cb : option CallbackPtr)
| OpUnregisterStreamWriteCallback (id : StreamId)
| OpUnsetAllReadCallbacks
| OpUnsetAllPeekCallbacks
| OpUnsetAllDeliveryCallbacks.

Definition applyRegistryOp (E : Externals) (st : QuicTransportBase)
    (op : RegistryOp) : QuicTransportBase :=
  match op with
  | OpSetReadCallback id cb err => finalState (setReadCallback E id cb err st)
  | OpSetPeekCallback id cb => snd (setPeekCallback id cb st)
  | OpPauseOrResumeRead id resume => snd (pauseOrResumeRead E id resume st)
  | OpPauseOrResumePeek id resume => snd (pauseOrResumePeek id resume st)
  | OpRegisterByteEventCallback type id o cb =>
      finalState (registerByteEventCallback E type id o cb st)
  | OpCancelByteEventCallbacksForStream type id o =>
      cancelByteEventCallbacksForStream E type id o st
  | OpSetPingCallback cb => snd (setPingCallback cb st)
  | OpSetDatagramCallback cb => snd (setDatagramCallback cb st)
  | OpUnregisterStreamWriteCallback id =>
      snd (unregisterStreamWriteCallback id st)
  | OpUnsetAllReadCallbacks => finalState (unsetAllReadCallbacks E st)
  | OpUnsetAllPeekCallbacks => unsetAllPeekCallbacks st
  | OpUnsetAllDeliveryCallbacks => unsetAllDeliveryCallbacks E st
  end.

(** How often an event of a kind occurs in a piece of the trace. *)
Definition occurrences (kind : Event -> bool) (evs : list Event) : nat :=
  length (List.filter kind evs).

Definition isSocketClose (e : Event) : bool :=
  match e with socketClose => true | _ => false end.

Definition isUnbindConnection (e : Event) : bool :=
  match e with unbindConnection => true | _ => false end.

(** What a step leaves alone: every registered callback, the three loopers
    and the timers. *)
Record keepsRegistry (st st' : QuicTransportBase) : Prop := {
  keeps_read : readCallbacks_ st' = readCallbacks_ st;
  keeps_peek : peekCallbacks_ st' = peekCallbacks_ st;
  keeps_delivery : deliveryCallbacks_ st' = deliveryCallbacks_ st;
  keeps_tx : txCallbacks_ st' = txCallbacks_ st;
  keeps_pendingWrite : pendingWriteCallbacks_ st' = pendingWriteCallbacks_ st;
  keeps_connWrite : connWriteCallback_ st' = connWriteCallback_ st;
  keeps_datagram : datagramCallback_ st' = datagramCallback_ st;
  keeps_ping : pingCallback_ st' = pingCallback_ st;
  keeps_readLooper : readLooper_ st' = readLooper_ st;
  keeps_peekLooper : peekLooper_ st' = peekLooper_ st;
  keeps_writeLooper : writeLooper_ st' = writeLooper_ st;
  keeps_timers : timers_ st' = timers_ st
}.

(** [emits P st st']: from [st] to [st'] the trace has grown, and only by
    events that [P] accepts. *)
Definition emits (P : Event -> bool) (st st' : QuicTransportBase) : Prop :=
  exists evs,
    trace_ st' = trace_ st ++ evs /\ Forall (fun e => P e = true) evs.

(** The outside effects a [closeImpl] with cancel code [cancelCode] can
    have.  [drains] says whether the close goes on to arm the drain timer,
    [ready] whether the transport was ready ([transportReadyNotified_]) and
    [endWithError] whether the connection callback wants the code with
    [onConnectionEnd] ([useConnectionEndWithErrorCallback_]; the call is
    recorded as [onConnectionEndWithError]).  Everything else is never done
    by a close: no byte event is registered or fired, no STOP_SENDING is
    sent, the TOS of the socket is left alone. *)
Definition closeImplEmits (E : Externals) (cancelCode : QuicError)
    (sendCloseImmediately drains ready endWithError : bool) (e : Event)
  : bool :=
  match e with
  | closeStarted _ | qlogTransportSummary | updatePacingOnClose
  | qlogConnectionClose _ _ => true
  | clearActionable | onByteEventCanceled _ _ _ _
  | readError _ _ _ | readErrorWithGroup _ _ _ _ | peekError _ _ _
  | onConnectionWriteError _ _ | onStreamWriteError _ _ _ => true
  | closeTransport | clearOpenStreams | clearPendingEvents | clearWritable
  | clearAcks | resetOutstandings => true
  | statsOnConnectionClose _ => ready
  | onConnectionSetupError _ _ => negb ready
  | onConnectionEndWithError _ _ => ready && endWithError
  | onConnectionEnd _ =>
      ready && negb endWithError && processCancelCode E cancelCode
  | onConnectionError _ _ =>
      ready && negb endWithError && negb (processCancelCode E cancelCode)
  | writeData =>
      sendCloseImmediately && negb (isReset cancelCode)
      && negb (isAbandon cancelCode)
  | evbScheduleTimeout t _ => drains && bool_decide (t = drainTimeout_)
  | closing | socketPauseRead | socketClose | unbindConnection => negb drains
  | _ => false
  end.

Section FirstRequest.

Context `{Countable CmsgKey}.
Context (prewrite : PacketProcessor -> option (option (gmap CmsgKey Z))).

(** The value the first packet processor of the list that requests a cmsg
    for [key] asks for. *)
Fixpoint firstRequest (key : CmsgKey) (processors : list PacketProcessor)
  : option Z :=
  match processors with
  | [] => None
  | pp :: rest =>
      match prewrite pp with
      | Some (Some requested) =>
          match requested !! key with
          | Some v => Some v
          | None => firstRequest key rest
          end
      | _ => firstRequest key rest
      end
  end.

End FirstRequest.

(** ** Further examples *)

(** [exampleBusy] without the caught exception, with stream 3 acknowledged
    and transmitted up to offset 12, and with TX callbacks registered at the
    offsets 5 and 20 of stream 3. *)
Definition exampleDelivering : QuicTransportBase :=
  set_exceptionCloseWhat_ None
    (set_txCallbacks_
       (<[3 := [mkByteEventDetail 5 30%nat; mkByteEventDetail 20 31%nat]]> ∅)
       (update_conn
          (fun c => conn_set_streams
                      (<[3 := mkQuicStreamState None StreamRecvState.Open 12
                                   [] 0]>
                         (streams c)) c)
          exampleBusy)).

(** [exampleOpen] with three datagrams received. *)
Definition exampleDatagrams : QuicTransportBase :=
  update_conn (conn_set_datagramReadBuffer [11; 12; 13]) exampleOpen.

(** [exampleBusy] after [closeNow]. *)
Definition exampleClosed : QuicTransportBase :=
  finalState (closeNow exampleExternals None exampleBusy).

(** A stream function that delivers the end of stream 0 and fails on every
    other stream. *)
Definition exampleReadData (id : StreamId) (maxLen : Z)
    (conn : QuicConnectionStateBase) : StreamCall (Buf * bool) :=
  if id =? 0 then Returns ([], true) conn
  else
    Throws (QuicTransportException "stream offset overflow"
              TransportErrorCode.PROTOCOL_VIOLATION) conn.

(** [called e st st']: on the way from [st] to [st'] the call recorded as
    [e] was made. *)
Definition called (e : Event) (st st' : QuicTransportBase) : Prop :=
  exists evs, trace_ st' = trace_ st ++ evs /\ e ∈ evs.

(** The call by which a read callback is handed an error. *)
Definition readErrorCall (cb : CallbackPtr) (id : StreamId)
    (stream : QuicStreamState) (err : QuicError) : Event :=
  match groupId stream with
  | None => readError cb id err
  | Some g => readErrorWithGroup cb id g err
  end.

(** The call by which the connection callback is told of the close. *)
Definition connectionEndCall (E : Externals) (st : QuicTransportBase)
    (cb : CallbackPtr) (cancelCode : QuicError) : Event :=
  if useConnectionEndWithErrorCallback_ st then
    onConnectionEndWithError cb cancelCode
  else if processCancelCode E cancelCode then onConnectionEnd cb
  else onConnectionError cb cancelCode.

(** What a step leaves alone of what the connection callbacks are chosen
    by. *)
Record keepsConnCallbacks (st st' : QuicTransportBase) : Prop := {
  keeps_connCallback : connCallback_ st' = connCallback_ st;
  keeps_connSetupCallback : connSetupCallback_ st' = connSetupCallback_ st;
  keeps_ready : transportReadyNotified_ st' = transportReadyNotified_ st;
  keeps_endWithError :
    useConnectionEndWithErrorCallback_ st'
    = useConnectionEndWithErrorCallback_ st
}.

(** ** The write buffer of a stream *)

(** Modelled from the spec: [trimStartAtMost] belongs to the buffer class,
    which is not part of this file.  It takes at most [amount] bytes off the
    front of the buffer and returns how many it took. *)
Definition trimStartAtMost (amount : Z) (buf : list Byte.byte)
  : list Byte.byte * Z :=
  let amountTrimmed := Z.min amount (Z.of_nat (length buf)) in
  (drop (Z.to_nat amountTrimmed) buf, amountTrimmed).

(** The trim of [handleDeliveryCallbacks]: the amount asked for is the
    [uint64_t] difference between the largest deliverable offset and the
    start offset of the buffer, and the start offset moves by the amount
    trimmed. *)
Definition trimWriteBufferTo (maxOffsetToDeliver : Z)
    (stream : QuicStreamState) : QuicStreamState :=
  let '(buf, amountTrimmed) :=
    trimStartAtMost
      (wrap64 (maxOffsetToDeliver - writeBufferStartOffset stream))
      (writeBuffer stream) in
  {| groupId := groupId stream;
     recvState := recvState stream;
     streamOpaque := streamOpaque stream;
     writeBuffer := buf;
     writeBufferStartOffset :=
       wrap64 (writeBufferStartOffset stream + amountTrimmed) |}.

(** * Callbacks that call back into the transport

    Above, a call of an application callback or of a socket observer is an
    entry of the trace, and the transport is after the call as it was before
    it.  In this module the application is a parameter: [app e st] is the
    transport as the code behind the call recorded as [e] leaves it, when it
    found the transport as [st].  It may call any function of the transport,
    [close] and [closeNow] among them.  Everything else is as above: the
    calls of the stream manager, of the qlog and statistics objects, of the
    socket and of the derived transport are recorded and not followed, and
    local variables of the source keep the values they were given before a
    callback ran. *)

Module Reentrant.

Section WithApplication.

Context (E : Externals).
Context (app : Event -> QuicTransportBase -> QuicTransportBase).

(** A call of an application callback or of an observer: the call is
    recorded, then the code behind it runs. *)
Definition invoke (e : Event) (st : QuicTransportBase) : QuicTransportBase :=
  app e (log e st).

(** ** Closing *)

(** [cancelByteEventCallbacks]: the map is moved out of the transport, which
    leaves the member empty, and every entry of the moved map is cancelled
    in turn. *)
Definition cancelByteEventCallbacks (type : ByteEventType)
    (st : QuicTransportBase) : QuicTransportBase :=
  let byteEventMap := getByteEventMap type st in
  let st := setByteEventMap type ∅ st in
  foldl (fun st '(streamId, cbMap) =>
           foldl (fun st d =>
                    invoke (onByteEventCanceled (callback d) streamId
                              (offset d) type) st)
             st cbMap)
    st (map_to_list byteEventMap).

Definition cancelAllByteEventCallbacks (st : QuicTransportBase)
  : QuicTransportBase :=
  cancelByteEventCallbacks TX (cancelByteEventCallbacks ACK st).

Fixpoint cancelReadCallbacks (err : QuicError)
    (readCallbacksCopy : list (Z * ReadCallbackData)) (st : QuicTransportBase)
  : Outcome unit :=
  match readCallbacksCopy with
  | [] => Done tt st
  | (id, data) :: rest =>
      let st := set_readCallbacks_ (delete id (readCallbacks_ st)) st in
      match readCb data with
      | None => cancelReadCallbacks err rest st
      | Some cb =>
          match getStream id st with
          | None => Aborted st
          | Some stream =>
              let ev :=
                match groupId stream with
                | None => readError cb id err
                | Some g => readErrorWithGroup cb id g err
                end in
              cancelReadCallbacks err rest (invoke ev st)
          end
      end
  end.

Fixpoint cancelPeekCallbacks (err : QuicError)
    (peekCallbacksCopy : list (Z * PeekCallbackData)) (st : QuicTransportBase)
  : QuicTransportBase :=
  match peekCallbacksCopy with
  | [] => st
  | (id, data) :: rest =>
      let st := set_peekCallbacks_ (delete id (peekCallbacks_ st)) st in
      match peekCb data with
      | None => cancelPeekCallbacks err rest st
      | Some cb =>
          cancelPeekCallbacks err rest (invoke (peekError cb id err) st)
      end
  end.

Fixpoint cancelPendingWriteCallbacks (err : QuicError)
    (pendingWriteCallbacksCopy : list (Z * nat)) (st : QuicTransportBase)
  : QuicTransportBase :=
  match pendingWriteCallbacksCopy with
  | [] => st
  | (id, wcb) :: rest =>
      let st :=
        set_pendingWriteCallbacks_ (delete id (pendingWriteCallbacks_ st)) st in
      cancelPendingWriteCallbacks err rest
        (invoke (onStreamWriteError wcb id err) st)
  end.

(** The [SCOPE_EXIT] block runs when the function returns. *)
Definition cancelAllAppCallbacks (err : QuicError) (st : QuicTransportBase)
  : Outcome unit :=
  let st := streamManager_clearActionable st in
  let st := cancelAllByteEventCallbacks st in
  andThen (cancelReadCallbacks err (map_to_list (readCallbacks_ st)) st)
    (fun _ st =>
       let st := set_datagramCallback_ None st in
       let st := set_pingCallback_ None st in
       let st :=
         cancelPeekCallbacks err (map_to_list (peekCallbacks_ st)) st in
       let st :=
         match connWriteCallback_ st with
         | Some connWriteCallback =>
             invoke (onConnectionWriteError connWriteCallback err)
               (set_connWriteCallback_ None st)
         | None => st
         end in
       let st :=
         cancelPendingWriteCallbacks err
           (map_to_list (pendingWriteCallbacks_ st)) st in
       let st := checkForClosedStream st in
       let st := updateReadLooper st in
       let st := updatePeekLooper st in
       let st := updateWriteLooper true st in
       Done tt st).

Definition closeUdpSocket (st : QuicTransportBase) : QuicTransportBase :=
  match socket_ st with
  | None => st
  | Some _ =>
      let st :=
        if socketObserverContainer st then invoke closing st else st in
      let st := set_socket_ None st in
      let st := log socketPauseRead st in
      log socketClose st
  end.

Definition processConnectionSetupCallbacks (cancelCode : QuicError)
    (st : QuicTransportBase) : QuicTransportBase :=
  match connSetupCallback_ st with
  | Some cb => invoke (onConnectionSetupError cb cancelCode) st
  | None => st
  end.

Definition processConnectionCallbacks (cancelCode : QuicError)
    (st : QuicTransportBase) : QuicTransportBase :=
  match connCallback_ st with
  | None => st
  | Some cb =>
      if useConnectionEndWithErrorCallback_ st then
        invoke (onConnectionEndWithError cb cancelCode) st
      else if processCancelCode E cancelCode then
        invoke (onConnectionEnd cb) st
      else invoke (onConnectionError cb cancelCode) st
  end.

Definition drainTimeoutExpired (st : QuicTransportBase) : QuicTransportBase :=
  log unbindConnection (closeUdpSocket st).

(** [closeImpl], as above but for the calls of the observers and of the
    application. *)
Definition closeImpl (errorCode : option QuicError)
    (drainConnection sendCloseImmediately : bool) (st : QuicTransportBase)
  : Outcome unit :=
  if isClosed st then Done tt st
  else
    let st :=
      when (socketObserverContainer st) (invoke (closeStarted errorCode)) st in
    let drainConnection :=
      drainConnection && shouldDrain (transportSettings (conn_ st)) in
    let st := when (qLogger (conn_ st)) (log qlogTransportSummary) st in
    let st := set_closeState_ CLOSED st in
    let st := log updatePacingOnClose st in
    let cancelCode := closeCancelCode E errorCode st in
    let isReset := isReset cancelCode in
    let isAbandon := isAbandon cancelCode in
    let isInvalidMigration := isInvalidMigration cancelCode in
    let st :=
      match errorCode with
      | Some _ => update_conn (conn_set_localConnectionError errorCode) st
      | None => st
      end in
    let st :=
      when (qLogger (conn_ st))
        (log (qlogConnectionClose drainConnection sendCloseImmediately)) st in
    let st := cancelLossTimeout st in
    let st := cancelTimeout ackTimeout_ st in
    let st := cancelTimeout pathValidationTimeout_ st in
    let st := cancelTimeout idleTimeout_ st in
    let st := cancelTimeout keepaliveTimeout_ st in
    let st := cancelTimeout pingTimeout_ st in
    let st := cancelTimeout excessWriteTimeout_ st in
    let st := set_readLooper_ false st in
    let st := set_peekLooper_ false st in
    let st := set_writeLooper_ false st in
    andThen (cancelAllAppCallbacks cancelCode st)
      (fun _ st =>
         let st := log closeTransport st in
         let st := streamManager_clearOpenStreams st in
         let st := update_conn (conn_set_datagramReadBuffer []) st in
         let st := update_conn (conn_set_datagramWriteBuffer []) st in
         let st := log clearPendingEvents st in
         let st := streamManager_clearActionable st in
         let st := log clearWritable st in
         let st := log clearAcks st in
         let st :=
           if transportReadyNotified_ st then
             let st :=
               when (statsCallback (conn_ st))
                 (log (statsOnConnectionClose (code cancelCode))) st in
             processConnectionCallbacks cancelCode st
           else processConnectionSetupCallbacks cancelCode st in
         let st := resetConnectionCallbacks st in
         let st := log resetOutstandings st in
         let st := update_conn (conn_set_congestionController false) st in
         let sendCloseImmediately :=
           sendCloseImmediately && negb isReset && negb isAbandon in
         let st := when sendCloseImmediately (log writeData) st in
         let drainConnection :=
           drainConnection && negb isReset && negb isAbandon
           && negb isInvalidMigration in
         if drainConnection then
           Done tt
             (scheduleTimeout drainTimeout_ (drainTimeoutDuration E st) st)
         else Done tt (drainTimeoutExpired st)).

(** The phases of [closeImpl], as above: from the first statement to
    [updatePacingOnClose], and from [closeTransport()] to the final close
    packet. *)
Definition closeImplEntry (errorCode : option QuicError)
    (st : QuicTransportBase) : QuicTransportBase :=
  let st :=
    when (socketObserverContainer st) (invoke (closeStarted errorCode)) st in
  let st := when (qLogger (conn_ st)) (log qlogTransportSummary) st in
  let st := set_closeState_ CLOSED st in
  log updatePacingOnClose st.

Definition closeImplTeardown (cancelCode : QuicError)
    (sendCloseImmediately : bool) (st : QuicTransportBase)
  : QuicTransportBase :=
  let st := log closeTransport st in
  let st := streamManager_clearOpenStreams st in
  let st := update_conn (conn_set_datagramReadBuffer []) st in
  let st := update_conn (conn_set_datagramWriteBuffer []) st in
  let st := log clearPendingEvents st in
  let st := streamManager_clearActionable st in
  let st := log clearWritable st in
  let st := log clearAcks st in
  let st :=
    if transportReadyNotified_ st then
      let st :=
        when (statsCallback (conn_ st))
          (log (statsOnConnectionClose (code cancelCode))) st in
      processConnectionCallbacks cancelCode st
    else processConnectionSetupCallbacks cancelCode st in
  let st := resetConnectionCallbacks st in
  let st := log resetOutstandings st in
  let st := update_conn (conn_set_congestionController false) st in
  when (sendCloseImmediately && negb (isReset cancelCode)
        && negb (isAbandon cancelCode)) (log writeData) st.

(** ** Byte events

    The loops below run a callback and then look at the transport again:
    at [closeState_], and at the queue the callback was taken from.  A
    callback may register a byte event while it runs, so a loop need not
    end; [fuel] bounds the turns of one loop, and [None] says that it did
    not suffice. *)

(** The walk of [cancelByteEventCallbacksForStream] over the front of the
    stream's queue.  [streamByteEvents] is a reference into the map, so each
    turn sees the queue as the callbacks before it left it.  If a callback
    erased the stream's entry and left the connection open, the reference
    dangles; the walk is then stopped as [Aborted].  The result tells
    whether the function was left because the connection was not open after
    a callback. *)
Fixpoint cancelWalk (fuel : nat) (type : ByteEventType) (id : StreamId)
    (o : option Z) (st : QuicTransportBase) : option (Outcome bool) :=
  match fuel with
  | O => None
  | S fuel =>
      match getByteEventMap type st !! id with
      | None => Some (Aborted st)
      | Some [] => Some (Done false st)
      | Some (front :: rest) =>
          let cbOffset := offset front in
          if match o with None => true | Some o => cbOffset <? o end then
            let st :=
              setByteEventMap type
                (<[id := rest]> (getByteEventMap type st)) st in
            let st :=
              invoke (onByteEventCanceled (callback front) id cbOffset type)
                st in
            if negb (isOpen st) then Some (Done true st)
            else cancelWalk fuel type id o st
          else Some (Done false st)
      end
  end.

Definition cancelByteEventCallbacksForStream (fuel : nat)
    (type : ByteEventType) (id : StreamId) (o : option Z)
    (st : QuicTransportBase) : option (Outcome unit) :=
  if isReceivingStream E (nodeType (conn_ st)) id then Some (Done tt st)
  else
    match getByteEventMap type st !! id with
    | None => Some (Done tt (log (removeFromStreamManager type id) st))
    | Some _ =>
        match cancelWalk fuel type id o st with
        | None => None
        | Some (Aborted st) => Some (Aborted st)
        | Some (Done true st) => Some (Done tt st)
        | Some (Done false st) =>
            match getByteEventMap type st !! id with
            | Some [] =>
                let st := log (removeFromStreamManager type id) st in
                Some (Done tt
                        (setByteEventMap type
                           (delete id (getByteEventMap type st)) st))
            | _ => Some (Done tt st)
            end
        end
    end.

(** [invokeForEachByteEventType], a helper of the class header, is taken to
    visit ACK, then TX.  It does not look at [closeState_] in between. *)
Definition cancelByteEventCallbacksForStream_allTypes (fuel : nat)
    (id : StreamId) (o : option Z) (st : QuicTransportBase)
  : option (Outcome unit) :=
  match cancelByteEventCallbacksForStream fuel ACK id o st with
  | Some (Done _ st) => cancelByteEventCallbacksForStream fuel TX id o st
  | stopped => stopped
  end.

Definition cancelDeliveryCallbacksForStream (fuel : nat) (id : StreamId)
    (o : option Z) : QuicTransportBase -> option (Outcome unit) :=
  cancelByteEventCallbacksForStream fuel ACK id o.

(** [resets] are the keys of [conn_->pendingEvents.resets], in the order
    the loop visits them. *)
Fixpoint handleCancelByteEventCallbacks (fuel : nat) (resets : list StreamId)
    (st : QuicTransportBase) : option (Outcome unit) :=
  match resets with
  | [] => Some (Done tt st)
  | id :: rest =>
      match cancelByteEventCallbacksForStream_allTypes fuel id None st with
      | Some (Done _ st) =>
          if negb (isOpen st) then Some (Done tt st)
          else handleCancelByteEventCallbacks fuel rest st
      | stopped => stopped
      end
  end.

(** The loop of [unsetAllDeliveryCallbacks] over a copy of
    [deliveryCallbacks_]; it does not look at [closeState_]. *)
Fixpoint cancelDeliveryCallbacksForStreams (fuel : nat) (ids : list StreamId)
    (st : QuicTransportBase) : option (Outcome unit) :=
  match ids with
  | [] => Some (Done tt st)
  | id :: rest =>
      match cancelDeliveryCallbacksForStream fuel id None st with
      | Some (Done _ st) => cancelDeliveryCallbacksForStreams fuel rest st
      | stopped => stopped
      end
  end.

(** [iterationOrder] is the order in which a range-based [for] visits the
    keys of an F14 map, which the map does not specify. *)
Definition unsetAllDeliveryCallbacks
    (iterationOrder : gmap StreamId (list ByteEventDetail) -> list StreamId)
    (fuel : nat) (st : QuicTransportBase) : option (Outcome unit) :=
  let deliveryCallbacksCopy := deliveryCallbacks_ st in
  cancelDeliveryCallbacksForStreams fuel
    (iterationOrder deliveryCallbacksCopy) st.

(** The lambda of [processCallbacksAfterWriteData]: the next TX callback of
    the stream that is due, taken out of its queue, and the queue erased if
    that was its last entry. *)
Definition getNextTxCallbackForStreamAndCleanup (streamId : StreamId)
    (largestOffsetTxed : Z) (st : QuicTransportBase)
  : option ByteEventDetail * QuicTransportBase :=
  match txCallbacks_ st !! streamId with
  | None | Some [] => (None, st)
  | Some (front :: rest) =>
      if largestOffsetTxed <? offset front then (None, st)
      else
        let txCallbacks :=
          match rest with
          | [] => delete streamId (txCallbacks_ st)
          | _ => <[streamId := rest]> (txCallbacks_ st)
          end in
        (Some front, set_txCallbacks_ txCallbacks st)
  end.

(** The loop over [getNextTxCallbackForStreamAndCleanup].  The result tells
    whether the function was left because the connection was not open after
    a callback. *)
Fixpoint callTxCallbacksForStream (fuel : nat) (streamId : StreamId)
    (largestOffsetTxed : Z) (st : QuicTransportBase)
  : option (QuicTransportBase * bool) :=
  match fuel with
  | O => None
  | S fuel =>
      match getNextTxCallbackForStreamAndCleanup streamId largestOffsetTxed
              st with
      | (None, st) => Some (st, false)
      | (Some next, st) =>
          let st :=
            invoke (onByteEvent (callback next) streamId (offset next) TX)
              st in
          if negb (isOpen st) then Some (st, true)
          else callTxCallbacksForStream fuel streamId largestOffsetTxed st
      end
  end.

(** [txStreams] are the ids that [popTx] yields, in that order; the result
    holds those that were not popped. *)
Fixpoint processTxStreams (fuel : nat) (txStreams : list StreamId)
    (st : QuicTransportBase) : option (Outcome (list StreamId)) :=
  match txStreams with
  | [] => Some (Done [] st)
  | streamId :: rest =>
      match getStream streamId st with
      | None => Some (Aborted st)
      | Some stream =>
          match getLargestWriteOffsetTxed E stream with
          | None => Some (Aborted st)
          | Some largestOffsetTxed =>
              match callTxCallbacksForStream fuel streamId largestOffsetTxed
                      st with
              | None => None
              | Some (st, true) => Some (Done rest st)
              | Some (st, false) => processTxStreams fuel rest st
              end
          end
      end
  end.

Definition processCallbacksAfterWriteData (fuel : nat)
    (txStreams : list StreamId) (st : QuicTransportBase)
  : option (Outcome (list StreamId)) :=
  if negb (isOpen st) then Some (Done txStreams st)
  else processTxStreams fuel txStreams st.

Definition hasDeliveryCallbacksToCall (streamId : StreamId)
    (maxOffsetToDeliver : Z) (st : QuicTransportBase) : bool :=
  match deliveryCallbacks_ st !! streamId with
  | None | Some [] => false
  | Some (front :: _) => offset front <=? maxOffsetToDeliver
  end.

(** The loop over [hasDeliveryCallbacksToCall].  [at(streamId)] finds the
    queue, and [front()] its first entry, since the condition of the loop
    held; the [Aborted] results stand for the exception of [at] and for
    [front()] on an empty queue.  The round-trip time that the ACK event
    carries besides the stream and the offset is not part of
    [onByteEvent]. *)
Fixpoint callDeliveryCallbacksForStream (fuel : nat) (streamId : StreamId)
    (maxOffsetToDeliver : Z) (st : QuicTransportBase)
  : option (Outcome bool) :=
  match fuel with
  | O => None
  | S fuel =>
      if negb (hasDeliveryCallbacksToCall streamId maxOffsetToDeliver st)
      then Some (Done false st)
      else
        match deliveryCallbacks_ st !! streamId with
        | None | Some [] => Some (Aborted st)
        | Some (front :: rest) =>
            let st :=
              set_deliveryCallbacks_
                (<[streamId := rest]> (deliveryCallbacks_ st)) st in
            let st :=
              invoke (onByteEvent (callback front) streamId (offset front)
                        ACK) st in
            if negb (isOpen st) then Some (Done true st)
            else
              callDeliveryCallbacksForStream fuel streamId maxOffsetToDeliver
                st
        end
  end.

(** The body of the loop of [handleDeliveryCallbacks] for one stream: the
    write buffer is trimmed and the callbacks that are due are called. *)
Definition deliverToStream (fuel : nat) (streamId : StreamId)
    (stream : QuicStreamState) (st : QuicTransportBase)
  : option (Outcome bool) :=
  let maxOffsetToDeliver := getLargestDeliverableOffset E stream in
  match maxOffsetToDeliver with
  | Some o =>
      let st :=
        update_conn
          (fun c => conn_set_streams
                      (<[streamId := trimWriteBufferTo o stream]> (streams c))
                      c)
          st in
      callDeliveryCallbacksForStream fuel streamId o st
  | None => Some (Done false st)
  end.

(** [deliverableStreams] are the ids that [popDeliverable] yields, in that
    order; the result holds those that were not popped. *)
Fixpoint handleDeliveryCallbacks (fuel : nat)
    (deliverableStreams : list StreamId) (st : QuicTransportBase)
  : option (Outcome (list StreamId)) :=
  match deliverableStreams with
  | [] => Some (Done [] st)
  | streamId :: rest =>
      match getStream streamId st with
      | None => Some (Aborted st)
      | Some stream =>
          match deliverToStream fuel streamId stream st with
          | None => None
          | Some (Aborted st) => Some (Aborted st)
          | Some (Done true st) => Some (Done rest st)
          | Some (Done false st) =>
              handleDeliveryCallbacks fuel rest
                (eraseEmptyDeliveryQueue streamId st)
          end
      end
  end.

End WithApplication.

End Reentrant.

(** An application that answers every call made during a close, but the
    observers' [closeStarted], by calling [closeImpl] again, with arguments
    of its choice.  The inner call is the [closeImpl] above: its own
    callbacks run only if it finds the connection not closed, and are then
    not followed. *)
Definition closesAgain (E : Externals)
    (again : Event -> option QuicError * bool * bool)
    (e : Event) (st : QuicTransportBase) : QuicTransportBase :=
  match e with
  | closeStarted _ => st
  | _ =>
      let '(errorCode, drainConnection, sendCloseImmediately) := again e in
      finalState (closeImpl E errorCode drainConnection sendCloseImmediately st)
  end.

(** An application that answers those calls by calling [close], with an
    error code of its choice, and one that only resets the connection
    callbacks there. *)
Definition callsClose (E : Externals) (errorCode : Event -> option QuicError)
    (e : Event) (st : QuicTransportBase) : QuicTransportBase :=
  match e with
  | closeStarted _ => st
  | _ => finalState (close E (errorCode e) st)
  end.

Definition resetsConnectionCallbacks (e : Event) (st : QuicTransportBase)
  : QuicTransportBase :=
  match e with
  | closeStarted _ => st
  | _ => resetConnectionCallbacks st
  end.

(** An application whose socket observer answers [closeStarted] by calling
    [close], and which does nothing else. *)
Definition closesOnCloseStarted (E : Externals) (e : Event)
    (st : QuicTransportBase) : QuicTransportBase :=
  match e with
  | closeStarted _ => finalState (close E None st)
  | _ => st
  end.

Definition isWriteData (e : Event) : bool :=
  match e with writeData => true | _ => false end.

(** An application that does nothing to the transport in its callbacks. *)
Definition leavesAlone (e : Event) (st : QuicTransportBase)
  : QuicTransportBase := st.

(** The application leaves the transport as it found it in every callback
    that is recorded as one of [evs]. *)
Definition leavesAloneOn
    (app : Event -> QuicTransportBase -> QuicTransportBase)
    (evs : list Event) : Prop :=
  forall e st, e ∈ evs -> app e st = st.

(** The transport after the entries [popped] were taken off the front of
    the stream's queue, which left [rest], and the callback of each was
    handed its cancellation, or its event. *)
Definition cancelled (type : ByteEventType) (id : StreamId)
    (popped rest : list ByteEventDetail) (st : QuicTransportBase)
  : QuicTransportBase :=
  set_trace_ (trace_ st ++ cancellations type id popped)
    (setByteEventMap type (<[id := rest]> (getByteEventMap type st)) st).

Definition fired (type : ByteEventType) (id : StreamId)
    (popped rest : list ByteEventDetail) (st : QuicTransportBase)
  : QuicTransportBase :=
  set_trace_ (trace_ st ++ firings type id popped)
    (setByteEventMap type (<[id := rest]> (getByteEventMap type st)) st).

(** The transport after the TX callbacks of the entries [popped] were fired
    and [rest] is what they left of the stream's queue: a queue that has
    become empty is erased. *)
Definition txFired (id : StreamId) (popped rest : list ByteEventDetail)
    (st : QuicTransportBase) : QuicTransportBase :=
  set_trace_ (trace_ st ++ firings TX id popped)
    (set_txCallbacks_
       match rest with
       | [] => delete id (txCallbacks_ st)
       | _ => <[id := rest]> (txCallbacks_ st)
       end st).

(** The transport after [handleDeliveryCallbacks] trimmed the write buffer
    of the stream to the offset. *)
Definition writeBufferTrimmed (id : StreamId) (o : Z)
    (stream : QuicStreamState) (st : QuicTransportBase) : QuicTransportBase :=
  update_conn
    (fun c => conn_set_streams
                (<[id := trimWriteBufferTo o stream]> (streams c)) c)
    st.

(** An application that closes the connection from the byte-event callback
    [cb], whether that is handed an event or a cancellation, and does
    nothing in any other callback. *)
Definition closesInByteEventCallback (E : Externals) (cb : CallbackPtr)
    (e : Event) (st : QuicTransportBase) : QuicTransportBase :=
  match e with
  | onByteEvent cb' _ _ _ | onByteEventCanceled cb' _ _ _ =>
      if decide (cb' = cb) then finalState (close E None st) else st
  | _ => st
  end.

(** [exampleDelivering] with six bytes in the write buffer of stream 3,
    the first of them at offset 8, and a second delivery callback that is
    due. *)
Definition exampleBuffered : QuicTransportBase :=
  set_deliveryCallbacks_
    (<[3 := [mkByteEventDetail 10 20%nat; mkByteEventDetail 11 22%nat;
             mkByteEventDetail 15 21%nat]]> ∅)
    (update_conn
       (fun c => conn_set_streams
                   (<[3 := mkQuicStreamState None StreamRecvState.Open 12
                             [Byte.x61; Byte.x62; Byte.x63; Byte.x64;
                              Byte.x65; Byte.x66] 8]>
                      (streams c)) c)
       exampleDelivering).

(** [exampleBuffered] with stream 0 acknowledged and transmitted up to
    offset 7, a delivery callback registered at its offset 4 and a TX
    callback at its offset 6. *)
Definition exampleTwoStreams : QuicTransportBase :=
  set_deliveryCallbacks_
    (<[0 := [mkByteEventDetail 4 23%nat]]> (deliveryCallbacks_ exampleBuffered))
    (set_txCallbacks_
       (<[0 := [mkByteEventDetail 6 32%nat]]> (txCallbacks_ exampleBuffered))
       (update_conn
          (fun c => conn_set_streams
                      (<[0 := mkQuicStreamState None StreamRecvState.Open 7
                                [] 0]>
                         (streams c)) c)
          exampleBuffered)).

(** * Properties *)

Section FlowControl.

Context (E : Externals).

Lemma bufferSpaceAvailable_within (st : QuicTransportBase) :
  sumCurStreamBufferLen (conn_ st)
    <= totalBufferSpaceAvailable (transportSettings (conn_ st)) ->
  bufferSpaceAvailable st
    = totalBufferSpaceAvailable (transportSettings (conn_ st))
      - sumCurStreamBufferLen (conn_ st).
Proof.
  intros Hle. unfold bufferSpaceAvailable.
  destruct (Z.ltb_spec (totalBufferSpaceAvailable (transportSettings (conn_ st)))
              (sumCurStreamBufferLen (conn_ st))); lia.
Qed.

Lemma bufferSpaceAvailable_exceeded (st : QuicTransportBase) :
  totalBufferSpaceAvailable (transportSettings (conn_ st))
    < sumCurStreamBufferLen (conn_ st) ->
  bufferSpaceAvailable st = 0.
Proof.
  intros Hlt. unfold bufferSpaceAvailable.
  destruct (Z.ltb_spec (totalBufferSpaceAvailable (transportSettings (conn_ st)))
              (sumCurStreamBufferLen (conn_ st))); lia.
Qed.

(** C9, as the code has it: while the buffered bytes fit in
    [totalBufferSpaceAvailable], [bufferSpaceAvailable()] plus
    [sumCurStreamBufferLen] equals [totalBufferSpaceAvailable]; once the
    buffered bytes exceed it the function returns exactly 0, and the sum is
    then above [totalBufferSpaceAvailable]. *)
Theorem bufferSpaceAvailable_accounting (st : QuicTransportBase) :
  let buffered := sumCurStreamBufferLen (conn_ st) in
  let total := totalBufferSpaceAvailable (transportSettings (conn_ st)) in
  (buffered <= total -> bufferSpaceAvailable st + buffered = total)
  /\ (total < buffered ->
      bufferSpaceAvailable st = 0
      /\ total < bufferSpaceAvailable st + buffered).
Proof.
  cbv zeta. split.
  - intros Hle. rewrite bufferSpaceAvailable_within by exact Hle. lia.
  - intros Hlt. rewrite bufferSpaceAvailable_exceeded by exact Hlt. lia.
Qed.

(** C8: for every stream, [maxWritableOnStream] is at most
    [maxWritableOnConn], being the minimum of the stream's flow-control bytes
    and the connection bound; so is every value [getMaxWritableOnStream]
    returns. *)
Theorem maxWritableOnStream_le_maxWritableOnConn
    (stream : QuicStreamState) (st : QuicTransportBase) :
  maxWritableOnStream E stream st
    = Z.min (getSendStreamFlowControlBytesAPI E stream) (maxWritableOnConn E st)
  /\ maxWritableOnStream E stream st <= maxWritableOnConn E st
  /\ forall id v st',
       getMaxWritableOnStream E id st = Done (Value v) st' ->
       v <= maxWritableOnConn E st.
Proof.
  split; [reflexivity |]. split.
  - unfold maxWritableOnStream. apply Z.le_min_r.
  - intros id v st'. unfold getMaxWritableOnStream.
    destruct (negb (streamExists id st)); [discriminate |].
    destruct (isReceivingStream E (nodeType (conn_ st)) id); [discriminate |].
    destruct (getStream id st) as [s |]; [| discriminate].
    intros [= <- _]. unfold maxWritableOnStream. apply Z.le_min_r.
Qed.

End FlowControl.

(** C9, as stated: with 5 bytes buffered and 3 bytes of total buffer space
    the function returns 0, and 0 + 5 is not at most 3. *)
Lemma bufferSpaceAvailable_sum_above_total :
  let st := exampleTransport (exampleConn (exampleSettings true 3) 5) in
  bufferSpaceAvailable st = 0
  /\ ~ (bufferSpaceAvailable st + sumCurStreamBufferLen (conn_ st)
        <= totalBufferSpaceAvailable (transportSettings (conn_ st))).
Proof.
  cbv zeta. split; [reflexivity |].
  vm_compute. intros H. apply H. reflexivity.
Qed.

Section CloseLifecycle.

Context (E : Externals).

Lemma carries_refl c st : carries c st st.
Proof.
  split; try reflexivity. exists []. split; [by rewrite app_nil_r | constructor].
Qed.

Lemma carries_trans c st1 st2 st3 :
  carries c st1 st2 -> carries c st2 st3 -> carries c st1 st3.
Proof.
  intros [H1 H2 H3 H4 H5 H6 H7 H8 (e1 & He1 & Hf1)]
         [G1 G2 G3 G4 G5 G6 G7 G8 (e2 & He2 & Hf2)].
  split; try congruence.
  exists (e1 ++ e2). split.
  - rewrite He2, He1. by rewrite app_assoc.
  - by apply Forall_app.
Qed.

(** A step that leaves the trace and the carried fields alone. *)
Lemma carries_silent c st st' :
  closeState_ st' = closeState_ st ->
  evb_ st' = evb_ st ->
  socket_ st' = socket_ st ->
  timers_ st' !! drainTimeout_ = timers_ st !! drainTimeout_ ->
  exceptionCloseWhat_ st' = exceptionCloseWhat_ st ->
  peerConnectionError (conn_ st') = peerConnectionError (conn_ st) ->
  transportSettings (conn_ st') = transportSettings (conn_ st) ->
  socketObserverContainer st' = socketObserverContainer st ->
  trace_ st' = trace_ st ->
  carries c st st'.
Proof.
  intros. split; try assumption.
  exists []. split; [by rewrite app_nil_r | constructor].
Qed.

Lemma carries_logs c evs st :
  Forall (fun e => closeEvent c e = true) evs ->
  carries c st (set_trace_ (trace_ st ++ evs) st).
Proof.
  intros Hevs. destruct st. split; try reflexivity. by exists evs.
Qed.

Lemma carries_log c e st :
  closeEvent c e = true -> carries c st (log e st).
Proof. intros He. apply (carries_logs c [e]). by constructor. Qed.

End CloseLifecycle.

Ltac silent_step :=
  apply carries_silent;
  match goal with
  | st : QuicTransportBase |- _ =>
      destruct st as [[] ? ? ? ? ? ? ? ? ? ? ? ? ? ? ? ? ? ? ? ? ? ? ?]
  end;
  try reflexivity.

Ltac close_event :=
  simpl; try (apply bool_decide_eq_true_2); reflexivity.

Create HintDb carry.

(** Peels the outermost step off the goal [carries c st (f (g (... st)))]
    as long as a lemma of the [carry] database accounts for it. *)
Ltac carry :=
  repeat first
    [ apply carries_refl
    | eapply carries_trans; [ | solve [eauto 3 with carry] ] ].

Section CloseSteps.

Context (E : Externals).

Lemma carries_when c (b : bool) f st :
  (forall st, carries c st (f st)) -> carries c st (when b f st).
Proof. intros Hf. destruct b; [apply Hf | apply carries_refl]. Qed.

Lemma carries_cancelTimeout c t st :
  t <> drainTimeout_ -> carries c st (cancelTimeout t st).
Proof.
  intros Ht. silent_step. simpl. by rewrite lookup_delete_ne.
Qed.

Lemma carries_set_readLooper c b st : carries c st (set_readLooper_ b st).
Proof. silent_step. Qed.

Lemma carries_set_peekLooper c b st : carries c st (set_peekLooper_ b st).
Proof. silent_step. Qed.

Lemma carries_set_writeLooper c b st : carries c st (set_writeLooper_ b st).
Proof. silent_step. Qed.

Lemma carries_set_readCallbacks c m st :
  carries c st (set_readCallbacks_ m st).
Proof. silent_step. Qed.

Lemma carries_set_peekCallbacks c m st :
  carries c st (set_peekCallbacks_ m st).
Proof. silent_step. Qed.

Lemma carries_set_pendingWriteCallbacks c m st :
  carries c st (set_pendingWriteCallbacks_ m st).
Proof. silent_step. Qed.

Lemma carries_set_connWriteCallback c v st :
  carries c st (set_connWriteCallback_ v st).
Proof. silent_step. Qed.

Lemma carries_set_datagramCallback c v st :
  carries c st (set_datagramCallback_ v st).
Proof. silent_step. Qed.

Lemma carries_set_pingCallback c v st :
  carries c st (set_pingCallback_ v st).
Proof. silent_step. Qed.

Lemma carries_setByteEventMap c ty m st :
  carries c st (setByteEventMap ty m st).
Proof. destruct ty; silent_step. Qed.

Lemma carries_resetConnectionCallbacks c st :
  carries c st (resetConnectionCallbacks st).
Proof. silent_step. Qed.

Lemma carries_conn_localConnectionError c v st :
  carries c st (update_conn (conn_set_localConnectionError v) st).
Proof. silent_step. Qed.

Lemma carries_conn_datagramReadBuffer c v st :
  carries c st (update_conn (conn_set_datagramReadBuffer v) st).
Proof. silent_step. Qed.

Lemma carries_conn_datagramWriteBuffer c v st :
  carries c st (update_conn (conn_set_datagramWriteBuffer v) st).
Proof. silent_step. Qed.

Lemma carries_conn_congestionController c v st :
  carries c st (update_conn (conn_set_congestionController v) st).
Proof. silent_step. Qed.

#[local] Hint Resolve carries_log carries_logs carries_when
  carries_set_readLooper carries_set_peekLooper carries_set_writeLooper
  carries_set_readCallbacks carries_set_peekCallbacks
  carries_set_pendingWriteCallbacks carries_set_connWriteCallback
  carries_set_datagramCallback carries_set_pingCallback
  carries_setByteEventMap carries_resetConnectionCallbacks
  carries_conn_localConnectionError carries_conn_datagramReadBuffer
  carries_conn_datagramWriteBuffer carries_conn_congestionController
  : carry.
#[local] Hint Extern 1 (closeEvent _ _ = true) => close_event : carry.

Lemma carries_clearActionable c st :
  carries c st (streamManager_clearActionable st).
Proof.
  unfold streamManager_clearActionable.
  eapply carries_trans; [| apply carries_log; close_event].
  silent_step.
Qed.

Lemma carries_clearOpenStreams c st :
  carries c st (streamManager_clearOpenStreams st).
Proof.
  unfold streamManager_clearOpenStreams.
  eapply carries_trans; [| apply carries_log; close_event].
  silent_step.
Qed.

Lemma carries_cancelByteEventCallbacks c ty st :
  carries c st (cancelByteEventCallbacks ty st).
Proof.
  unfold cancelByteEventCallbacks.
  eapply carries_trans; [apply carries_setByteEventMap |].
  apply carries_logs.
  apply Forall_forall. intros e He.
  apply list_elem_of_join in He as (l & He & Hl).
  apply list_elem_of_fmap in Hl as ([id q] & -> & _).
  apply list_elem_of_fmap in He as (d & -> & _).
  reflexivity.
Qed.

Lemma carries_cancelAllByteEventCallbacks c st :
  carries c st (cancelAllByteEventCallbacks st).
Proof.
  unfold cancelAllByteEventCallbacks.
  eapply carries_trans; apply carries_cancelByteEventCallbacks.
Qed.

Lemma carries_cancelReadCallbacks c l st :
  carries c st (finalState (cancelReadCallbacks c l st)).
Proof.
  revert st. induction l as [| [id data] rest IH]; intros st; simpl.
  - apply carries_refl.
  - destruct (readCb data) as [cb |].
    + destruct (getStream id _) as [stream |] eqn:Hs; simpl.
      * eapply carries_trans; [| apply IH].
        destruct (groupId stream); carry.
      * carry.
    + eapply carries_trans; [| apply IH]. carry.
Qed.

Lemma carries_cancelPeekCallbacks c l st :
  carries c st (cancelPeekCallbacks c l st).
Proof.
  revert st. induction l as [| [id data] rest IH]; intros st; simpl.
  - apply carries_refl.
  - destruct (peekCb data) as [cb |];
      (eapply carries_trans; [| apply IH]); carry.
Qed.

Lemma carries_cancelPendingWriteCallbacks c l st :
  carries c st (cancelPendingWriteCallbacks c l st).
Proof.
  revert st. induction l as [| [id wcb] rest IH]; intros st; simpl.
  - apply carries_refl.
  - eapply carries_trans; [| apply IH]. carry.
Qed.

Lemma carries_checkForClosedStream c st :
  carries c st (checkForClosedStream st).
Proof. unfold checkForClosedStream. destruct (isClosed st); carry. Qed.

Lemma carries_updateReadLooper c st : carries c st (updateReadLooper st).
Proof.
  unfold updateReadLooper.
  destruct (negb (isOpen st)); [carry |].
  match goal with |- context [if ?b then _ else _] => destruct b end; carry.
Qed.

Lemma carries_updatePeekLooper c st : carries c st (updatePeekLooper st).
Proof.
  unfold updatePeekLooper.
  match goal with |- context [if ?b then _ else _] => destruct b end;
    [carry |].
  match goal with |- context [if ?b then _ else _] => destruct b end; carry.
Qed.

Lemma carries_updateWriteLooper c b st :
  carries c st (updateWriteLooper b st).
Proof. unfold updateWriteLooper. destruct (isClosed st); carry. Qed.

#[local] Hint Resolve carries_clearActionable carries_clearOpenStreams
  carries_cancelAllByteEventCallbacks carries_cancelPeekCallbacks
  carries_cancelPendingWriteCallbacks carries_checkForClosedStream
  carries_updateReadLooper carries_updatePeekLooper carries_updateWriteLooper
  : carry.

Lemma carries_cancelAllAppCallbacks c st :
  carries c st (finalState (cancelAllAppCallbacks c st)).
Proof.
  unfold cancelAllAppCallbacks.
  set (st1 := cancelAllByteEventCallbacks (streamManager_clearActionable st)).
  assert (H1 : carries c st st1) by (subst st1; carry).
  pose proof (carries_cancelReadCallbacks c (map_to_list (readCallbacks_ st1))
                st1) as H2.
  destruct (cancelReadCallbacks c _ st1) as [[] st2 | st2]; simpl in *.
  - eapply carries_trans; [exact H1 |].
    eapply carries_trans; [exact H2 |].
    destruct (connWriteCallback_ _) as [cb |] eqn:Hcb; carry.
  - eapply carries_trans; [exact H1 | exact H2].
Qed.

Lemma carries_processConnectionCallbacks c st :
  carries c st (processConnectionCallbacks E c st).
Proof.
  unfold processConnectionCallbacks.
  destruct (connCallback_ st); [| carry].
  destruct (useConnectionEndWithErrorCallback_ st); [carry |].
  destruct (processCancelCode E c); carry.
Qed.

Lemma carries_processConnectionSetupCallbacks c st :
  carries c st (processConnectionSetupCallbacks c st).
Proof.
  unfold processConnectionSetupCallbacks.
  destruct (connSetupCallback_ st); carry.
Qed.

End CloseSteps.

Section ClosePhaseEquation.

Context (E : Externals).

Lemma closeImpl_phases errorCode drainConnection sendCloseImmediately st :
  closeImpl E errorCode drainConnection sendCloseImmediately st
  = if isClosed st then Done tt st
    else
      let observed :=
        when (socketObserverContainer st) (log (closeStarted errorCode)) st in
      let entry := closeImplEntry errorCode st in
      let cancelCode := closeCancelCode E errorCode entry in
      let stopped :=
        closeImplStop errorCode
          (drainConnection && shouldDrain (transportSettings (conn_ observed)))
          sendCloseImmediately entry in
      andThen (cancelAllAppCallbacks cancelCode stopped)
        (fun _ st =>
           let st := closeImplTeardown E cancelCode sendCloseImmediately st in
           if drainPermitted cancelCode drainConnection observed then
             Done tt
               (scheduleTimeout drainTimeout_ (drainTimeoutDuration E st) st)
           else Done tt (drainTimeoutExpired st)).
Proof. reflexivity. Qed.

End ClosePhaseEquation.

Section CloseShape.

Context (E : Externals).

#[local] Hint Resolve carries_log carries_logs carries_when
  carries_set_readLooper carries_set_peekLooper carries_set_writeLooper
  carries_resetConnectionCallbacks carries_cancelTimeout
  carries_conn_localConnectionError carries_conn_datagramReadBuffer
  carries_conn_datagramWriteBuffer carries_conn_congestionController
  carries_clearActionable carries_clearOpenStreams
  carries_processConnectionCallbacks carries_processConnectionSetupCallbacks
  : carry.
#[local] Hint Extern 1 (closeEvent _ _ = true) => close_event : carry.
#[local] Hint Extern 1 (_ <> drainTimeout_) => discriminate : carry.

Lemma carries_cancelLossTimeout c st : carries c st (cancelLossTimeout st).
Proof. apply carries_cancelTimeout. discriminate. Qed.

Lemma carries_closeImplEntry c errorCode st :
  carries c (set_closeState_ CLOSED st) (closeImplEntry errorCode st).
Proof.
  unfold closeImplEntry.
  destruct st as [[] ? ? ? obs ? ? ? ? ? ? ? ? ? ? ? ? ? ? ? ? ? ? ?].
  simpl. destruct obs; simpl;
    match goal with |- context [when ?q _ _] => destruct q end; simpl;
    (split; try reflexivity; simpl;
     eexists; split;
     [rewrite <- ?app_assoc; reflexivity | simpl; repeat constructor]).
Qed.

Lemma carries_closeImplStop c errorCode d s st :
  carries c st (closeImplStop errorCode d s st).
Proof.
  unfold closeImplStop.
  assert (H : carries c st
                (match errorCode with
                 | Some _ =>
                     update_conn (conn_set_localConnectionError errorCode) st
                 | None => st
                 end)) by (destruct errorCode; carry).
  eapply carries_trans; [exact H |].
  cbv zeta.
  repeat (eapply carries_trans;
          [| first [ apply carries_set_writeLooper
                   | apply carries_set_peekLooper
                   | apply carries_set_readLooper
                   | apply carries_cancelLossTimeout
                   | apply carries_cancelTimeout; discriminate ] ]).
  apply carries_when. intros st0. apply carries_log. reflexivity.
Qed.

Lemma carries_closeImplTeardown c s st :
  carries c st (closeImplTeardown E c s st).
Proof.
  unfold closeImplTeardown. cbv zeta.
  eapply carries_trans; [| apply carries_when; intros; carry].
  do 3 (eapply carries_trans; [| solve [eauto 3 with carry] ]).
  match goal with
  | |- carries _ _ (if transportReadyNotified_ ?s then _ else _) =>
      set (st8 := s);
      assert (H8 : carries c st st8) by (subst st8; carry)
  end.
  eapply carries_trans; [exact H8 |].
  destruct (transportReadyNotified_ st8); carry.
Qed.

Lemma closeCancelCode_carried c errorCode st st' :
  carries c st st' ->
  closeCancelCode E errorCode st' = closeCancelCode E errorCode st.
Proof.
  intros H. unfold closeCancelCode.
  by rewrite (carries_peer _ _ _ H), (carries_what _ _ _ H).
Qed.

Lemma closeCancelCode_set_closeState errorCode v st :
  closeCancelCode E errorCode (set_closeState_ v st)
  = closeCancelCode E errorCode st.
Proof. by destruct st. Qed.

Lemma isClosed_false st : closeState_ st <> CLOSED -> isClosed st = false.
Proof. intros H. unfold isClosed. by apply bool_decide_eq_false_2. Qed.

Lemma isClosed_true st : closeState_ st = CLOSED -> isClosed st = true.
Proof. intros H. unfold isClosed. by apply bool_decide_eq_true_2. Qed.

(** The shape of a close on a connection that is not yet closed: the steps
    before the drain decision carry the state to [mid]; there the process
    has stopped, or the drain timer is scheduled, or the drain timeout is
    expired on the spot. *)
Lemma closeImpl_shape errorCode d s st :
  closeState_ st <> CLOSED ->
  let c := closeCancelCode E errorCode st in
  exists mid,
    carries c (set_closeState_ CLOSED st) mid
    /\ (closeImpl E errorCode d s st = Aborted mid
        \/ closeImpl E errorCode d s st
           = Done tt
               (if drainPermitted c d st
                then scheduleTimeout drainTimeout_ (drainTimeoutDuration E mid)
                       mid
                else drainTimeoutExpired mid)).
Proof.
  intros Hopen c. rewrite closeImpl_phases, (isClosed_false _ Hopen).
  cbv zeta.
  pose proof (carries_closeImplEntry c errorCode st) as Hentry.
  assert (Hc : closeCancelCode E errorCode (closeImplEntry errorCode st) = c).
  { rewrite (closeCancelCode_carried _ _ _ _ Hentry).
    apply closeCancelCode_set_closeState. }
  rewrite Hc.
  set (observed := when (socketObserverContainer st)
                     (log (closeStarted errorCode)) st).
  assert (Hobs : drainPermitted c d observed = drainPermitted c d st).
  { unfold drainPermitted, observed.
    destruct st as [[] ? ? ? obs ? ? ? ? ? ? ? ? ? ? ? ? ? ? ? ? ? ? ?].
    by destruct obs. }
  rewrite Hobs.
  set (stopped := closeImplStop _ _ _ _).
  assert (Hstopped : carries c (set_closeState_ CLOSED st) stopped).
  { eapply carries_trans; [exact Hentry | apply carries_closeImplStop]. }
  pose proof (carries_cancelAllAppCallbacks c stopped) as Hcancel.
  destruct (cancelAllAppCallbacks c stopped) as [[] st3 | st3]; simpl in *.
  - exists (closeImplTeardown E c s st3). split.
    + eapply carries_trans; [exact Hstopped |].
      eapply carries_trans; [exact Hcancel | apply carries_closeImplTeardown].
    + right. by destruct (drainPermitted c d st).
  - exists st3. split; [| by left].
    eapply carries_trans; [exact Hstopped | exact Hcancel].
Qed.

End CloseShape.

Section CloseTheorems.

Context (E : Externals).

Lemma closeEvent_delivered c e q :
  closeEvent c e = true -> deliveredError e = Some q -> q = c.
Proof.
  destruct e; simpl; intros Hc Hq; try discriminate;
    injection Hq as <-; by apply bool_decide_eq_true_1 in Hc.
Qed.

Lemma trace_set_closeState v st : trace_ (set_closeState_ v st) = trace_ st.
Proof. by destruct st. Qed.

Lemma drainTimeoutExpired_effect st :
  let st' := drainTimeoutExpired st in
  trace_ st' = trace_ st ++ drainExpiryEvents st
  /\ socket_ st' = None
  /\ timers_ st' = timers_ st
  /\ closeState_ st' = closeState_ st
  /\ conn_ st' = conn_ st.
Proof.
  unfold drainTimeoutExpired, closeUdpSocket, drainExpiryEvents.
  destruct st as [? ? ? sock obs ? ? ? ? ? ? ? ? ? ? ? ? ? ? ? ? ? ? ?].
  simpl. destruct sock; [destruct obs |]; simpl;
    rewrite <- ?app_assoc; auto.
Qed.

Lemma scheduleTimeout_effect t ms st :
  let st' := scheduleTimeout t ms st in
  socket_ st' = socket_ st
  /\ closeState_ st' = closeState_ st
  /\ conn_ st' = conn_ st
  /\ match evb_ st with
     | Some _ =>
         trace_ st' = trace_ st ++ [evbScheduleTimeout t ms]
         /\ timers_ st' !! t = Some ms
     | None => st' = st
     end.
Proof.
  unfold scheduleTimeout.
  destruct st as [? ? evb ? ? ? ? ? ? ? ? ? ? ? ? ? ? ? ? ? ? ? ? ?].
  simpl. destruct evb; simpl; repeat split; try reflexivity.
  apply lookup_insert_eq.
Qed.

Lemma drainExpiryEvents_spec st :
  Forall (fun e => deliveredError e = None
                   /\ forall t ms, e <> evbScheduleTimeout t ms)
    (drainExpiryEvents st)
  /\ last (drainExpiryEvents st) = Some unbindConnection
  /\ (is_Some (socket_ st) -> socketClose ∈ drainExpiryEvents st).
Proof.
  unfold drainExpiryEvents.
  destruct (socket_ st) as [b |]; [destruct (socketObserverContainer st) |];
    simpl; (split; [repeat constructor; discriminate |]);
    (split; [reflexivity |]); intros Hs.
  - set_solver.
  - set_solver.
  - by destruct Hs.
Qed.

Lemma drainPermitted_allowed c d st :
  drainPermitted c d st = true <-> drainAllowed c d st.
Proof.
  unfold drainPermitted, drainAllowed, isReset, isAbandon, isInvalidMigration.
  destruct d, (shouldDrain _), (code c) as [a | l | t]; simpl;
    try (split; [discriminate | intros (? & ? & ?); discriminate]);
    try (split; [intros _; repeat split; discriminate | reflexivity]).
  - repeat case_bool_decide; simpl; subst;
      (split; [try discriminate; intros _; repeat split; congruence
              | intros (_ & _ & ? & ? & ?); congruence ]).
  - repeat case_bool_decide; simpl; subst;
      (split; [try discriminate; intros _; repeat split; congruence
              | intros (_ & _ & ? & ? & ?); congruence ]).
Qed.

(** C4, as the code has it: on a connection that is not closed, [closeImpl]
    calls [scheduleTimeout] for the drain timer, with [kDrainFactor] times
    the PTO, exactly when [drainConnection] and [shouldDrain] hold and the
    cancel code is none of CONNECTION_RESET, CONNECTION_ABANDONED and
    INVALID_MIGRATION; the call arms the timer only while an event base is
    attached.  In every other case it runs [drainTimeoutExpired] on the
    spot, which closes the UDP socket if one is held and unbinds the
    connection. *)
Theorem closeImpl_drain_decision
    (errorCode : option QuicError) (drainConnection sendCloseImmediately : bool)
    (st st' : QuicTransportBase) :
  closeState_ st <> CLOSED ->
  closeImpl E errorCode drainConnection sendCloseImmediately st = Done tt st' ->
  let cancelCode := closeCancelCode E errorCode st in
  let allowed := drainAllowed cancelCode drainConnection st in
  let timeout :=
    ceil_milliseconds (kDrainFactor E * calculatePTO E (conn_ st')) in
  exists evs,
    trace_ st' = trace_ st ++ evs
    /\ (evbScheduleTimeout drainTimeout_ timeout ∈ evs
        <-> allowed /\ is_Some (evb_ st))
    /\ (forall t ms,
          evbScheduleTimeout t ms ∈ evs ->
          t = drainTimeout_ /\ ms = timeout
          /\ timers_ st' !! drainTimeout_ = Some timeout)
    /\ (allowed ->
        socket_ st' = socket_ st
        /\ (unbindConnection ∉ evs)
        /\ (evb_ st = None ->
            timers_ st' !! drainTimeout_ = timers_ st !! drainTimeout_))
    /\ (~ allowed ->
        socket_ st' = None
        /\ last evs = Some unbindConnection
        /\ (is_Some (socket_ st) -> socketClose ∈ evs)
        /\ timers_ st' !! drainTimeout_ = timers_ st !! drainTimeout_).
Proof.
  intros Hopen Hdone cancelCode allowed timeout.
  destruct (closeImpl_shape E errorCode drainConnection sendCloseImmediately
              st Hopen) as (mid & Hmid & Hres).
  fold cancelCode in Hmid, Hres.
  destruct (carries_trace _ _ _ Hmid) as (evs & Htr & Hevs).
  rewrite trace_set_closeState in Htr.
  rewrite Forall_forall in Hevs.
  pose proof (carries_evb _ _ _ Hmid) as Hevb.
  pose proof (carries_socket _ _ _ Hmid) as Hsock.
  pose proof (carries_drain _ _ _ Hmid) as Hdrain.
  pose proof (carries_observers _ _ _ Hmid) as Hobs.
  assert (Hevb' : evb_ mid = evb_ st) by (rewrite Hevb; by destruct st).
  assert (Hsock' : socket_ mid = socket_ st) by (rewrite Hsock; by destruct st).
  assert (Hdrain' : timers_ mid !! drainTimeout_ = timers_ st !! drainTimeout_)
    by (rewrite Hdrain; by destruct st).
  clear Hevb Hsock Hdrain.
  assert (Hquiet : forall e, e ∈ evs ->
            (forall t ms, e <> evbScheduleTimeout t ms)
            /\ e <> unbindConnection /\ e <> socketClose).
  { intros e He. specialize (Hevs e He).
    repeat split; intros; intros ->; discriminate. }
  destruct Hres as [Hres | Hres]; rewrite Hres in Hdone; [discriminate |].
  injection Hdone as Hst'.
  pose proof (drainPermitted_allowed cancelCode drainConnection st) as Hperm.
  fold allowed in Hperm.
  destruct (drainPermitted cancelCode drainConnection st); subst st'.
  - assert (Hallowed : allowed) by (by apply Hperm).
    pose proof (scheduleTimeout_effect drainTimeout_
                  (drainTimeoutDuration E mid) mid) as (Hs1 & _ & Hs3 & Hs).
    cbv zeta in Hs1, Hs3, Hs.
    assert (Htimeout : drainTimeoutDuration E mid = timeout).
    { subst timeout. by rewrite Hs3. }
    rewrite Htimeout in *.
    destruct (evb_ mid) as [evb |] eqn:Hmidevb.
    + destruct Hs as [Hs Htimer].
      exists (evs ++ [evbScheduleTimeout drainTimeout_ timeout]).
      split; [by rewrite Hs, Htr, app_assoc |].
      split; [| split; [| split]].
      * split.
        -- intros _. split; [exact Hallowed |]. rewrite <- Hevb'. by eexists.
        -- intros _. apply elem_of_app. right. by apply list_elem_of_singleton.
      * intros t ms [He | He]%elem_of_app.
        -- by destruct (Hquiet _ He) as [Hq _]; destruct (Hq t ms).
        -- apply list_elem_of_singleton in He. by injection He as -> ->.
      * intros _. split; [congruence |]. split; [| congruence].
        intros [He | He]%elem_of_app.
        -- by destruct (Hquiet _ He) as (_ & Hq & _).
        -- by apply list_elem_of_singleton in He.
      * intros Hno. by destruct Hno.
    + rewrite Hs. exists evs. split; [exact Htr |].
      split; [| split; [| split]].
      * split.
        -- intros He. by destruct (Hquiet _ He) as [Hq _];
             destruct (Hq drainTimeout_ timeout).
        -- intros [_ [evb Hsome]]. congruence.
      * intros t ms He. by destruct (Hquiet _ He) as [Hq _];
          destruct (Hq t ms).
      * intros _. split; [exact Hsock' |]. split; [| intros _; exact Hdrain'].
        intros He. by destruct (Hquiet _ He) as (_ & Hq & _).
      * intros Hno. by destruct Hno.
  - assert (Hno : ~ allowed) by (intros Ha; by apply Hperm in Ha).
    pose proof (drainTimeoutExpired_effect mid) as (Hs & Hs2 & Hs3 & _).
    pose proof (drainExpiryEvents_spec mid) as (Hnone & Hlast & Hclose).
    rewrite Forall_forall in Hnone. cbv zeta in Hs, Hs2, Hs3.
    exists (evs ++ drainExpiryEvents mid).
    split; [by rewrite Hs, Htr, app_assoc |].
    split; [| split; [| split]].
    + split.
      * intros [He | He]%elem_of_app.
        -- by destruct (Hquiet _ He) as [Hq _];
             destruct (Hq drainTimeout_ timeout).
        -- by destruct (Hnone _ He) as [_ Hq];
             destruct (Hq drainTimeout_ timeout).
      * intros [Ha _]. by destruct Hno.
    + intros t ms [He | He]%elem_of_app.
      * by destruct (Hquiet _ He) as [Hq _]; destruct (Hq t ms).
      * by destruct (Hnone _ He) as [_ Hq]; destruct (Hq t ms).
    + intros Ha. by destruct Hno.
    + intros _. split; [exact Hs2 |]. split; [| split].
      * unfold drainExpiryEvents. rewrite app_assoc. apply last_snoc.
      * intros Hsome. apply elem_of_app. right. apply Hclose. congruence.
      * rewrite Hs3. exact Hdrain'.
Qed.

Lemma closeImpl_leaves_closed errorCode d s st st' :
  closeImpl E errorCode d s st = Done tt st' -> closeState_ st' = CLOSED.
Proof.
  intros Hdone.
  destruct (decide (closeState_ st = CLOSED)) as [Hc | Hopen].
  - unfold closeImpl in Hdone. rewrite (isClosed_true _ Hc) in Hdone.
    by injection Hdone as <-.
  - destruct (closeImpl_shape E errorCode d s st Hopen) as (mid & Hmid & Hres).
    assert (Hclosed : closeState_ mid = CLOSED).
    { rewrite (carries_closeState _ _ _ Hmid). by destruct st. }
    destruct Hres as [Hres | Hres]; rewrite Hres in Hdone; [discriminate |].
    injection Hdone as <-.
    destruct (drainPermitted _ d st).
    + pose proof (scheduleTimeout_effect drainTimeout_
                    (drainTimeoutDuration E mid) mid) as (_ & Hs & _).
      cbv zeta in Hs. congruence.
    + pose proof (drainTimeoutExpired_effect mid) as (_ & _ & _ & Hs & _).
      cbv zeta in Hs. congruence.
Qed.

End CloseTheorems.

Example closeImpl_busy_trace :
  trace_ (finalState
            (closeImpl exampleExternals (Some exampleWriteError) true true
               exampleBusy))
  = let delivered :=
      mkQuicError (TransportError TransportErrorCode.INTERNAL_ERROR)
        "stream offset overflow" in
    [closeStarted (Some exampleWriteError); updatePacingOnClose;
     clearActionable; onByteEventCanceled 20 3 10 ACK;
     onByteEventCanceled 21 3 15 ACK; readError 7 0 delivered;
     peekError 8 0 delivered; onConnectionWriteError 11 delivered;
     onStreamWriteError 9 3 delivered; closeTransport; clearOpenStreams;
     clearPendingEvents; clearActionable; clearWritable; clearAcks;
     onConnectionError 100 delivered; resetOutstandings; writeData;
     evbScheduleTimeout drainTimeout_ 452].
Proof. vm_compute. reflexivity. Qed.

(** C4 at work: an open, attached connection closed with draining. *)
Lemma closeImpl_drain_decision_example :
  let st' :=
    finalState (closeImpl exampleExternals None true true exampleOpen) in
  exists evs,
    trace_ st' = trace_ exampleOpen ++ evs
    /\ (evbScheduleTimeout drainTimeout_ 452 ∈ evs
        <-> drainAllowed (closeCancelCode exampleExternals None exampleOpen)
              true exampleOpen
            /\ is_Some (evb_ exampleOpen))
    /\ (forall t ms,
          evbScheduleTimeout t ms ∈ evs ->
          t = drainTimeout_ /\ ms = 452
          /\ timers_ st' !! drainTimeout_ = Some 452)
    /\ (drainAllowed (closeCancelCode exampleExternals None exampleOpen)
          true exampleOpen ->
        socket_ st' = socket_ exampleOpen
        /\ (unbindConnection ∉ evs)
        /\ (evb_ exampleOpen = None ->
            timers_ st' !! drainTimeout_
            = timers_ exampleOpen !! drainTimeout_))
    /\ (~ drainAllowed (closeCancelCode exampleExternals None exampleOpen)
            true exampleOpen ->
        socket_ st' = None
        /\ last evs = Some unbindConnection
        /\ (is_Some (socket_ exampleOpen) -> socketClose ∈ evs)
        /\ timers_ st' !! drainTimeout_
           = timers_ exampleOpen !! drainTimeout_).
Proof.
  apply (closeImpl_drain_decision exampleExternals None true true exampleOpen
           (finalState (closeImpl exampleExternals None true true exampleOpen))).
  - vm_compute. discriminate.
  - vm_compute. reflexivity.
Defined.

(** C4, as stated: a detached connection is closed with draining permitted.
    No drain timer is armed, and [drainTimeoutExpired] does not run either:
    the socket stays and the connection is not unbound. *)
Lemma closeImpl_detached_neither_arms_nor_expires :
  let st' :=
    finalState (closeImpl exampleExternals None true true exampleDetached) in
  closeImpl exampleExternals None true true exampleDetached = Done tt st'
  /\ drainPermitted (closeCancelCode exampleExternals None exampleDetached)
       true exampleDetached = true
  /\ timers_ st' !! drainTimeout_ = None
  /\ socket_ st' = Some true
  /\ trace_ st'
     = [updatePacingOnClose; clearActionable; closeTransport;
        clearOpenStreams; clearPendingEvents; clearActionable; clearWritable;
        clearAcks; onConnectionEnd 100; resetOutstandings; writeData].
Proof. vm_compute. repeat split. Qed.

Section CallbackRegistry.

Context (E : Externals).

Lemma isOpen_true st : closeState_ st = OPEN -> isOpen st = true.
Proof. intros H. unfold isOpen. by apply bool_decide_eq_true_2. Qed.

Lemma isOpen_false st : closeState_ st <> OPEN -> isOpen st = false.
Proof. intros H. unfold isOpen. by apply bool_decide_eq_false_2. Qed.

Lemma streamExists_getStream id st :
  streamExists id st = true -> exists stream, getStream id st = Some stream.
Proof. unfold streamExists. intros H. by apply bool_decide_eq_true_1 in H. Qed.

(** [stopSending] answers with success once its own checks pass. *)
Lemma stopSending_succeeds id error st :
  isSendingStream E (nodeType (conn_ st)) id = false ->
  closeState_ st = OPEN ->
  streamExists id st = true ->
  exists st', stopSending E id error st = Done (Value tt) st'.
Proof.
  intros Hdir Hopen Hex. unfold stopSending.
  rewrite Hdir, (isOpen_true _ Hopen), Hex. simpl.
  destruct (streamExists_getStream _ _ Hex) as [stream ->].
  destruct (recvState stream); eauto.
Qed.

(** C3, as the code has it: [setReadCallback] returns INVALID_OPERATION for
    a sending-direction stream, CONNECTION_CLOSED when the stream can
    receive and [closeState_] is not Open, INVALID_OPERATION for a null
    callback on a stream that has no read-callback entry, and
    INVALID_OPERATION for a non-null callback on a stream whose registered
    read callback has already been set to null.  A null callback on such a
    stream is accepted. *)
Theorem setReadCallback_rejections
    (id : StreamId) (cb : option CallbackPtr)
    (err : option ApplicationErrorCode) (st : QuicTransportBase) :
  (isSendingStream E (nodeType (conn_ st)) id = true ->
   setReadCallback E id cb err st
   = Done (Unexpected LocalErrorCode.INVALID_OPERATION) st)
  /\ (isSendingStream E (nodeType (conn_ st)) id = false ->
      closeState_ st <> OPEN ->
      setReadCallback E id cb err st
      = Done (Unexpected LocalErrorCode.CONNECTION_CLOSED) st)
  /\ (isSendingStream E (nodeType (conn_ st)) id = false ->
      closeState_ st = OPEN ->
      streamExists id st = true ->
      (readCallbacks_ st !! id = None ->
       setReadCallback E id None err st
       = Done (Unexpected LocalErrorCode.INVALID_OPERATION) st)
      /\ (forall data c,
            readCallbacks_ st !! id = Some data -> readCb data = None ->
            setReadCallback E id (Some c) err st
            = Done (Unexpected LocalErrorCode.INVALID_OPERATION) st)
      /\ (forall data,
            readCallbacks_ st !! id = Some data -> readCb data = None ->
            exists st', setReadCallback E id None err st = Done (Value tt) st')).
Proof.
  unfold setReadCallback. split; [| split].
  - by intros ->.
  - intros -> Hclosed. by rewrite (isOpen_false _ Hclosed).
  - intros Hdir Hopen Hex.
    rewrite Hdir, (isOpen_true _ Hopen), Hex. cbn [negb].
    unfold setReadCallbackInternal. split; [| split].
    + by intros ->.
    + intros data c -> ->. reflexivity.
    + intros data -> ->. cbn [is_nullptr negb andb].
      destruct err as [e |]; [| eauto].
      apply stopSending_succeeds.
      * by destruct st.
      * by destruct st.
      * unfold streamExists, getStream in *. by destruct st.
Qed.

(** C10: with a null callback, on an open connection and an existing stream
    that is not receive-only, [registerByteEventCallback] (and so
    [registerDeliveryCallback] and [registerTxCallback]) returns success and
    leaves the transport as it was: the byte-event maps are unchanged and
    nothing is added to the trace, so [onByteEventRegistered] is not
    invoked. *)
Theorem registerByteEventCallback_null_callback
    (type : ByteEventType) (id : StreamId) (o : Z) (st : QuicTransportBase) :
  isReceivingStream E (nodeType (conn_ st)) id = false ->
  closeState_ st = OPEN ->
  streamExists id st = true ->
  registerByteEventCallback E type id o None st = Done (Value tt) st
  /\ registerDeliveryCallback E id o None st = Done (Value tt) st
  /\ registerTxCallback E id o None st = Done (Value tt) st
  /\ forall ty st',
       registerByteEventCallback E ty id o None st = Done (Value tt) st' ->
       deliveryCallbacks_ st' = deliveryCallbacks_ st
       /\ txCallbacks_ st' = txCallbacks_ st
       /\ trace_ st' = trace_ st.
Proof.
  intros Hdir Hopen Hex.
  assert (H : forall ty,
            registerByteEventCallback E ty id o None st = Done (Value tt) st).
  { intros ty. unfold registerByteEventCallback.
    by rewrite Hdir, (isOpen_true _ Hopen), Hex. }
  repeat split; try apply H; rewrite H in *; congruence.
Qed.

Lemma existsb_sameByteEvent o cb q :
  (exists p, p ∈ q /\ offset p = o /\ callback p = cb) ->
  existsb (sameByteEvent o cb) q = true.
Proof.
  intros (p & Hp & Ho & Hcb). apply existsb_exists. exists p. split.
  - by apply list_elem_of_In.
  - unfold sameByteEvent. rewrite Ho, Hcb, Z.eqb_refl, Nat.eqb_refl.
    reflexivity.
Qed.

Lemma registerByteEventCallback_duplicate_before type id o cb q st :
  isReceivingStream E (nodeType (conn_ st)) id = false ->
  closeState_ st = OPEN ->
  streamExists id st = true ->
  getByteEventMap type st !! id = Some q ->
  (exists p, p ∈ take (upper_bound q o) q /\ offset p = o /\ callback p = cb) ->
  registerByteEventCallback E type id o (Some cb) st
  = Done (Unexpected LocalErrorCode.INVALID_OPERATION) st.
Proof.
  intros Hdir Hopen Hex Hq Hdup. unfold registerByteEventCallback.
  rewrite Hdir, (isOpen_true _ Hopen), Hex, Hq. simpl.
  rewrite (existsb_sameByteEvent _ _ _ Hdup).
  destruct (upper_bound q o) eqn:Hpos; [| reflexivity].
  destruct Hdup as (p & Hp & _). rewrite take_0 in Hp. by inversion Hp.
Qed.

(** C6: on an open connection and an existing stream,
    [registerByteEventCallback] returns INVALID_OPERATION and leaves the
    transport, and with it the byte-event queue, as it was, whenever the
    queue of (type, id) holds an entry with the same offset and the same
    callback before the insertion point for the offset. *)
Theorem registerByteEventCallback_rejects_duplicate
    (type : ByteEventType) (id : StreamId) (o : Z) (cb : CallbackPtr)
    (q : list ByteEventDetail) (st : QuicTransportBase) :
  closeState_ st = OPEN ->
  streamExists id st = true ->
  getByteEventMap type st !! id = Some q ->
  (exists p, p ∈ take (upper_bound q o) q /\ offset p = o /\ callback p = cb) ->
  registerByteEventCallback E type id o (Some cb) st
  = Done (Unexpected LocalErrorCode.INVALID_OPERATION) st.
Proof.
  intros Hopen Hex Hq Hdup.
  destruct (isReceivingStream E (nodeType (conn_ st)) id) eqn:Hdir.
  - unfold registerByteEventCallback. by rewrite Hdir.
  - by apply (registerByteEventCallback_duplicate_before type id o cb q).
Qed.

End CallbackRegistry.

(** C3, as stated: a read callback is registered on stream 0 and then set
    to null; setting it to null once more is accepted, not rejected. *)
Lemma setReadCallback_null_after_null_accepted :
  exists st1 st2 st3,
    setReadCallback exampleExternals 0 (Some 7%nat) None exampleOpen
      = Done (Value tt) st1
    /\ setReadCallback exampleExternals 0 None None st1 = Done (Value tt) st2
    /\ readCb <$> readCallbacks_ st2 !! 0 = Some None
    /\ setReadCallback exampleExternals 0 None None st2 = Done (Value tt) st3
    /\ setReadCallback exampleExternals 0 None None st2
       <> Done (Unexpected LocalErrorCode.INVALID_OPERATION) st2.
Proof.
  eexists. eexists. eexists.
  split; [vm_compute; reflexivity |].
  split; [vm_compute; reflexivity |].
  split; [vm_compute; reflexivity |].
  split; [vm_compute; reflexivity |].
  vm_compute. discriminate.
Qed.

(** C10 at work: a server registers a null delivery callback on its own
    unidirectional stream 3. *)
Lemma registerByteEventCallback_null_callback_example :
  registerByteEventCallback exampleExternals ACK 3 5 None exampleOpen
    = Done (Value tt) exampleOpen
  /\ registerDeliveryCallback exampleExternals 3 5 None exampleOpen
     = Done (Value tt) exampleOpen
  /\ registerTxCallback exampleExternals 3 5 None exampleOpen
     = Done (Value tt) exampleOpen
  /\ forall ty st',
       registerByteEventCallback exampleExternals ty 3 5 None exampleOpen
         = Done (Value tt) st' ->
       deliveryCallbacks_ st' = deliveryCallbacks_ exampleOpen
       /\ txCallbacks_ st' = txCallbacks_ exampleOpen
       /\ trace_ st' = trace_ exampleOpen.
Proof.
  apply (registerByteEventCallback_null_callback exampleExternals ACK 3 5
           exampleOpen); vm_compute; reflexivity.
Defined.

(** C6 at work: callback 21 is already registered at offset 15 of stream 3;
    registering it there again is rejected. *)
Lemma registerByteEventCallback_rejects_duplicate_example :
  registerByteEventCallback exampleExternals ACK 3 15 (Some 21%nat) exampleBusy
  = Done (Unexpected LocalErrorCode.INVALID_OPERATION) exampleBusy.
Proof.
  apply (registerByteEventCallback_rejects_duplicate exampleExternals ACK 3 15
           21%nat [mkByteEventDetail 10 20%nat; mkByteEventDetail 15 21%nat]
           exampleBusy).
  - vm_compute. reflexivity.
  - vm_compute. reflexivity.
  - vm_compute. reflexivity.
  - exists (mkByteEventDetail 15 21%nat). split; [| split; reflexivity].
    simpl. apply list_elem_of_further, list_elem_of_here.
Defined.

Section ByteEventOrder.

Context (E : Externals).

Lemma queueSorted_strong q :
  queueSorted q <-> StronglySorted Z.le (offset <$> q).
Proof.
  split.
  - apply Sorted_StronglySorted. intros x y z. apply Z.le_trans.
  - apply StronglySorted_Sorted.
Qed.

Lemma emplace_at_cons k d p rest :
  emplace_at (S k) d (p :: rest) = p :: emplace_at k d rest.
Proof. reflexivity. Qed.

Lemma Forall_emplace_at (P : ByteEventDetail -> Prop) k d q :
  P d -> Forall P q -> Forall P (emplace_at k d q).
Proof.
  intros Hd Hq. unfold emplace_at. apply Forall_app. split.
  - by apply Forall_take.
  - constructor; [exact Hd | by apply Forall_drop].
Qed.

(** Inserting at [upper_bound] keeps a queue ordered. *)
Lemma emplace_at_upper_bound_sorted q o cb :
  queueSorted q ->
  queueSorted (emplace_at (upper_bound q o) (mkByteEventDetail o cb) q).
Proof.
  rewrite !queueSorted_strong.
  induction q as [| p rest IH]; intros Hs.
  - simpl. repeat constructor.
  - rewrite fmap_cons in Hs.
    apply StronglySorted_cons in Hs as [Hp Hrest]. simpl upper_bound.
    destruct (Z.ltb_spec o (offset p)) as [Hlt | Hge].
    + change (emplace_at 0 (mkByteEventDetail o cb) (p :: rest))
        with (mkByteEventDetail o cb :: p :: rest).
      rewrite !fmap_cons. apply StronglySorted_cons. split.
      * constructor; [simpl; lia |].
        eapply Forall_impl; [exact Hp |]. simpl. intros; lia.
      * apply StronglySorted_cons. exact (conj Hp Hrest).
    + rewrite emplace_at_cons, fmap_cons. apply StronglySorted_cons. split.
      * apply Forall_fmap. apply Forall_emplace_at; [simpl; lia |].
        by apply Forall_fmap.
      * by apply IH.
Qed.

Lemma StronglySorted_delete (l : list Z) i :
  StronglySorted Z.le l -> StronglySorted Z.le (delete i l).
Proof.
  intros Hs. rewrite delete_take_drop.
  rewrite <- (take_drop i l) in Hs.
  apply StronglySorted_app in Hs as (Hcross & Hl & Hr).
  apply StronglySorted_app. split; [| split].
  - intros x y Hx Hy. apply Hcross; [exact Hx |].
    replace (S i) with (i + 1)%nat in Hy by lia.
    rewrite <- drop_drop in Hy.
    eapply elem_of_sublist; [exact Hy | apply sublist_drop].
  - exact Hl.
  - replace (S i) with (i + 1)%nat by lia. rewrite <- drop_drop.
    rewrite <- (take_drop 1 (drop i l)) in Hr.
    by apply StronglySorted_app in Hr as (_ & _ & Hr).
Qed.

Lemma queueSorted_delete q i : queueSorted q -> queueSorted (delete i q).
Proof.
  rewrite !queueSorted_strong, list_fmap_delete. apply StronglySorted_delete.
Qed.

(** The cancellation walk pops from the front: what is left is a suffix. *)
Lemma cancelWalk_suffix open type id o q :
  exists popped, q = popped ++ (cancelWalk open type id o q).1.1.
Proof.
  induction q as [| front rest IH]; simpl.
  - by exists [].
  - destruct (match o with Some o0 => offset front <? o0 | None => true end).
    + destruct open; simpl.
      * destruct IH as [popped Hp].
        destruct (cancelWalk true type id o rest) as [[q' evs] early].
        simpl in *. exists (front :: popped). by rewrite Hp at 1.
      * by exists [front].
    + by exists [].
Qed.

Lemma queueSorted_suffix popped q : queueSorted (popped ++ q) -> queueSorted q.
Proof.
  rewrite !queueSorted_strong, fmap_app. apply StronglySorted_app_1_r.
Qed.

Lemma cancelWalk_sorted open type id o q :
  queueSorted q -> queueSorted (cancelWalk open type id o q).1.1.
Proof.
  intros Hs. destruct (cancelWalk_suffix open type id o q) as [popped Hp].
  rewrite Hp in Hs. by apply queueSorted_suffix in Hs.
Qed.

(** In an ordered queue every entry at offset [o] lies before the insertion
    point for [o]. *)
Lemma sorted_entry_before_upper_bound q o p :
  queueSorted q -> p ∈ q -> offset p = o -> p ∈ take (upper_bound q o) q.
Proof.
  rewrite queueSorted_strong.
  induction q as [| front rest IH]; intros Hs Hin Ho; [by inversion Hin |].
  rewrite fmap_cons in Hs. apply StronglySorted_cons in Hs as [Hfront Hrest].
  simpl upper_bound.
  apply elem_of_cons in Hin as [-> | Hin].
  - destruct (Z.ltb_spec o (offset front)); [lia |]. apply list_elem_of_here.
  - assert (offset front <= offset p).
    { rewrite Forall_forall in Hfront. apply Hfront.
      by apply list_elem_of_fmap_2. }
    destruct (Z.ltb_spec o (offset front)); [lia |].
    simpl. apply list_elem_of_further. by apply IH.
Qed.

(** So while the queues are ordered, no (offset, callback) pair can be
    registered twice for the same type and stream. *)
Lemma registerByteEventCallback_rejects_registered type id o cb q st :
  isReceivingStream E (nodeType (conn_ st)) id = false ->
  closeState_ st = OPEN ->
  streamExists id st = true ->
  byteEventsSorted st ->
  getByteEventMap type st !! id = Some q ->
  mkByteEventDetail o cb ∈ q ->
  registerByteEventCallback E type id o (Some cb) st
  = Done (Unexpected LocalErrorCode.INVALID_OPERATION) st.
Proof.
  intros Hdir Hopen Hex Hs Hq Hin.
  apply (registerByteEventCallback_duplicate_before E type id o cb q st);
    try assumption.
  exists (mkByteEventDetail o cb). split; [| by split].
  apply sorted_entry_before_upper_bound; [by apply (Hs type id) | exact Hin |].
  reflexivity.
Qed.

Lemma byteEventsSorted_empty st :
  deliveryCallbacks_ st = ∅ -> txCallbacks_ st = ∅ -> byteEventsSorted st.
Proof.
  intros Hd Ht [] id q; simpl; [rewrite Hd | rewrite Ht];
    by rewrite lookup_empty.
Qed.

Lemma getByteEventMap_setByteEventMap ty ty' m st :
  getByteEventMap ty' (setByteEventMap ty m st)
  = if decide (ty' = ty) then m else getByteEventMap ty' st.
Proof. by destruct ty, ty', st. Qed.

Lemma byteEventsSorted_same st st' :
  deliveryCallbacks_ st' = deliveryCallbacks_ st ->
  txCallbacks_ st' = txCallbacks_ st ->
  byteEventsSorted st -> byteEventsSorted st'.
Proof.
  intros Hd Ht Hs [] id q; simpl; [rewrite Hd | rewrite Ht].
  - apply (Hs ACK id q).
  - apply (Hs TX id q).
Qed.

Lemma byteEventsSorted_log e st :
  byteEventsSorted st -> byteEventsSorted (log e st).
Proof. apply byteEventsSorted_same; by destruct st. Qed.

Lemma byteEventsSorted_trace evs st :
  byteEventsSorted st -> byteEventsSorted (set_trace_ evs st).
Proof. apply byteEventsSorted_same; by destruct st. Qed.

Lemma byteEventsSorted_insert ty id q st :
  byteEventsSorted st -> queueSorted q ->
  byteEventsSorted (setByteEventMap ty (<[id := q]> (getByteEventMap ty st)) st).
Proof.
  intros Hs Hq ty' id' q'. rewrite getByteEventMap_setByteEventMap.
  destruct (decide (ty' = ty)) as [-> |]; [| apply Hs].
  rewrite lookup_insert. destruct (decide (id = id')) as [-> |].
  - by intros [= <-].
  - apply Hs.
Qed.

Lemma byteEventsSorted_delete ty id st :
  byteEventsSorted st ->
  byteEventsSorted (setByteEventMap ty (delete id (getByteEventMap ty st)) st).
Proof.
  intros Hs ty' id' q'. rewrite getByteEventMap_setByteEventMap.
  destruct (decide (ty' = ty)) as [-> |]; [| apply Hs].
  rewrite lookup_delete. destruct (decide (id = id')); [discriminate |].
  apply Hs.
Qed.

Lemma registerByteEventCallback_sorted type id o cb st :
  byteEventsSorted st ->
  byteEventsSorted (finalState (registerByteEventCallback E type id o cb st)).
Proof.
  intros Hs. unfold registerByteEventCallback.
  destruct (isReceivingStream _ _ _); [exact Hs |].
  destruct (negb (isOpen st)); [exact Hs |].
  destruct (negb (streamExists id st)); [exact Hs |].
  destruct cb as [cb |]; [| exact Hs].
  set (inserted := match getByteEventMap type st !! id with
                   | Some q => _ | None => _ end).
  assert (Hins : forall m, inserted = Some m ->
            byteEventsSorted (setByteEventMap type m st)).
  { subst inserted. intros m.
    destruct (getByteEventMap type st !! id) as [q |] eqn:Hq.
    - destruct (_ && _); [discriminate |]. intros [= <-].
      apply byteEventsSorted_insert; [exact Hs |].
      apply emplace_at_upper_bound_sorted. by apply (Hs type id).
    - intros [= <-]. apply byteEventsSorted_insert; [exact Hs |].
      unfold queueSorted. simpl. repeat constructor. }
  destruct inserted as [m |]; [| exact Hs].
  specialize (Hins m eq_refl).
  destruct (getStream id _) as [stream |]; [| exact Hins].
  set (st1 := log _ _).
  assert (H1 : byteEventsSorted st1) by (by apply byteEventsSorted_log).
  destruct (match type with ACK => _ | TX => _ end) as [ready |];
    [| exact H1].
  destruct (o <=? ready); [| exact H1].
  unfold runOnEvbAsync. destruct (evb_ st1); simpl; [| exact H1].
  eapply byteEventsSorted_same; [| | exact H1]; by destruct st1.
Qed.

Lemma cancelByteEventCallbacksForStream_sorted type id o st :
  byteEventsSorted st ->
  byteEventsSorted (cancelByteEventCallbacksForStream E type id o st).
Proof.
  intros Hs. unfold cancelByteEventCallbacksForStream.
  destruct (isReceivingStream _ _ _); [exact Hs |].
  destruct (getByteEventMap type st !! id) as [q |] eqn:Hq;
    [| by apply byteEventsSorted_log].
  pose proof (cancelWalk_sorted (isOpen st) type id o q (Hs _ _ _ Hq)) as Hw.
  destruct (cancelWalk (isOpen st) type id o q) as [[q' evs] early].
  simpl in Hw.
  set (st1 := set_trace_ _ _).
  assert (H1 : byteEventsSorted st1).
  { subst st1. apply byteEventsSorted_trace.
    by apply byteEventsSorted_insert. }
  destruct early; [exact H1 |].
  destruct q'; [| exact H1].
  set (st2 := log _ st1).
  assert (H2 : byteEventsSorted st2) by (by apply byteEventsSorted_log).
  by apply byteEventsSorted_delete.
Qed.

Lemma runLoopCallback_sorted c st :
  byteEventsSorted st -> byteEventsSorted (runLoopCallback c st).
Proof.
  intros Hs. unfold runLoopCallback.
  destruct (negb (bool_decide _)); [exact Hs |].
  destruct (negb (isOpen st)); [exact Hs |].
  destruct (getByteEventMap (readyType c) st !! readyId c) as [q |] eqn:Hq;
    [| exact Hs].
  destruct (find_if _ q) as [pos |]; [| exact Hs].
  apply byteEventsSorted_log, byteEventsSorted_insert; [exact Hs |].
  apply queueSorted_delete. by apply (Hs _ _ _ Hq).
Qed.

Lemma applyByteEventOp_sorted op st :
  byteEventsSorted st -> byteEventsSorted (applyByteEventOp E st op).
Proof.
  destruct op; simpl.
  - apply registerByteEventCallback_sorted.
  - apply cancelByteEventCallbacksForStream_sorted.
  - apply runLoopCallback_sorted.
Qed.

(** C2: when the offsets of every (type, stream) queue are in non-decreasing
    order, they still are after any [registerByteEventCallback] and after
    any [cancelByteEventCallbacksForStream], and so after any series of
    registrations, cancellations and loop callbacks. *)
Theorem byteEvent_queues_stay_sorted (st : QuicTransportBase) :
  byteEventsSorted st ->
  (forall type id o cb,
     byteEventsSorted
       (finalState (registerByteEventCallback E type id o cb st)))
  /\ (forall type id o,
        byteEventsSorted (cancelByteEventCallbacksForStream E type id o st))
  /\ (forall ops, byteEventsSorted (foldl (applyByteEventOp E) st ops)).
Proof.
  intros Hs. split; [| split].
  - intros. by apply registerByteEventCallback_sorted.
  - intros. by apply cancelByteEventCallbacksForStream_sorted.
  - intros ops. revert st Hs. induction ops as [| op ops IH]; intros st Hs.
    + exact Hs.
    + simpl. apply IH. by apply applyByteEventOp_sorted.
Qed.

End ByteEventOrder.

(** C2 at work: the queue of stream 3 of [exampleBusy] is ordered, and stays
    so. *)
Lemma byteEvent_queues_stay_sorted_example :
  (forall type id o cb,
     byteEventsSorted
       (finalState
          (registerByteEventCallback exampleExternals type id o cb
             exampleBusy)))
  /\ (forall type id o,
        byteEventsSorted
          (cancelByteEventCallbacksForStream exampleExternals type id o
             exampleBusy))
  /\ (forall ops,
        byteEventsSorted
          (foldl (applyByteEventOp exampleExternals) exampleBusy ops)).
Proof.
  apply (byteEvent_queues_stay_sorted exampleExternals exampleBusy).
  intros type id q. destruct type; simpl.
  - intros [[_ <-] | [_ H]]%lookup_insert_Some.
    + unfold queueSorted. simpl. repeat constructor. lia.
    + by rewrite lookup_empty in H.
  - intros H. by rewrite lookup_empty in H.
Defined.

(** Registrations out of order, then a cancellation below offset 20. *)
Example byteEvent_queue_example :
  let st :=
    foldl (applyByteEventOp exampleExternals) exampleOpen
      [OpRegister ACK 3 30 (Some 1%nat); OpRegister ACK 3 10 (Some 2%nat);
       OpRegister ACK 3 20 (Some 3%nat); OpRegister ACK 3 20 (Some 4%nat);
       OpRegister ACK 3 20 (Some 3%nat)] in
  deliveryCallbacks_ st !! 3
  = Some [mkByteEventDetail 10 2%nat; mkByteEventDetail 20 3%nat;
          mkByteEventDetail 20 4%nat; mkByteEventDetail 30 1%nat]
  /\ deliveryCallbacks_
       (cancelByteEventCallbacksForStream exampleExternals ACK 3 (Some 20) st)
     !! 3
     = Some [mkByteEventDetail 20 3%nat; mkByteEventDetail 20 4%nat;
             mkByteEventDetail 30 1%nat].
Proof. vm_compute. split; reflexivity. Qed.

(** A registration for an offset that is already delivered queues a closure
    on the event base; when the loop runs it, the entry is erased and the
    callback fires. *)
Example byteEvent_ready_example :
  let st1 :=
    finalState
      (registerByteEventCallback exampleExternals ACK 3 50 (Some 5%nat)
         exampleReady) in
  let st2 := runLoopCallback (mkLoopCallback 1 3 5 50 ACK) st1 in
  evbLoop_ st1 = [mkLoopCallback 1 3 5 50 ACK]
  /\ deliveryCallbacks_ st1 !! 3 = Some [mkByteEventDetail 50 5%nat]
  /\ trace_ st1 = [onByteEventRegistered 5 3 50 ACK]
  /\ deliveryCallbacks_ st2 !! 3 = Some []
  /\ trace_ st2 = [onByteEventRegistered 5 3 50 ACK; onByteEvent 5 3 50 ACK].
Proof. vm_compute. repeat split. Qed.

Section EcnValidation.

Context (E : Externals).

Ltac ecn_cases H :=
  repeat match type of H with
         | context [if ?b then _ else _] => destruct b eqn:?; simpl in H
         | context [match ?s with Some _ => _ | None => _ end] =>
             destruct s as [[] |] eqn:?; simpl in H
         end.

Lemma count_occ_filter_out (l : list PacketProcessor) :
  count_occ PacketProcessor_eq_dec
    (filter (fun pp => pp <> EcnL4sTracker) l) EcnL4sTracker = 0%nat.
Proof.
  apply count_occ_not_In. rewrite <- list_elem_of_In.
  intros [H _]%list_elem_of_filter. by apply H.
Qed.

Lemma validateECNState_effects st st' :
  validateECNState E st = Done tt st' ->
  (ecnState (conn_ st) <> FailedValidation ->
   ecnState (conn_ st') = FailedValidation ->
   ecn (socketTos (conn_ st')) = 0
   /\ dscp (socketTos (conn_ st')) = dscp (socketTos (conn_ st))
   /\ socket_ st = Some true
   /\ trace_ st'
      = trace_ st
        ++ [socketSetTosOrTrafficClass (tosValue (socketTos (conn_ st')))]
   /\ ecnL4sTracker (conn_ st') = false
   /\ packetProcessors (conn_ st')
      = if ecnL4sTracker (conn_ st)
        then filter (fun pp => pp <> EcnL4sTracker) (packetProcessors (conn_ st))
        else packetProcessors (conn_ st))
  /\ (ecnState (conn_ st') <> FailedValidation ->
      trace_ st' = trace_ st
      /\ socketTos (conn_ st') = socketTos (conn_ st)
      /\ packetProcessors (conn_ st')
         = (if bool_decide (ecnState (conn_ st) <> ValidatedL4S)
               && bool_decide (ecnState (conn_ st') = ValidatedL4S)
               && negb (ecnL4sTracker (conn_ st))
            then packetProcessors (conn_ st) ++ [EcnL4sTracker]
            else packetProcessors (conn_ st))
      /\ ecnL4sTracker (conn_ st')
         = (ecnL4sTracker (conn_ st)
            || bool_decide (ecnState (conn_ st) <> ValidatedL4S)
               && bool_decide (ecnState (conn_ st') = ValidatedL4S))).
Proof.
  intros H. unfold validateECNState in H.
  destruct st as [[? ? ? ? ? ack ? s ? trk ? ? ? ? ? ? ? ? ? ?]
                    ? ? sock ? ? ? ? ? ? ? ? ? ? ? ? ? ? ? ? ? ? ? ?].
  simpl in *.
  destruct s, trk; simpl in H; ecn_cases H;
    try discriminate; injection H as <-; simpl;
    (split; [intros Hnot Hfail | intros Hok]);
    try congruence; try (by destruct Hnot); try (by destruct Hok);
    repeat split; try reflexivity.
Qed.

Lemma validateECNState_returns st :
  socket_ st = Some true -> exists st', validateECNState E st = Done tt st'.
Proof.
  intros Hs. unfold validateECNState.
  destruct st as [[? ? ? ? ? ack ? s ? trk ? ? ? ? ? ? ? ? ? ?]
                    ? ? sock ? ? ? ? ? ? ? ? ? ? ? ? ? ? ? ? ? ? ? ?].
  simpl in *. subst sock.
  destruct s, trk; simpl;
    repeat match goal with
           | |- context [if ?b then _ else _] => destruct b; simpl
           end; eauto.
Qed.

Lemma validateECNState_after_failure st :
  ecnState (conn_ st) = FailedValidation -> validateECNState E st = Done tt st.
Proof. intros H. unfold validateECNState. by rewrite H. Qed.

Lemma tosValue_ecn_cleared t : ecn t = 0 -> Z.land (tosValue t) 3 = 0.
Proof.
  intros H. unfold tosValue. rewrite H. simpl Z.land at 2.
  rewrite Z.lor_0_r. change 3 with (Z.ones 2).
  rewrite Z.land_ones by lia. rewrite Z.shiftl_mul_pow2 by lia.
  apply Z.mod_mul. lia.
Qed.

Lemma validateECNState_consistent st st' :
  validateECNState E st = Done tt st' ->
  trackerConsistent st -> trackerConsistent st'.
Proof.
  intros H Hc. unfold trackerConsistent, trackerInstalls in *.
  destruct (decide (ecnState (conn_ st) = FailedValidation)) as [Hf | Hnf].
  { rewrite (validateECNState_after_failure _ Hf) in H.
    by injection H as <-. }
  destruct (validateECNState_effects _ _ H) as [Hfail Hok].
  destruct (decide (ecnState (conn_ st') = FailedValidation)) as [Hf' | Hnf'].
  - destruct (Hfail Hnf Hf') as (_ & _ & _ & _ & Htrk & Hpp).
    rewrite Htrk, Hpp.
    destruct (ecnL4sTracker (conn_ st)); [apply count_occ_filter_out | exact Hc].
  - destruct (Hok Hnf') as (_ & _ & Hpp & Htrk).
    rewrite Htrk, Hpp.
    destruct (ecnL4sTracker (conn_ st)); simpl.
    + rewrite andb_false_r. exact Hc.
    + rewrite andb_true_r.
      destruct (bool_decide (ecnState (conn_ st) <> ValidatedL4S)
                && bool_decide (ecnState (conn_ st') = ValidatedL4S));
        [| exact Hc].
      rewrite count_occ_app, Hc. simpl.
      by destruct (PacketProcessor_eq_dec EcnL4sTracker EcnL4sTracker).
Qed.

Lemma recordEcnCounts_consistent ack sent st :
  trackerConsistent st -> trackerConsistent (recordEcnCounts ack sent st).
Proof.
  unfold trackerConsistent, trackerInstalls, recordEcnCounts.
  by destruct st as [[] ? ? ? ? ? ? ? ? ? ? ? ? ? ? ? ? ? ? ? ? ? ? ?].
Qed.

Lemma validateECNRounds_consistent rounds st st' :
  validateECNRounds E rounds st = Done tt st' ->
  trackerConsistent st -> trackerConsistent st'.
Proof.
  revert st. induction rounds as [| [ack sent] rest IH]; intros st H Hc.
  - simpl in H. by injection H as <-.
  - simpl in H.
    destruct (validateECNState E (recordEcnCounts ack sent st))
      as [[] st1 | st1] eqn:Hv; simpl in H; [| discriminate].
    apply (IH st1 H).
    eapply validateECNState_consistent; [exact Hv |].
    by apply recordEcnCounts_consistent.
Qed.

(** C7: whenever [validateECNState] moves [ecnState] to FailedValidation, it
    has set the ecn field of the socket TOS to 0 and pushed the updated TOS
    value to the UDP socket, and a tracker that was installed is no longer
    among the packet processors and has been reset.  Validation returns
    whenever the socket is bound.  A successful L4S validation appends the
    tracker only if none is installed, so over any series of validations
    the tracker is among the packet processors at most once. *)
Theorem validateECNState_failure_and_tracker (st : QuicTransportBase) :
  (forall st',
     validateECNState E st = Done tt st' ->
     ecnState (conn_ st) <> FailedValidation ->
     ecnState (conn_ st') = FailedValidation ->
     ecn (socketTos (conn_ st')) = 0
     /\ Z.land (tosValue (socketTos (conn_ st'))) 3 = 0
     /\ trace_ st'
        = trace_ st
          ++ [socketSetTosOrTrafficClass (tosValue (socketTos (conn_ st')))]
     /\ ecnL4sTracker (conn_ st') = false
     /\ (ecnL4sTracker (conn_ st) = true ->
         (EcnL4sTracker ∉ packetProcessors (conn_ st'))
         /\ forall p,
              AppPacketProcessor p ∈ packetProcessors (conn_ st')
              <-> AppPacketProcessor p ∈ packetProcessors (conn_ st)))
  /\ (socket_ st = Some true -> exists st', validateECNState E st = Done tt st')
  /\ (forall st',
        validateECNState E st = Done tt st' ->
        ecnState (conn_ st) <> ValidatedL4S ->
        ecnState (conn_ st') = ValidatedL4S ->
        packetProcessors (conn_ st')
        = if ecnL4sTracker (conn_ st)
          then packetProcessors (conn_ st)
          else packetProcessors (conn_ st) ++ [EcnL4sTracker])
  /\ (forall rounds st',
        trackerConsistent st ->
        validateECNRounds E rounds st = Done tt st' ->
        (trackerInstalls st' <= 1)%nat).
Proof.
  split; [| split; [| split]].
  - intros st' H Hnf Hf.
    destruct (validateECNState_effects _ _ H) as [Hfail _].
    destruct (Hfail Hnf Hf) as (Hecn & _ & _ & Htr & Htrk & Hpp).
    split; [exact Hecn |]. split; [by apply tosValue_ecn_cleared |].
    split; [exact Htr |]. split; [exact Htrk |].
    intros Hwas. rewrite Hwas in Hpp. rewrite Hpp. split.
    + intros [Hne _]%list_elem_of_filter. by apply Hne.
    + intros p. rewrite list_elem_of_filter. split; [by intros [_ ?] |].
      intros Hin. split; [discriminate | exact Hin].
  - apply validateECNState_returns.
  - intros st' H Hnot Hval.
    destruct (validateECNState_effects _ _ H) as [_ Hok].
    destruct Hok as (_ & _ & -> & _); [congruence |].
    rewrite (bool_decide_eq_true_2 _ Hnot), (bool_decide_eq_true_2 _ Hval).
    by destruct (ecnL4sTracker (conn_ st)).
  - intros rounds st' Hc H.
    pose proof (validateECNRounds_consistent _ _ _ H Hc) as Hc'.
    unfold trackerConsistent in Hc'. rewrite Hc'.
    destruct (ecnL4sTracker (conn_ st')); lia.
Qed.

End EcnValidation.

(** C7 at work: L4S is attempted; fifteen packets were sent and echoed as
    ECT1 or CE, so the tracker is installed; later an ECT0 mark is echoed,
    validation fails, the ECN field of the TOS byte is cleared on the socket
    and the tracker is removed. *)
Example validateECNState_l4s_then_failure :
  let rounds := [(mkAckState 15 2 0 13, 15); (mkAckState 16 2 0 14, 16);
                 (mkAckState 17 2 1 14, 17)] in
  let st0 := exampleL4S (mkAckState 0 0 0 0) 0 in
  exists st1 st2 st3,
    validateECNRounds exampleExternals (take 1 rounds) st0 = Done tt st1
    /\ validateECNRounds exampleExternals (take 2 rounds) st0 = Done tt st2
    /\ validateECNRounds exampleExternals rounds st0 = Done tt st3
    /\ ecnState (conn_ st1) = ValidatedL4S
    /\ packetProcessors (conn_ st1) = [AppPacketProcessor 1; EcnL4sTracker]
    /\ packetProcessors (conn_ st2) = [AppPacketProcessor 1; EcnL4sTracker]
    /\ ecnState (conn_ st3) = FailedValidation
    /\ packetProcessors (conn_ st3) = [AppPacketProcessor 1]
    /\ socketTos (conn_ st3) = mkSocketTos 8 0
    /\ trace_ st3 = [socketSetTosOrTrafficClass 32].
Proof.
  eexists. eexists. eexists.
  split; [vm_compute; reflexivity |].
  split; [vm_compute; reflexivity |].
  split; [vm_compute; reflexivity |].
  vm_compute. repeat split.
Qed.

Section CloseReturns.

Context (E : Externals).

Lemma cancelReadCallbacks_returns c l st :
  (forall id data cb,
     (id, data) ∈ l -> readCb data = Some cb ->
     is_Some (streams (conn_ st) !! id)) ->
  exists st', cancelReadCallbacks c l st = Done tt st'.
Proof.
  revert st. induction l as [| [id data] rest IH]; intros st Hl; simpl.
  - eauto.
  - destruct (readCb data) as [cb |] eqn:Hcb.
    + destruct (Hl id data cb) as [stream Hs];
        [apply list_elem_of_here | exact Hcb |].
      unfold getStream.
      replace (streams (conn_ (set_readCallbacks_ _ st)) !! id)
        with (Some stream) by (by destruct st).
      apply IH. intros id' data' cb' Hin Hcb'.
      replace (streams (conn_ (log _ _))) with (streams (conn_ st))
        by (by destruct st).
      eapply Hl; [by apply list_elem_of_further | exact Hcb'].
    + apply IH. intros id' data' cb' Hin Hcb'.
      replace (streams (conn_ (set_readCallbacks_ _ st)))
        with (streams (conn_ st)) by (by destruct st).
      eapply Hl; [by apply list_elem_of_further | exact Hcb'].
Qed.

Lemma cancelAllAppCallbacks_returns c st :
  readCallbackStreamsExist st ->
  exists st', cancelAllAppCallbacks c st = Done tt st'.
Proof.
  intros Hex. unfold cancelAllAppCallbacks.
  set (st1 := cancelAllByteEventCallbacks (streamManager_clearActionable st)).
  assert (Hrc : readCallbacks_ st1 = readCallbacks_ st)
    by (by destruct st as [[] ? ? ? ? ? ? ? ? ? ? ? ? ? ? ? ? ? ? ? ? ? ? ?]).
  assert (Hst : streams (conn_ st1) = streams (conn_ st))
    by (by destruct st as [[] ? ? ? ? ? ? ? ? ? ? ? ? ? ? ? ? ? ? ? ? ? ? ?]).
  destruct (cancelReadCallbacks_returns c (map_to_list (readCallbacks_ st1))
              st1) as [st2 ->].
  - intros id data cb Hin Hcb. rewrite Hst.
    apply elem_of_map_to_list in Hin. rewrite Hrc in Hin.
    by apply (Hex id data cb).
  - simpl. eauto.
Qed.

(** On a connection whose read callbacks all belong to known streams,
    [closeImpl] runs to its end. *)
Lemma closeImpl_returns errorCode d s st :
  readCallbackStreamsExist st ->
  exists st', closeImpl E errorCode d s st = Done tt st'.
Proof.
  intros Hex. rewrite closeImpl_phases.
  destruct (isClosed st); [eauto |]. cbv zeta.
  set (stopped := closeImplStop _ _ _ _).
  set (c := closeCancelCode E errorCode _).
  assert (Hkeep : readCallbacks_ stopped = readCallbacks_ st
                  /\ streams (conn_ stopped) = streams (conn_ st)).
  { subst stopped. unfold closeImplStop, closeImplEntry.
    destruct st as [[? ? ? ? ? ? ? ? ? ? ? ? ? ? ? ? q ? ? ?]
                      ? ? ? obs ? ? ? ? ? ? ? ? ? ? ? ? ? ? ? ? ? ? ?].
    by destruct obs, q, errorCode. }
  destruct Hkeep as [Hrc Hst].
  destruct (cancelAllAppCallbacks_returns c stopped) as [st3 ->].
  - intros id data cb. rewrite Hrc, Hst. apply Hex.
  - simpl. destruct (drainPermitted _ _ _); eauto.
Qed.

End CloseReturns.

(** * Further properties *)

(** * Properties of the further parts *)

Section RegistryProperties.

Context (E : Externals).

Lemma streamExists_true id st :
  is_Some (streams (conn_ st) !! id) -> streamExists id st = true.
Proof.
  intros H. unfold streamExists, getStream. by apply bool_decide_eq_true_2.
Qed.

Lemma updateReadLooper_readLooper st :
  readLooper_ (updateReadLooper st)
  = isOpen st
    && (existsb (readWanted st) (readableStreams (conn_ st))
        || negb (bool_decide (datagramReadBuffer (conn_ st) = []))).
Proof.
  unfold updateReadLooper. fold (readWanted st).
  destruct (isOpen st); simpl; [| by destruct st].
  destruct (existsb _ _ || _); by destruct st.
Qed.

Lemma updateReadLooper_set_readLooper b st :
  updateReadLooper (set_readLooper_ b st) = updateReadLooper st.
Proof.
  unfold updateReadLooper.
  destruct st as [? cs ? ? ? ? ? ? ? ? ? ? ? ? ? ? ? ? ? ? ? ? ? ?]; simpl.
  unfold isOpen; simpl. destruct (negb _); [reflexivity |].
  by destruct (existsb _ _ || _).
Qed.

Lemma updateReadLooper_frame st :
  exists b, updateReadLooper st = set_readLooper_ b st.
Proof.
  unfold updateReadLooper. destruct (negb _); [by eexists |].
  destruct (existsb _ _ || _); by eexists.
Qed.

(** X1: pausing a read callback that is resumed succeeds and clears the
    entry's [resumed] bit; pausing again changes nothing at all; and
    [resumeRead] undoes the pause: the transport is then in the state a bare
    [updateReadLooper] would have left it in. *)
Theorem pauseRead_resumeRead_round_trip
    (id : StreamId) (entry : ReadCallbackData) (st : QuicTransportBase) :
  isSendingStream E (nodeType (conn_ st)) id = false ->
  closeState_ st = OPEN ->
  is_Some (streams (conn_ st) !! id) ->
  readCallbacks_ st !! id = Some entry ->
  resumed entry = true ->
  let paused := snd (pauseRead E id st) in
  fst (pauseRead E id st) = Value tt
  /\ readCallbacks_ paused
     = <[id := mkReadCallbackData (readCb entry) false (deliveredEOM entry)]>
         (readCallbacks_ st)
  /\ pauseRead E id paused = (Value tt, paused)
  /\ resumeRead E id paused = (Value tt, updateReadLooper st).
Proof.
  intros Hdir Hopen Hex Hentry Hres paused.
  assert (Hpause : pauseRead E id st
            = (Value tt,
               updateReadLooper
                 (set_readCallbacks_
                    (<[id := mkReadCallbackData (readCb entry) false
                               (deliveredEOM entry)]> (readCallbacks_ st)) st))).
  { unfold pauseRead, pauseOrResumeRead.
    rewrite Hdir, (isOpen_true _ Hopen), (streamExists_true _ _ Hex), Hentry.
    simpl. by rewrite Hres. }
  subst paused. rewrite Hpause. simpl.
  set (m' := <[id := _]> (readCallbacks_ st)).
  destruct (updateReadLooper_frame (set_readCallbacks_ m' st)) as [b Hb].
  rewrite Hb.
  split; [reflexivity |]. split; [by destruct st |].
  assert (Hguards :
    isSendingStream E
      (nodeType (conn_ (set_readLooper_ b (set_readCallbacks_ m' st)))) id
    = false
    /\ isOpen (set_readLooper_ b (set_readCallbacks_ m' st)) = true
    /\ streamExists id (set_readLooper_ b (set_readCallbacks_ m' st)) = true
    /\ readCallbacks_ (set_readLooper_ b (set_readCallbacks_ m' st)) !! id
       = Some (mkReadCallbackData (readCb entry) false (deliveredEOM entry))).
  { pose proof (isOpen_true _ Hopen) as Ho.
    pose proof (streamExists_true _ _ Hex) as Hs.
    destruct st; simpl in *. repeat split; try assumption.
    subst m'. apply lookup_insert_eq. }
  destruct Hguards as (G1 & G2 & G3 & G4).
  split.
  - unfold pauseRead, pauseOrResumeRead. by rewrite G1, G2, G3, G4.
  - unfold resumeRead, pauseOrResumeRead. rewrite G1, G2, G3, G4. simpl.
    f_equal.
    assert (Hm : <[id := mkReadCallbackData (readCb entry) true
                          (deliveredEOM entry)]>
                   (readCallbacks_
                      (set_readLooper_ b (set_readCallbacks_ m' st)))
                 = readCallbacks_ st).
    { replace (readCallbacks_ (set_readLooper_ b (set_readCallbacks_ m' st)))
        with m' by (by destruct st).
      subst m'. rewrite insert_insert_eq. apply insert_id.
      rewrite Hentry. f_equal. destruct entry; simpl in *. by subst. }
    rewrite Hm.
    replace (set_readCallbacks_ (readCallbacks_ st)
               (set_readLooper_ b (set_readCallbacks_ m' st)))
      with (set_readLooper_ b st) by (by destruct st).
    apply updateReadLooper_set_readLooper.
Qed.

(** X2: while a stream's read callback is paused the stream gives the read
    looper no work: after a successful [pauseRead] of a resumed callback the
    looper runs exactly when some other readable stream has a registered,
    resumed callback or a datagram is waiting to be read. *)
Theorem pauseRead_stops_read_looper
    (id : StreamId) (entry : ReadCallbackData) (st : QuicTransportBase) :
  isSendingStream E (nodeType (conn_ st)) id = false ->
  closeState_ st = OPEN ->
  is_Some (streams (conn_ st) !! id) ->
  readCallbacks_ st !! id = Some entry ->
  resumed entry = true ->
  readLooper_ (snd (pauseRead E id st)) = true
  <-> (exists s, s ∈ readableStreams (conn_ st) /\ s <> id
                 /\ readWanted st s = true)
      \/ datagramReadBuffer (conn_ st) <> [].
Proof.
  intros Hdir Hopen Hex Hentry Hres.
  unfold pauseRead, pauseOrResumeRead.
  rewrite Hdir, (isOpen_true _ Hopen), (streamExists_true _ _ Hex), Hentry.
  simpl. rewrite Hres. simpl.
  rewrite updateReadLooper_readLooper.
  set (st1 := set_readCallbacks_ _ st).
  assert (Ho : isOpen st1 = true) by (rewrite <- (isOpen_true _ Hopen); by destruct st).
  assert (Hr : readableStreams (conn_ st1) = readableStreams (conn_ st))
    by (by destruct st).
  assert (Hd : datagramReadBuffer (conn_ st1) = datagramReadBuffer (conn_ st))
    by (by destruct st).
  assert (Hw : forall s, readWanted st1 s
                         = if decide (s = id) then false else readWanted st s).
  { intros s. unfold readWanted.
    replace (readCallbacks_ st1) with
      (<[id := mkReadCallbackData (readCb entry) false (deliveredEOM entry)]>
         (readCallbacks_ st)) by (by destruct st).
    destruct (decide (s = id)) as [-> | Hne].
    - rewrite lookup_insert_eq. simpl. apply andb_false_r.
    - by rewrite lookup_insert_ne. }
  rewrite Ho, Hr, Hd. simpl.
  rewrite orb_true_iff, existsb_exists, negb_true_iff, bool_decide_eq_false.
  split; (intros [(s & Hin & Hs) | Hdg]; [left | by right]).
  - rewrite Hw in Hs. destruct (decide (s = id)); [discriminate |].
    exists s. split; [by apply list_elem_of_In | done].
  - destruct Hs as [Hne Hs]. exists s. split; [by apply list_elem_of_In |].
    rewrite Hw. by destruct (decide (s = id)).
Qed.

End RegistryProperties.

Section PeekProperties.

Context (E : Externals).

Lemma updatePeekLooper_frame st :
  exists b, updatePeekLooper st = set_peekLooper_ b st.
Proof.
  unfold updatePeekLooper. destruct (_ || _); [by eexists |].
  destruct (existsb _ _); by eexists.
Qed.

Lemma setPeekCallbackInternal_entry id cb entry st :
  peekCallbacks_ st !! id = Some entry ->
  setPeekCallbackInternal id cb st
  = (Value tt,
     updatePeekLooper
       (set_peekCallbacks_
          (<[id := mkPeekCallbackData cb (peekResumed entry)]>
             (peekCallbacks_ st)) st)).
Proof. intros Hentry. unfold setPeekCallbackInternal. by rewrite Hentry. Qed.

(** X3: on an open connection and an existing stream [setPeekCallback]
    always answers with success.  A null callback for a stream without an
    entry is dropped without a trace, and in every other case the entry
    holds the callback given afterwards: unlike a read callback, a peek
    callback can be installed again after it was unset. *)
Theorem setPeekCallback_always_accepts
    (id : StreamId) (cb : option CallbackPtr) (st : QuicTransportBase) :
  closeState_ st = OPEN ->
  is_Some (streams (conn_ st) !! id) ->
  let st' := snd (setPeekCallback id cb st) in
  fst (setPeekCallback id cb st) = Value tt
  /\ (peekCallbacks_ st !! id = None -> cb = None -> st' = st)
  /\ (is_Some (peekCallbacks_ st !! id) \/ is_Some cb ->
      exists entry,
        peekCallbacks_ st' !! id = Some entry /\ peekCb entry = cb)
  /\ trace_ st' = trace_ st.
Proof.
  intros Hopen Hex st'. subst st'. unfold setPeekCallback.
  rewrite (isOpen_true _ Hopen), (streamExists_true _ _ Hex). simpl.
  split; [reflexivity |].
  unfold setPeekCallbackInternal.
  destruct (peekCallbacks_ st !! id) as [entry |] eqn:Hentry.
  - split; [discriminate |]. simpl.
    destruct (updatePeekLooper_frame
                (set_peekCallbacks_
                   (<[id := mkPeekCallbackData cb (peekResumed entry)]>
                      (peekCallbacks_ st)) st)) as [b ->].
    split.
    + intros _. eexists.
      split; [destruct st; simpl; apply lookup_insert_eq | reflexivity].
    + by destruct st.
  - destruct cb as [cb |]; simpl.
    + split; [discriminate |].
      match goal with
      | |- context [updatePeekLooper ?s] =>
          destruct (updatePeekLooper_frame s) as [b ->]
      end.
      split.
      * intros _. eexists.
        split; [destruct st; simpl; apply lookup_insert_eq | reflexivity].
      * by destruct st.
    + split; [reflexivity |]. split; [| reflexivity].
      intros [[? H] | [? H]]; discriminate.
Qed.

(** What the loop of [unsetAllReadCallbacks] leaves: the entries of the
    streams visited have lost their callback, the read looper is as it
    was. *)
Lemma unsetReadCallbacks_effect (ids : list StreamId) st :
  (forall id, id ∈ ids -> is_Some (readCallbacks_ st !! id)) ->
  exists st',
    unsetReadCallbacks E ids st = Done tt st'
    /\ (forall id,
          readCallbacks_ st' !! id
          = if decide (id ∈ ids) then unsetRead <$> readCallbacks_ st !! id
            else readCallbacks_ st !! id)
    /\ readLooper_ st' = readLooper_ st
    /\ peekCallbacks_ st' = peekCallbacks_ st
    /\ closeState_ st' = closeState_ st.
Proof.
  revert st. induction ids as [| id rest IH]; intros st Hin.
  - exists st. split; [reflexivity |]. split; [| done].
    intros id. destruct (decide (id ∈ [])) as [H |]; [by inversion H | done].
  - destruct (Hin id) as [entry Hentry]; [apply list_elem_of_here |].
    simpl. unfold setReadCallbackInternal. rewrite Hentry.
    rewrite andb_false_r.
    set (st1 := set_readCallbacks_ (<[id := _]> (readCallbacks_ st)) st).
    assert (Hstop : exists r st2,
              stopSending E id (APP_NO_ERROR E) st1 = Done r st2
              /\ readCallbacks_ st2 = readCallbacks_ st1
              /\ readLooper_ st2 = readLooper_ st1
              /\ peekCallbacks_ st2 = peekCallbacks_ st1
              /\ closeState_ st2 = closeState_ st1).
    { unfold stopSending.
      destruct (isSendingStream _ _ _); [by eauto 10 |].
      destruct (negb (isOpen st1)); [by eauto 10 |].
      destruct (negb (streamExists id st1)) eqn:Hex; [by eauto 10 |].
      apply negb_false_iff in Hex.
      destruct (streamExists_getStream _ _ Hex) as [stream ->].
      destruct (recvState stream); try (by eauto 10);
        (do 2 eexists; split; [reflexivity |]);
        unfold updateWriteLooper;
        match goal with |- context [isClosed ?s] => destruct (isClosed s) end;
        destruct (dropIngressOnStopSending _); by destruct st1. }
    destruct Hstop as (r & st2 & -> & Hrc & Hrl & Hpc & Hcs). simpl.
    destruct (IH st2) as (st' & Hrun & Hmap & Hl & Hp & Hc).
    { intros id' Hid'. rewrite Hrc. subst st1.
      replace (readCallbacks_ (set_readCallbacks_ _ st))
        with (<[id := mkReadCallbackData None (resumed entry)
                         (deliveredEOM entry)]> (readCallbacks_ st))
        by (by destruct st).
      destruct (decide (id = id')) as [-> |].
      - rewrite lookup_insert_eq. by eexists.
      - rewrite lookup_insert_ne by done. apply Hin. by apply list_elem_of_further. }
    exists st'. split; [exact Hrun |]. split; [| split; [| split]].
    + intros id'. rewrite Hmap, Hrc. subst st1.
      replace (readCallbacks_ (set_readCallbacks_ _ st))
        with (<[id := mkReadCallbackData None (resumed entry)
                         (deliveredEOM entry)]> (readCallbacks_ st))
        by (by destruct st).
      destruct (decide (id' = id)) as [-> | Hne].
      * rewrite lookup_insert_eq, Hentry.
        destruct (decide (id ∈ rest)), (decide (id ∈ id :: rest)) as [| Hn];
          simpl; try done; exfalso; apply Hn, list_elem_of_here.
      * rewrite lookup_insert_ne by done.
        destruct (decide (id' ∈ rest)) as [Hr | Hr],
                 (decide (id' ∈ id :: rest)) as [Hc' | Hc']; try done.
        -- exfalso. apply Hc'. by apply list_elem_of_further.
        -- exfalso. apply elem_of_cons in Hc' as [? | ?]; done.
    + rewrite Hl, Hrl. by destruct st.
    + rewrite Hp, Hpc. by destruct st.
    + rewrite Hc, Hcs. by destruct st.
Qed.

(** X4: [unsetAllReadCallbacks] returns, and leaves every entry of
    [readCallbacks_] in place with its callback taken out and its [resumed]
    and [deliveredEOM] bits as they were; it does not touch the read
    looper. *)
Theorem unsetAllReadCallbacks_unsets_every_entry (st : QuicTransportBase) :
  exists st',
    unsetAllReadCallbacks E st = Done tt st'
    /\ readCallbacks_ st' = unsetRead <$> readCallbacks_ st
    /\ readLooper_ st' = readLooper_ st
    /\ closeState_ st' = closeState_ st.
Proof.
  unfold unsetAllReadCallbacks.
  destruct (unsetReadCallbacks_effect (fst <$> map_to_list (readCallbacks_ st))
              st) as (st' & Hrun & Hmap & Hl & _ & Hc).
  { intros id [[id' d] [-> Hin]]%list_elem_of_fmap.
    apply elem_of_map_to_list in Hin. by eexists. }
  exists st'. split; [exact Hrun |]. split; [| done].
  apply map_eq. intros id. rewrite Hmap, lookup_fmap.
  destruct (decide _) as [| Hnot]; [done |].
  destruct (readCallbacks_ st !! id) as [d |] eqn:Hd; [| done].
  exfalso. apply Hnot. apply list_elem_of_fmap. exists (id, d).
  split; [done |]. by apply elem_of_map_to_list.
Qed.

End PeekProperties.

Section BulkUnsetProperties.

Context (E : Externals).

Lemma unsetPeekCallbacks_snoc ids id st :
  unsetPeekCallbacks (ids ++ [id]) st
  = snd (setPeekCallbackInternal id None (unsetPeekCallbacks ids st)).
Proof.
  revert st. induction ids as [| id' rest IH]; intros st; simpl; [done |].
  apply IH.
Qed.

Lemma unsetPeekCallbacks_effect (ids : list StreamId) st :
  (forall id, id ∈ ids -> is_Some (peekCallbacks_ st !! id)) ->
  let st' := unsetPeekCallbacks ids st in
  (forall id,
     peekCallbacks_ st' !! id
     = if decide (id ∈ ids) then unsetPeek <$> peekCallbacks_ st !! id
       else peekCallbacks_ st !! id)
  /\ trace_ st' = trace_ st
  /\ closeState_ st' = closeState_ st.
Proof.
  revert st. induction ids as [| id rest IH]; intros st Hin; simpl.
  - split; [| done]. intros id.
    destruct (decide (id ∈ [])) as [H |]; [by inversion H | done].
  - destruct (Hin id) as [entry Hentry]; [apply list_elem_of_here |].
    rewrite (setPeekCallbackInternal_entry _ _ _ _ Hentry). simpl.
    match goal with
    | |- context [updatePeekLooper ?s] =>
        destruct (updatePeekLooper_frame s) as [b ->]
    end.
    set (st2 := set_peekLooper_ b _).
    assert (Hpc : peekCallbacks_ st2
                  = <[id := unsetPeek entry]> (peekCallbacks_ st))
      by (by destruct st).
    destruct (IH st2) as (Hmap & Ht & Hc).
    { intros id' Hid'. rewrite Hpc.
      destruct (decide (id = id')) as [-> |].
      - rewrite lookup_insert_eq. by eexists.
      - rewrite lookup_insert_ne by done. apply Hin.
        by apply list_elem_of_further. }
    split; [| split].
    + intros id'. rewrite Hmap, Hpc.
      destruct (decide (id' = id)) as [-> | Hne].
      * rewrite lookup_insert_eq, Hentry.
        destruct (decide (id ∈ rest)), (decide (id ∈ id :: rest)) as [| Hn];
          simpl; try done; exfalso; apply Hn, list_elem_of_here.
      * rewrite lookup_insert_ne by done.
        destruct (decide (id' ∈ rest)) as [Hr | Hr],
                 (decide (id' ∈ id :: rest)) as [Hc' | Hc']; try done.
        -- exfalso. apply Hc'. by apply list_elem_of_further.
        -- exfalso. apply elem_of_cons in Hc' as [? | ?]; done.
    + rewrite Ht. by destruct st.
    + rewrite Hc. by destruct st.
Qed.

Lemma updatePeekLooper_running st :
  peekLooper_ (updatePeekLooper st) = true ->
  exists s d, peekCallbacks_ st !! s = Some d /\ peekCb d <> None.
Proof.
  unfold updatePeekLooper.
  destruct (_ || _); [by destruct st |].
  destruct (existsb _ _) eqn:Hex; [| by destruct st].
  intros _. apply existsb_exists in Hex as (s & _ & Hs).
  destruct (peekCallbacks_ st !! s) as [d |] eqn:Hd; [| discriminate].
  exists s, d. split; [done |]. by destruct (peekCb d).
Qed.

(** X5: [unsetAllPeekCallbacks] leaves every entry of [peekCallbacks_] in
    place with its callback taken out, calls nothing, and, when there was an
    entry at all, leaves the peek looper stopped. *)
Theorem unsetAllPeekCallbacks_unsets_every_entry (st : QuicTransportBase) :
  let st' := unsetAllPeekCallbacks st in
  peekCallbacks_ st' = unsetPeek <$> peekCallbacks_ st
  /\ trace_ st' = trace_ st
  /\ (peekCallbacks_ st <> ∅ -> peekLooper_ st' = false).
Proof.
  cbv zeta. unfold unsetAllPeekCallbacks.
  set (ids := fst <$> map_to_list (peekCallbacks_ st)).
  assert (Hids : forall id, id ∈ ids <-> is_Some (peekCallbacks_ st !! id)).
  { intros id. subst ids. split.
    - intros [[id' d] [-> Hin]]%list_elem_of_fmap.
      apply elem_of_map_to_list in Hin. by eexists.
    - intros [d Hd]. apply list_elem_of_fmap. exists (id, d).
      split; [done |]. by apply elem_of_map_to_list. }
  destruct (unsetPeekCallbacks_effect ids st) as (Hmap & Ht & _).
  { intros id. apply Hids. }
  assert (Hall : peekCallbacks_ (unsetPeekCallbacks ids st)
                 = unsetPeek <$> peekCallbacks_ st).
  { apply map_eq. intros id. rewrite Hmap, lookup_fmap.
    destruct (decide _) as [| Hnot]; [done |].
    destruct (peekCallbacks_ st !! id) as [d |] eqn:Hd; [| done].
    exfalso. apply Hnot, Hids. by eexists. }
  split; [exact Hall |]. split; [exact Ht |].
  intros Hne.
  destruct (decide (ids = [])) as [Hnil | Hcons].
  { exfalso. apply Hne. apply map_eq. intros id. rewrite lookup_empty.
    destruct (peekCallbacks_ st !! id) as [d |] eqn:Hd; [| done].
    assert (Hin : id ∈ ids) by (apply Hids; by eexists).
    rewrite Hnil in Hin. by inversion Hin. }
  destruct (exists_last Hcons) as (front & id & Hsplit).
  rewrite Hsplit in Hall |- *. rewrite unsetPeekCallbacks_snoc in Hall |- *.
  destruct (unsetPeekCallbacks_effect front st) as (Hfront & _ & _).
  { intros id' Hid'. apply Hids. rewrite Hsplit. apply elem_of_app. by left. }
  assert (Hentry : is_Some (peekCallbacks_ (unsetPeekCallbacks front st) !! id)).
  { rewrite Hfront.
    assert (Hid : is_Some (peekCallbacks_ st !! id)).
    { apply Hids. rewrite Hsplit. apply elem_of_app. right.
      by apply list_elem_of_singleton. }
    destruct Hid as [d Hd]. rewrite Hd. destruct (decide _); by eexists. }
  destruct Hentry as [entry Hentry].
  rewrite (setPeekCallbackInternal_entry _ _ _ _ Hentry) in Hall |- *.
  simpl in Hall |- *.
  destruct (peekLooper_ _) eqn:Hrun; [| done].
  apply updatePeekLooper_running in Hrun as (s & d & Hs & Hcb).
  exfalso. apply Hcb.
  match type of Hall with
  | peekCallbacks_ (updatePeekLooper ?s0) = _ =>
      destruct (updatePeekLooper_frame s0) as [b Hb];
      assert (Hsame : peekCallbacks_ s0 = unsetPeek <$> peekCallbacks_ st)
        by (rewrite <- Hall, Hb; by destruct s0)
  end.
  rewrite Hsame, lookup_fmap in Hs.
  destruct (peekCallbacks_ st !! s); [| discriminate].
  by injection Hs as <-.
Qed.

(** With no bound on the offset and the connection open, the walk cancels
    the whole queue. *)
Lemma cancelWalk_all type id q :
  cancelWalk true type id None q = ([], cancellations type id q, false).
Proof.
  induction q as [| front rest IH]; simpl; [done |]. by rewrite IH.
Qed.

Lemma cancelByteEventCallbacksForStream_all type id q st :
  isReceivingStream E (nodeType (conn_ st)) id = false ->
  closeState_ st = OPEN ->
  getByteEventMap type st !! id = Some q ->
  cancelByteEventCallbacksForStream E type id None st
  = set_trace_ (trace_ st ++ streamCancellation type (id, q))
      (setByteEventMap type (delete id (getByteEventMap type st)) st).
Proof.
  intros Hdir Hopen Hq. unfold cancelByteEventCallbacksForStream.
  rewrite Hdir, Hq, (isOpen_true _ Hopen), cancelWalk_all.
  unfold streamCancellation, log. simpl.
  destruct type, st; simpl in *;
    rewrite delete_insert_eq, <- app_assoc; reflexivity.
Qed.

Lemma cancelDeliveryCallbacksForStreams_effect
    (l : list (StreamId * list ByteEventDetail)) st :
  closeState_ st = OPEN ->
  NoDup l.*1 ->
  (forall id q, (id, q) ∈ l ->
     deliveryCallbacks_ st !! id = Some q
     /\ isReceivingStream E (nodeType (conn_ st)) id = false) ->
  let st' := cancelDeliveryCallbacksForStreams E l.*1 st in
  (forall id,
     deliveryCallbacks_ st' !! id
     = if decide (id ∈ l.*1) then None else deliveryCallbacks_ st !! id)
  /\ trace_ st' = trace_ st ++ mjoin (streamCancellation ACK <$> l)
  /\ txCallbacks_ st' = txCallbacks_ st
  /\ closeState_ st' = closeState_ st.
Proof.
  revert st. induction l as [| [id q] rest IH]; intros st Hopen Hnd Hl.
  - simpl. split; [| by rewrite app_nil_r]. intros id.
    destruct (decide (id ∈ [])) as [H |]; [by inversion H | done].
  - rewrite !fmap_cons in *.
    cbn [cancelDeliveryCallbacksForStreams fst mjoin list_join].
    apply NoDup_cons in Hnd as [Hfresh Hnd].
    destruct (Hl id q) as [Hq Hdir]; [apply list_elem_of_here |].
    unfold cancelDeliveryCallbacksForStream.
    rewrite (cancelByteEventCallbacksForStream_all ACK id q st Hdir Hopen Hq).
    set (st1 := set_trace_ _ _).
    assert (Hd1 : deliveryCallbacks_ st1 = delete id (deliveryCallbacks_ st))
      by (by destruct st).
    assert (Hc1 : conn_ st1 = conn_ st) by (by destruct st).
    destruct (IH st1) as (Hmap & Ht & Htx & Hc).
    { by destruct st. }
    { exact Hnd. }
    { intros id' q' Hin'. rewrite Hd1, Hc1.
      destruct (Hl id' q') as [Hq' Hdir']; [by apply list_elem_of_further |].
      split; [| exact Hdir'].
      rewrite lookup_delete_ne; [exact Hq' |].
      intros ->. apply Hfresh. apply list_elem_of_fmap. by exists (id', q'). }
    split; [| split; [| split]].
    + intros id'. rewrite Hmap, Hd1.
      destruct (decide (id' = id)) as [-> | Hne].
      * rewrite lookup_delete_eq. repeat case_decide; try done.
        all: exfalso;
          match goal with
          | H : ¬ (_ ∈ _ :: _) |- _ => apply H, list_elem_of_here
          end.
      * rewrite lookup_delete_ne by done. repeat case_decide; try done.
        all: exfalso;
          match goal with
          | H : ¬ (_ ∈ _ :: _) |- _ => apply H; by apply list_elem_of_further
          | H : _ ∈ _ :: _ |- _ => apply elem_of_cons in H as [? | ?]; done
          end.
    + rewrite Ht. subst st1. destruct st; simpl. by rewrite <- app_assoc.
    + rewrite Htx. by destruct st.
    + rewrite Hc. by destruct st.
Qed.

End BulkUnsetProperties.

Section ByteEventCounts.

Context (E : Externals).

Lemma emplace_at_length pos d (q : list ByteEventDetail) :
  length (emplace_at pos d q) = S (length q).
Proof.
  unfold emplace_at. rewrite length_app. simpl.
  rewrite length_take, length_drop. lia.
Qed.

(** The maps a successful registration of a callback leaves. *)
Lemma registerByteEventCallback_maps type id o cb st st' :
  registerByteEventCallback E type id o (Some cb) st = Done (Value tt) st' ->
  exists q',
    getByteEventMap type st' = <[id := q']> (getByteEventMap type st)
    /\ length q'
       = S (length (default [] (getByteEventMap type st !! id)))
    /\ forall type', type' <> type ->
         getByteEventMap type' st' = getByteEventMap type' st.
Proof.
  unfold registerByteEventCallback.
  destruct (isReceivingStream _ _ _); [discriminate |].
  destruct (negb (isOpen st)); [discriminate |].
  destruct (negb (streamExists id st)); [discriminate |].
  set (inserted := match getByteEventMap type st !! id with
                   | Some q => _ | None => _ end).
  assert (Hins : forall m, inserted = Some m ->
            exists q', m = <[id := q']> (getByteEventMap type st)
              /\ length q'
                 = S (length (default [] (getByteEventMap type st !! id)))).
  { subst inserted. intros m.
    destruct (getByteEventMap type st !! id) as [q |].
    - destruct (_ && _); [discriminate |]. intros [= <-].
      eexists. split; [reflexivity |]. apply emplace_at_length.
    - intros [= <-]. by eexists. }
  destruct inserted as [m |]; [| discriminate].
  destruct (Hins m eq_refl) as (q' & -> & Hlen). clear Hins.
  set (st1 := setByteEventMap type _ st).
  assert (H1 : getByteEventMap type st1 = <[id := q']> (getByteEventMap type st)
               /\ forall type', type' <> type ->
                    getByteEventMap type' st1 = getByteEventMap type' st).
  { subst st1. split.
    - rewrite getByteEventMap_setByteEventMap. by rewrite decide_True.
    - intros type' Hne. rewrite getByteEventMap_setByteEventMap.
      by rewrite decide_False. }
  destruct (getStream id st1) as [stream |]; [| discriminate].
  assert (Hsame : forall st2,
            deliveryCallbacks_ st2 = deliveryCallbacks_ st1 ->
            txCallbacks_ st2 = txCallbacks_ st1 ->
            exists q'0,
              getByteEventMap type st2 = <[id := q'0]> (getByteEventMap type st)
              /\ length q'0
                 = S (length (default [] (getByteEventMap type st !! id)))
              /\ forall type', type' <> type ->
                   getByteEventMap type' st2 = getByteEventMap type' st).
  { intros st2 Hd Ht. exists q'.
    assert (Hg : forall ty, getByteEventMap ty st2 = getByteEventMap ty st1)
      by (intros []; simpl; congruence).
    rewrite Hg. destruct H1 as [H1 H1']. split; [exact H1 |].
    split; [exact Hlen |]. intros type' Hne. rewrite Hg. by apply H1'. }
  destruct (match type with ACK => _ | TX => _ end) as [ready |].
  - destruct (o <=? ready).
    + unfold runOnEvbAsync.
      destruct (evb_ (log _ st1)) eqn:Hevb; simpl; [| discriminate].
      intros [= <-]. apply Hsame; by destruct st1.
    + intros [= <-]. apply Hsame; by destruct st1.
  - intros [= <-]. apply Hsame; by destruct st1.
Qed.

(** X7: a registration of a byte-event callback that succeeds raises the
    number of pending callbacks of that type on that stream by exactly one,
    so the stream's total by one, and leaves the number of every other type
    and stream as it was. *)
Theorem registerByteEventCallback_adds_one_callback
    (type : ByteEventType) (id : StreamId) (o : Z) (cb : CallbackPtr)
    (st st' : QuicTransportBase) :
  registerByteEventCallback E type id o (Some cb) st = Done (Value tt) st' ->
  getNumByteEventCallbacksForStreamOfType type id st'
  = S (getNumByteEventCallbacksForStreamOfType type id st)
  /\ getNumByteEventCallbacksForStream id st'
     = S (getNumByteEventCallbacksForStream id st)
  /\ forall type' id',
       type' <> type \/ id' <> id ->
       getNumByteEventCallbacksForStreamOfType type' id' st'
       = getNumByteEventCallbacksForStreamOfType type' id' st.
Proof.
  intros Hreg.
  destruct (registerByteEventCallback_maps _ _ _ _ _ _ Hreg)
    as (q' & Hmap & Hlen & Hother).
  assert (Hone : getNumByteEventCallbacksForStreamOfType type id st'
                 = S (getNumByteEventCallbacksForStreamOfType type id st)).
  { unfold getNumByteEventCallbacksForStreamOfType.
    rewrite Hmap, lookup_insert_eq, Hlen.
    by destruct (getByteEventMap type st !! id). }
  assert (Hrest : forall type' id',
            type' <> type \/ id' <> id ->
            getNumByteEventCallbacksForStreamOfType type' id' st'
            = getNumByteEventCallbacksForStreamOfType type' id' st).
  { intros type' id' Hne. unfold getNumByteEventCallbacksForStreamOfType.
    destruct (decide (type' = type)) as [-> | Hty].
    - destruct Hne as [? | Hid]; [done |].
      by rewrite Hmap, lookup_insert_ne.
    - by rewrite Hother. }
  split; [exact Hone |]. split; [| exact Hrest].
  unfold getNumByteEventCallbacksForStream.
  destruct type.
  - rewrite Hone, (Hrest TX id) by (by left). reflexivity.
  - rewrite Hone, (Hrest ACK id) by (by left). lia.
Qed.

(** On an ordered queue the walk with an offset pops the entries below the
    offset and leaves the others. *)
Lemma cancelWalk_below type id o q :
  queueSorted q ->
  cancelWalk true type id (Some o) q
  = (filter (fun d => o <= offset d) q,
     cancellations type id (filter (fun d => offset d < o) q),
     false).
Proof.
  rewrite queueSorted_strong.
  induction q as [| front rest IH]; intros Hs; [done |].
  rewrite fmap_cons in Hs. apply StronglySorted_cons in Hs as [Hfront Hrest].
  simpl cancelWalk. rewrite !filter_cons.
  destruct (Z.ltb_spec (offset front) o) as [Hlt | Hge].
  - rewrite IH by exact Hrest.
    rewrite decide_False by lia. rewrite decide_True by lia. reflexivity.
  - rewrite decide_True by lia. rewrite decide_False by lia.
    assert (Hall : Forall (fun d => o <= offset d) rest).
    { apply Forall_forall. intros d Hd. rewrite Forall_forall in Hfront.
      specialize (Hfront (offset d) (list_elem_of_fmap_2 _ _ _ Hd)). lia. }
    assert (Hkept : filter (fun d => o <= offset d) rest = rest
                    /\ filter (fun d => offset d < o) rest = []).
    { clear -Hall. induction Hall as [| d l Hd Hl [IH1 IH2]]; [done |].
      rewrite !filter_cons, IH1, IH2.
      rewrite decide_True by exact Hd. by rewrite decide_False by lia. }
    destruct Hkept as [-> ->]. reflexivity.
Qed.

(** With callbacks that do not call back into the transport: *)
Lemma cancelBelowOffset_opaque
    (type : ByteEventType) (id : StreamId) (o : Z)
    (q : list ByteEventDetail) (st : QuicTransportBase) :
  isReceivingStream E (nodeType (conn_ st)) id = false ->
  closeState_ st = OPEN ->
  getByteEventMap type st !! id = Some q ->
  queueSorted q ->
  let st' := cancelByteEventCallbacksForStream E type id (Some o) st in
  let kept := filter (fun d => o <= offset d) q in
  trace_ st'
  = trace_ st
    ++ cancellations type id (filter (fun d => offset d < o) q)
    ++ (if kept is [] then [removeFromStreamManager type id] else [])
  /\ getByteEventMap type st' !! id = (if kept is [] then None else Some kept)
  /\ (forall id', id' <> id ->
        getByteEventMap type st' !! id' = getByteEventMap type st !! id').
Proof.
  intros Hdir Hopen Hq Hs. cbv zeta.
  unfold cancelByteEventCallbacksForStream.
  rewrite Hdir, Hq, (isOpen_true _ Hopen), (cancelWalk_below _ _ _ _ Hs).
  destruct (filter (fun d => o <= offset d) q) as [| k kept] eqn:Hkept.
  - unfold log. destruct type, st; simpl in *;
      rewrite <- app_assoc, delete_insert_eq;
      (split; [reflexivity |]); (split; [apply lookup_delete_eq |]);
      intros id' Hne; by rewrite lookup_delete_ne.
  - destruct type, st; simpl in *; rewrite app_nil_r;
      (split; [reflexivity |]); (split; [apply lookup_insert_eq |]);
      intros id' Hne; by rewrite lookup_insert_ne.
Qed.

(** What a cancellation without an offset leaves on an open connection. *)
Lemma cancelByteEventCallbacksForStream_clears type id st :
  closeState_ st = OPEN ->
  let st' := cancelByteEventCallbacksForStream E type id None st in
  closeState_ st' = OPEN
  /\ conn_ st' = conn_ st
  /\ (forall type' id',
        getByteEventMap type' st' !! id'
        = if bool_decide (type' = type /\ id' = id)
             && negb (isReceivingStream E (nodeType (conn_ st)) id)
          then None
          else getByteEventMap type' st !! id').
Proof.
  intros Hopen. cbv zeta.
  destruct (isReceivingStream E (nodeType (conn_ st)) id) eqn:Hdir.
  - unfold cancelByteEventCallbacksForStream. rewrite Hdir.
    split; [done |]. split; [done |]. intros. by rewrite andb_false_r.
  - destruct (getByteEventMap type st !! id) as [q |] eqn:Hq.
    + rewrite (cancelByteEventCallbacksForStream_all E type id q st Hdir Hopen Hq).
      split; [by destruct type, st |]. split; [by destruct type, st |].
      intros type' id'. rewrite andb_true_r.
      replace (getByteEventMap type'
                 (set_trace_ (trace_ st ++ streamCancellation type (id, q))
                    (setByteEventMap type (delete id (getByteEventMap type st))
                       st)))
        with (getByteEventMap type'
                (setByteEventMap type (delete id (getByteEventMap type st)) st))
        by (by destruct type, type', st).
      rewrite getByteEventMap_setByteEventMap.
      case_bool_decide as Hb.
      * destruct Hb as [-> ->]. rewrite decide_True by done.
        apply lookup_delete_eq.
      * destruct (decide (type' = type)) as [-> |]; [| done].
        rewrite lookup_delete_ne; [done |]. intros ->. by apply Hb.
    + unfold cancelByteEventCallbacksForStream. rewrite Hdir, Hq.
      split; [by destruct st |]. split; [by destruct st |].
      intros type' id'. rewrite andb_true_r.
      replace (getByteEventMap type' (log (removeFromStreamManager type id) st))
        with (getByteEventMap type' st) by (by destruct type', st).
      case_bool_decide as Hb; [| done]. by destruct Hb as [-> ->].
Qed.

Lemma cancelByteEventCallbacksForStream_allTypes_clears id st :
  closeState_ st = OPEN ->
  let st' := cancelByteEventCallbacksForStream_allTypes E id None st in
  closeState_ st' = OPEN
  /\ conn_ st' = conn_ st
  /\ (forall type id',
        getByteEventMap type st' !! id'
        = if bool_decide (id' = id)
             && negb (isReceivingStream E (nodeType (conn_ st)) id)
          then None
          else getByteEventMap type st !! id').
Proof.
  intros Hopen. cbv zeta. unfold cancelByteEventCallbacksForStream_allTypes.
  destruct (cancelByteEventCallbacksForStream_clears ACK id st Hopen)
    as (Ho1 & Hc1 & Hm1).
  destruct (cancelByteEventCallbacksForStream_clears TX id _ Ho1)
    as (Ho2 & Hc2 & Hm2).
  split; [exact Ho2 |]. split; [congruence |].
  intros type id'. rewrite Hm2, Hm1, Hc1.
  destruct (isReceivingStream _ _ _); simpl; rewrite ?andb_false_r;
    [done |].
  rewrite !andb_true_r.
  destruct type; repeat case_bool_decide; try done;
    match goal with
    | H : ¬ (_ /\ _) |- _ => exfalso; apply H; by split
    | H : _ /\ _ |- _ => by destruct H
    end.
Qed.

(** With callbacks that do not call back into the transport: *)
Lemma handleCancelByteEventCallbacks_opaque
    (resets : list StreamId) (st : QuicTransportBase) :
  closeState_ st = OPEN ->
  let st' := handleCancelByteEventCallbacks E resets st in
  (forall id,
     id ∈ resets ->
     isReceivingStream E (nodeType (conn_ st)) id = false ->
     getNumByteEventCallbacksForStream id st' = O)
  /\ (forall type id,
        id ∉ resets ->
        getByteEventMap type st' !! id = getByteEventMap type st !! id)
  /\ closeState_ st' = OPEN.
Proof.
  intros Hopen. cbv zeta.
  assert (Hgen :
    closeState_ (handleCancelByteEventCallbacks E resets st) = OPEN
    /\ conn_ (handleCancelByteEventCallbacks E resets st) = conn_ st
    /\ forall type id',
         getByteEventMap type (handleCancelByteEventCallbacks E resets st)
           !! id'
         = if bool_decide (id' ∈ resets)
              && negb (isReceivingStream E (nodeType (conn_ st)) id')
           then None
           else getByteEventMap type st !! id').
  { revert st Hopen. induction resets as [| id rest IH]; intros st Hopen.
    - cbn [handleCancelByteEventCallbacks].
      split; [done |]. split; [done |]. intros type id'.
      rewrite bool_decide_eq_false_2; [done |]. by intros H%elem_of_nil.
    - cbn [handleCancelByteEventCallbacks].
      destruct (cancelByteEventCallbacksForStream_allTypes_clears id st Hopen)
        as (Ho1 & Hc1 & Hm1).
      rewrite (isOpen_true _ Ho1). simpl.
      destruct (IH _ Ho1) as (Ho2 & Hc2 & Hm2).
      split; [exact Ho2 |]. split; [congruence |].
      intros type id'. rewrite Hm2, Hm1, Hc1.
      destruct (isReceivingStream E (nodeType (conn_ st)) id') eqn:Hd';
        simpl; rewrite ?andb_false_r.
      + case_bool_decide as Hb; [| done]. rewrite <- Hb, Hd'. done.
      + rewrite !andb_true_r.
        destruct (decide (id' = id)) as [-> | Hne].
        * rewrite Hd'. rewrite (bool_decide_eq_true_2 (id = id)) by done.
          rewrite (bool_decide_eq_true_2 (id ∈ id :: rest))
            by apply list_elem_of_here.
          by destruct (bool_decide (id ∈ rest)).
        * rewrite (bool_decide_eq_false_2 (id' = id)) by done. simpl.
          rewrite (bool_decide_ext (id' ∈ id :: rest) (id' ∈ rest)); [done |].
          rewrite elem_of_cons. split; [intros [? | ?]; done | by right]. }
  destruct Hgen as (Ho & Hc & Hm).
  split; [| split; [| exact Ho]].
  - intros id Hin Hdir. unfold getNumByteEventCallbacksForStream,
      getNumByteEventCallbacksForStreamOfType.
    rewrite !Hm, Hdir. by rewrite bool_decide_eq_true_2.
  - intros type id Hnot. rewrite Hm. by rewrite bool_decide_eq_false_2.
Qed.

End ByteEventCounts.

Section ByteEventDeliveryProperties.

Context (E : Externals).

Context (trimWriteBuffer : Z -> QuicStreamState -> QuicStreamState).

(** In an ordered queue whose front is beyond [ready] nothing is due, and
    with nothing due everything is pending. *)
Lemma filter_due_front ready front (rest : list ByteEventDetail) :
  StronglySorted Z.le (offset <$> front :: rest) ->
  ready < offset front ->
  filter (fun d => offset d <= ready) (front :: rest) = [].
Proof.
  rewrite fmap_cons. intros [Hfront _]%StronglySorted_cons Hlt.
  assert (Hall : Forall (fun d => ready < offset d) (front :: rest)).
  { constructor; [exact Hlt |].
    apply Forall_forall. intros d Hd. rewrite Forall_forall in Hfront.
    specialize (Hfront (offset d) (list_elem_of_fmap_2 _ _ _ Hd)). lia. }
  clear -Hall. induction Hall as [| d l Hd Hl IH]; [done |].
  rewrite filter_cons, IH. by rewrite decide_False by lia.
Qed.

Lemma filter_pending_none_due ready (q : list ByteEventDetail) :
  filter (fun d => offset d <= ready) q = [] ->
  filter (fun d => ready < offset d) q = q.
Proof.
  induction q as [| d l IH]; [done |]. rewrite !filter_cons.
  destruct (decide (offset d <= ready)); [discriminate |].
  intros Hl. rewrite decide_True by lia. by rewrite IH.
Qed.

(** What the loop over the TX callbacks of one stream does on an open
    connection and an ordered queue. *)
Lemma callTxCallbacksForStream_effect id ready q st :
  closeState_ st = OPEN ->
  StronglySorted Z.le (offset <$> q) ->
  exists st',
    callTxCallbacksForStream id ready q st = (st', false)
    /\ trace_ st'
       = trace_ st ++ firings TX id (filter (fun d => offset d <= ready) q)
    /\ closeState_ st' = OPEN
    /\ conn_ st' = conn_ st
    /\ deliveryCallbacks_ st' = deliveryCallbacks_ st
    /\ (forall id', id' <> id ->
          txCallbacks_ st' !! id' = txCallbacks_ st !! id')
    /\ (filter (fun d => offset d <= ready) q = [] -> st' = st)
    /\ (filter (fun d => offset d <= ready) q <> [] ->
        txCallbacks_ st' !! id
        = if filter (fun d => ready < offset d) q is []
          then None
          else Some (filter (fun d => ready < offset d) q)).
Proof.
  revert st. induction q as [| front rest IH]; intros st Hopen Hs.
  - exists st. simpl. rewrite app_nil_r. by repeat split.
  - cbn [callTxCallbacksForStream].
    destruct (Z.ltb_spec ready (offset front)) as [Hlt | Hge].
    + exists st. rewrite (filter_due_front _ _ _ Hs Hlt). simpl.
      rewrite app_nil_r. by repeat split.
    + set (st1 := log _ (set_txCallbacks_ _ st)).
      assert (Ho1 : closeState_ st1 = OPEN) by (by destruct st).
      rewrite (isOpen_true _ Ho1). cbn [negb].
      rewrite fmap_cons in Hs. apply StronglySorted_cons in Hs as [_ Hrest].
      destruct (IH st1 Ho1 Hrest)
        as (st' & Hrun & Ht & Ho & Hc & Hd & Hk & Hnone & Hsome).
      exists st'. rewrite !filter_cons.
      rewrite decide_True by lia. rewrite decide_False by lia.
      split; [exact Hrun |]. split; [| split; [exact Ho |]].
      { rewrite Ht. subst st1. destruct st; simpl. by rewrite <- app_assoc. }
      split; [rewrite Hc; by destruct st |].
      split; [rewrite Hd; by destruct st |].
      split.
      { intros id' Hne. rewrite (Hk id' Hne). subst st1.
        destruct rest, st; simpl.
        - by rewrite lookup_delete_ne.
        - by rewrite lookup_insert_ne. }
      split; [discriminate |]. intros _.
      destruct (filter (fun d => offset d <= ready) rest) as [| d due] eqn:Hdue.
      * rewrite (Hnone eq_refl).
        rewrite (filter_pending_none_due _ _ Hdue).
        subst st1. destruct rest, st; simpl.
        -- apply lookup_delete_eq.
        -- apply lookup_insert_eq.
      * apply Hsome. discriminate.
Qed.

Lemma largestReadyOffset_same type id st st' :
  conn_ st' = conn_ st ->
  largestReadyOffset E type id st' = largestReadyOffset E type id st.
Proof. intros Hc. unfold largestReadyOffset, getStream. by rewrite Hc. Qed.

(** With callbacks that do not call back into the transport: *)
Lemma processCallbacksAfterWriteData_opaque
    (txStreams : list StreamId) (st : QuicTransportBase) :
  closeState_ st = OPEN ->
  byteEventsSorted st ->
  NoDup txStreams ->
  (forall id, id ∈ txStreams -> is_Some (largestReadyOffset E TX id st)) ->
  exists st',
    processCallbacksAfterWriteData E txStreams st = Done [] st'
    /\ trace_ st' = trace_ st ++ mjoin (dueFirings E TX st <$> txStreams)
    /\ (forall id,
          queueOf TX id st'
          = if decide (id ∈ txStreams) then pendingEntries E TX st id
            else queueOf TX id st)
    /\ deliveryCallbacks_ st' = deliveryCallbacks_ st
    /\ conn_ st' = conn_ st.
Proof.
  intros Hopen Hsorted Hnd Hready.
  unfold processCallbacksAfterWriteData. rewrite (isOpen_true _ Hopen).
  cbn [negb].
  assert (Hq : forall id, StronglySorted Z.le (offset <$> queueOf TX id st)).
  { intros id. unfold queueOf.
    destruct (getByteEventMap TX st !! id) as [q |] eqn:Hq; simpl.
    - apply queueSorted_strong. by apply (Hsorted TX id).
    - constructor. }
  clear Hsorted.
  revert st Hopen Hready Hq.
  induction txStreams as [| id rest IH]; intros st Hopen Hready Hq.
  - exists st. simpl. rewrite app_nil_r. repeat split; done.
  - apply NoDup_cons in Hnd as [Hfresh Hnd].
    destruct (Hready id) as [ready Hid]; [apply list_elem_of_here |].
    cbn [processTxStreams]. unfold largestReadyOffset in Hid.
    destruct (getStream id st) as [stream |] eqn:Hstream; [| discriminate].
    rewrite Hid.
    destruct (callTxCallbacksForStream_effect id ready (queueOf TX id st) st
                Hopen (Hq id))
      as (st1 & Hrun & Ht1 & Ho1 & Hc1 & Hd1 & Hk1 & Hnone1 & Hsome1).
    change (default [] (txCallbacks_ st !! id)) with (queueOf TX id st).
    rewrite Hrun.
    assert (Hq1 : forall id', id' <> id -> queueOf TX id' st1 = queueOf TX id' st).
    { intros id' Hne. unfold queueOf. simpl. by rewrite Hk1. }
    assert (Hqid : queueOf TX id st1 = pendingEntries E TX st id).
    { unfold pendingEntries, largestReadyOffset. rewrite Hstream, Hid.
      destruct (filter (fun d => offset d <= ready) (queueOf TX id st))
        as [| d due] eqn:Hdue.
      - rewrite (Hnone1 eq_refl). symmetry.
        by apply filter_pending_none_due.
      - unfold queueOf at 1. simpl. rewrite Hsome1 by discriminate.
        by destruct (filter (fun d => ready < offset d) (queueOf TX id st)). }
    destruct (IH Hnd st1 Ho1) as (st' & Hdone & Ht & Hmap & Hd & Hc).
    { intros id' Hid'. rewrite (largestReadyOffset_same _ _ _ _ Hc1).
      apply Hready. by apply list_elem_of_further. }
    { intros id'. destruct (decide (id' = id)) as [-> | Hne].
      - rewrite Hqid. unfold pendingEntries.
        destruct (largestReadyOffset E TX id st); [| apply Hq].
        specialize (Hq id). revert Hq.
        generalize (queueOf TX id st). clear. intros q Hq.
        induction q as [| d l IHq]; [constructor |].
        rewrite fmap_cons in Hq. apply StronglySorted_cons in Hq as [Hd Hl].
        rewrite filter_cons. destruct (decide _); [| by apply IHq].
        rewrite fmap_cons. apply StronglySorted_cons. split; [| by apply IHq].
        apply Forall_forall. intros x [d' [-> Hin]]%list_elem_of_fmap.
        apply list_elem_of_filter in Hin as [_ Hin].
        rewrite Forall_forall in Hd. apply Hd. by apply list_elem_of_fmap_2.
      - rewrite Hq1 by done. apply Hq. }
    exists st'. split; [exact Hdone |].
    split; [| split; [| split]].
    + rewrite Ht, Ht1, fmap_cons. cbn [mjoin list_join].
      rewrite <- app_assoc. f_equal. f_equal.
      * unfold dueFirings, dueEntries, largestReadyOffset.
        by rewrite Hstream, Hid.
      * f_equal. apply list_fmap_ext. intros i id' Hin'.
        unfold dueFirings, dueEntries.
        rewrite (largestReadyOffset_same _ _ _ _ Hc1).
        rewrite Hq1; [done |]. intros ->. apply Hfresh.
        eapply list_elem_of_lookup_2. exact Hin'.
    + intros id'. rewrite Hmap.
      destruct (decide (id' = id)) as [-> | Hne].
      * rewrite decide_False by exact Hfresh.
        rewrite decide_True by apply list_elem_of_here. exact Hqid.
      * unfold pendingEntries.
        rewrite (largestReadyOffset_same _ _ _ _ Hc1), (Hq1 _ Hne).
        destruct (decide (id' ∈ rest)) as [Hr | Hr].
        -- rewrite decide_True by (by apply list_elem_of_further). done.
        -- rewrite decide_False; [done |].
           intros [? | ?]%elem_of_cons; done.
    + congruence.
    + congruence.
Qed.

End ByteEventDeliveryProperties.

Section DeliveryCallbackProperties.

Context (E : Externals).

Context (trimWriteBuffer : Z -> QuicStreamState -> QuicStreamState).

Lemma callDeliveryCallbacksForStream_effect id ready q st :
  closeState_ st = OPEN ->
  StronglySorted Z.le (offset <$> q) ->
  exists st',
    callDeliveryCallbacksForStream id ready q st = (st', false)
    /\ trace_ st'
       = trace_ st ++ firings ACK id (filter (fun d => offset d <= ready) q)
    /\ closeState_ st' = OPEN
    /\ conn_ st' = conn_ st
    /\ txCallbacks_ st' = txCallbacks_ st
    /\ (forall id', id' <> id ->
          deliveryCallbacks_ st' !! id' = deliveryCallbacks_ st !! id')
    /\ (filter (fun d => offset d <= ready) q = [] -> st' = st)
    /\ (filter (fun d => offset d <= ready) q <> [] ->
        deliveryCallbacks_ st' !! id
        = Some (filter (fun d => ready < offset d) q)).
Proof.
  revert st. induction q as [| front rest IH]; intros st Hopen Hs.
  - exists st. simpl. rewrite app_nil_r. by repeat split.
  - cbn [callDeliveryCallbacksForStream].
    destruct (Z.leb_spec (offset front) ready) as [Hle | Hgt]; cbn [negb].
    + set (st1 := log _ (set_deliveryCallbacks_ _ st)).
      assert (Ho1 : closeState_ st1 = OPEN) by (by destruct st).
      rewrite (isOpen_true _ Ho1). cbn [negb].
      rewrite fmap_cons in Hs. apply StronglySorted_cons in Hs as [_ Hrest].
      destruct (IH st1 Ho1 Hrest)
        as (st' & Hrun & Ht & Ho & Hc & Hd & Hk & Hnone & Hsome).
      exists st'. rewrite !filter_cons.
      rewrite decide_True by lia. rewrite decide_False by lia.
      split; [exact Hrun |]. split; [| split; [exact Ho |]].
      { rewrite Ht. subst st1. destruct st; simpl. by rewrite <- app_assoc. }
      split; [rewrite Hc; by destruct st |].
      split; [rewrite Hd; by destruct st |].
      split.
      { intros id' Hne. rewrite (Hk id' Hne). subst st1.
        destruct st; simpl. by rewrite lookup_insert_ne. }
      split; [discriminate |]. intros _.
      destruct (filter (fun d => offset d <= ready) rest) as [| d due] eqn:Hdue.
      * rewrite (Hnone eq_refl).
        rewrite (filter_pending_none_due _ _ Hdue).
        subst st1. destruct st; simpl. apply lookup_insert_eq.
      * apply Hsome. discriminate.
    + exists st. rewrite (filter_due_front _ _ _ Hs Hgt). simpl.
      rewrite app_nil_r. by repeat split.
Qed.

Lemma filter_pending_sorted ready (q : list ByteEventDetail) :
  StronglySorted Z.le (offset <$> q) ->
  StronglySorted Z.le (offset <$> filter (fun d => ready < offset d) q).
Proof.
  induction q as [| d l IHq]; intros Hq; [constructor |].
  rewrite fmap_cons in Hq. apply StronglySorted_cons in Hq as [Hd Hl].
  rewrite filter_cons. destruct (decide _); [| by apply IHq].
  rewrite fmap_cons. apply StronglySorted_cons. split; [| by apply IHq].
  apply Forall_forall. intros x [d' [-> Hin]]%list_elem_of_fmap.
  apply list_elem_of_filter in Hin as [_ Hin].
  rewrite Forall_forall in Hd. apply Hd. by apply list_elem_of_fmap_2.
Qed.

(** One turn of the loop of [handleDeliveryCallbacks], erasure included. *)
Lemma deliverToStream_effect id stream st :
  closeState_ st = OPEN ->
  getStream id st = Some stream ->
  StronglySorted Z.le (offset <$> queueOf ACK id st) ->
  exists st1,
    deliverToStream E trimWriteBuffer id stream st = (st1, false)
    /\ let st' := eraseEmptyDeliveryQueue id st1 in
       trace_ st' = trace_ st ++ dueFirings E ACK st id
       /\ closeState_ st' = OPEN
       /\ txCallbacks_ st' = txCallbacks_ st
       /\ queueOf ACK id st' = pendingEntries E ACK st id
       /\ deliveryCallbacks_ st' !! id <> Some []
       /\ (forall id', id' <> id ->
             deliveryCallbacks_ st' !! id' = deliveryCallbacks_ st !! id')
       /\ (forall id', id' <> id ->
             streams (conn_ st') !! id' = streams (conn_ st) !! id')
       /\ streams (conn_ st') !! id
          = Some (match getLargestDeliverableOffset E stream with
                  | Some o => trimWriteBuffer o stream
                  | None => stream
                  end).
Proof.
  intros Hopen Hstream Hq.
  assert (Herase : forall st1,
            let st' := eraseEmptyDeliveryQueue id st1 in
            trace_ st' = trace_ st1 /\ closeState_ st' = closeState_ st1
            /\ txCallbacks_ st' = txCallbacks_ st1
            /\ conn_ st' = conn_ st1
            /\ queueOf ACK id st' = queueOf ACK id st1
            /\ deliveryCallbacks_ st' !! id <> Some []
            /\ (forall id', id' <> id ->
                  deliveryCallbacks_ st' !! id' = deliveryCallbacks_ st1 !! id')).
  { intros st1. cbv zeta. unfold eraseEmptyDeliveryQueue, queueOf. simpl.
    destruct (deliveryCallbacks_ st1 !! id) as [[| d q] |] eqn:Hl.
    - destruct st1; simpl in *. rewrite lookup_delete_eq.
      repeat split; try done. intros id' Hne. by rewrite lookup_delete_ne.
    - rewrite Hl. repeat split; done.
    - rewrite Hl. repeat split; done. }
  unfold deliverToStream, dueFirings, dueEntries, pendingEntries,
    largestReadyOffset.
  rewrite Hstream.
  destruct (getLargestDeliverableOffset E stream) as [o |].
  - set (st0 := update_conn _ st).
    assert (H0 : closeState_ st0 = OPEN
                 /\ trace_ st0 = trace_ st
                 /\ deliveryCallbacks_ st0 = deliveryCallbacks_ st
                 /\ txCallbacks_ st0 = txCallbacks_ st
                 /\ streams (conn_ st0)
                    = <[id := trimWriteBuffer o stream]> (streams (conn_ st))).
    { subst st0. unfold update_conn. destruct st as [[] ? ? ? ? ? ? ? ? ? ? ?
        ? ? ? ? ? ? ? ? ? ? ? ?]. by simpl in *. }
    destruct H0 as (Ho0 & Ht0 & Hd0 & Htx0 & Hs0).
    assert (Hq0 : default [] (deliveryCallbacks_ st0 !! id) = queueOf ACK id st)
      by (unfold queueOf; simpl; by rewrite Hd0).
    rewrite Hq0.
    destruct (callDeliveryCallbacksForStream_effect id o (queueOf ACK id st) st0
                Ho0 Hq)
      as (st1 & Hrun & Ht1 & Ho1 & Hc1 & Htx1 & Hk1 & Hnone1 & Hsome1).
    exists st1. split; [exact Hrun |].
    destruct (Herase st1) as (Et & Eo & Etx & Ec & Eq & Ene & Ek).
    cbv zeta. split; [congruence |]. split; [congruence |].
    split; [congruence |]. split.
    { rewrite Eq.
      destruct (filter (fun d => offset d <= o) (queueOf ACK id st))
        as [| d due] eqn:Hdue.
      - rewrite (Hnone1 eq_refl). unfold queueOf at 1. simpl. rewrite Hd0.
        symmetry. by apply filter_pending_none_due.
      - unfold queueOf at 1. simpl. by rewrite Hsome1 by discriminate. }
    split; [exact Ene |]. split.
    { intros id' Hne. rewrite (Ek _ Hne), (Hk1 _ Hne). by rewrite Hd0. }
    split.
    { intros id' Hne. rewrite Ec, Hc1, Hs0. by rewrite lookup_insert_ne. }
    rewrite Ec, Hc1, Hs0. apply lookup_insert_eq.
  - exists st. split; [reflexivity |].
    destruct (Herase st) as (Et & Eo & Etx & Ec & Eq & Ene & Ek).
    cbv zeta. simpl. rewrite app_nil_r.
    repeat split; try done; try congruence.
    all: try (intros id' _); rewrite Ec; try done; exact Hstream.
Qed.

(** With callbacks that do not call back into the transport: *)
Lemma handleDeliveryCallbacks_opaque
    (deliverableStreams : list StreamId) (st : QuicTransportBase) :
  closeState_ st = OPEN ->
  byteEventsSorted st ->
  NoDup deliverableStreams ->
  (forall id, id ∈ deliverableStreams -> is_Some (getStream id st)) ->
  exists st',
    handleDeliveryCallbacks E trimWriteBuffer deliverableStreams st
    = Done [] st'
    /\ trace_ st'
       = trace_ st ++ mjoin (dueFirings E ACK st <$> deliverableStreams)
    /\ (forall id,
          queueOf ACK id st'
          = if decide (id ∈ deliverableStreams)
            then pendingEntries E ACK st id
            else queueOf ACK id st)
    /\ (forall id, id ∈ deliverableStreams ->
          deliveryCallbacks_ st' !! id <> Some [])
    /\ (forall id stream o,
          id ∈ deliverableStreams ->
          getStream id st = Some stream ->
          getLargestDeliverableOffset E stream = Some o ->
          getStream id st' = Some (trimWriteBuffer o stream))
    /\ txCallbacks_ st' = txCallbacks_ st.
Proof.
  intros Hopen Hsorted Hnd Hex.
  assert (Hq : forall id, StronglySorted Z.le (offset <$> queueOf ACK id st)).
  { intros id. unfold queueOf.
    destruct (getByteEventMap ACK st !! id) as [q |] eqn:Hq; simpl.
    - apply queueSorted_strong. by apply (Hsorted ACK id).
    - constructor. }
  clear Hsorted.
  assert (Hgen : exists st',
    handleDeliveryCallbacks E trimWriteBuffer deliverableStreams st
    = Done [] st'
    /\ trace_ st'
       = trace_ st ++ mjoin (dueFirings E ACK st <$> deliverableStreams)
    /\ txCallbacks_ st' = txCallbacks_ st
    /\ (forall id, id ∉ deliverableStreams ->
          deliveryCallbacks_ st' !! id = deliveryCallbacks_ st !! id
          /\ streams (conn_ st') !! id = streams (conn_ st) !! id)
    /\ (forall id stream, id ∈ deliverableStreams ->
          getStream id st = Some stream ->
          queueOf ACK id st' = pendingEntries E ACK st id
          /\ deliveryCallbacks_ st' !! id <> Some []
          /\ getStream id st'
             = Some (match getLargestDeliverableOffset E stream with
                     | Some o => trimWriteBuffer o stream
                     | None => stream
                     end))).
  { revert st Hopen Hex Hq.
    induction deliverableStreams as [| id rest IH]; intros st Hopen Hex Hq.
    - exists st. simpl. rewrite app_nil_r. repeat split; try done.
      all: intros; by match goal with H : _ ∈ [] |- _ => inversion H end.
    - apply NoDup_cons in Hnd as [Hfresh Hnd].
      destruct (Hex id) as [stream Hstream]; [apply list_elem_of_here |].
      cbn [handleDeliveryCallbacks]. rewrite Hstream.
      destruct (deliverToStream_effect id stream st Hopen Hstream (Hq id))
        as (st1 & Hrun & Ht1 & Ho1 & Htx1 & Hq1 & Hne1 & Hk1 & Hs1 & Hsid).
      rewrite Hrun.
      set (st2 := eraseEmptyDeliveryQueue id st1) in *.
      assert (Hqk : forall id', id' <> id ->
                queueOf ACK id' st2 = queueOf ACK id' st).
      { intros id' Hne. unfold queueOf. simpl. by rewrite Hk1. }
      assert (Hgs : forall id', id' <> id -> getStream id' st2 = getStream id' st).
      { intros id' Hne. unfold getStream. by rewrite Hs1. }
      assert (Hready : forall id', id' <> id ->
                largestReadyOffset E ACK id' st2
                = largestReadyOffset E ACK id' st).
      { intros id' Hne. unfold largestReadyOffset. by rewrite Hgs. }
      destruct (IH Hnd st2 Ho1) as (st' & Hdone & Ht & Htx & Hout & Hin).
      { intros id' Hid'. rewrite Hgs.
        - apply Hex. by apply list_elem_of_further.
        - intros ->. by apply Hfresh. }
      { intros id'. destruct (decide (id' = id)) as [-> | Hne].
        - rewrite Hq1. unfold pendingEntries.
          destruct (largestReadyOffset E ACK id st); [| apply Hq].
          apply filter_pending_sorted, Hq.
        - rewrite Hqk by done. apply Hq. }
      exists st'. split; [exact Hdone |].
      split; [| split; [congruence |]; split].
      + rewrite Ht, Ht1, fmap_cons. cbn [mjoin list_join].
        rewrite <- app_assoc. f_equal. f_equal. f_equal.
        apply list_fmap_ext. intros i id' Hin'.
        assert (Hne' : id' <> id).
        { intros ->. apply Hfresh. eapply list_elem_of_lookup_2. exact Hin'. }
        unfold dueFirings, dueEntries. by rewrite Hready, Hqk.
      + intros id' Hnot.
        assert (Hne' : id' <> id) by (intros ->; apply Hnot, list_elem_of_here).
        assert (Hnr : id' ∉ rest)
          by (intros Hr; apply Hnot; by apply list_elem_of_further).
        destruct (Hout id' Hnr) as [Hd Hs]. rewrite Hd, Hs.
        split; [by apply Hk1 | by apply Hs1].
      + intros id' stream' [-> | Hin']%elem_of_cons Hstream'.
        * destruct (Hout id Hfresh) as [Hd Hs].
          rewrite Hstream in Hstream'. injection Hstream' as <-.
          unfold queueOf, getStream. simpl. rewrite Hd, Hs.
          split; [exact Hq1 |]. split; [exact Hne1 | exact Hsid].
        * assert (Hne' : id' <> id) by (intros ->; by apply Hfresh).
          destruct (Hin id' stream' Hin') as (G1 & G2 & G3).
          { by rewrite Hgs. }
          split; [| by split].
          rewrite G1. unfold pendingEntries. by rewrite Hready, Hqk. }
  destruct Hgen as (st' & Hdone & Ht & Htx & Hout & Hin).
  exists st'. split; [exact Hdone |]. split; [exact Ht |].
  split; [| split; [| split; [| exact Htx]]].
  - intros id. destruct (decide (id ∈ deliverableStreams)) as [Hid | Hid].
    + destruct (Hex id Hid) as [stream Hstream].
      by destruct (Hin id stream Hid Hstream) as (G1 & _).
    + unfold queueOf. simpl. by destruct (Hout id Hid) as [-> _].
  - intros id Hid. destruct (Hex id Hid) as [stream Hstream].
    by destruct (Hin id stream Hid Hstream) as (_ & G2 & _).
  - intros id stream o Hid Hstream Ho.
    destruct (Hin id stream Hid Hstream) as (_ & _ & G3).
    by rewrite G3, Ho.
Qed.

End DeliveryCallbackProperties.

Section ByteEventDeliveryOrder.

Context (E : Externals).

Context (trimWriteBuffer : Z -> QuicStreamState -> QuicStreamState).

Lemma queueSorted_tail front rest :
  queueSorted (front :: rest) -> queueSorted rest.
Proof. apply (queueSorted_suffix [front]). Qed.

Lemma callTxCallbacksForStream_sorted id ready q st :
  byteEventsSorted st -> queueSorted q ->
  byteEventsSorted (callTxCallbacksForStream id ready q st).1.
Proof.
  revert st. induction q as [| front rest IH]; intros st Hs Hq; [exact Hs |].
  cbn [callTxCallbacksForStream].
  destruct (ready <? offset front); [exact Hs |].
  pose proof (queueSorted_tail _ _ Hq) as Hrest.
  set (st1 := log _ (set_txCallbacks_ _ st)).
  assert (H1 : byteEventsSorted st1).
  { subst st1. apply byteEventsSorted_log. destruct rest.
    - apply (byteEventsSorted_delete TX id st Hs).
    - by apply (byteEventsSorted_insert TX id _ st Hs). }
  destruct (negb (isOpen st1)); [exact H1 |]. by apply IH.
Qed.

Lemma callDeliveryCallbacksForStream_sorted id ready q st :
  byteEventsSorted st -> queueSorted q ->
  byteEventsSorted (callDeliveryCallbacksForStream id ready q st).1.
Proof.
  revert st. induction q as [| front rest IH]; intros st Hs Hq; [exact Hs |].
  cbn [callDeliveryCallbacksForStream].
  destruct (negb (offset front <=? ready)); [exact Hs |].
  pose proof (queueSorted_tail _ _ Hq) as Hrest.
  set (st1 := log _ (set_deliveryCallbacks_ _ st)).
  assert (H1 : byteEventsSorted st1).
  { subst st1. apply byteEventsSorted_log.
    by apply (byteEventsSorted_insert ACK id _ st Hs). }
  destruct (negb (isOpen st1)); [exact H1 |]. by apply IH.
Qed.

Lemma queueOf_sorted type id st :
  byteEventsSorted st ->
  queueSorted (default [] (getByteEventMap type st !! id)).
Proof.
  intros Hs. destruct (getByteEventMap type st !! id) as [q |] eqn:Hq; simpl.
  - by apply (Hs type id).
  - constructor.
Qed.

Lemma processTxStreams_sorted txStreams st :
  byteEventsSorted st ->
  byteEventsSorted (finalState (processTxStreams E txStreams st)).
Proof.
  revert st. induction txStreams as [| id rest IH]; intros st Hs; [exact Hs |].
  cbn [processTxStreams].
  destruct (getStream id st) as [stream |]; [| exact Hs].
  destruct (getLargestWriteOffsetTxed E stream) as [ready |]; [| exact Hs].
  pose proof (callTxCallbacksForStream_sorted id ready
                (default [] (txCallbacks_ st !! id)) st Hs
                (queueOf_sorted TX id st Hs)) as H1.
  destruct (callTxCallbacksForStream _ _ _ _) as [st1 []]; simpl in *;
    [exact H1 | by apply IH].
Qed.

Lemma handleDeliveryCallbacks_sorted deliverableStreams st :
  byteEventsSorted st ->
  byteEventsSorted
    (finalState (handleDeliveryCallbacks E trimWriteBuffer deliverableStreams st)).
Proof.
  revert st.
  induction deliverableStreams as [| id rest IH]; intros st Hs; [exact Hs |].
  cbn [handleDeliveryCallbacks].
  destruct (getStream id st) as [stream |]; [| exact Hs].
  assert (H1 : byteEventsSorted
                 (deliverToStream E trimWriteBuffer id stream st).1).
  { unfold deliverToStream.
    destruct (getLargestDeliverableOffset E stream) as [o |]; [| exact Hs].
    set (st0 := update_conn _ st).
    assert (H0 : byteEventsSorted st0).
    { eapply byteEventsSorted_same; [| | exact Hs]; by destruct st. }
    apply callDeliveryCallbacksForStream_sorted; [exact H0 |].
    apply (queueOf_sorted ACK id st0 H0). }
  destruct (deliverToStream _ _ _ _ _) as [st1 []]; simpl in *; [exact H1 |].
  apply IH. unfold eraseEmptyDeliveryQueue.
  destruct (deliveryCallbacks_ st1 !! id) as [[| d q] |]; try exact H1.
  apply (byteEventsSorted_delete ACK id st1 H1).
Qed.

Lemma handleCancelByteEventCallbacks_sorted resets st :
  byteEventsSorted st ->
  byteEventsSorted (handleCancelByteEventCallbacks E resets st).
Proof.
  revert st. induction resets as [| id rest IH]; intros st Hs; [exact Hs |].
  cbn [handleCancelByteEventCallbacks].
  assert (H1 : byteEventsSorted
                 (cancelByteEventCallbacksForStream_allTypes E id None st)).
  { unfold cancelByteEventCallbacksForStream_allTypes.
    by do 2 apply cancelByteEventCallbacksForStream_sorted. }
  destruct (negb (isOpen _)); [exact H1 | by apply IH].
Qed.

(** X12: the paths that fire and cancel byte events after a write or an
    ingress turn keep every queue of both maps ordered by offset, whatever
    streams they are handed and wherever they stop:
    [processCallbacksAfterWriteData], [handleDeliveryCallbacks] and
    [handleCancelByteEventCallbacks]. *)
Theorem byteEvent_delivery_keeps_queues_sorted
    (ids : list StreamId) (st : QuicTransportBase) :
  byteEventsSorted st ->
  byteEventsSorted (finalState (processCallbacksAfterWriteData E ids st))
  /\ byteEventsSorted
       (finalState (handleDeliveryCallbacks E trimWriteBuffer ids st))
  /\ byteEventsSorted (handleCancelByteEventCallbacks E ids st).
Proof.
  intros Hs. split; [| split].
  - unfold processCallbacksAfterWriteData.
    destruct (negb (isOpen st)); [exact Hs |].
    by apply processTxStreams_sorted.
  - by apply handleDeliveryCallbacks_sorted.
  - by apply handleCancelByteEventCallbacks_sorted.
Qed.

End ByteEventDeliveryOrder.

Section CloseDelivery.

Context (E : Externals).

(** The errors a close hands out, for any close on a connection that is not
    closed yet: each is the cancel code. *)
Lemma closeImpl_delivered errorCode d s st :
  closeState_ st <> CLOSED ->
  exists evs,
    trace_ (finalState (closeImpl E errorCode d s st)) = trace_ st ++ evs
    /\ forall e q,
         e ∈ evs -> deliveredError e = Some q ->
         q = closeCancelCode E errorCode st.
Proof.
  intros Hopen.
  destruct (closeImpl_shape E errorCode d s st Hopen) as (mid & Hmid & Hres).
  set (c := closeCancelCode E errorCode st) in *.
  destruct (carries_trace _ _ _ Hmid) as (evs & Htr & Hevs).
  rewrite trace_set_closeState in Htr.
  rewrite Forall_forall in Hevs.
  destruct Hres as [-> | ->]; simpl.
  - exists evs. split; [exact Htr |].
    intros e q He. apply closeEvent_delivered. by apply Hevs.
  - destruct (drainPermitted c d st).
    + pose proof (scheduleTimeout_effect drainTimeout_
                    (drainTimeoutDuration E mid) mid) as (_ & _ & _ & Hs).
      destruct (evb_ mid).
      * destruct Hs as [Hs _].
        exists (evs ++ [evbScheduleTimeout drainTimeout_
                          (drainTimeoutDuration E mid)]).
        split; [by rewrite Hs, Htr, app_assoc |].
        intros e q [He | He]%elem_of_app.
        -- apply closeEvent_delivered. by apply Hevs.
        -- apply list_elem_of_singleton in He as ->. discriminate.
      * cbv zeta in Hs. rewrite Hs. exists evs. split; [exact Htr |].
        intros e q He. apply closeEvent_delivered. by apply Hevs.
    + pose proof (drainTimeoutExpired_effect mid) as (Hs & _).
      pose proof (drainExpiryEvents_spec mid) as (Hnone & _).
      rewrite Forall_forall in Hnone.
      exists (evs ++ drainExpiryEvents mid).
      split; [by rewrite Hs, Htr, app_assoc |].
      intros e q [He | He]%elem_of_app.
      * apply closeEvent_delivered. by apply Hevs.
      * destruct (Hnone e He) as [Hd _]. congruence.
Qed.

End CloseDelivery.

Section StreamIoProperties.

Context (E : Externals).

Context (readDataFromQuicStream :
           StreamId -> Z -> QuicConnectionStateBase -> StreamCall (Buf * bool)).
Context (consumeDataFromQuicStream :
           StreamId -> Z -> QuicConnectionStateBase -> StreamCall unit).
Context (currentReadOffset : QuicStreamState -> Z).
Context (streamReadError : QuicStreamState -> option QuicErrorCode).

(** The three looper updates on a closed connection stop the loopers and do
    nothing else. *)
Lemma loopers_after_close st :
  closeState_ st = CLOSED ->
  let st' := updateWriteLooper true (updatePeekLooper (updateReadLooper st)) in
  st' = set_writeLooper_ false (set_peekLooper_ false (set_readLooper_ false st)).
Proof.
  intros Hc. cbv zeta.
  unfold updateWriteLooper, updatePeekLooper, updateReadLooper, isOpen,
    isClosed.
  destruct st; simpl in *. subst. simpl. by rewrite orb_true_r.
Qed.

Lemma loopers_after_close' st :
  closeState_ st = CLOSED ->
  let st' := updateWriteLooper true (updateReadLooper (updatePeekLooper st)) in
  st' = set_writeLooper_ false (set_readLooper_ false (set_peekLooper_ false st)).
Proof.
  intros Hc. cbv zeta.
  unfold updateWriteLooper, updatePeekLooper, updateReadLooper, isOpen,
    isClosed.
  destruct st; simpl in *. subst. simpl. by rewrite orb_true_r.
Qed.

(** What [closeOnException] does on an open connection without a peer
    error. *)
Lemma closeOnException_effect ex message st :
  closeState_ st <> CLOSED ->
  peerConnectionError (conn_ st) = None ->
  readCallbackStreamsExist st ->
  exists st' evs,
    closeOnException E ex message st = Done (exceptionLocalError ex) st'
    /\ closeState_ st' = CLOSED
    /\ trace_ st' = trace_ st ++ evs
    /\ forall e q,
         e ∈ evs -> deliveredError e = Some q ->
         q = mkQuicError (exceptionCloseCode ex) (exceptionWhat ex).
Proof.
  intros Hopen Hpeer Hex. unfold closeOnException.
  set (st1 := set_exceptionCloseWhat_ _ st).
  set (errorCode := Some _).
  assert (Hopen1 : closeState_ st1 <> CLOSED) by (by destruct st).
  assert (Hex1 : readCallbackStreamsExist st1).
  { intros id data cb. subst st1. destruct st; simpl. apply Hex. }
  destruct (closeImpl_returns E errorCode true true st1 Hex1) as [st' Hdone].
  destruct (closeImpl_delivered E errorCode true true st1 Hopen1)
    as (evs & Ht & Hevs).
  rewrite Hdone in Ht |- *. simpl in Ht |- *.
  exists st', evs. split; [reflexivity |].
  split; [by apply (closeImpl_leaves_closed E _ _ _ _ _ Hdone) |].
  split; [rewrite Ht; by destruct st |].
  intros e q He Hq. rewrite (Hevs e q He Hq).
  unfold closeCancelCode. subst st1 errorCode.
  destruct st as [[] ? ? ? ? ? ? ? ? ? ? ? ? ? ? ? ? ? ? ? ? ? ? ?].
  simpl in *. by subst.
Qed.

(** X13: when the stream layer throws during [read] on an open connection,
    the connection is closed on the spot: [read] answers with the local
    error code the exception maps to, [closeState_] is Closed and the three
    loopers are stopped, and every application callback that is handed an
    error receives the code of the exception with the exception's own text
    as the message (not the text "read() error"). *)
Theorem read_exception_closes_connection
    (id : StreamId) (maxLen : Z) (ex : Exception)
    (conn : QuicConnectionStateBase) (st : QuicTransportBase) :
  isSendingStream E (nodeType (conn_ st)) id = false ->
  closeState_ st = OPEN ->
  is_Some (streams (conn_ st) !! id) ->
  readDataFromQuicStream id maxLen (conn_ st) = Throws ex conn ->
  peerConnectionError conn = None ->
  readCallbackStreamsExist (set_conn_ conn st) ->
  exists st' evs,
    read E readDataFromQuicStream id maxLen st
    = Done (Unexpected (exceptionLocalError ex)) st'
    /\ closeState_ st' = CLOSED
    /\ readLooper_ st' = false /\ peekLooper_ st' = false
    /\ writeLooper_ st' = false
    /\ trace_ st' = trace_ st ++ evs
    /\ forall e q,
         e ∈ evs -> deliveredError e = Some q ->
         q = mkQuicError (exceptionCloseCode ex) (exceptionWhat ex).
Proof.
  intros Hdir Hopen Hstream Hthrow Hpeer Hex.
  unfold read.
  rewrite Hdir, (isOpen_true _ Hopen), (streamExists_true _ _ Hstream).
  cbn [negb]. destruct Hstream as [stream Hstream].
  unfold getStream. rewrite Hstream, Hthrow.
  destruct (closeOnException_effect ex "read() error" (set_conn_ conn st))
    as (st1 & evs & Hclose & Hc & Ht & Hevs).
  { destruct st; simpl in *. by rewrite Hopen. }
  { by destruct st. }
  { exact Hex. }
  rewrite Hclose. cbn [andThen].
  change (updateWriteLooper true (updatePeekLooper (updateReadLooper st1)))
    with (let st' := updateWriteLooper true
                       (updatePeekLooper (updateReadLooper st1)) in st').
  rewrite (loopers_after_close st1 Hc).
  eexists _, evs. split; [reflexivity |].
  destruct st1; simpl in *. repeat split; try done.
  rewrite Ht. by destruct st.
Qed.

(** X14: a [read] that the stream layer answers takes over what the stream
    layer left of the connection state and hands the data on; when the data
    ends the stream (EOF) the stream's read-callback entry, if there is one,
    is marked as having delivered the end; no application callback is
    called. *)
Theorem read_returns_stream_data
    (id : StreamId) (maxLen : Z) (result : Buf * bool)
    (conn : QuicConnectionStateBase) (st : QuicTransportBase) :
  isSendingStream E (nodeType (conn_ st)) id = false ->
  closeState_ st = OPEN ->
  is_Some (streams (conn_ st) !! id) ->
  readDataFromQuicStream id maxLen (conn_ st) = Returns result conn ->
  exists st',
    read E readDataFromQuicStream id maxLen st = Done (Value result) st'
    /\ conn_ st' = conn
    /\ readCallbacks_ st'
       = (if snd result
          then alter (fun entry => mkReadCallbackData (readCb entry)
                                     (resumed entry) true) id
                 (readCallbacks_ st)
          else readCallbacks_ st)
    /\ closeState_ st' = OPEN
    /\ trace_ st' = trace_ st ++ [updateWriteLooperPass true].
Proof.
  intros Hdir Hopen Hstream Hret.
  unfold read.
  rewrite Hdir, (isOpen_true _ Hopen), (streamExists_true _ _ Hstream).
  cbn [negb]. destruct Hstream as [stream Hstream].
  unfold getStream. rewrite Hstream, Hret. cbn [andThen].
  set (st1 := if snd result then _ else _).
  assert (H1 : conn_ st1 = conn
               /\ readCallbacks_ st1
                  = (if snd result
                     then alter (fun entry => mkReadCallbackData (readCb entry)
                                                (resumed entry) true) id
                            (readCallbacks_ st)
                     else readCallbacks_ st)
               /\ closeState_ st1 = OPEN /\ trace_ st1 = trace_ st).
  { subst st1. destruct (snd result).
    - replace (readCallbacks_ (set_conn_ conn st)) with (readCallbacks_ st)
        by (by destruct st).
      destruct (readCallbacks_ st !! id) as [entry |] eqn:Hentry.
      + destruct st; simpl in *. repeat split; try done.
        apply map_eq. intros k. destruct (decide (k = id)) as [-> |].
        * by rewrite lookup_insert_eq, lookup_alter_eq, Hentry.
        * by rewrite lookup_insert_ne, lookup_alter_ne.
      + destruct st; simpl in *. repeat split; try done.
        apply map_eq. intros k. destruct (decide (k = id)) as [-> |].
        * by rewrite lookup_alter_eq, Hentry.
        * by rewrite lookup_alter_ne.
    - by destruct st. }
  destruct H1 as (Hc1 & Hr1 & Ho1 & Ht1).
  eexists. split; [reflexivity |].
  destruct (updateReadLooper_frame st1) as [b1 ->].
  destruct (updatePeekLooper_frame (set_readLooper_ b1 st1)) as [b2 ->].
  unfold updateWriteLooper, isClosed.
  rewrite bool_decide_eq_false_2 by (destruct st1; simpl in *; congruence).
  destruct st1; simpl in *. repeat split; try done. by rewrite Ht1.
Qed.

(** X15: [consume] at an offset that is not the stream's current read
    offset consumes nothing: it answers INTERNAL_ERROR together with the
    offset the stream is at, and leaves the connection state as it was.  The
    two-argument [consume] passes the stream's own offset, so it reaches the
    stream layer whenever the connection is open and the stream exists and
    has no read error; on a connection that is not open it answers
    STREAM_NOT_EXISTS for an unknown stream and CONNECTION_CLOSED for a
    known one, without any effect. *)
Theorem consume_checks_offset
    (id : StreamId) (amount : Z) (stream : QuicStreamState)
    (st : QuicTransportBase) :
  (closeState_ st = OPEN -> getStream id st = Some stream ->
   (forall o, currentReadOffset stream <> o ->
      exists st',
        consumeAt E consumeDataFromQuicStream currentReadOffset
          streamReadError id o amount st
        = Done (ConsumeError LocalErrorCode.INTERNAL_ERROR
                  (Some (currentReadOffset stream))) st'
        /\ conn_ st' = conn_ st
        /\ trace_ st' = trace_ st ++ [updateWriteLooperPass true])
   /\ (forall conn,
         streamReadError stream = None ->
         consumeDataFromQuicStream id amount (conn_ st) = Returns tt conn ->
         exists st',
           consume E consumeDataFromQuicStream currentReadOffset
             streamReadError id amount st
           = Done (Value tt) st'
           /\ conn_ st' = conn))
  /\ (closeState_ st <> OPEN ->
      consume E consumeDataFromQuicStream currentReadOffset streamReadError
        id amount st
      = Done (Unexpected (if streamExists id st
                          then LocalErrorCode.CONNECTION_CLOSED
                          else LocalErrorCode.STREAM_NOT_EXISTS)) st).
Proof.
  assert (Hloop : forall st1,
            closeState_ st1 = OPEN ->
            exists st',
              updateWriteLooper true (updateReadLooper (updatePeekLooper st1))
              = st'
              /\ conn_ st' = conn_ st1
              /\ trace_ st' = trace_ st1 ++ [updateWriteLooperPass true]).
  { intros st1 Ho. eexists. split; [reflexivity |].
    destruct (updatePeekLooper_frame st1) as [b1 ->].
    destruct (updateReadLooper_frame (set_peekLooper_ b1 st1)) as [b2 ->].
    unfold updateWriteLooper, isClosed.
    rewrite bool_decide_eq_false_2 by (destruct st1; simpl in *; congruence).
    by destruct st1. }
  split.
  - intros Hopen Hstream.
    assert (Hex : streamExists id st = true).
    { unfold streamExists. apply bool_decide_eq_true_2. rewrite Hstream.
      by eexists. }
    split.
    + intros o Hne. unfold consumeAt.
      rewrite (isOpen_true _ Hopen), Hex, Hstream. cbn [negb].
      rewrite (proj2 (Z.eqb_neq _ _) Hne). cbn [negb andThen].
      destruct (Hloop st Hopen) as (st' & -> & Hc & Ht). by exists st'.
    + intros conn Hnone Hret. unfold consume, consumeAt.
      rewrite Hex, Hstream, (isOpen_true _ Hopen). cbn [negb].
      rewrite Z.eqb_refl, Hnone, Hret. cbn [negb andThen].
      destruct (Hloop (set_conn_ conn st)) as (st' & -> & Hc & _).
      { by destruct st. }
      exists st'. split; [reflexivity |]. rewrite Hc. by destruct st.
  - intros Hclosed. unfold consume.
    destruct (streamExists id st) eqn:Hex; [| reflexivity]. cbn [negb].
    destruct (streamExists_getStream _ _ Hex) as [stream' ->].
    unfold consumeAt. by rewrite (isOpen_false _ Hclosed).
Qed.

End StreamIoProperties.

Section CloseClearsRegistry.

Context (E : Externals).

Lemma eraseKeys_lookup {V} (l : list (Z * V)) (m : gmap Z V) k :
  eraseKeys m l !! k = if decide (k ∈ l.*1) then None else m !! k.
Proof.
  revert m. induction l as [| [id v] rest IH]; intros m.
  - unfold eraseKeys. cbn [foldl].
    destruct (decide _) as [H |]; [by apply elem_of_nil in H | done].
  - rewrite fmap_cons. cbn [eraseKeys foldl fst].
    change (foldl _ (delete id m) rest) with (eraseKeys (delete id m) rest).
    rewrite IH.
    destruct (decide (k = id)) as [-> | Hne].
    + rewrite lookup_delete_eq.
      rewrite (decide_True (P := id ∈ id :: rest.*1))
        by apply list_elem_of_here.
      by destruct (decide (id ∈ rest.*1)).
    + rewrite lookup_delete_ne by done.
      destruct (decide (k ∈ rest.*1)) as [Hr | Hr].
      * by rewrite decide_True by (by apply list_elem_of_further).
      * rewrite decide_False; [done |].
        intros [? | ?]%elem_of_cons; done.
Qed.

Lemma eraseKeys_all {V} (m : gmap Z V) : eraseKeys m (map_to_list m) = ∅.
Proof.
  apply map_eq. intros k. rewrite eraseKeys_lookup, lookup_empty.
  destruct (decide _) as [| Hnot]; [done |].
  destruct (m !! k) as [v |] eqn:Hk; [| done].
  exfalso. apply Hnot. apply list_elem_of_fmap. exists (k, v).
  split; [done |]. by apply elem_of_map_to_list.
Qed.

(** The three loops of [cancelAllAppCallbacks]: each erases the entries it
    is handed from its map and touches nothing else but the trace. *)
Lemma cancelReadCallbacks_erases err l st st' :
  cancelReadCallbacks err l st = Done tt st' ->
  exists t,
    st' = set_trace_ t
            (set_readCallbacks_ (eraseKeys (readCallbacks_ st) l) st).
Proof.
  revert st. induction l as [| [id data] rest IH]; intros st; simpl.
  - intros [= <-]. exists (trace_ st). by destruct st.
  - destruct (readCb data) as [cb |].
    + destruct (getStream id _) as [stream |]; [| discriminate].
      intros Hrun. apply IH in Hrun as [t ->]. exists t. by destruct st.
    + intros Hrun. apply IH in Hrun as [t ->]. exists t. by destruct st.
Qed.

Lemma cancelPeekCallbacks_erases err l st :
  exists t,
    cancelPeekCallbacks err l st
    = set_trace_ t
        (set_peekCallbacks_ (eraseKeys (peekCallbacks_ st) l) st).
Proof.
  revert st. induction l as [| [id data] rest IH]; intros st; simpl.
  - exists (trace_ st). by destruct st.
  - destruct (peekCb data) as [cb |].
    + destruct (IH (log (peekError cb id err)
                      (set_peekCallbacks_ (delete id (peekCallbacks_ st)) st)))
        as [t ->].
      exists t. by destruct st.
    + destruct (IH (set_peekCallbacks_ (delete id (peekCallbacks_ st)) st))
        as [t ->].
      exists t. by destruct st.
Qed.

Lemma cancelPendingWriteCallbacks_erases err l st :
  exists t,
    cancelPendingWriteCallbacks err l st
    = set_trace_ t
        (set_pendingWriteCallbacks_
           (eraseKeys (pendingWriteCallbacks_ st) l) st).
Proof.
  revert st. induction l as [| [id wcb] rest IH]; intros st; simpl.
  - exists (trace_ st). by destruct st.
  - destruct (IH (log (onStreamWriteError wcb id err)
                    (set_pendingWriteCallbacks_
                       (delete id (pendingWriteCallbacks_ st)) st)))
      as [t ->].
    exists t. by destruct st.
Qed.

(** On a closed connection a returning [cancelAllAppCallbacks] leaves no
    callback registered and the loopers stopped; the timers are as they
    were. *)
Lemma cancelAllAppCallbacks_clears err st st' :
  closeState_ st = CLOSED ->
  cancelAllAppCallbacks err st = Done tt st' ->
  registryCleared st' /\ loopersStopped st' /\ timers_ st' = timers_ st
  /\ closeState_ st' = CLOSED.
Proof.
  intros Hc. unfold cancelAllAppCallbacks.
  set (st1 := cancelAllByteEventCallbacks (streamManager_clearActionable st)).
  assert (H1 : exists t c,
            st1 = set_trace_ t
                    (set_txCallbacks_ ∅
                       (set_deliveryCallbacks_ ∅ (set_conn_ c st)))).
  { subst st1. unfold cancelAllByteEventCallbacks, cancelByteEventCallbacks,
      streamManager_clearActionable, log, update_conn.
    destruct st. simpl. by eexists _, _. }
  destruct H1 as (t1 & c1 & H1).
  destruct (cancelReadCallbacks err (map_to_list (readCallbacks_ st1)) st1)
    as [[] st2 | st2] eqn:Hread; [| discriminate].
  apply cancelReadCallbacks_erases in Hread as [t2 ->].
  rewrite eraseKeys_all. cbn [andThen].
  set (st3 := set_pingCallback_ None (set_datagramCallback_ None _)).
  destruct (cancelPeekCallbacks_erases err (map_to_list (peekCallbacks_ st3))
              st3) as [t4 ->].
  rewrite eraseKeys_all.
  set (st4 := set_trace_ t4 _).
  set (st5 := match connWriteCallback_ st4 with
              | Some cb => _ | None => st4 end).
  assert (H5 : exists t,
            st5 = set_trace_ t (set_connWriteCallback_ None st4)).
  { subst st5. destruct (connWriteCallback_ st4) eqn:Hcw.
    - eexists. unfold log. reflexivity.
    - exists (trace_ st4). revert Hcw. generalize st4. clear.
      intros s Hs. destruct s; simpl in *. by subst. }
  destruct H5 as [t5 ->].
  match goal with
  | |- context [cancelPendingWriteCallbacks err ?l ?s] =>
      destruct (cancelPendingWriteCallbacks_erases err l s) as [t6 ->]
  end.
  rewrite eraseKeys_all.
  intros [= <-].
  subst st4 st3. rewrite H1.
  match goal with
  | |- context [checkForClosedStream ?s] => set (inner := s)
  end.
  assert (Hin : closeState_ inner = CLOSED /\ registryCleared inner
                /\ timers_ inner = timers_ st).
  { subst inner. clear H1 st1. destruct st. simpl in Hc. simpl.
    split; [exact Hc |]. by split. }
  destruct Hin as (Hci & Hri & Hti).
  unfold checkForClosedStream. rewrite (isClosed_true _ Hci).
  pose proof (loopers_after_close inner Hci) as Hl. cbv zeta in Hl.
  rewrite Hl. clearbody inner. clear Hl H1.
  destruct Hri. destruct inner. simpl in *.
  split; [by split |]. by repeat split.
Qed.

Lemma keepsRegistry_refl st : keepsRegistry st st.
Proof. by split. Qed.

Lemma keepsRegistry_trans st1 st2 st3 :
  keepsRegistry st1 st2 -> keepsRegistry st2 st3 -> keepsRegistry st1 st3.
Proof. intros [] []. split; congruence. Qed.

Lemma keepsRegistry_log e st : keepsRegistry st (log e st).
Proof. by destruct st. Qed.

Lemma keepsRegistry_update_conn f st : keepsRegistry st (update_conn f st).
Proof. by destruct st. Qed.

Lemma keepsRegistry_when b f st :
  (forall st0, keepsRegistry st0 (f st0)) -> keepsRegistry st (when b f st).
Proof.
  intros Hf. destruct b; [apply Hf | apply keepsRegistry_refl].
Qed.

Lemma keepsRegistry_resetConnectionCallbacks st :
  keepsRegistry st (resetConnectionCallbacks st).
Proof. by destruct st. Qed.

Lemma keepsRegistry_clearOpenStreams st :
  keepsRegistry st (streamManager_clearOpenStreams st).
Proof. by destruct st. Qed.

Lemma keepsRegistry_clearActionable st :
  keepsRegistry st (streamManager_clearActionable st).
Proof. by destruct st. Qed.

Lemma keepsRegistry_processConnectionCallbacks c st :
  keepsRegistry st (processConnectionCallbacks E c st).
Proof.
  unfold processConnectionCallbacks.
  destruct (connCallback_ st); [| apply keepsRegistry_refl].
  destruct (useConnectionEndWithErrorCallback_ st);
    [| destruct (processCancelCode E c)]; apply keepsRegistry_log.
Qed.

Lemma keepsRegistry_processConnectionSetupCallbacks c st :
  keepsRegistry st (processConnectionSetupCallbacks c st).
Proof.
  unfold processConnectionSetupCallbacks.
  destruct (connSetupCallback_ st);
    [apply keepsRegistry_log | apply keepsRegistry_refl].
Qed.

Lemma keepsRegistry_closeUdpSocket st : keepsRegistry st (closeUdpSocket st).
Proof.
  unfold closeUdpSocket. destruct (socket_ st); [| apply keepsRegistry_refl].
  destruct st as [? ? ? ? obs ? ? ? ? ? ? ? ? ? ? ? ? ? ? ? ? ? ? ?].
  by destruct obs.
Qed.

Create HintDb keeps discriminated.

#[local] Hint Resolve keepsRegistry_refl keepsRegistry_log
  keepsRegistry_update_conn keepsRegistry_resetConnectionCallbacks
  keepsRegistry_clearOpenStreams keepsRegistry_clearActionable
  keepsRegistry_processConnectionCallbacks
  keepsRegistry_processConnectionSetupCallbacks
  keepsRegistry_closeUdpSocket : keeps.

Ltac keep :=
  repeat first
    [ solve [eauto 2 with keeps]
    | apply keepsRegistry_when; intros
    | eapply keepsRegistry_trans; [| solve [eauto 2 with keeps] ] ].

Lemma keepsRegistry_closeImplTeardown c s st :
  keepsRegistry st (closeImplTeardown E c s st).
Proof.
  unfold closeImplTeardown. cbv zeta.
  eapply keepsRegistry_trans; [| apply keepsRegistry_when; intros; keep].
  do 3 (eapply keepsRegistry_trans; [| solve [eauto 3 with keeps] ]).
  match goal with
  | |- keepsRegistry _ (if transportReadyNotified_ ?s then _ else _) =>
      set (st8 := s);
      assert (H8 : keepsRegistry st st8) by (subst st8; keep)
  end.
  eapply keepsRegistry_trans; [exact H8 |].
  destruct (transportReadyNotified_ st8); keep.
Qed.

Lemma keepsRegistry_drainTimeoutExpired st :
  keepsRegistry st (drainTimeoutExpired st).
Proof. unfold drainTimeoutExpired. keep. Qed.

Lemma keepsRegistry_cleared st st' :
  keepsRegistry st st' ->
  (registryCleared st -> registryCleared st')
  /\ (loopersStopped st -> loopersStopped st')
  /\ timers_ st' = timers_ st.
Proof.
  intros []. split; [intros []; split; congruence |].
  split; [| done]. unfold loopersStopped. intros (? & ? & ?).
  repeat split; congruence.
Qed.

Lemma closeImplTeardown_frame c s st :
  let st' := closeImplTeardown E c s st in
  (registryCleared st -> registryCleared st')
  /\ (loopersStopped st -> loopersStopped st')
  /\ timers_ st' = timers_ st.
Proof. apply keepsRegistry_cleared, keepsRegistry_closeImplTeardown. Qed.

Lemma drainTimeoutExpired_frame st :
  let st' := drainTimeoutExpired st in
  (registryCleared st -> registryCleared st')
  /\ (loopersStopped st -> loopersStopped st')
  /\ timers_ st' = timers_ st.
Proof. apply keepsRegistry_cleared, keepsRegistry_drainTimeoutExpired. Qed.

Lemma scheduleTimeout_frame t ms st :
  let st' := scheduleTimeout t ms st in
  (registryCleared st -> registryCleared st')
  /\ (loopersStopped st -> loopersStopped st')
  /\ (forall t', t' <> t -> timers_ st' !! t' = timers_ st !! t').
Proof.
  cbv zeta. unfold scheduleTimeout, log, loopersStopped.
  destruct st as [? ? evb ? ? ? ? ? ? ? ? ? ? ? ? ? ? ? ? ? ? ? ? ?].
  destruct evb; simpl;
    (split; [intros []; by split |]); (split; [done |]); intros t' Hne;
    [by rewrite lookup_insert_ne | done].
Qed.

Lemma closeImplStop_timers errorCode d s st :
  let st' := closeImplStop errorCode d s st in
  (forall t, t <> drainTimeout_ -> timers_ st' !! t = None)
  /\ closeState_ st' = closeState_ st.
Proof.
  cbv zeta. unfold closeImplStop, cancelLossTimeout, cancelTimeout, when, log,
    update_conn.
  destruct st as [[] ? ? ? ? ? ? ? ? ? ? ? ? ? ? ? ? ? ? ? ? ? ? ?].
  destruct errorCode; simpl;
    repeat match goal with
           | |- context [if ?b then _ else _] => destruct b; simpl
           end;
    (split; [| reflexivity]); intros [] Hne; try done;
    repeat (first [rewrite lookup_delete_eq | rewrite lookup_delete_ne by done]);
    reflexivity.
Qed.

(** X16: when [closeImpl] returns on a connection that was not closed, no
    application callback is left registered (the maps of read, peek,
    delivery, TX and pending-write callbacks are empty, and the
    connection-write, datagram and ping callbacks are null), the three
    loopers are stopped, and no timer but the drain timer is scheduled. *)
Theorem closeImpl_leaves_no_callback
    (errorCode : option QuicError) (drainConnection sendCloseImmediately : bool)
    (st st' : QuicTransportBase) :
  closeState_ st <> CLOSED ->
  closeImpl E errorCode drainConnection sendCloseImmediately st = Done tt st' ->
  registryCleared st'
  /\ loopersStopped st'
  /\ (forall t, t <> drainTimeout_ -> timers_ st' !! t = None)
  /\ closeState_ st' = CLOSED.
Proof.
  intros Hopen. rewrite closeImpl_phases, (isClosed_false _ Hopen).
  cbv zeta.
  set (stopped := closeImplStop _ _ _ _).
  set (c := closeCancelCode E errorCode _).
  destruct (closeImplStop_timers errorCode
              (drainConnection
               && shouldDrain
                    (transportSettings
                       (conn_ (when (socketObserverContainer st)
                                 (log (closeStarted errorCode)) st))))
              sendCloseImmediately (closeImplEntry errorCode st))
    as [Htimers Hcs].
  fold stopped in Htimers, Hcs.
  assert (Hclosed : closeState_ stopped = CLOSED).
  { rewrite Hcs. unfold closeImplEntry, when, log.
    destruct st as [[] ? ? ? obs ? ? ? ? ? ? ? ? ? ? ? ? ? ? ? ? ? ? ?].
    simpl. by destruct obs, qLogger. }
  destruct (cancelAllAppCallbacks c stopped) as [[] st3 | st3] eqn:Hcancel;
    [| discriminate].
  destruct (cancelAllAppCallbacks_clears c stopped st3 Hclosed Hcancel)
    as (Hreg & Hloop & Htm & Hc3).
  cbn [andThen].
  destruct (closeImplTeardown_frame c sendCloseImmediately st3)
    as (Treg & Tloop & Ttm).
  assert (Tcs : closeState_ (closeImplTeardown E c sendCloseImmediately st3)
                = CLOSED).
  { rewrite <- Hc3.
    apply (carries_closeState c st3 _ (carries_closeImplTeardown E c _ st3)). }
  destruct (drainPermitted _ _ _); intros [= <-].
  - destruct (scheduleTimeout_frame drainTimeout_
                (drainTimeoutDuration E
                   (closeImplTeardown E c sendCloseImmediately st3))
                (closeImplTeardown E c sendCloseImmediately st3))
      as (Sreg & Sloop & Stm).
    split; [by apply Sreg, Treg |]. split; [by apply Sloop, Tloop |].
    split.
    + intros t Hne. rewrite (Stm t Hne), Ttm, Htm. by apply Htimers.
    + pose proof (scheduleTimeout_effect drainTimeout_
                    (drainTimeoutDuration E
                       (closeImplTeardown E c sendCloseImmediately st3))
                    (closeImplTeardown E c sendCloseImmediately st3))
        as (_ & Hs & _).
      cbv zeta in Hs. congruence.
  - destruct (drainTimeoutExpired_frame
                (closeImplTeardown E c sendCloseImmediately st3))
      as (Dreg & Dloop & Dtm).
    split; [by apply Dreg, Treg |]. split; [by apply Dloop, Tloop |].
    split.
    + intros t Hne. rewrite Dtm, Ttm, Htm. by apply Htimers.
    + pose proof (drainTimeoutExpired_effect
                    (closeImplTeardown E c sendCloseImmediately st3))
        as (_ & _ & _ & Hs & _).
      cbv zeta in Hs. congruence.
Qed.

End CloseClearsRegistry.

Section ClosedRegistry.

Context (E : Externals).

Lemma applyRegistryOp_closed op st :
  closeState_ st <> OPEN ->
  registryCleared st ->
  registryCleared (applyRegistryOp E st op)
  /\ closeState_ (applyRegistryOp E st op) = closeState_ st.
Proof.
  intros Hclosed Hreg. pose proof (isOpen_false _ Hclosed) as Ho.
  pose proof Hreg as [Hr Hp Hd Ht Hw _ _ _].
  destruct op; cbn [applyRegistryOp].
  - unfold setReadCallback. rewrite Ho.
    by destruct (isSendingStream _ _ _).
  - unfold setPeekCallback. by rewrite Ho.
  - unfold pauseOrResumeRead. rewrite Ho.
    by destruct (isSendingStream _ _ _).
  - unfold pauseOrResumePeek. by rewrite Ho.
  - unfold registerByteEventCallback. rewrite Ho.
    by destruct (isReceivingStream _ _ _).
  - unfold cancelByteEventCallbacksForStream.
    destruct (isReceivingStream _ _ _); [done |].
    assert (Hnone : getByteEventMap type st !! id = None).
    { destruct type; simpl; [rewrite Hd | rewrite Ht]; apply lookup_empty. }
    rewrite Hnone. destruct Hreg. destruct st; simpl in *. by split.
  - unfold setPingCallback. by rewrite Ho.
  - unfold setDatagramCallback. by rewrite Ho.
  - unfold unregisterStreamWriteCallback.
    destruct (negb (streamExists id st)); [done |].
    rewrite Hw, lookup_empty. by split.
  - unfold unsetAllReadCallbacks. rewrite Hr, map_to_list_empty. by split.
  - unfold unsetAllPeekCallbacks. rewrite Hp, map_to_list_empty. by split.
  - unfold unsetAllDeliveryCallbacks. rewrite Hd, map_to_list_empty.
    by split.
Qed.

(** X17: a transport that is not open and holds no application callback
    never holds one again: whatever calls the application makes to register,
    pause, resume, unset or cancel callbacks, and in whatever order, every
    map stays empty and every callback pointer null, and the close state
    stays as it is. *)
Theorem closed_registry_stays_cleared
    (ops : list RegistryOp) (st : QuicTransportBase) :
  closeState_ st <> OPEN ->
  registryCleared st ->
  registryCleared (foldl (applyRegistryOp E) st ops)
  /\ closeState_ (foldl (applyRegistryOp E) st ops) = closeState_ st.
Proof.
  revert st. induction ops as [| op ops IH]; intros st Hclosed Hreg; [done |].
  simpl. destruct (applyRegistryOp_closed op st Hclosed Hreg) as [Hreg' Hc'].
  destruct (IH (applyRegistryOp E st op)) as [Hr Hc]; [congruence | done |].
  split; [exact Hr | congruence].
Qed.

End ClosedRegistry.

Section CloseNow.

Context (E : Externals).

Lemma occurrences_app kind evs1 evs2 :
  occurrences kind (evs1 ++ evs2)
  = (occurrences kind evs1 + occurrences kind evs2)%nat.
Proof. unfold occurrences. by rewrite List.filter_app, length_app. Qed.

Lemma occurrences_none kind evs :
  Forall (fun e => kind e = false) evs -> occurrences kind evs = O.
Proof.
  unfold occurrences. induction 1 as [| e l He Hl IH]; [done |].
  simpl. by rewrite He.
Qed.

(** The steps of a close before the drain decision touch neither the socket
    nor the binding of the connection. *)
Lemma closeEvent_quiet c evs :
  Forall (fun e => closeEvent c e = true) evs ->
  occurrences isSocketClose evs = O
  /\ occurrences isUnbindConnection evs = O.
Proof.
  intros Hevs. split; apply occurrences_none;
    (eapply Forall_impl; [exact Hevs |]); intros e He; by destruct e.
Qed.

Lemma drainExpiryEvents_occurrences st :
  occurrences isSocketClose (drainExpiryEvents st)
  = match socket_ st with Some _ => 1 | None => 0 end%nat
  /\ occurrences isUnbindConnection (drainExpiryEvents st) = 1%nat.
Proof.
  unfold drainExpiryEvents.
  destruct (socket_ st); [destruct (socketObserverContainer st) |]; by split.
Qed.

(** The shape of [closeImpl] in terms of the trace: up to the drain
    decision the trace grows by events that touch neither the socket nor the
    binding. *)
Lemma closeImpl_done_shape errorCode d s st st' :
  closeState_ st <> CLOSED ->
  closeImpl E errorCode d s st = Done tt st' ->
  let c := closeCancelCode E errorCode st in
  exists mid evs,
    st' = (if drainPermitted c d st
           then scheduleTimeout drainTimeout_ (drainTimeoutDuration E mid) mid
           else drainTimeoutExpired mid)
    /\ trace_ mid = trace_ st ++ evs
    /\ Forall (fun e => closeEvent c e = true) evs
    /\ closeState_ mid = CLOSED
    /\ socket_ mid = socket_ st
    /\ evb_ mid = evb_ st
    /\ socketObserverContainer mid = socketObserverContainer st
    /\ timers_ mid !! drainTimeout_ = timers_ st !! drainTimeout_.
Proof.
  intros Hopen Hdone c.
  destruct (closeImpl_shape E errorCode d s st Hopen) as (mid & Hmid & Hres).
  fold c in Hmid, Hres.
  destruct Hres as [Hres | Hres]; rewrite Hres in Hdone; [discriminate |].
  injection Hdone as <-.
  destruct (carries_trace _ _ _ Hmid) as (evs & Htr & Hevs).
  rewrite trace_set_closeState in Htr.
  exists mid, evs. split; [reflexivity |]. split; [exact Htr |].
  split; [exact Hevs |].
  pose proof (carries_closeState _ _ _ Hmid) as H1.
  pose proof (carries_socket _ _ _ Hmid) as H2.
  pose proof (carries_evb _ _ _ Hmid) as H3.
  pose proof (carries_observers _ _ _ Hmid) as H4.
  pose proof (carries_drain _ _ _ Hmid) as H5.
  destruct st; simpl in *. by repeat split.
Qed.

(** X18: a [closeNow] that returns on a connection that was not closed
    always finishes the close: the connection is Closed, the UDP socket is
    given up (closed exactly once if one was held), the connection is
    unbound, and no drain timer is left pending. *)
Theorem closeNow_finishes_the_close
    (errorCode : option QuicError) (st st' : QuicTransportBase) :
  closeState_ st <> CLOSED ->
  closeNow E errorCode st = Done tt st' ->
  closeState_ st' = CLOSED
  /\ socket_ st' = None
  /\ timers_ st' !! drainTimeout_ = None
  /\ exists evs,
       trace_ st' = trace_ st ++ evs
       /\ last evs = Some unbindConnection
       /\ occurrences isSocketClose evs
          = match socket_ st with Some _ => 1 | None => 0 end%nat.
Proof.
  intros Hopen. unfold closeNow.
  destruct (closeImpl E _ false true st) as [[] st1 | st1] eqn:Hclose;
    [| discriminate].
  destruct (closeImpl_done_shape _ _ _ _ _ Hopen Hclose)
    as (mid & evs & Hst1 & Ht & Hevs & Hc & Hsock & _ & _ & Hdrain).
  cbv zeta in Hst1.
  replace (drainPermitted _ false st) with false in Hst1
    by (unfold drainPermitted; reflexivity).
  destruct (drainTimeoutExpired_effect mid) as (Et & Es & Etm & Ec & _).
  cbv zeta in Et, Es, Etm, Ec. rewrite <- Hst1 in Et, Es, Etm, Ec.
  destruct (closeEvent_quiet _ _ Hevs) as [Hq _].
  destruct (drainExpiryEvents_occurrences mid) as [Hn _].
  cbn [andThen].
  destruct (isTimeoutScheduled drainTimeout_ st1) eqn:Hsched; intros [= <-].
  - set (st2 := cancelTimeout drainTimeout_ st1).
    assert (H2 : socket_ st2 = None /\ closeState_ st2 = CLOSED
                 /\ trace_ st2 = trace_ st1
                 /\ timers_ st2 !! drainTimeout_ = None).
    { subst st2. unfold cancelTimeout. destruct st1; simpl in *.
      repeat split; try congruence. apply lookup_delete_eq. }
    destruct H2 as (S2 & C2 & T2 & M2).
    destruct (drainTimeoutExpired_effect st2) as (Ft & Fs & Ftm & Fc & _).
    cbv zeta in Ft, Fs, Ftm, Fc.
    split; [congruence |]. split; [exact Fs |]. split; [congruence |].
    exists (evs ++ drainExpiryEvents mid ++ drainExpiryEvents st2).
    split; [rewrite Ft, T2, Et, Ht; by rewrite <- !app_assoc |].
    split.
    + unfold drainExpiryEvents at 2. rewrite S2. simpl.
      rewrite !app_assoc. apply last_snoc.
    + rewrite !occurrences_app, Hq, Hn, Hsock.
      unfold drainExpiryEvents. rewrite S2. simpl.
      destruct (socket_ st); reflexivity.
  - split; [congruence |]. split; [exact Es |]. split.
    + unfold isTimeoutScheduled in Hsched.
      apply bool_decide_eq_false_1 in Hsched.
      destruct (timers_ st1 !! drainTimeout_) eqn:Hl; [| done].
      exfalso. apply Hsched. by eexists.
    + exists (evs ++ drainExpiryEvents mid).
      split; [rewrite Et, Ht; by rewrite <- app_assoc |].
      split.
      * unfold drainExpiryEvents. rewrite !app_assoc. apply last_snoc.
      * rewrite occurrences_app, Hq, Hn, Hsock. reflexivity.
Qed.

(** X19: [closeNow] after [close], on a transport that has an event base
    and no drain timer pending at the start, ends with the socket given up
    and no drain timer pending; over the two calls the socket is closed
    exactly once if one was held and the connection is unbound exactly
    once, whether [close] armed the drain timer or not. *)
Theorem close_then_closeNow_unbinds_once
    (errorCode errorCode' : option QuicError) (st st1 st2 : QuicTransportBase) :
  closeState_ st <> CLOSED ->
  is_Some (evb_ st) ->
  timers_ st !! drainTimeout_ = None ->
  close E errorCode st = Done tt st1 ->
  closeNow E errorCode' st1 = Done tt st2 ->
  closeState_ st2 = CLOSED
  /\ socket_ st2 = None
  /\ timers_ st2 !! drainTimeout_ = None
  /\ exists evs,
       trace_ st2 = trace_ st ++ evs
       /\ occurrences isUnbindConnection evs = 1%nat
       /\ occurrences isSocketClose evs
          = match socket_ st with Some _ => 1 | None => 0 end%nat.
Proof.
  intros Hopen [evb Hevb] Hidle. unfold close.
  set (st0 := resetConnectionCallbacks st).
  assert (H0 : closeState_ st0 <> CLOSED /\ evb_ st0 = Some evb
               /\ timers_ st0 !! drainTimeout_ = None
               /\ socket_ st0 = socket_ st /\ trace_ st0 = trace_ st).
  { subst st0. by destruct st. }
  destruct H0 as (Hopen0 & Hevb0 & Hidle0 & Hsock0 & Htr0).
  intros Hclose.
  destruct (closeImpl_done_shape _ _ _ _ _ Hopen0 Hclose)
    as (mid & evs & Hst1 & Ht & Hevs & Hc & Hsock & Hev & _ & Hdrain).
  cbv zeta in Hst1.
  destruct (closeEvent_quiet _ _ Hevs) as [Hq1 Hq2].
  destruct (drainExpiryEvents_occurrences mid) as [Hn1 Hn2].
  assert (Hc1 : closeState_ st1 = CLOSED)
    by (by apply (closeImpl_leaves_closed E _ _ _ _ _ Hclose)).
  unfold closeNow. unfold closeImpl at 1. rewrite (isClosed_true _ Hc1).
  cbn [andThen].
  destruct (drainPermitted _ true st0).
  - destruct (scheduleTimeout_effect drainTimeout_
                (drainTimeoutDuration E mid) mid) as (Ss & Sc & _ & Sev).
    cbv zeta in Ss, Sc, Sev. rewrite <- Hst1 in Ss, Sc, Sev.
    rewrite Hev, Hevb0 in Sev. destruct Sev as [St Stm].
    unfold isTimeoutScheduled. rewrite Stm.
    rewrite bool_decide_eq_true_2 by (by eexists).
    intros [= <-].
    set (st1' := cancelTimeout drainTimeout_ st1).
    assert (H1 : socket_ st1' = socket_ st1 /\ closeState_ st1' = CLOSED
                 /\ trace_ st1' = trace_ st1
                 /\ socketObserverContainer st1' = socketObserverContainer st1
                 /\ timers_ st1' !! drainTimeout_ = None).
    { subst st1'. unfold cancelTimeout. destruct st1; simpl in *.
      repeat split; try congruence. apply lookup_delete_eq. }
    destruct H1 as (S1 & C1 & T1 & O1 & M1).
    destruct (drainTimeoutExpired_effect st1') as (Ft & Fs & Ftm & Fc & _).
    cbv zeta in Ft, Fs, Ftm, Fc.
    destruct (drainExpiryEvents_occurrences st1') as [Gn1 Gn2].
    split; [congruence |]. split; [exact Fs |]. split; [congruence |].
    exists (evs ++ [evbScheduleTimeout drainTimeout_
                      (drainTimeoutDuration E mid)]
              ++ drainExpiryEvents st1').
    split; [rewrite Ft, T1, St, Ht, Htr0; by rewrite <- !app_assoc |].
    rewrite !occurrences_app, Hq1, Hq2, Gn1, Gn2, S1, Ss, Hsock, Hsock0.
    by split.
  - destruct (drainTimeoutExpired_effect mid) as (Et & Es & Etm & Ec & _).
    cbv zeta in Et, Es, Etm, Ec. rewrite <- Hst1 in Et, Es, Etm, Ec.
    unfold isTimeoutScheduled. rewrite Etm, Hdrain, Hidle0.
    rewrite bool_decide_eq_false_2 by (by intros [? ?]).
    intros [= <-].
    split; [exact Hc1 |]. split; [exact Es |].
    split; [by rewrite Etm, Hdrain |].
    exists (evs ++ drainExpiryEvents mid).
    split; [rewrite Et, Ht, Htr0; by rewrite <- app_assoc |].
    rewrite !occurrences_app, Hq1, Hq2, Hn1, Hn2, Hsock, Hsock0. by split.
Qed.

End CloseNow.

Section CloseDelivers.

Context (E : Externals).

#[local] Hint Resolve carries_log carries_logs carries_when
  carries_set_readLooper carries_set_peekLooper carries_set_writeLooper
  carries_set_readCallbacks carries_set_peekCallbacks
  carries_set_pendingWriteCallbacks carries_set_connWriteCallback
  carries_set_datagramCallback carries_set_pingCallback
  carries_resetConnectionCallbacks carries_cancelTimeout
  carries_conn_localConnectionError carries_conn_datagramReadBuffer
  carries_conn_datagramWriteBuffer carries_conn_congestionController
  carries_clearActionable carries_clearOpenStreams
  carries_cancelAllByteEventCallbacks carries_cancelPeekCallbacks
  carries_cancelPendingWriteCallbacks carries_checkForClosedStream
  carries_updateReadLooper carries_updatePeekLooper carries_updateWriteLooper
  carries_processConnectionCallbacks carries_processConnectionSetupCallbacks
  : carry.
#[local] Hint Extern 1 (closeEvent _ _ = true) => close_event : carry.

Lemma carries_grows c st st' :
  carries c st st' -> exists evs, trace_ st' = trace_ st ++ evs.
Proof. intros H. destruct (carries_trace _ _ _ H) as (evs & -> & _). eauto. Qed.

Lemma called_here e st : called e st (log e st).
Proof.
  exists [e]. split; [by destruct st | apply list_elem_of_here].
Qed.

Lemma called_later e st st' st'' :
  called e st st' ->
  (exists evs, trace_ st'' = trace_ st' ++ evs) ->
  called e st st''.
Proof.
  intros (evs & Htr & Hin) (post & Hpost). exists (evs ++ post).
  split; [by rewrite Hpost, Htr, app_assoc |].
  apply elem_of_app. by left.
Qed.

Lemma called_earlier e st0 st st' :
  (exists evs, trace_ st = trace_ st0 ++ evs) ->
  called e st st' ->
  called e st0 st'.
Proof.
  intros (pre & Hpre) (evs & Htr & Hin). exists (pre ++ evs).
  split; [by rewrite Htr, Hpre, app_assoc |].
  apply elem_of_app. by right.
Qed.

Lemma called_among e st st' evs :
  called e st st' -> trace_ st' = trace_ st ++ evs -> e ∈ evs.
Proof.
  intros (evs' & Htr & Hin) Htr'. rewrite Htr in Htr'.
  by apply app_inv_head in Htr' as <-.
Qed.

(** Each read callback of the copy is handed the error. *)
Lemma cancelReadCallbacks_called err l st st' :
  cancelReadCallbacks err l st = Done tt st' ->
  forall id data cb,
    (id, data) ∈ l -> readCb data = Some cb ->
    exists stream,
      getStream id st = Some stream
      /\ called (readErrorCall cb id stream err) st st'.
Proof.
  revert st. induction l as [| [id0 data0] rest IH]; intros st Hrun;
    intros id data cb Hin Hcb.
  { by apply elem_of_nil in Hin. }
  simpl in Hrun.
  set (st1 := set_readCallbacks_ (delete id0 (readCallbacks_ st)) st) in *.
  assert (Hst1 : forall i, getStream i st1 = getStream i st)
    by (intros i; subst st1; by destruct st).
  assert (Hg1 : carries err st st1) by (subst st1; carry).
  apply elem_of_cons in Hin as [[= -> ->] | Hin].
  - rewrite Hcb, Hst1 in Hrun.
    destruct (getStream id0 st) as [stream |]; [| discriminate].
    exists stream. split; [reflexivity |].
    fold (readErrorCall cb id0 stream err) in Hrun.
    eapply called_earlier; [exact (carries_grows _ _ _ Hg1) |].
    eapply called_later; [apply called_here |].
    pose proof (carries_cancelReadCallbacks err rest
                  (log (readErrorCall cb id0 stream err) st1)) as Hc.
    rewrite Hrun in Hc. exact (carries_grows _ _ _ Hc).
  - destruct (readCb data0) as [cb0 |].
    + destruct (getStream id0 st1) as [stream0 |]; [| discriminate].
      destruct (IH _ Hrun id data cb Hin Hcb) as (stream & Hs & Hcalled).
      exists stream. split.
      * rewrite <- Hs, <- Hst1. unfold getStream, log. by destruct st1.
      * eapply called_earlier; [| exact Hcalled].
        eapply carries_grows. eapply carries_trans; [exact Hg1 |].
        apply carries_log.
        destruct (groupId stream0); close_event.
    + destruct (IH _ Hrun id data cb Hin Hcb) as (stream & Hs & Hcalled).
      exists stream. split; [by rewrite <- Hst1 |].
      eapply called_earlier; [exact (carries_grows _ _ _ Hg1) |].
      exact Hcalled.
Qed.

Lemma cancelPeekCallbacks_called err l st :
  forall id data cb,
    (id, data) ∈ l -> peekCb data = Some cb ->
    called (peekError cb id err) st (cancelPeekCallbacks err l st).
Proof.
  revert st. induction l as [| [id0 data0] rest IH];
    intros st id data cb Hin Hcb.
  { by apply elem_of_nil in Hin. }
  simpl.
  set (st1 := set_peekCallbacks_ (delete id0 (peekCallbacks_ st)) st).
  assert (Hg1 : carries err st st1) by (subst st1; carry).
  apply elem_of_cons in Hin as [[= -> ->] | Hin].
  - rewrite Hcb.
    eapply called_earlier; [exact (carries_grows _ _ _ Hg1) |].
    eapply called_later; [apply called_here |].
    eapply carries_grows. apply (carries_cancelPeekCallbacks err).
  - destruct (peekCb data0) as [cb0 |].
    + eapply called_earlier; [| by apply (IH _ id data cb)].
      eapply carries_grows. eapply carries_trans; [exact Hg1 |].
      apply carries_log. close_event.
    + eapply called_earlier; [exact (carries_grows _ _ _ Hg1) |].
      by apply (IH _ id data cb).
Qed.

Lemma cancelPendingWriteCallbacks_called err l st :
  forall id cb,
    (id, cb) ∈ l ->
    called (onStreamWriteError cb id err) st
      (cancelPendingWriteCallbacks err l st).
Proof.
  revert st. induction l as [| [id0 cb0] rest IH]; intros st id cb Hin.
  { by apply elem_of_nil in Hin. }
  simpl.
  set (st1 := set_pendingWriteCallbacks_
                (delete id0 (pendingWriteCallbacks_ st)) st).
  assert (Hg1 : carries err st st1) by (subst st1; carry).
  apply elem_of_cons in Hin as [[= -> ->] | Hin].
  - eapply called_earlier; [exact (carries_grows _ _ _ Hg1) |].
    eapply called_later; [apply called_here |].
    eapply carries_grows. apply (carries_cancelPendingWriteCallbacks err).
  - eapply called_earlier; [| by apply (IH _ id cb)].
    eapply carries_grows. eapply carries_trans; [exact Hg1 |].
    apply carries_log. close_event.
Qed.

(** A [cancelAllAppCallbacks] that returns has handed the error to every
    read, peek, connection-write and stream-write callback that was
    registered. *)
Lemma cancelAllAppCallbacks_called err st st' :
  cancelAllAppCallbacks err st = Done tt st' ->
  (forall id data cb,
     readCallbacks_ st !! id = Some data -> readCb data = Some cb ->
     exists stream,
       getStream id st = Some stream
       /\ called (readErrorCall cb id stream err) st st')
  /\ (forall id data cb,
        peekCallbacks_ st !! id = Some data -> peekCb data = Some cb ->
        called (peekError cb id err) st st')
  /\ (forall cb,
        connWriteCallback_ st = Some cb ->
        called (onConnectionWriteError cb err) st st')
  /\ (forall id cb,
        pendingWriteCallbacks_ st !! id = Some cb ->
        called (onStreamWriteError cb id err) st st').
Proof.
  unfold cancelAllAppCallbacks.
  set (st1 := cancelAllByteEventCallbacks (streamManager_clearActionable st)).
  assert (G1 : carries err st st1) by (subst st1; carry).
  assert (F1 : readCallbacks_ st1 = readCallbacks_ st
               /\ peekCallbacks_ st1 = peekCallbacks_ st
               /\ connWriteCallback_ st1 = connWriteCallback_ st
               /\ pendingWriteCallbacks_ st1 = pendingWriteCallbacks_ st
               /\ forall i, getStream i st1 = getStream i st).
  { subst st1. unfold cancelAllByteEventCallbacks, cancelByteEventCallbacks,
      streamManager_clearActionable, log, update_conn, getStream.
    by destruct st as [[] ? ? ? ? ? ? ? ? ? ? ? ? ? ? ? ? ? ? ? ? ? ? ?]. }
  destruct F1 as (Fr & Fp & Fc & Fw & Fs). clearbody st1.
  destruct (cancelReadCallbacks err (map_to_list (readCallbacks_ st1)) st1)
    as [[] st2 | st2] eqn:Hread; [| discriminate].
  pose proof (carries_cancelReadCallbacks err
                (map_to_list (readCallbacks_ st1)) st1) as G2.
  rewrite Hread in G2. simpl in G2.
  pose proof (cancelReadCallbacks_called _ _ _ _ Hread) as Cr.
  apply cancelReadCallbacks_erases in Hread as [t2 E2].
  cbn [andThen].
  set (st3 := set_pingCallback_ None (set_datagramCallback_ None st2)).
  assert (G3 : carries err st2 st3) by (subst st3; carry).
  assert (F3 : peekCallbacks_ st3 = peekCallbacks_ st
               /\ connWriteCallback_ st3 = connWriteCallback_ st
               /\ pendingWriteCallbacks_ st3 = pendingWriteCallbacks_ st).
  { subst st3. rewrite E2, <- Fp, <- Fc, <- Fw. by destruct st1. }
  destruct F3 as (Fp3 & Fc3 & Fw3). clearbody st3.
  set (st4 := cancelPeekCallbacks err (map_to_list (peekCallbacks_ st3)) st3).
  assert (G4 : carries err st3 st4)
    by (subst st4; apply carries_cancelPeekCallbacks).
  pose proof (cancelPeekCallbacks_called err
                (map_to_list (peekCallbacks_ st3)) st3) as Cp.
  fold st4 in Cp.
  assert (F4 : connWriteCallback_ st4 = connWriteCallback_ st
               /\ pendingWriteCallbacks_ st4 = pendingWriteCallbacks_ st).
  { destruct (cancelPeekCallbacks_erases err
                (map_to_list (peekCallbacks_ st3)) st3) as [t4 E4].
    subst st4. rewrite E4, <- Fc3, <- Fw3. by destruct st3. }
  destruct F4 as (Fc4 & Fw4). clearbody st4.
  set (st5 := match connWriteCallback_ st4 with
              | Some cb => _ | None => st4 end).
  assert (G5 : carries err st4 st5)
    by (subst st5; destruct (connWriteCallback_ st4); carry).
  assert (C5 : forall cb, connWriteCallback_ st = Some cb ->
                          called (onConnectionWriteError cb err) st4 st5).
  { intros cb Hcb. subst st5. rewrite Fc4, Hcb.
    eapply called_earlier; [| apply called_here].
    eapply carries_grows. apply (carries_set_connWriteCallback err). }
  assert (F5 : pendingWriteCallbacks_ st5 = pendingWriteCallbacks_ st).
  { subst st5. rewrite <- Fw4.
    destruct (connWriteCallback_ st4); [| done]. by destruct st4. }
  clearbody st5.
  set (st6 := cancelPendingWriteCallbacks err
                (map_to_list (pendingWriteCallbacks_ st5)) st5).
  assert (G6 : carries err st5 st6)
    by (subst st6; apply carries_cancelPendingWriteCallbacks).
  pose proof (cancelPendingWriteCallbacks_called err
                (map_to_list (pendingWriteCallbacks_ st5)) st5) as Cw.
  fold st6 in Cw. clearbody st6.
  intros [= <-].
  match goal with
  | |- context [updateWriteLooper true ?x] =>
      assert (G7 : carries err st6 (updateWriteLooper true x)) by carry
  end.
  pose proof (carries_grows _ _ _ G1) as W1.
  pose proof (carries_grows _ _ _ (carries_trans _ _ _ _ G1 G2)) as W2.
  pose proof (carries_grows _ _ _
                (carries_trans _ _ _ _ (carries_trans _ _ _ _ G1 G2) G3))
    as W3.
  pose proof (carries_grows _ _ _
                (carries_trans _ _ _ _
                   (carries_trans _ _ _ _ (carries_trans _ _ _ _ G1 G2) G3)
                   G4)) as W4.
  pose proof (carries_grows _ _ _
                (carries_trans _ _ _ _
                   (carries_trans _ _ _ _
                      (carries_trans _ _ _ _ (carries_trans _ _ _ _ G1 G2) G3)
                      G4) G5)) as W5.
  split; [| split; [| split]].
  - intros id data cb Hid Hcb.
    destruct (Cr id data cb) as (stream & Hs & Hcalled); [| done |].
    { apply elem_of_map_to_list. by rewrite Fr. }
    exists stream. split; [by rewrite <- Fs |].
    eapply called_later.
    + eapply called_earlier; [exact W1 | exact Hcalled].
    + apply (carries_grows err).
      do 4 (eapply carries_trans; [eassumption |]). exact G7.
  - intros id data cb Hid Hcb.
    eapply called_later.
    + eapply called_earlier; [exact W3 |].
      apply (Cp id data cb); [| done].
      apply elem_of_map_to_list. by rewrite Fp3.
    + apply (carries_grows err).
      do 2 (eapply carries_trans; [eassumption |]). exact G7.
  - intros cb Hcb.
    eapply called_later.
    + eapply called_earlier; [exact W4 |]. by apply C5.
    + apply (carries_grows err).
      eapply carries_trans; [exact G6 | exact G7].
  - intros id cb Hid.
    eapply called_later.
    + eapply called_earlier; [exact W5 |].
      apply (Cw id cb). apply elem_of_map_to_list. by rewrite F5.
    + exact (carries_grows _ _ _ G7).
Qed.

End CloseDelivers.

(** A step that leaves the four members alone, whatever it is applied to. *)
Ltac kept_step :=
  match goal with
  | |- keepsConnCallbacks _ (?f ?x) =>
      refine (_ : keepsConnCallbacks x (f x));
      generalize x; intros []; by split
  end.

Section ConnCallbacksKept.

Context (E : Externals).

Lemma keepsConnCallbacks_refl st : keepsConnCallbacks st st.
Proof. by split. Qed.

Lemma keepsConnCallbacks_trans st1 st2 st3 :
  keepsConnCallbacks st1 st2 -> keepsConnCallbacks st2 st3 ->
  keepsConnCallbacks st1 st3.
Proof. intros [] []. split; congruence. Qed.

Lemma keepsConnCallbacks_when b f st :
  (forall st0, keepsConnCallbacks st0 (f st0)) ->
  keepsConnCallbacks st (when b f st).
Proof.
  intros Hf. destruct b; [apply Hf | apply keepsConnCallbacks_refl].
Qed.

Lemma keepsConnCallbacks_cancelAllByteEventCallbacks st :
  keepsConnCallbacks st (cancelAllByteEventCallbacks st).
Proof.
  unfold cancelAllByteEventCallbacks, cancelByteEventCallbacks.
  by destruct st.
Qed.

Lemma keepsConnCallbacks_updateReadLooper st :
  keepsConnCallbacks st (updateReadLooper st).
Proof. destruct (updateReadLooper_frame st) as [b ->]. kept_step. Qed.

Lemma keepsConnCallbacks_updatePeekLooper st :
  keepsConnCallbacks st (updatePeekLooper st).
Proof. destruct (updatePeekLooper_frame st) as [b ->]. kept_step. Qed.

Lemma keepsConnCallbacks_updateWriteLooper b st :
  keepsConnCallbacks st (updateWriteLooper b st).
Proof. unfold updateWriteLooper. destruct (isClosed st); kept_step. Qed.

Lemma keepsConnCallbacks_checkForClosedStream st :
  keepsConnCallbacks st (checkForClosedStream st).
Proof.
  unfold checkForClosedStream.
  destruct (isClosed st); [apply keepsConnCallbacks_refl | kept_step].
Qed.

Lemma keepsConnCallbacks_cancelAllAppCallbacks err st st' :
  cancelAllAppCallbacks err st = Done tt st' -> keepsConnCallbacks st st'.
Proof.
  unfold cancelAllAppCallbacks.
  set (st1 := cancelAllByteEventCallbacks (streamManager_clearActionable st)).
  assert (K1 : keepsConnCallbacks st st1).
  { subst st1. eapply keepsConnCallbacks_trans;
      [| apply keepsConnCallbacks_cancelAllByteEventCallbacks].
    unfold streamManager_clearActionable. by destruct st. }
  clearbody st1.
  destruct (cancelReadCallbacks err (map_to_list (readCallbacks_ st1)) st1)
    as [[] st2 | st2] eqn:Hread; [| discriminate].
  apply cancelReadCallbacks_erases in Hread as [t2 ->].
  cbn [andThen].
  destruct (cancelPeekCallbacks_erases err
              (map_to_list
                 (peekCallbacks_
                    (set_pingCallback_ None
                       (set_datagramCallback_ None
                          (set_trace_ t2
                             (set_readCallbacks_
                                (eraseKeys (readCallbacks_ st1)
                                   (map_to_list (readCallbacks_ st1)))
                                st1))))))
              (set_pingCallback_ None
                 (set_datagramCallback_ None
                    (set_trace_ t2
                       (set_readCallbacks_
                          (eraseKeys (readCallbacks_ st1)
                             (map_to_list (readCallbacks_ st1))) st1)))))
    as [t4 ->].
  match goal with
  | |- context [match connWriteCallback_ ?x with _ => _ end] =>
      set (st4 := x);
      assert (K4 : keepsConnCallbacks st1 st4) by (subst st4; by destruct st1)
  end.
  clearbody st4.
  set (st5 := match connWriteCallback_ st4 with
              | Some cb => _ | None => st4 end).
  assert (K5 : keepsConnCallbacks st4 st5).
  { subst st5. destruct (connWriteCallback_ st4);
      [by destruct st4 | apply keepsConnCallbacks_refl]. }
  clearbody st5.
  destruct (cancelPendingWriteCallbacks_erases err
              (map_to_list (pendingWriteCallbacks_ st5)) st5) as [t6 ->].
  intros [= <-].
  eapply keepsConnCallbacks_trans; [exact K1 |].
  eapply keepsConnCallbacks_trans; [exact K4 |].
  eapply keepsConnCallbacks_trans; [exact K5 |].
  eapply keepsConnCallbacks_trans;
    [| apply keepsConnCallbacks_updateWriteLooper].
  eapply keepsConnCallbacks_trans;
    [| apply keepsConnCallbacks_updatePeekLooper].
  eapply keepsConnCallbacks_trans;
    [| apply keepsConnCallbacks_updateReadLooper].
  eapply keepsConnCallbacks_trans;
    [| apply keepsConnCallbacks_checkForClosedStream].
  by destruct st5.
Qed.

(** From the first statement of [closeImpl] to the stopping of the
    loopers, nothing that the callbacks are found by is touched. *)
Lemma closeImplStop_keeps errorCode d s st :
  let stopped := closeImplStop errorCode d s (closeImplEntry errorCode st) in
  keepsConnCallbacks st stopped
  /\ readCallbacks_ stopped = readCallbacks_ st
  /\ peekCallbacks_ stopped = peekCallbacks_ st
  /\ connWriteCallback_ stopped = connWriteCallback_ st
  /\ pendingWriteCallbacks_ stopped = pendingWriteCallbacks_ st
  /\ (forall id, getStream id stopped = getStream id st)
  /\ exists evs, trace_ stopped = trace_ st ++ evs.
Proof.
  cbv zeta. unfold closeImplStop, closeImplEntry, getStream.
  destruct st as [[? ? ? ? ? ? ? ? ? ? ? ? ? ? ? ? q ? ? ?]
                    ? ? ? obs ? ? ? ? ? ? ? ? ? ? ? ? ? ? ? ? ? ? ?].
  destruct obs, q, errorCode; simpl;
    (split; [by split |]); repeat (split; [reflexivity |]);
    eexists; rewrite <- ?app_assoc; reflexivity.
Qed.

End ConnCallbacksKept.

Section CloseDeliversAll.

Context (E : Externals).

#[local] Hint Resolve carries_log carries_logs carries_when
  carries_resetConnectionCallbacks
  carries_conn_datagramReadBuffer carries_conn_datagramWriteBuffer
  carries_conn_congestionController
  carries_clearActionable carries_clearOpenStreams
  carries_processConnectionCallbacks carries_processConnectionSetupCallbacks
  : carry.
#[local] Hint Extern 1 (closeEvent _ _ = true) => close_event : carry.

(** The teardown tells the connection callback, or else the setup
    callback, of the close. *)
Lemma closeImplTeardown_called c s st :
  (forall cb,
     transportReadyNotified_ st = true -> connCallback_ st = Some cb ->
     called (connectionEndCall E st cb c) st (closeImplTeardown E c s st))
  /\ (forall cb,
        transportReadyNotified_ st = false -> connSetupCallback_ st = Some cb ->
        called (onConnectionSetupError cb c) st (closeImplTeardown E c s st)).
Proof.
  unfold closeImplTeardown. cbv zeta.
  match goal with
  | |- context [if transportReadyNotified_ ?x then _ else _] =>
      set (st8 := x);
      assert (G8 : carries c st st8) by (subst st8; carry);
      assert (K8 : keepsConnCallbacks st st8)
  end.
  { subst st8.
    unfold streamManager_clearActionable, streamManager_clearOpenStreams.
    by destruct st. }
  clearbody st8. destruct K8 as [Kc Ks Kr Ke].
  split; intros cb Hready Hcb; rewrite Kr, Hready.
  - set (st9 := when (statsCallback (conn_ st8))
                  (log (statsOnConnectionClose (code c))) st8).
    assert (G9 : carries c st8 st9) by (subst st9; carry).
    assert (K9 : connCallback_ st9 = Some cb
                 /\ useConnectionEndWithErrorCallback_ st9
                    = useConnectionEndWithErrorCallback_ st).
    { subst st9. rewrite <- Hcb, <- Kc, <- Ke. unfold when.
      destruct (statsCallback (conn_ st8)); [by destruct st8 | done]. }
    destruct K9 as [K9c K9e]. clearbody st9.
    assert (C9 : called (connectionEndCall E st cb c) st9
                   (processConnectionCallbacks E c st9)).
    { unfold processConnectionCallbacks, connectionEndCall.
      rewrite K9c, K9e.
      destruct (useConnectionEndWithErrorCallback_ st);
        [| destruct (processCancelCode E c)]; apply called_here. }
    eapply called_later.
    + eapply called_earlier; [| exact C9].
      exact (carries_grows _ _ _ (carries_trans _ _ _ _ G8 G9)).
    + apply (carries_grows c). carry.
  - assert (C9 : called (onConnectionSetupError cb c) st8
                   (processConnectionSetupCallbacks c st8)).
    { unfold processConnectionSetupCallbacks. rewrite Ks, Hcb.
      apply called_here. }
    eapply called_later.
    + eapply called_earlier; [exact (carries_grows _ _ _ G8) | exact C9].
    + apply (carries_grows c). carry.
Qed.

(** A [closeImpl] that returns on a connection that was not closed has
    called every callback that was registered. *)
Lemma closeImpl_called errorCode d s st st' :
  closeState_ st <> CLOSED ->
  closeImpl E errorCode d s st = Done tt st' ->
  let c := closeCancelCode E errorCode st in
  (forall id data cb,
     readCallbacks_ st !! id = Some data -> readCb data = Some cb ->
     exists stream,
       getStream id st = Some stream
       /\ called (readErrorCall cb id stream c) st st')
  /\ (forall id data cb,
        peekCallbacks_ st !! id = Some data -> peekCb data = Some cb ->
        called (peekError cb id c) st st')
  /\ (forall cb,
        connWriteCallback_ st = Some cb ->
        called (onConnectionWriteError cb c) st st')
  /\ (forall id cb,
        pendingWriteCallbacks_ st !! id = Some cb ->
        called (onStreamWriteError cb id c) st st')
  /\ (forall cb,
        transportReadyNotified_ st = true -> connCallback_ st = Some cb ->
        called (connectionEndCall E st cb c) st st')
  /\ (forall cb,
        transportReadyNotified_ st = false -> connSetupCallback_ st = Some cb ->
        called (onConnectionSetupError cb c) st st').
Proof.
  intros Hopen Hdone c. revert Hdone.
  rewrite closeImpl_phases, (isClosed_false _ Hopen). cbv zeta.
  pose proof (carries_closeImplEntry c errorCode st) as Hentry.
  assert (Hc : closeCancelCode E errorCode (closeImplEntry errorCode st) = c).
  { rewrite (closeCancelCode_carried E _ _ _ _ Hentry).
    apply closeCancelCode_set_closeState. }
  rewrite Hc.
  match goal with
  | |- context [closeImplStop errorCode ?dd s _] =>
      destruct (closeImplStop_keeps errorCode dd s st)
        as (K & Fr & Fp & Fc & Fw & Fs & W);
      cbv zeta in K, Fr, Fp, Fc, Fw, Fs, W;
      set (stopped := closeImplStop errorCode dd s _) in *
  end.
  clearbody stopped.
  destruct (cancelAllAppCallbacks c stopped) as [[] st3 | st3] eqn:Hcancel;
    [| discriminate].
  cbn [andThen].
  destruct (cancelAllAppCallbacks_called c stopped st3 Hcancel)
    as (Cr & Cp & Cc & Cw).
  pose proof (keepsConnCallbacks_cancelAllAppCallbacks _ _ _ Hcancel) as K3.
  pose proof (carries_cancelAllAppCallbacks c stopped) as G3.
  rewrite Hcancel in G3. simpl in G3.
  set (mid := closeImplTeardown E c s st3).
  assert (G4 : carries c st3 mid) by apply carries_closeImplTeardown.
  destruct (closeImplTeardown_called c s st3) as [Te Ts]. fold mid in Te, Ts.
  assert (W3 : exists evs, trace_ st3 = trace_ st ++ evs).
  { destruct W as [e1 W], (carries_grows _ _ _ G3) as [e2 W2].
    exists (e1 ++ e2). by rewrite W2, W, app_assoc. }
  intros Hdone.
  assert (G5 : exists evs, trace_ st' = trace_ mid ++ evs).
  { destruct (drainPermitted c d _); injection Hdone as <-.
    - destruct (scheduleTimeout_effect drainTimeout_
                  (drainTimeoutDuration E mid) mid) as (_ & _ & _ & Hev).
      cbv zeta in Hev. destruct (evb_ mid).
      + destruct Hev as [-> _]. eauto.
      + rewrite Hev. exists []. by rewrite app_nil_r.
    - destruct (drainTimeoutExpired_effect mid) as (-> & _). eauto. }
  assert (G35 : exists evs, trace_ st' = trace_ st3 ++ evs).
  { destruct G5 as [e5 G5], (carries_grows _ _ _ G4) as [e4 G4'].
    exists (e4 ++ e5). by rewrite G5, G4', app_assoc. }
  destruct K as [Kc Ks Kr Ke]. destruct K3 as [Kc3 Ks3 Kr3 Ke3].
  split; [| split; [| split; [| split; [| split]]]].
  - intros id data cb Hid Hcb.
    destruct (Cr id data cb) as (stream & Hs & Hcalled);
      [by rewrite Fr | done |].
    exists stream. split; [by rewrite <- Fs |].
    eapply called_later; [| exact G35].
    eapply called_earlier; [exact W | exact Hcalled].
  - intros id data cb Hid Hcb.
    eapply called_later; [| exact G35].
    eapply called_earlier; [exact W |].
    apply (Cp id data cb); [by rewrite Fp | done].
  - intros cb Hcb.
    eapply called_later; [| exact G35].
    eapply called_earlier; [exact W |]. apply Cc. by rewrite Fc.
  - intros id cb Hid.
    eapply called_later; [| exact G35].
    eapply called_earlier; [exact W |]. apply (Cw id cb). by rewrite Fw.
  - intros cb Hready Hcb.
    eapply called_later; [| exact G5].
    eapply called_earlier; [exact W3 |].
    replace (connectionEndCall E st cb c)
      with (connectionEndCall E st3 cb c)
      by (unfold connectionEndCall; by rewrite Ke3, Ke).
    apply Te; congruence.
  - intros cb Hready Hcb.
    eapply called_later; [| exact G5].
    eapply called_earlier; [exact W3 |].
    apply Ts; congruence.
Qed.

End CloseDeliversAll.

Section EmitsSteps.

Context (P : Event -> bool).

Lemma emits_refl st : emits P st st.
Proof. exists []. split; [by rewrite app_nil_r | constructor]. Qed.

Lemma emits_trans st1 st2 st3 :
  emits P st1 st2 -> emits P st2 st3 -> emits P st1 st3.
Proof.
  intros (e1 & He1 & Hf1) (e2 & He2 & Hf2). exists (e1 ++ e2). split.
  - by rewrite He2, He1, app_assoc.
  - by apply Forall_app.
Qed.

Lemma emits_silent st st' : trace_ st' = trace_ st -> emits P st st'.
Proof.
  intros H. exists []. split; [by rewrite app_nil_r | constructor].
Qed.

Lemma emits_logs evs st :
  Forall (fun e => P e = true) evs ->
  emits P st (set_trace_ (trace_ st ++ evs) st).
Proof. intros Hevs. exists evs. split; [by destruct st | done]. Qed.

Lemma emits_log e st : P e = true -> emits P st (log e st).
Proof. intros He. apply (emits_logs [e]). by constructor. Qed.

Lemma emits_when (b : bool) f st :
  (forall st0, emits P st0 (f st0)) -> emits P st (when b f st).
Proof. intros Hf. destruct b; [apply Hf | apply emits_refl]. Qed.

End EmitsSteps.

(** A step that leaves the trace alone. *)
Ltac quiet :=
  match goal with
  | |- emits ?P _ (?f ?x) =>
      apply (emits_silent P x (f x)); generalize x; intros []; reflexivity
  end.

(** Peels the outermost step off the goal [emits P st (f (g (... st)))]. *)
Ltac emit :=
  repeat first
    [ apply emits_refl
    | eapply emits_trans;
      [| first [ apply emits_log; reflexivity
               | quiet
               | solve [eauto 2 with emit] ] ] ].

Create HintDb emit discriminated.

Section CloseEffects.

Context (E : Externals).
Context (c : QuicError) (s d ready endWithError : bool).

Lemma emits_closeImplEntry errorCode st :
  emits (closeImplEmits E c s d ready endWithError) st
    (closeImplEntry errorCode st).
Proof.
  unfold closeImplEntry.
  destruct st as [[] ? ? ? obs ? ? ? ? ? ? ? ? ? ? ? ? ? ? ? ? ? ? ?].
  simpl. destruct obs; simpl;
    match goal with |- context [when ?q _ _] => destruct q end; simpl;
    (eexists; split;
     [simpl; rewrite <- ?app_assoc; reflexivity | simpl; repeat constructor]).
Qed.

Lemma emits_closeImplStop errorCode d' s' st :
  emits (closeImplEmits E c s d ready endWithError) st
    (closeImplStop errorCode d' s' st).
Proof.
  unfold closeImplStop.
  assert (H : emits (closeImplEmits E c s d ready endWithError) st
                (match errorCode with
                 | Some _ =>
                     update_conn (conn_set_localConnectionError errorCode) st
                 | None => st
                 end)) by (destruct errorCode; emit).
  eapply emits_trans; [exact H |].
  cbv zeta. unfold cancelLossTimeout.
  do 10 (eapply emits_trans; [| quiet]).
  apply emits_when. intros st0. by apply emits_log.
Qed.

Lemma emits_clearActionable st :
  emits (closeImplEmits E c s d ready endWithError) st
    (streamManager_clearActionable st).
Proof. unfold streamManager_clearActionable. emit. Qed.

Lemma emits_clearOpenStreams st :
  emits (closeImplEmits E c s d ready endWithError) st
    (streamManager_clearOpenStreams st).
Proof. unfold streamManager_clearOpenStreams. emit. Qed.

Lemma emits_cancelByteEventCallbacks ty st :
  emits (closeImplEmits E c s d ready endWithError) st
    (cancelByteEventCallbacks ty st).
Proof.
  unfold cancelByteEventCallbacks. cbv zeta.
  eapply emits_trans; [| apply emits_logs].
  - apply emits_silent. by destruct st, ty.
  - apply Forall_forall. intros e He.
    apply list_elem_of_join in He as (l & He & Hl).
    apply list_elem_of_fmap in Hl as ([id q] & -> & _).
    apply list_elem_of_fmap in He as (dd & -> & _).
    reflexivity.
Qed.

Lemma emits_cancelAllByteEventCallbacks st :
  emits (closeImplEmits E c s d ready endWithError) st
    (cancelAllByteEventCallbacks st).
Proof.
  unfold cancelAllByteEventCallbacks.
  eapply emits_trans; apply emits_cancelByteEventCallbacks.
Qed.

Lemma emits_cancelReadCallbacks err l st :
  emits (closeImplEmits E c s d ready endWithError) st
    (finalState (cancelReadCallbacks err l st)).
Proof.
  revert st. induction l as [| [id data] rest IH]; intros st; simpl.
  - apply emits_refl.
  - destruct (readCb data) as [cb |].
    + destruct (getStream id _) as [stream |] eqn:Hs; simpl.
      * eapply emits_trans; [| apply IH].
        destruct (groupId stream); emit.
      * emit.
    + eapply emits_trans; [| apply IH]. emit.
Qed.

Lemma emits_cancelPeekCallbacks err l st :
  emits (closeImplEmits E c s d ready endWithError) st
    (cancelPeekCallbacks err l st).
Proof.
  revert st. induction l as [| [id data] rest IH]; intros st; simpl.
  - apply emits_refl.
  - destruct (peekCb data) as [cb |];
      (eapply emits_trans; [| apply IH]); emit.
Qed.

Lemma emits_cancelPendingWriteCallbacks err l st :
  emits (closeImplEmits E c s d ready endWithError) st
    (cancelPendingWriteCallbacks err l st).
Proof.
  revert st. induction l as [| [id wcb] rest IH]; intros st; simpl.
  - apply emits_refl.
  - eapply emits_trans; [| apply IH]. emit.
Qed.

Lemma emits_updateReadLooper st :
  emits (closeImplEmits E c s d ready endWithError) st (updateReadLooper st).
Proof.
  destruct (updateReadLooper_frame st) as [b ->]. emit.
Qed.

Lemma emits_updatePeekLooper st :
  emits (closeImplEmits E c s d ready endWithError) st (updatePeekLooper st).
Proof.
  destruct (updatePeekLooper_frame st) as [b ->]. emit.
Qed.

#[local] Hint Resolve emits_clearActionable emits_clearOpenStreams
  emits_cancelAllByteEventCallbacks emits_cancelPeekCallbacks
  emits_cancelPendingWriteCallbacks emits_updateReadLooper
  emits_updatePeekLooper : emit.

(** On a closed connection [cancelAllAppCallbacks] runs neither the pass
    over the closed streams nor the write looper. *)
Lemma emits_cancelAllAppCallbacks err st :
  closeState_ st = CLOSED ->
  emits (closeImplEmits E c s d ready endWithError) st
    (finalState (cancelAllAppCallbacks err st)).
Proof.
  intros Hc. unfold cancelAllAppCallbacks.
  set (st1 := cancelAllByteEventCallbacks (streamManager_clearActionable st)).
  assert (H1 : emits (closeImplEmits E c s d ready endWithError) st
    st1) by (subst st1; emit).
  assert (C1 : closeState_ st1 = CLOSED).
  { rewrite <- Hc. subst st1.
    apply (carries_closeState err).
    eapply carries_trans;
      [apply carries_clearActionable
      | apply carries_cancelAllByteEventCallbacks]. }
  pose proof (emits_cancelReadCallbacks err (map_to_list (readCallbacks_ st1))
                st1) as H2.
  pose proof (carries_closeState err _ _
                (carries_cancelReadCallbacks err
                   (map_to_list (readCallbacks_ st1)) st1)) as C2.
  destruct (cancelReadCallbacks err _ st1) as [[] st2 | st2]; simpl in *.
  - eapply emits_trans; [exact H1 |]. eapply emits_trans; [exact H2 |].
    rewrite C1 in C2. clear H1 H2 C1. clearbody st1. clear st1.
    set (st3 := set_pingCallback_ None (set_datagramCallback_ None st2)).
    assert (H3 : emits (closeImplEmits E c s d ready endWithError) st2
      st3) by (subst st3; emit).
    assert (C3 : closeState_ st3 = CLOSED)
      by (subst st3; rewrite <- C2; by destruct st2).
    eapply emits_trans; [exact H3 |]. clearbody st3. clear H3 C2 st2.
    set (st4 := cancelPeekCallbacks err _ st3).
    assert (H4 : emits (closeImplEmits E c s d ready endWithError) st3
      st4) by (subst st4; emit).
    assert (C4 : closeState_ st4 = CLOSED).
    { rewrite <- C3. subst st4.
      apply (carries_closeState err), carries_cancelPeekCallbacks. }
    eapply emits_trans; [exact H4 |]. clearbody st4. clear H4 C3 st3.
    set (st5 := match connWriteCallback_ st4 with
                | Some cb => _ | None => st4 end).
    assert (H5 : emits (closeImplEmits E c s d ready endWithError) st4 st5
                 /\ closeState_ st5 = CLOSED).
    { subst st5. destruct (connWriteCallback_ st4).
      - split; [emit |]. rewrite <- C4. by destruct st4.
      - split; [apply emits_refl | done]. }
    destruct H5 as [H5 C5].
    eapply emits_trans; [exact H5 |]. clearbody st5. clear H5 C4 st4.
    set (st6 := cancelPendingWriteCallbacks err _ st5).
    assert (H6 : emits (closeImplEmits E c s d ready endWithError) st5
      st6) by (subst st6; emit).
    assert (C6 : closeState_ st6 = CLOSED).
    { rewrite <- C5. subst st6.
      apply (carries_closeState err), carries_cancelPendingWriteCallbacks. }
    eapply emits_trans; [exact H6 |]. clearbody st6. clear H6 C5 st5.
    unfold checkForClosedStream. rewrite (isClosed_true _ C6).
    pose proof (loopers_after_close st6 C6) as Hl. cbv zeta in Hl.
    rewrite Hl. emit.
  - eapply emits_trans; [exact H1 | exact H2].
Qed.

Lemma emits_processConnectionCallbacks st :
  ready = true ->
  useConnectionEndWithErrorCallback_ st = endWithError ->
  emits (closeImplEmits E c s d ready endWithError) st
    (processConnectionCallbacks E c st).
Proof.
  intros -> <-. unfold processConnectionCallbacks.
  destruct (connCallback_ st); [| apply emits_refl].
  destruct (useConnectionEndWithErrorCallback_ st); [by apply emits_log |].
  destruct (processCancelCode E c) eqn:Hp; apply emits_log; simpl;
    by rewrite Hp.
Qed.

Lemma emits_processConnectionSetupCallbacks st :
  ready = false ->
  emits (closeImplEmits E c s d ready endWithError) st
    (processConnectionSetupCallbacks c st).
Proof.
  intros ->. unfold processConnectionSetupCallbacks.
  destruct (connSetupCallback_ st); [by apply emits_log | apply emits_refl].
Qed.

Lemma emits_closeImplTeardown st :
  transportReadyNotified_ st = ready ->
  useConnectionEndWithErrorCallback_ st = endWithError ->
  emits (closeImplEmits E c s d ready endWithError) st
    (closeImplTeardown E c s st).
Proof.
  intros Hready Hend. unfold closeImplTeardown. cbv zeta.
  eapply emits_trans.
  2:{ unfold when.
      destruct (s && negb (isReset c) && negb (isAbandon c)) eqn:Hw;
        [by apply emits_log | apply emits_refl]. }
  do 3 (eapply emits_trans;
        [| first [apply emits_log; reflexivity | quiet]]).
  match goal with
  | |- emits _ _ (if transportReadyNotified_ ?x then _ else _) =>
      set (st8 := x);
      assert (H8 : emits (closeImplEmits E c s d ready endWithError) st st8)
        by (subst st8; emit);
      assert (K8 : keepsConnCallbacks st st8)
  end.
  { subst st8.
    unfold streamManager_clearActionable, streamManager_clearOpenStreams.
    by destruct st. }
  clearbody st8. destruct K8 as [_ _ Kr Ke].
  eapply emits_trans; [exact H8 |].
  rewrite Kr. destruct (transportReadyNotified_ st) eqn:Hr.
  - eapply emits_trans.
    2:{ apply emits_processConnectionCallbacks; [done |].
        rewrite <- Hend, <- Ke. unfold when.
        destruct (statsCallback (conn_ st8)); [by destruct st8 | done]. }
    apply emits_when. intros st0. apply emits_log. simpl. by rewrite <- Hready.
  - by apply emits_processConnectionSetupCallbacks.
Qed.

End CloseEffects.

Section CloseEffectsTheorem.

Context (E : Externals).

Lemma emits_closeImpl errorCode d s st :
  let c := closeCancelCode E errorCode st in
  emits (closeImplEmits E c s (drainPermitted c d st)
           (transportReadyNotified_ st)
           (useConnectionEndWithErrorCallback_ st)) st
    (finalState (closeImpl E errorCode d s st)).
Proof.
  intros c. rewrite closeImpl_phases.
  destruct (isClosed st) eqn:Hclosed; [apply emits_refl |].
  cbv zeta.
  pose proof (carries_closeImplEntry c errorCode st) as Hentry.
  assert (Hc : closeCancelCode E errorCode (closeImplEntry errorCode st) = c).
  { rewrite (closeCancelCode_carried E _ _ _ _ Hentry).
    apply closeCancelCode_set_closeState. }
  rewrite Hc.
  set (observed := when (socketObserverContainer st)
                     (log (closeStarted errorCode)) st).
  assert (Hobs : drainPermitted c d observed = drainPermitted c d st).
  { unfold drainPermitted, observed.
    destruct st as [[] ? ? ? obs ? ? ? ? ? ? ? ? ? ? ? ? ? ? ? ? ? ? ?].
    by destruct obs. }
  rewrite Hobs.
  set (drains := drainPermitted c d st).
  set (ready := transportReadyNotified_ st).
  set (endWithError := useConnectionEndWithErrorCallback_ st).
  match goal with
  | |- context [closeImplStop errorCode ?dd s _] =>
      destruct (closeImplStop_keeps errorCode dd s st) as (K & _);
      cbv zeta in K
  end.
  set (stopped := closeImplStop _ _ _ _) in *.
  assert (Hstopped : emits (closeImplEmits E c s drains ready endWithError)
                       st stopped).
  { eapply emits_trans;
      [apply emits_closeImplEntry | apply emits_closeImplStop]. }
  assert (Cstopped : closeState_ stopped = CLOSED).
  { subst stopped.
    rewrite (carries_closeState c _ _ (carries_closeImplStop c _ _ _ _)).
    rewrite (carries_closeState c _ _ Hentry). by destruct st. }
  pose proof (emits_cancelAllAppCallbacks E c s drains ready endWithError c
                stopped Cstopped) as Hcancel.
  eapply emits_trans; [exact Hstopped |].
  destruct (cancelAllAppCallbacks c stopped) as [[] st3 | st3] eqn:Hrun;
    simpl in *; [| exact Hcancel].
  eapply emits_trans; [exact Hcancel |].
  pose proof (keepsConnCallbacks_cancelAllAppCallbacks _ _ _ Hrun) as K3.
  destruct K as [_ _ Kr Ke], K3 as [_ _ Kr3 Ke3].
  set (mid := closeImplTeardown E c s st3).
  assert (Hmid : emits (closeImplEmits E c s drains ready endWithError) st3
                   mid)
    by (apply emits_closeImplTeardown; subst ready endWithError; congruence).
  eapply emits_trans; [exact Hmid |].
  destruct drains eqn:Hd; simpl.
  - destruct (scheduleTimeout_effect drainTimeout_
                (drainTimeoutDuration E mid) mid) as (_ & _ & _ & Hev).
    cbv zeta in Hev. destruct (evb_ mid).
    + destruct Hev as [Hev _]. eexists. split; [exact Hev |].
      repeat constructor.
    + rewrite Hev. apply emits_refl.
  - destruct (drainTimeoutExpired_effect mid) as (Hev & _).
    eexists. split; [exact Hev |].
    unfold drainExpiryEvents.
    destruct (socket_ mid); [destruct (socketObserverContainer mid) |];
      repeat constructor.
Qed.

(** X20: whatever its arguments and the state, [closeImpl] has no outside
    effect but those of [closeImplEmits]: it never registers or fires a
    byte event, never sends STOP_SENDING and never sets the TOS of the
    socket.  Of the connection callbacks it calls the one the state asks
    for: [onConnectionSetupError] only before the transport was ready;
    after that [onConnectionEnd(cancelCode)] only if
    [useConnectionEndWithErrorCallback_] is set, whatever the code, and
    otherwise [onConnectionError] only for a cancel code that is an error
    and the [onConnectionEnd()] without a code only for one that is not.
    It writes the close packet only if asked to and the code is neither a
    reset nor an abandon; and it either arms the drain timer or gives up
    the socket and unbinds the connection, never both. *)
Theorem closeImpl_has_no_other_effect
    (errorCode : option QuicError) (drainConnection sendCloseImmediately : bool)
    (st : QuicTransportBase) :
  let cancelCode := closeCancelCode E errorCode st in
  let drains := drainPermitted cancelCode drainConnection st in
  exists evs,
    trace_ (finalState
              (closeImpl E errorCode drainConnection sendCloseImmediately st))
    = trace_ st ++ evs
    /\ Forall (fun e =>
                 closeImplEmits E cancelCode sendCloseImmediately drains
                   (transportReadyNotified_ st)
                   (useConnectionEndWithErrorCallback_ st) e
                 = true) evs.
Proof. apply emits_closeImpl. Qed.

End CloseEffectsTheorem.

Section IdleTimeout.

Context (E : Externals).
Context (numControlStreams : QuicConnectionStateBase -> Z).

Lemma closeCancelCode_code errorCode st :
  peerConnectionError (conn_ st) = None ->
  code (closeCancelCode E (Some errorCode) st) = code errorCode
  /\ (exceptionCloseWhat_ st = None ->
      closeCancelCode E (Some errorCode) st = errorCode).
Proof.
  intros Hpeer. unfold closeCancelCode. rewrite Hpeer.
  by destruct (exceptionCloseWhat_ st).
Qed.

(** X21: an idle timeout on a connection whose peer reported no error is
    never reported as an error.  Every callback that is handed an error gets
    the local code [IDLE_TIMEOUT] (or [SHUTTING_DOWN] when the connection is
    not to drain), with the message that counts the non-control streams;
    [onConnectionError] is never called; with [drain] no close packet is
    written, and without it the drain timer is never armed. *)
Theorem idleTimeoutExpired_is_not_an_error
    (drain : bool) (st : QuicTransportBase) :
  peerConnectionError (conn_ st) = None ->
  let localError :=
    if drain then LocalErrorCode.IDLE_TIMEOUT
    else LocalErrorCode.SHUTTING_DOWN in
  exists evs,
    trace_ (finalState (idleTimeoutExpired E numControlStreams drain st))
    = trace_ st ++ evs
    /\ (forall e q,
          e ∈ evs -> deliveredError e = Some q ->
          code q = LocalError localError
          /\ (exceptionCloseWhat_ st = None ->
              q = mkQuicError (LocalError localError)
                    (idleTimeoutMessage E numControlStreams localError st)))
    /\ (forall cb q, onConnectionError cb q ∉ evs)
    /\ (drain = true -> writeData ∉ evs)
    /\ (drain = false -> forall t ms, evbScheduleTimeout t ms ∉ evs).
Proof.
  intros Hpeer localError. unfold idleTimeoutExpired. fold localError.
  set (err := mkQuicError (LocalError localError) _).
  destruct (closeCancelCode_code err st Hpeer) as [Hcode Hsame].
  destruct (emits_closeImpl E (Some err) drain (negb drain) st)
    as (evs & Htr & Hevs).
  rewrite Forall_forall in Hevs.
  exists evs. split; [exact Htr |].
  assert (Hp : processCancelCode E (closeCancelCode E (Some err) st) = true).
  { unfold processCancelCode. rewrite Hcode. subst err localError. simpl.
    destruct drain; simpl; rewrite ?orb_true_r; reflexivity. }
  split; [| split; [| split]].
  - intros e q He Hq.
    destruct (decide (closeState_ st = CLOSED)) as [Hclosed | Hopen].
    + exfalso. unfold closeImpl in Htr.
      rewrite (isClosed_true _ Hclosed) in Htr. simpl in Htr.
      rewrite <- (app_nil_r (trace_ st)) in Htr at 1.
      apply app_inv_head in Htr. subst evs. by apply elem_of_nil in He.
    + destruct (closeImpl_delivered E (Some err) drain (negb drain) st Hopen)
        as (evs' & Htr' & Hdel).
      rewrite Htr in Htr'. apply app_inv_head in Htr'. subst evs'.
      specialize (Hdel e q He Hq). subst q.
      split; [by rewrite Hcode |]. intros Hwhat. by apply Hsame.
  - intros cb q Hin. specialize (Hevs _ Hin). simpl in Hevs.
    rewrite Hp in Hevs. simpl in Hevs. by rewrite andb_false_r in Hevs.
  - intros -> Hin. specialize (Hevs _ Hin). simpl in Hevs. done.
  - intros -> t ms Hin. specialize (Hevs _ Hin).
    unfold drainPermitted in Hevs. simpl in Hevs. done.
Qed.

End IdleTimeout.

Section Datagrams.

(** X22: on an open connection [readDatagrams] loses and reorders nothing:
    the datagrams it returns, followed by those it leaves in the buffer, are
    the buffer as it was.  With [atMost = 0] it returns the whole buffer,
    otherwise the first [atMost] datagrams, or all if there are fewer; no
    callback is called. *)
Theorem readDatagrams_splits_buffer (atMost : Z) (st : QuicTransportBase) :
  closeState_ st = OPEN ->
  0 <= atMost ->
  exists ret st',
    readDatagrams atMost st = (Value ret, st')
    /\ ret ++ datagramReadBuffer (conn_ st') = datagramReadBuffer (conn_ st)
    /\ length ret
       = (if atMost =? 0 then length (datagramReadBuffer (conn_ st))
          else Nat.min (Z.to_nat atMost)
                 (length (datagramReadBuffer (conn_ st))))
    /\ trace_ st' = trace_ st
    /\ closeState_ st' = OPEN.
Proof.
  intros Hopen Hpos. unfold readDatagrams.
  rewrite (isOpen_true _ Hopen). cbn [negb]. cbv zeta.
  eexists _, _. split; [reflexivity |].
  split; [| split; [| split]].
  - destruct st as [[] ? ? ? ? ? ? ? ? ? ? ? ? ? ? ? ? ? ? ? ? ? ? ?].
    simpl. apply take_drop.
  - rewrite length_take.
    destruct (atMost =? 0) eqn:Hz; [lia |].
    destruct st as [[] ? ? ? ? ? ? ? ? ? ? ? ? ? ? ? ? ? ? ? ? ? ? ?].
    simpl. lia.
  - by destruct st.
  - rewrite <- Hopen. by destruct st.
Qed.

End Datagrams.

Section TosProperties.

Context (kEcnECT0 kEcnECT1 : Z).

Lemma updateSocketTosSettings_shape
    (enableEcnOnEgress useL4sEcn : bool) (dscpValue : Z)
    (st : QuicTransportBase) :
  let v := if enableEcnOnEgress
           then if useL4sEcn then kEcnECT1 else kEcnECT0 else 0 in
  let s := if enableEcnOnEgress
           then if useL4sEcn then AttemptingL4S else AttemptingECN
           else NotAttempted in
  let st1 :=
    set_conn_
      (conn_set_ecnState s
         (conn_set_socketTos (mkSocketTos dscpValue v) (conn_ st))) st in
  updateSocketTosSettings kEcnECT0 kEcnECT1 enableEcnOnEgress useL4sEcn
    dscpValue st
  = if match socket_ st with
       | Some true =>
           negb (tosValue (mkSocketTos dscpValue v)
                 =? tosValue (socketTos (conn_ st)))
       | _ => false
       end
    then log (socketSetTosOrTrafficClass (tosValue (mkSocketTos dscpValue v)))
           st1
    else st1.
Proof.
  cbv zeta. unfold updateSocketTosSettings, update_conn.
  destruct st as [[] ? ? sock ? ? ? ? ? ? ? ? ? ? ? ? ? ? ? ? ? ? ? ?].
  destruct enableEcnOnEgress, useL4sEcn; cbn -[tosValue Z.eqb log];
    (destruct sock as [[] |]; cbn -[tosValue Z.eqb log]; [| reflexivity ..]);
    match goal with
    | |- context [negb (?a =? ?b)] => destruct (a =? b)
    end; reflexivity.
Qed.

(** X23: [updateSocketTosSettings] is idempotent: a second call with the
    same settings and the same DSCP value changes nothing, and in particular
    does not tell the socket again.  One call tells the socket at most
    once, and then the TOS byte the connection keeps. *)
Theorem updateSocketTosSettings_idempotent
    (enableEcnOnEgress useL4sEcn : bool) (dscpValue : Z)
    (st : QuicTransportBase) :
  let update :=
    updateSocketTosSettings kEcnECT0 kEcnECT1 enableEcnOnEgress useL4sEcn
      dscpValue in
  update (update st) = update st
  /\ (trace_ (update st) = trace_ st
      \/ trace_ (update st)
         = trace_ st
           ++ [socketSetTosOrTrafficClass
                 (tosValue (socketTos (conn_ (update st))))]).
Proof.
  cbv zeta.
  rewrite (updateSocketTosSettings_shape _ _ _
             (updateSocketTosSettings _ _ _ _ _ st)).
  cbv zeta.
  rewrite (updateSocketTosSettings_shape enableEcnOnEgress useL4sEcn
             dscpValue st).
  cbv zeta.
  set (v := if enableEcnOnEgress
            then if useL4sEcn then kEcnECT1 else kEcnECT0 else 0).
  set (s := if enableEcnOnEgress
            then if useL4sEcn then AttemptingL4S else AttemptingECN
            else NotAttempted).
  set (told := match socket_ st with
               | Some true => _ | _ => false end).
  clearbody v s told.
  destruct st as [[] ? ? sock ? ? ? ? ? ? ? ? ? ? ? ? ? ? ? ? ? ? ? ?].
  destruct told; cbn -[tosValue Z.eqb]; rewrite Z.eqb_refl;
    (split; [by destruct sock as [[] |] | first [by left | by right]]).
Qed.

End TosProperties.

Section PrewriteProperties.

Context `{Countable CmsgKey}.
Context (prewrite : PacketProcessor -> option (option (gmap CmsgKey Z))).

Lemma collect_lookup (processors : list PacketProcessor)
    (cmsgs : gmap CmsgKey Z) (key : CmsgKey) :
  foldl (fun cmsgs pp =>
           match prewrite pp with
           | Some (Some requested) => insertRange cmsgs requested
           | _ => cmsgs
           end) cmsgs processors !! key
  = match cmsgs !! key with
    | Some v => Some v
    | None => firstRequest prewrite key processors
    end.
Proof.
  revert cmsgs. induction processors as [| pp rest IH]; intros cmsgs.
  - simpl. by destruct (cmsgs !! key).
  - cbn [foldl firstRequest]. rewrite IH.
    destruct (prewrite pp) as [[requested |] |]; [| done | done].
    unfold insertRange. rewrite lookup_union.
    destruct (cmsgs !! key) as [v |], (requested !! key) as [w |]; done.
Qed.

(** X24: [updatePacketProcessorsPrewriteRequests] gives priority to the
    packet processor that was added first: the cmsg kept for a key is the
    one requested by the first processor of the list that requests that
    key.  The additional cmsgs are reset exactly when no processor requests
    any, and the target write count is the connection's write count. *)
Theorem updatePacketProcessorsPrewriteRequests_first_wins
    (writeCount : Z) (st : QuicTransportBase) :
  let result := updatePacketProcessorsPrewriteRequests prewrite writeCount st in
  let processors := packetProcessors (conn_ st) in
  (forall key,
     from_option (fun cmsgs => cmsgs !! key) None (additionalCmsgs result)
     = firstRequest prewrite key processors)
  /\ (additionalCmsgs result = None <->
      forall key, firstRequest prewrite key processors = None)
  /\ additionalCmsgs result <> Some ∅
  /\ targetWriteCount result = writeCount.
Proof.
  cbv zeta. unfold updatePacketProcessorsPrewriteRequests, collectCmsgs.
  cbn [additionalCmsgs targetWriteCount].
  set (cmsgs := foldl _ ∅ _).
  assert (Hlook : forall key,
            cmsgs !! key
            = firstRequest prewrite key (packetProcessors (conn_ st))).
  { intros key. subst cmsgs. rewrite collect_lookup. by rewrite lookup_empty. }
  case_bool_decide as Hempty.
  - split; [| split; [| split]]; try done.
    + intros key. simpl. by rewrite <- Hlook, Hempty, lookup_empty.
    + split; [| done]. intros _ key.
      by rewrite <- Hlook, Hempty, lookup_empty.
  - split; [| split; [| split]]; try done.
    + split; [done |]. intros Hnone. exfalso. apply Hempty.
      apply map_eq. intros key. by rewrite Hlook, Hnone, lookup_empty.
    + congruence.
Qed.

End PrewriteProperties.

Section RetransmissionPolicyProperties.

Context {QuicStreamGroupRetransmissionPolicy : Type}.

(** X25: [setStreamGroupRetransmissionPolicy] keeps the number of policies
    within the advertised number of stream groups, and touches no group but
    the one it is called for.  A reset (no policy) always succeeds and
    removes the group's policy.  A new policy never replaces one: on success
    the group has the policy it had, if it had one, although the call
    reports success, and the new one otherwise.  A call that fails changes
    nothing. *)
Theorem setStreamGroupRetransmissionPolicy_keeps_limit
    (customProfilesEnabled : bool) (advertisedMaxStreamGroups : Z)
    (groupId : StreamGroupId)
    (policy : option QuicStreamGroupRetransmissionPolicy)
    (policies : gmap Z QuicStreamGroupRetransmissionPolicy) :
  Z.of_nat (size policies) <= advertisedMaxStreamGroups ->
  let result :=
    setStreamGroupRetransmissionPolicy customProfilesEnabled
      advertisedMaxStreamGroups groupId policy policies in
  Z.of_nat (size result.2) <= advertisedMaxStreamGroups
  /\ (forall other, other <> groupId -> result.2 !! other = policies !! other)
  /\ (result.1 <> Value tt -> result.2 = policies)
  /\ match policy with
     | None => result = (Value tt, delete groupId policies)
     | Some new =>
         result.1 = Value tt ->
         result.2 !! groupId = Some (default new (policies !! groupId))
     end.
Proof.
  intros Hsize. cbv zeta. unfold setStreamGroupRetransmissionPolicy.
  destruct policy as [new |].
  - destruct customProfilesEnabled; cbn [negb fst snd]; [| done].
    destruct (advertisedMaxStreamGroups <=? Z.of_nat (size policies)) eqn:Hfull;
      cbn [fst snd]; [done |].
    apply Z.leb_gt in Hfull.
    destruct (policies !! groupId) as [old |] eqn:Hold.
    + split; [done |]. split; [done |]. split; [done |]. by rewrite Hold.
    + split; [rewrite map_size_insert_None by done; lia |].
      split; [intros other Hne; by rewrite lookup_insert_ne |].
      split; [done |]. intros _. by rewrite lookup_insert_eq.
  - cbn [fst snd]. split.
    + pose proof (map_subseteq_size _ _ (delete_subseteq policies groupId)).
      lia.
    + split; [intros other Hne; by rewrite lookup_delete_ne |]. done.
Qed.

End RetransmissionPolicyProperties.

(** * The further properties at work *)

(** X1 at work: the read callback of stream 0 of [exampleBusy] is paused and
    resumed. *)
Lemma pauseRead_resumeRead_round_trip_example :
  let st := exampleBusy in
  let paused := snd (pauseRead exampleExternals 0 st) in
  fst (pauseRead exampleExternals 0 st) = Value tt
  /\ readCallbacks_ paused
     = <[0 := mkReadCallbackData (Some 7%nat) false false]> (readCallbacks_ st)
  /\ pauseRead exampleExternals 0 paused = (Value tt, paused)
  /\ resumeRead exampleExternals 0 paused = (Value tt, updateReadLooper st).
Proof.
  apply (pauseRead_resumeRead_round_trip exampleExternals 0
           (mkReadCallbackData (Some 7%nat) true false) exampleBusy);
    vm_compute; try reflexivity; eauto.
Defined.

(** X2 at work: stream 0 is the only stream of [exampleBusy] with a read
    callback. *)
Lemma pauseRead_stops_read_looper_example :
  readLooper_ (snd (pauseRead exampleExternals 0 exampleBusy)) = true
  <-> (exists s, s ∈ readableStreams (conn_ exampleBusy) /\ s <> 0
                 /\ readWanted exampleBusy s = true)
      \/ datagramReadBuffer (conn_ exampleBusy) <> [].
Proof.
  apply (pauseRead_stops_read_looper exampleExternals 0
           (mkReadCallbackData (Some 7%nat) true false) exampleBusy);
    vm_compute; try reflexivity; eauto.
Defined.

(** X3 at work: a peek callback is set on stream 2 of [exampleBusy], which
    has none. *)
Lemma setPeekCallback_always_accepts_example :
  let st' := snd (setPeekCallback 2 (Some 12%nat) exampleBusy) in
  fst (setPeekCallback 2 (Some 12%nat) exampleBusy) = Value tt
  /\ (peekCallbacks_ exampleBusy !! 2 = None ->
      Some 12%nat = None -> st' = exampleBusy)
  /\ (is_Some (peekCallbacks_ exampleBusy !! 2) \/ is_Some (Some 12%nat) ->
      exists entry,
        peekCallbacks_ st' !! 2 = Some entry /\ peekCb entry = Some 12%nat)
  /\ trace_ st' = trace_ exampleBusy.
Proof.
  apply (setPeekCallback_always_accepts 2 (Some 12%nat) exampleBusy);
    vm_compute; try reflexivity; eauto.
Defined.

(** X7 at work: a delivery callback is registered at offset 12 of stream 3
    of [exampleBusy], between the two that are there. *)
Lemma registerByteEventCallback_adds_one_callback_example :
  let st' :=
    finalState
      (registerByteEventCallback exampleExternals ACK 3 12 (Some 22%nat)
         exampleBusy) in
  getNumByteEventCallbacksForStreamOfType ACK 3 st'
  = S (getNumByteEventCallbacksForStreamOfType ACK 3 exampleBusy)
  /\ getNumByteEventCallbacksForStream 3 st'
     = S (getNumByteEventCallbacksForStream 3 exampleBusy)
  /\ forall type' id',
       type' <> ACK \/ id' <> 3 ->
       getNumByteEventCallbacksForStreamOfType type' id' st'
       = getNumByteEventCallbacksForStreamOfType type' id' exampleBusy.
Proof.
  apply (registerByteEventCallback_adds_one_callback exampleExternals ACK 3 12
           22%nat exampleBusy).
  vm_compute. reflexivity.
Defined.

Lemma exampleDelivering_sorted : byteEventsSorted exampleDelivering.
Proof.
  intros type id q. destruct type; simpl.
  - intros [[_ <-] | [_ H]]%lookup_insert_Some.
    + unfold queueSorted. simpl. repeat constructor. lia.
    + by rewrite lookup_empty in H.
  - intros [[_ <-] | [_ H]]%lookup_insert_Some.
    + unfold queueSorted. simpl. repeat constructor. lia.
    + by rewrite lookup_empty in H.
Qed.

Lemma exampleDelivering_stream id :
  id ∈ [3] -> is_Some (getStream id exampleDelivering).
Proof.
  intros ->%list_elem_of_singleton. vm_compute. eauto.
Qed.

(** X16 at work: [exampleBusy], which has callbacks of every kind, is
    closed. *)
Lemma closeImpl_leaves_no_callback_example :
  let st' :=
    finalState
      (closeImpl exampleExternals (Some exampleWriteError) true true
         exampleBusy) in
  registryCleared st'
  /\ loopersStopped st'
  /\ (forall t, t <> drainTimeout_ -> timers_ st' !! t = None)
  /\ closeState_ st' = CLOSED.
Proof.
  apply (closeImpl_leaves_no_callback exampleExternals
           (Some exampleWriteError) true true exampleBusy).
  - vm_compute. discriminate.
  - vm_compute. reflexivity.
Defined.

(** X17 at work: registrations on [exampleClosed] leave nothing behind. *)
Lemma closed_registry_stays_cleared_example :
  let ops :=
    [OpSetReadCallback 0 (Some 7%nat) None;
     OpRegisterByteEventCallback ACK 3 5 (Some 20%nat);
     OpSetPingCallback (Some 4%nat);
     OpSetPeekCallback 0 (Some 8%nat);
     OpUnsetAllReadCallbacks] in
  registryCleared (foldl (applyRegistryOp exampleExternals) exampleClosed ops)
  /\ closeState_ (foldl (applyRegistryOp exampleExternals) exampleClosed ops)
     = closeState_ exampleClosed.
Proof.
  apply (closed_registry_stays_cleared exampleExternals).
  - vm_compute. discriminate.
  - split; vm_compute; reflexivity.
Defined.

(** X18 at work: [closeNow] on [exampleBusy]. *)
Lemma closeNow_finishes_the_close_example :
  let st' := exampleClosed in
  closeState_ st' = CLOSED
  /\ socket_ st' = None
  /\ timers_ st' !! drainTimeout_ = None
  /\ exists evs,
       trace_ st' = trace_ exampleBusy ++ evs
       /\ last evs = Some unbindConnection
       /\ occurrences isSocketClose evs
          = match socket_ exampleBusy with Some _ => 1 | None => 0 end%nat.
Proof.
  apply (closeNow_finishes_the_close exampleExternals None exampleBusy
           exampleClosed).
  - vm_compute. discriminate.
  - vm_compute. reflexivity.
Defined.

(** X19 at work: [close] arms the drain timer of [exampleOpen], and
    [closeNow] ends the draining. *)
Lemma close_then_closeNow_unbinds_once_example :
  let st1 := finalState (close exampleExternals None exampleOpen) in
  let st2 := finalState (closeNow exampleExternals None st1) in
  is_Some (timers_ st1 !! drainTimeout_)
  /\ closeState_ st2 = CLOSED
  /\ socket_ st2 = None
  /\ timers_ st2 !! drainTimeout_ = None
  /\ exists evs,
       trace_ st2 = trace_ exampleOpen ++ evs
       /\ occurrences isUnbindConnection evs = 1%nat
       /\ occurrences isSocketClose evs
          = match socket_ exampleOpen with Some _ => 1 | None => 0 end%nat.
Proof.
  split; [vm_compute; eauto |].
  apply (close_then_closeNow_unbinds_once exampleExternals None None
           exampleOpen
           (finalState (close exampleExternals None exampleOpen))).
  - vm_compute. discriminate.
  - vm_compute. eauto.
  - vm_compute. reflexivity.
  - vm_compute. reflexivity.
  - vm_compute. reflexivity.
Defined.

(** X21 at work: the idle timeout of [exampleBusy]. *)
Lemma idleTimeoutExpired_is_not_an_error_example :
  let numControlStreams := fun _ : QuicConnectionStateBase => 0 in
  exists evs,
    trace_ (finalState
              (idleTimeoutExpired exampleExternals numControlStreams true
                 exampleBusy))
    = trace_ exampleBusy ++ evs
    /\ (forall e q,
          e ∈ evs -> deliveredError e = Some q ->
          code q = LocalError LocalErrorCode.IDLE_TIMEOUT
          /\ (exceptionCloseWhat_ exampleBusy = None ->
              q = mkQuicError (LocalError LocalErrorCode.IDLE_TIMEOUT)
                    (idleTimeoutMessage exampleExternals numControlStreams
                       LocalErrorCode.IDLE_TIMEOUT exampleBusy)))
    /\ (forall cb q, onConnectionError cb q ∉ evs)
    /\ (true = true -> writeData ∉ evs)
    /\ (true = false -> forall t ms, evbScheduleTimeout t ms ∉ evs).
Proof.
  apply (idleTimeoutExpired_is_not_an_error exampleExternals (fun _ => 0) true
           exampleBusy).
  reflexivity.
Defined.

(** X22 at work: two of the three datagrams of [exampleDatagrams] are
    read. *)
Lemma readDatagrams_splits_buffer_example :
  exists ret st',
    readDatagrams 2 exampleDatagrams = (Value ret, st')
    /\ ret ++ datagramReadBuffer (conn_ st')
       = datagramReadBuffer (conn_ exampleDatagrams)
    /\ length ret
       = (if 2 =? 0 then length (datagramReadBuffer (conn_ exampleDatagrams))
          else Nat.min (Z.to_nat 2)
                 (length (datagramReadBuffer (conn_ exampleDatagrams))))
    /\ trace_ st' = trace_ exampleDatagrams
    /\ closeState_ st' = OPEN.
Proof.
  apply (readDatagrams_splits_buffer 2 exampleDatagrams).
  - reflexivity.
  - lia.
Defined.

(** X25 at work: group 4 has a policy, and the limit is two groups; a new
    policy for group 4 is reported as set, and the old one stays. *)
Lemma setStreamGroupRetransmissionPolicy_keeps_limit_example :
  let policies : gmap Z nat := {[ 4 := 1%nat ]} in
  let result :=
    setStreamGroupRetransmissionPolicy true 2 4 (Some 9%nat) policies in
  Z.of_nat (size result.2) <= 2
  /\ (forall other, other <> 4 -> result.2 !! other = policies !! other)
  /\ (result.1 <> Value tt -> result.2 = policies)
  /\ (result.1 = Value tt ->
      result.2 !! 4 = Some (default 9%nat (policies !! 4))).
Proof.
  apply (setStreamGroupRetransmissionPolicy_keeps_limit true 2 4 (Some 9%nat)
           {[ 4 := 1%nat ]}).
  rewrite map_size_singleton. lia.
Defined.

(** X13 at work: reading from stream 2 of [exampleBusy] fails in the stream
    functions, and the connection is closed. *)
Lemma read_exception_closes_connection_example :
  let ex :=
    QuicTransportException "stream offset overflow"
      TransportErrorCode.PROTOCOL_VIOLATION in
  exists st' evs,
    read exampleExternals exampleReadData 2 100 exampleBusy
    = Done (Unexpected (exceptionLocalError ex)) st'
    /\ closeState_ st' = CLOSED
    /\ readLooper_ st' = false /\ peekLooper_ st' = false
    /\ writeLooper_ st' = false
    /\ trace_ st' = trace_ exampleBusy ++ evs
    /\ forall e q,
         e ∈ evs -> deliveredError e = Some q ->
         q = mkQuicError (exceptionCloseCode ex) (exceptionWhat ex).
Proof.
  apply (read_exception_closes_connection exampleExternals exampleReadData
           2 100
           (QuicTransportException "stream offset overflow"
              TransportErrorCode.PROTOCOL_VIOLATION)
           (conn_ exampleBusy) exampleBusy).
  - reflexivity.
  - reflexivity.
  - vm_compute. eauto.
  - reflexivity.
  - reflexivity.
  - intros id data cb. simpl.
    intros [[<- _] | [_ H]]%lookup_insert_Some;
      [intros _; vm_compute; eauto | by rewrite lookup_empty in H].
Defined.

(** X14 at work: the end of stream 0 of [exampleBusy] is read. *)
Lemma read_returns_stream_data_example :
  exists st',
    read exampleExternals exampleReadData 0 100 exampleBusy
    = Done (Value ([], true)) st'
    /\ conn_ st' = conn_ exampleBusy
    /\ readCallbacks_ st'
       = (if snd (([], true) : Buf * bool)
          then alter (fun entry => mkReadCallbackData (readCb entry)
                                     (resumed entry) true) 0
                 (readCallbacks_ exampleBusy)
          else readCallbacks_ exampleBusy)
    /\ closeState_ st' = OPEN
    /\ trace_ st' = trace_ exampleBusy ++ [updateWriteLooperPass true].
Proof.
  apply (read_returns_stream_data exampleExternals exampleReadData 0 100
           ([], true) (conn_ exampleBusy) exampleBusy).
  - reflexivity.
  - reflexivity.
  - vm_compute. eauto.
  - reflexivity.
Defined.

(** X12 at work: the queues of [exampleDelivering] stay ordered. *)
Lemma byteEvent_delivery_keeps_queues_sorted_example :
  let trimWriteBuffer := fun (_ : Z) (stream : QuicStreamState) => stream in
  byteEventsSorted
    (finalState
       (processCallbacksAfterWriteData exampleExternals [3] exampleDelivering))
  /\ byteEventsSorted
       (finalState
          (handleDeliveryCallbacks exampleExternals trimWriteBuffer [3]
             exampleDelivering))
  /\ byteEventsSorted
       (handleCancelByteEventCallbacks exampleExternals [3] exampleDelivering).
Proof.
  apply (byteEvent_delivery_keeps_queues_sorted exampleExternals
           (fun _ stream => stream) [3] exampleDelivering).
  apply exampleDelivering_sorted.
Defined.

Section ReentrantPhases.

Context (E : Externals).
Context (app : Event -> QuicTransportBase -> QuicTransportBase).

Lemma Reentrant_closeImpl_phases errorCode drainConnection
    sendCloseImmediately st :
  Reentrant.closeImpl E app errorCode drainConnection sendCloseImmediately st
  = if isClosed st then Done tt st
    else
      let observed :=
        when (socketObserverContainer st)
          (Reentrant.invoke app (closeStarted errorCode)) st in
      let entry := Reentrant.closeImplEntry app errorCode st in
      let cancelCode := closeCancelCode E errorCode entry in
      let stopped :=
        closeImplStop errorCode
          (drainConnection && shouldDrain (transportSettings (conn_ observed)))
          sendCloseImmediately entry in
      andThen (Reentrant.cancelAllAppCallbacks app cancelCode stopped)
        (fun _ st =>
           let st :=
             Reentrant.closeImplTeardown E app cancelCode sendCloseImmediately
               st in
           if drainPermitted cancelCode drainConnection observed then
             Done tt
               (scheduleTimeout drainTimeout_ (drainTimeoutDuration E st) st)
           else Done tt (Reentrant.drainTimeoutExpired app st)).
Proof. reflexivity. Qed.

End ReentrantPhases.

(** ** Callbacks that leave the transport alone

    With an application that does nothing to the transport, the functions
    of [Reentrant] are those above. *)
Section ReentrantOpaque.

Context (E : Externals).

Lemma foldl_log evs st :
  foldl (fun st e => log e st) st evs = set_trace_ (trace_ st ++ evs) st.
Proof.
  revert st. induction evs as [| e evs IH]; intros st; simpl.
  - rewrite app_nil_r. by destruct st.
  - rewrite IH. unfold log. destruct st; simpl. by rewrite <- app_assoc.
Qed.

Lemma Reentrant_cancelByteEventCallbacks_idle type st :
  Reentrant.cancelByteEventCallbacks leavesAlone type st
  = cancelByteEventCallbacks type st.
Proof.
  unfold Reentrant.cancelByteEventCallbacks, cancelByteEventCallbacks.
  cbv zeta. generalize (setByteEventMap type ∅ st).
  generalize (map_to_list (getByteEventMap type st)).
  intros l. induction l as [| [id q] l IH]; intros s; simpl.
  - rewrite app_nil_r. by destruct s.
  - rewrite IH. clear IH.
    assert (Hq : forall s0,
              foldl (fun st d =>
                       Reentrant.invoke leavesAlone
                         (onByteEventCanceled (callback d) id (offset d) type)
                         st) s0 q
              = set_trace_
                  (trace_ s0
                   ++ ((fun d => onByteEventCanceled (callback d) id
                                   (offset d) type) <$> q)) s0).
    { induction q as [| d q IHq]; intros s0; simpl.
      - rewrite app_nil_r. by destruct s0.
      - rewrite IHq. unfold Reentrant.invoke, log. destruct s0; simpl.
        by rewrite <- app_assoc. }
    rewrite Hq. destruct s; simpl. by rewrite <- app_assoc.
Qed.

Lemma Reentrant_cancelReadCallbacks_idle err l st :
  Reentrant.cancelReadCallbacks leavesAlone err l st
  = cancelReadCallbacks err l st.
Proof.
  revert st. induction l as [| [id data] l IH]; intros st; simpl; [done |].
  destruct (readCb data); [| apply IH].
  destruct (getStream id _); [apply IH | done].
Qed.

Lemma Reentrant_cancelPeekCallbacks_idle err l st :
  Reentrant.cancelPeekCallbacks leavesAlone err l st
  = cancelPeekCallbacks err l st.
Proof.
  revert st. induction l as [| [id data] l IH]; intros st; simpl; [done |].
  destruct (peekCb data); apply IH.
Qed.

Lemma Reentrant_cancelPendingWriteCallbacks_idle err l st :
  Reentrant.cancelPendingWriteCallbacks leavesAlone err l st
  = cancelPendingWriteCallbacks err l st.
Proof.
  revert st. induction l as [| [id wcb] l IH]; intros st; simpl; [done |].
  apply IH.
Qed.

Lemma Reentrant_cancelAllAppCallbacks_idle err st :
  Reentrant.cancelAllAppCallbacks leavesAlone err st
  = cancelAllAppCallbacks err st.
Proof.
  unfold Reentrant.cancelAllAppCallbacks, cancelAllAppCallbacks,
    Reentrant.cancelAllByteEventCallbacks, cancelAllByteEventCallbacks.
  cbv zeta. rewrite !Reentrant_cancelByteEventCallbacks_idle.
  rewrite Reentrant_cancelReadCallbacks_idle.
  destruct (cancelReadCallbacks err _ _) as [[] st2 | st2]; [| done].
  cbn [andThen].
  rewrite Reentrant_cancelPeekCallbacks_idle.
  rewrite Reentrant_cancelPendingWriteCallbacks_idle.
  reflexivity.
Qed.

Lemma Reentrant_closeImplTeardown_idle c s st :
  Reentrant.closeImplTeardown E leavesAlone c s st = closeImplTeardown E c s st.
Proof. reflexivity. Qed.

Lemma Reentrant_closeImpl_idle errorCode d s st :
  Reentrant.closeImpl E leavesAlone errorCode d s st
  = closeImpl E errorCode d s st.
Proof.
  rewrite Reentrant_closeImpl_phases, closeImpl_phases.
  destruct (isClosed st); [done |]. cbv zeta.
  change (Reentrant.closeImplEntry leavesAlone errorCode st)
    with (closeImplEntry errorCode st).
  change (Reentrant.invoke leavesAlone (closeStarted errorCode))
    with (log (closeStarted errorCode)).
  rewrite Reentrant_cancelAllAppCallbacks_idle.
  reflexivity.
Qed.

End ReentrantOpaque.

(** ** Callbacks run on a closed connection *)

Section ReentrantLockstep.

Context (E : Externals).
Context (app app' : Event -> QuicTransportBase -> QuicTransportBase).

Hypothesis app_agree :
  forall e st,
    closeState_ st = CLOSED ->
    app e st = app' e st /\ closeState_ (app e st) = CLOSED.

Lemma closed_step (f : QuicTransportBase -> QuicTransportBase) c st :
  (forall st0, carries c st0 (f st0)) ->
  closeState_ st = CLOSED -> closeState_ (f st) = CLOSED.
Proof. intros Hf Hc. by rewrite (carries_closeState _ _ _ (Hf st)). Qed.

Lemma invoke_lock e st :
  closeState_ st = CLOSED ->
  Reentrant.invoke app e st = Reentrant.invoke app' e st
  /\ closeState_ (Reentrant.invoke app e st) = CLOSED.
Proof.
  intros Hc. unfold Reentrant.invoke. apply app_agree. by destruct st.
Qed.

Lemma invokes_lock {A} (ev : A -> Event) l st :
  closeState_ st = CLOSED ->
  foldl (fun st d => Reentrant.invoke app (ev d) st) st l
  = foldl (fun st d => Reentrant.invoke app' (ev d) st) st l
  /\ closeState_ (foldl (fun st d => Reentrant.invoke app (ev d) st) st l)
     = CLOSED.
Proof.
  revert st. induction l as [| d l IH]; intros st Hc; simpl; [done |].
  destruct (invoke_lock (ev d) st Hc) as [<- Hc']. by apply IH.
Qed.

Lemma cancelByteEventCallbacks_lock type st :
  closeState_ st = CLOSED ->
  Reentrant.cancelByteEventCallbacks app type st
  = Reentrant.cancelByteEventCallbacks app' type st
  /\ closeState_ (Reentrant.cancelByteEventCallbacks app type st) = CLOSED.
Proof.
  intros Hc. unfold Reentrant.cancelByteEventCallbacks. cbv zeta.
  assert (Hc0 : closeState_ (setByteEventMap type ∅ st) = CLOSED)
    by (by destruct st, type).
  revert Hc0. generalize (setByteEventMap type ∅ st).
  generalize (map_to_list (getByteEventMap type st)).
  intros l. induction l as [| [id q] l IH]; intros s Hs; simpl; [done |].
  destruct (invokes_lock
              (fun d => onByteEventCanceled (callback d) id (offset d) type)
              q s Hs) as [<- Hs'].
  by apply IH.
Qed.

Lemma cancelAllByteEventCallbacks_lock st :
  closeState_ st = CLOSED ->
  Reentrant.cancelAllByteEventCallbacks app st
  = Reentrant.cancelAllByteEventCallbacks app' st
  /\ closeState_ (Reentrant.cancelAllByteEventCallbacks app st) = CLOSED.
Proof.
  intros Hc. unfold Reentrant.cancelAllByteEventCallbacks.
  destruct (cancelByteEventCallbacks_lock ACK st Hc) as [<- Hc'].
  by apply cancelByteEventCallbacks_lock.
Qed.

Lemma cancelReadCallbacks_lock err l st :
  closeState_ st = CLOSED ->
  Reentrant.cancelReadCallbacks app err l st
  = Reentrant.cancelReadCallbacks app' err l st
  /\ closeState_ (finalState (Reentrant.cancelReadCallbacks app err l st))
     = CLOSED.
Proof.
  revert st. induction l as [| [id data] l IH]; intros st Hc; simpl; [done |].
  assert (Hc1 : closeState_
                  (set_readCallbacks_ (delete id (readCallbacks_ st)) st)
                = CLOSED) by (by destruct st).
  destruct (readCb data) as [cb |]; [| by apply IH].
  destruct (getStream id _) as [stream |]; [| done].
  match goal with
  | |- context [Reentrant.invoke app ?e ?s] =>
      destruct (invoke_lock e s Hc1) as [<- Hc2]
  end.
  by apply IH.
Qed.

Lemma cancelPeekCallbacks_lock err l st :
  closeState_ st = CLOSED ->
  Reentrant.cancelPeekCallbacks app err l st
  = Reentrant.cancelPeekCallbacks app' err l st
  /\ closeState_ (Reentrant.cancelPeekCallbacks app err l st) = CLOSED.
Proof.
  revert st. induction l as [| [id data] l IH]; intros st Hc; simpl; [done |].
  assert (Hc1 : closeState_
                  (set_peekCallbacks_ (delete id (peekCallbacks_ st)) st)
                = CLOSED) by (by destruct st).
  destruct (peekCb data) as [cb |]; [| by apply IH].
  match goal with
  | |- context [Reentrant.invoke app ?e ?s] =>
      destruct (invoke_lock e s Hc1) as [<- Hc2]
  end.
  by apply IH.
Qed.

Lemma cancelPendingWriteCallbacks_lock err l st :
  closeState_ st = CLOSED ->
  Reentrant.cancelPendingWriteCallbacks app err l st
  = Reentrant.cancelPendingWriteCallbacks app' err l st
  /\ closeState_ (Reentrant.cancelPendingWriteCallbacks app err l st)
     = CLOSED.
Proof.
  revert st. induction l as [| [id wcb] l IH]; intros st Hc; simpl; [done |].
  assert (Hc1 : closeState_
                  (set_pendingWriteCallbacks_
                     (delete id (pendingWriteCallbacks_ st)) st)
                = CLOSED) by (by destruct st).
  match goal with
  | |- context [Reentrant.invoke app ?e ?s] =>
      destruct (invoke_lock e s Hc1) as [<- Hc2]
  end.
  by apply IH.
Qed.

Lemma cancelAllAppCallbacks_lock err st :
  closeState_ st = CLOSED ->
  Reentrant.cancelAllAppCallbacks app err st
  = Reentrant.cancelAllAppCallbacks app' err st
  /\ closeState_ (finalState (Reentrant.cancelAllAppCallbacks app err st))
     = CLOSED.
Proof.
  intros Hc. unfold Reentrant.cancelAllAppCallbacks. cbv zeta.
  assert (Hc1 : closeState_ (streamManager_clearActionable st) = CLOSED)
    by (by rewrite (carries_closeState _ _ _ (carries_clearActionable err st))).
  destruct (cancelAllByteEventCallbacks_lock _ Hc1) as [<- Hc2].
  set (st2 := Reentrant.cancelAllByteEventCallbacks app _) in *.
  destruct (cancelReadCallbacks_lock err (map_to_list (readCallbacks_ st2))
              st2 Hc2) as [<- Hc3].
  destruct (Reentrant.cancelReadCallbacks app err _ st2) as [[] st3 | st3];
    [| done].
  cbn [andThen finalState] in *.
  set (st4 := set_pingCallback_ None (set_datagramCallback_ None st3)).
  assert (Hc4 : closeState_ st4 = CLOSED)
    by (subst st4; rewrite <- Hc3; by destruct st3).
  clearbody st4.
  destruct (cancelPeekCallbacks_lock err (map_to_list (peekCallbacks_ st4))
              st4 Hc4) as [<- Hc5].
  set (st5 := Reentrant.cancelPeekCallbacks app err _ st4) in *.
  clearbody st5.
  assert (H6 : match connWriteCallback_ st5 with
               | Some cb =>
                   Reentrant.invoke app (onConnectionWriteError cb err)
                     (set_connWriteCallback_ None st5)
               | None => st5
               end
               = match connWriteCallback_ st5 with
                 | Some cb =>
                     Reentrant.invoke app' (onConnectionWriteError cb err)
                       (set_connWriteCallback_ None st5)
                 | None => st5
                 end
               /\ closeState_
                    match connWriteCallback_ st5 with
                    | Some cb =>
                        Reentrant.invoke app (onConnectionWriteError cb err)
                          (set_connWriteCallback_ None st5)
                    | None => st5
                    end = CLOSED).
  { destruct (connWriteCallback_ st5) as [cb |]; [| done].
    apply invoke_lock. rewrite <- Hc5. by destruct st5. }
  destruct H6 as [<- Hc6].
  match goal with
  | |- context [Reentrant.cancelPendingWriteCallbacks app err ?l ?s] =>
      destruct (cancelPendingWriteCallbacks_lock err l s Hc6) as [<- Hc7];
      set (st7 := Reentrant.cancelPendingWriteCallbacks app err l s) in *
  end.
  split; [reflexivity |]. clearbody st7.
  unfold checkForClosedStream. rewrite (isClosed_true _ Hc7).
  pose proof (loopers_after_close st7 Hc7) as Hl. cbv zeta in Hl.
  rewrite Hl. rewrite <- Hc7. by destruct st7.
Qed.

Lemma processConnectionCallbacks_lock c st :
  closeState_ st = CLOSED ->
  Reentrant.processConnectionCallbacks E app c st
  = Reentrant.processConnectionCallbacks E app' c st
  /\ closeState_ (Reentrant.processConnectionCallbacks E app c st) = CLOSED.
Proof.
  intros Hc. unfold Reentrant.processConnectionCallbacks.
  destruct (connCallback_ st); [| done].
  destruct (useConnectionEndWithErrorCallback_ st);
    [| destruct (processCancelCode E c)]; by apply invoke_lock.
Qed.

Lemma processConnectionSetupCallbacks_lock c st :
  closeState_ st = CLOSED ->
  Reentrant.processConnectionSetupCallbacks app c st
  = Reentrant.processConnectionSetupCallbacks app' c st
  /\ closeState_ (Reentrant.processConnectionSetupCallbacks app c st)
     = CLOSED.
Proof.
  intros Hc. unfold Reentrant.processConnectionSetupCallbacks.
  destruct (connSetupCallback_ st); [by apply invoke_lock | done].
Qed.

Lemma closeImplTeardown_lock c s st :
  closeState_ st = CLOSED ->
  Reentrant.closeImplTeardown E app c s st
  = Reentrant.closeImplTeardown E app' c s st
  /\ closeState_ (Reentrant.closeImplTeardown E app c s st) = CLOSED.
Proof.
  intros Hc. unfold Reentrant.closeImplTeardown. cbv zeta.
  match goal with
  | |- context [if transportReadyNotified_ ?x then _ else _] =>
      set (st8 := x);
      assert (Hc8 : closeState_ st8 = CLOSED)
  end.
  { subst st8. rewrite <- Hc.
    unfold streamManager_clearActionable, streamManager_clearOpenStreams.
    by destruct st. }
  clearbody st8.
  assert (H9 : (if transportReadyNotified_ st8
                then Reentrant.processConnectionCallbacks E app c
                       (when (statsCallback (conn_ st8))
                          (log (statsOnConnectionClose (code c))) st8)
                else Reentrant.processConnectionSetupCallbacks app c st8)
               = (if transportReadyNotified_ st8
                  then Reentrant.processConnectionCallbacks E app' c
                         (when (statsCallback (conn_ st8))
                            (log (statsOnConnectionClose (code c))) st8)
                  else Reentrant.processConnectionSetupCallbacks app' c st8)
               /\ closeState_
                    (if transportReadyNotified_ st8
                     then Reentrant.processConnectionCallbacks E app c
                            (when (statsCallback (conn_ st8))
                               (log (statsOnConnectionClose (code c))) st8)
                     else Reentrant.processConnectionSetupCallbacks app c st8)
                  = CLOSED).
  { destruct (transportReadyNotified_ st8).
    - apply processConnectionCallbacks_lock. rewrite <- Hc8.
      unfold when.
      destruct (statsCallback (conn_ st8)); [by destruct st8 | done].
    - by apply processConnectionSetupCallbacks_lock. }
  destruct H9 as [<- Hc9].
  split; [reflexivity |].
  match goal with
  | |- closeState_ (when ?b _ (update_conn _ (log _
                      (resetConnectionCallbacks ?x)))) = _ =>
      revert Hc9; generalize x; intros s0 Hs0; destruct b, s0; exact Hs0
  end.
Qed.

Lemma drainTimeoutExpired_lock st :
  closeState_ st = CLOSED ->
  Reentrant.drainTimeoutExpired app st = Reentrant.drainTimeoutExpired app' st.
Proof.
  intros Hc. unfold Reentrant.drainTimeoutExpired, Reentrant.closeUdpSocket.
  destruct (socket_ st); [| done].
  destruct (socketObserverContainer st); [| done].
  by destruct (invoke_lock closing st Hc) as [<- _].
Qed.

Hypothesis app_closeStarted :
  forall reason st,
    app (closeStarted reason) st = app' (closeStarted reason) st.

Lemma closeImpl_lock errorCode d s st :
  Reentrant.closeImpl E app errorCode d s st
  = Reentrant.closeImpl E app' errorCode d s st.
Proof.
  rewrite !Reentrant_closeImpl_phases.
  destruct (isClosed st); [done |]. cbv zeta.
  assert (Hobs : when (socketObserverContainer st)
                   (Reentrant.invoke app (closeStarted errorCode)) st
                 = when (socketObserverContainer st)
                     (Reentrant.invoke app' (closeStarted errorCode)) st).
  { unfold when, Reentrant.invoke.
    destruct (socketObserverContainer st); [apply app_closeStarted | done]. }
  assert (Hentry : Reentrant.closeImplEntry app errorCode st
                   = Reentrant.closeImplEntry app' errorCode st).
  { unfold Reentrant.closeImplEntry. cbv zeta. by rewrite Hobs. }
  rewrite <- Hobs, <- Hentry.
  set (observed := when _ _ st).
  set (entry := Reentrant.closeImplEntry app errorCode st).
  set (c := closeCancelCode E errorCode entry).
  set (stopped := closeImplStop _ _ _ entry).
  assert (Hc : closeState_ stopped = CLOSED).
  { subst stopped.
    rewrite (carries_closeState c _ _ (carries_closeImplStop c _ _ _ _)).
    subst entry. unfold Reentrant.closeImplEntry. cbv zeta.
    generalize (when (socketObserverContainer st)
                  (Reentrant.invoke app (closeStarted errorCode)) st).
    intros s0. unfold when.
    destruct (qLogger (conn_ s0)); by destruct s0. }
  destruct (cancelAllAppCallbacks_lock c stopped Hc) as [<- Hc3].
  destruct (Reentrant.cancelAllAppCallbacks app c stopped) as [[] st3 | st3];
    [| done].
  cbn [andThen finalState] in *.
  destruct (closeImplTeardown_lock c s st3 Hc3) as [<- Hc4].
  destruct (drainPermitted c d observed); [done |].
  by rewrite (drainTimeoutExpired_lock _ Hc4).
Qed.

End ReentrantLockstep.

Section CloseClaims.

Context (E : Externals).


(** C5, as the code has it: [closeImpl] on a connection that is already
    Closed returns at once and leaves the whole state as it was, so a close
    that has returned makes every later [closeImpl] a no-op.  [close] on a
    Closed connection does nothing beyond [resetConnectionCallbacks];
    [closeNow] leaves the state as it was unless the drain timer is pending,
    in which case it cancels the timer and runs [drainTimeoutExpired].

    [closeImpl] sets [closeState_] to Closed before it calls any callback
    but the observers' [closeStarted].  So every other callback finds the
    connection Closed: what the application would do on a connection that
    is not Closed has no bearing on the close, and an application that
    answers those callbacks by calling [closeImpl] again leaves the outer
    close with the result it has when no callback touches the transport.
    One that answers them by calling [close] does to the outer close what
    resetting the connection callbacks there does, and no more. *)
Theorem closeImpl_closed_is_noop
    (errorCode : option QuicError) (drainConnection sendCloseImmediately : bool)
    (st : QuicTransportBase) :
  (closeState_ st = CLOSED ->
   closeImpl E errorCode drainConnection sendCloseImmediately st = Done tt st
   /\ close E errorCode st = Done tt (resetConnectionCallbacks st)
   /\ closeNow E errorCode st
      = Done tt
          (if isTimeoutScheduled drainTimeout_ st
           then drainTimeoutExpired (cancelTimeout drainTimeout_ st)
           else st))
  /\ (forall st',
        closeImpl E errorCode drainConnection sendCloseImmediately st
          = Done tt st' ->
        closeState_ st' = CLOSED
        /\ forall errorCode' drainConnection' sendCloseImmediately',
             closeImpl E errorCode' drainConnection' sendCloseImmediately' st'
             = Done tt st')
  /\ (forall app app' : Event -> QuicTransportBase -> QuicTransportBase,
        (forall e st0,
           closeState_ st0 = CLOSED ->
           app e st0 = app' e st0 /\ closeState_ (app e st0) = CLOSED) ->
        (forall reason st0,
           app (closeStarted reason) st0 = app' (closeStarted reason) st0) ->
        Reentrant.closeImpl E app errorCode drainConnection
          sendCloseImmediately st
        = Reentrant.closeImpl E app' errorCode drainConnection
            sendCloseImmediately st)
  /\ (forall again : Event -> option QuicError * bool * bool,
        Reentrant.closeImpl E (closesAgain E again) errorCode drainConnection
          sendCloseImmediately st
        = closeImpl E errorCode drainConnection sendCloseImmediately st)
  /\ (forall inner : Event -> option QuicError,
        Reentrant.closeImpl E (callsClose E inner) errorCode drainConnection
          sendCloseImmediately st
        = Reentrant.closeImpl E resetsConnectionCallbacks errorCode
            drainConnection sendCloseImmediately st).
Proof.
  assert (Hnoop : forall e d s st0,
            closeState_ st0 = CLOSED -> closeImpl E e d s st0 = Done tt st0).
  { intros e d s st0 Hc. unfold closeImpl. by rewrite (isClosed_true _ Hc). }
  split; [| split; [| split; [| split]]].
  - intros Hc. split; [by apply Hnoop |]. split.
    + unfold close. apply Hnoop. by destruct st.
    + unfold closeNow. rewrite Hnoop by exact Hc. simpl.
      by destruct (isTimeoutScheduled drainTimeout_ st).
  - intros st' Hdone.
    pose proof (closeImpl_leaves_closed _ _ _ _ _ _ Hdone) as Hc.
    split; [exact Hc |]. intros. by apply Hnoop.
  - intros app app' Hagree Hstarted. by apply closeImpl_lock.
  - intros again.
    rewrite <- Reentrant_closeImpl_idle.
    apply closeImpl_lock.
    + intros e st0 Hc.
      assert (Hsame : closesAgain E again e st0 = st0).
      { destruct e; simpl; try reflexivity;
          destruct (again _) as [[e' d'] s']; by rewrite Hnoop. }
      by rewrite Hsame.
    + reflexivity.
  - intros inner. apply closeImpl_lock; [| reflexivity].
    intros e st0 Hc.
    assert (Hsame : callsClose E inner e st0
                    = resetsConnectionCallbacks e st0).
    { destruct e; simpl; try reflexivity;
        unfold close; rewrite Hnoop; try reflexivity; by destruct st0. }
    rewrite Hsame. split; [reflexivity |].
    destruct e; simpl; try exact Hc; by destruct st0.
Qed.

End CloseClaims.


(** C5 at work: every callback of the close of [exampleBusy] calls
    [closeImpl] again, and the close ends as it does when no callback
    touches the transport. *)
Lemma closeImpl_closed_is_noop_example :
  let again :=
    fun _ : Event => (Some exampleWriteError, false, true) in
  Reentrant.closeImpl exampleExternals (closesAgain exampleExternals again)
    None true true exampleBusy
  = closeImpl exampleExternals None true true exampleBusy
  /\ closeState_
       (finalState (closeImpl exampleExternals None true true exampleBusy))
     = CLOSED.
Proof.
  intros again.
  destruct (closeImpl_closed_is_noop exampleExternals None true true
              exampleBusy) as (_ & Hclosed & _ & Hagain & _).
  split; [apply Hagain |].
  apply (Hclosed
           (finalState (closeImpl exampleExternals None true true exampleBusy))).
  vm_compute. reflexivity.
Defined.

(** C5, as stated: two second entries that are not no-ops.  [close()] has
    closed the connection and armed the drain timer; [closeNow()] then finds
    the connection Closed and still changes it, by cancelling the drain
    timer and closing the socket.  And the observers' [closeStarted] is
    called before the connection is marked Closed: an observer that answers
    it by closing the connection closes it in full, and the outer close
    then runs once more over what is left, so that the close packet is
    written twice. *)
Lemma second_close_is_not_always_a_noop :
  (exists st st',
     close exampleExternals None exampleOpen = Done tt st
     /\ closeState_ st = CLOSED
     /\ closeNow exampleExternals None st = Done tt st'
     /\ socket_ st = Some true /\ socket_ st' = None
     /\ timers_ st !! drainTimeout_ = Some 452
     /\ timers_ st' !! drainTimeout_ = None
     /\ trace_ st'
        = trace_ st ++ [socketPauseRead; socketClose; unbindConnection])
  /\ (let outer := closeImpl exampleExternals None true true exampleBusy in
      let reentered :=
        Reentrant.closeImpl exampleExternals
          (closesOnCloseStarted exampleExternals) None true true
          exampleBusy in
      occurrences isWriteData (trace_ (finalState outer)) = 1%nat
      /\ occurrences isWriteData (trace_ (finalState reentered)) = 2%nat).
Proof.
  split.
  - eexists. eexists. split; [vm_compute; reflexivity |].
    vm_compute. repeat split.
  - vm_compute. split; reflexivity.
Qed.

(** * Byte events with callbacks that call back into the transport *)

Section ReentrantByteEvents.

Context (E : Externals).
Context (app : Event -> QuicTransportBase -> QuicTransportBase).

Lemma leavesAloneOn_subseteq evs evs' :
  evs' ⊆ evs -> leavesAloneOn app evs -> leavesAloneOn app evs'.
Proof. intros Hsub H e st He. apply H. by apply Hsub. Qed.

Lemma invoke_leavesAloneOn evs e st :
  leavesAloneOn app evs -> e ∈ evs -> Reentrant.invoke app e st = log e st.
Proof. intros H He. unfold Reentrant.invoke. by apply H. Qed.

Lemma getByteEventMap_log type e st :
  getByteEventMap type (log e st) = getByteEventMap type st.
Proof. by destruct type, st. Qed.

Lemma getByteEventMap_set type m st :
  getByteEventMap type (setByteEventMap type m st) = m.
Proof. by destruct type, st. Qed.

Lemma isOpen_log e st : isOpen (log e st) = isOpen st.
Proof. by destruct st. Qed.

Lemma isOpen_setByteEventMap type m st :
  isOpen (setByteEventMap type m st) = isOpen st.
Proof. by destruct type, st. Qed.

Lemma cancelled_nil type id rest st :
  getByteEventMap type st !! id = Some rest ->
  cancelled type id [] rest st = st.
Proof.
  intros Hq. unfold cancelled, cancellations. simpl.
  rewrite app_nil_r, (insert_id _ _ _ Hq). by destruct type, st.
Qed.

Lemma cancelled_cons type id d popped q rest st :
  cancelled type id popped rest
    (log (onByteEventCanceled (callback d) id (offset d) type)
       (setByteEventMap type (<[id := q]> (getByteEventMap type st)) st))
  = cancelled type id (d :: popped) rest st.
Proof.
  unfold cancelled, cancellations, log.
  destruct type, st; simpl; rewrite insert_insert_eq, <- app_assoc;
    reflexivity.
Qed.

Lemma cancelled_pop type id popped q rest st :
  setByteEventMap type
    (<[id := rest]> (getByteEventMap type (cancelled type id popped q st)))
    (cancelled type id popped q st)
  = cancelled type id popped rest st.
Proof.
  unfold cancelled.
  destruct type, st; simpl; rewrite insert_insert_eq; reflexivity.
Qed.

Lemma cancelled_lookup type id popped rest st :
  getByteEventMap type (cancelled type id popped rest st) !! id = Some rest.
Proof.
  unfold cancelled. destruct type, st; simpl; apply lookup_insert_eq.
Qed.

Lemma cancelled_isOpen type id popped rest st :
  isOpen (cancelled type id popped rest st) = isOpen st.
Proof. unfold cancelled. by destruct type, st. Qed.

(** As long as the callbacks leave the transport alone, the walk pops the
    entries below the offset one after the other. *)
Lemma cancelWalk_prefix fuel type id o popped rest st :
  getByteEventMap type st !! id = Some (popped ++ rest) ->
  isOpen st = true ->
  Forall (fun d => match o with
                   | None => true
                   | Some o => offset d <? o
                   end = true) popped ->
  leavesAloneOn app (cancellations type id popped) ->
  Reentrant.cancelWalk app (length popped + fuel) type id o st
  = Reentrant.cancelWalk app fuel type id o
      (cancelled type id popped rest st).
Proof.
  revert st. induction popped as [| d popped IH]; intros st Hq Hopen Hb Hla.
  - simpl. by rewrite cancelled_nil.
  - apply Forall_cons in Hb as [Hd Hb].
    cbn [length Nat.add Reentrant.cancelWalk]. rewrite Hq.
    rewrite <- app_comm_cons, Hd.
    rewrite (invoke_leavesAloneOn _ _ _ Hla) by apply list_elem_of_here.
    rewrite isOpen_log, isOpen_setByteEventMap, Hopen. cbn [negb].
    rewrite (IH _).
    + by rewrite cancelled_cons.
    + by rewrite getByteEventMap_log, getByteEventMap_set, lookup_insert_eq.
    + by rewrite isOpen_log, isOpen_setByteEventMap.
    + exact Hb.
    + eapply leavesAloneOn_subseteq; [| exact Hla].
      intros e He. by apply list_elem_of_further.
Qed.

(** What the walk of the opaque model returns on an open connection. *)
Lemma cancelWalk_open type id o q :
  exists popped,
    q = popped ++ (cancelWalk true type id o q).1.1
    /\ (cancelWalk true type id o q).1.2 = cancellations type id popped
    /\ (cancelWalk true type id o q).2 = false
    /\ Forall (fun d => match o with
                        | None => true
                        | Some o => offset d <? o
                        end = true) popped
    /\ match (cancelWalk true type id o q).1.1 with
       | [] => True
       | d :: _ => match o with
                   | None => true
                   | Some o => offset d <? o
                   end = false
       end.
Proof.
  induction q as [| front rest IH].
  - exists []. simpl. repeat split; constructor.
  - simpl.
    destruct (match o with None => true | Some o0 => offset front <? o0 end)
      eqn:Hfront.
    + destruct IH as (popped & Hq & Hevs & Hearly & Hb & Hrest).
      destruct (cancelWalk true type id o rest) as [[q' evs] early].
      simpl in *. exists (front :: popped). subst evs early.
      split; [by rewrite Hq at 1 |]. split; [done |]. split; [done |].
      split; [by constructor | done].
    + exists []. simpl. split; [done |]. split; [done |]. split; [done |].
      split; [constructor | done].
Qed.

(** With callbacks that leave the transport alone and enough fuel,
    [Reentrant.cancelByteEventCallbacksForStream] is the function of the
    opaque model. *)
Lemma cancelByteEventCallbacksForStream_leavesAlone fuel type id o st :
  isOpen st = true ->
  leavesAloneOn app
    (cancelWalk true type id o (queueOf type id st)).1.2 ->
  (length (queueOf type id st) < fuel)%nat ->
  Reentrant.cancelByteEventCallbacksForStream E app fuel type id o st
  = Some (Done tt (cancelByteEventCallbacksForStream E type id o st)).
Proof.
  intros Hopen Hla Hfuel.
  unfold Reentrant.cancelByteEventCallbacksForStream,
    cancelByteEventCallbacksForStream, queueOf in *.
  destruct (isReceivingStream _ _ _); [done |].
  destruct (getByteEventMap type st !! id) as [q |] eqn:Hq; [| done].
  simpl in Hla, Hfuel. rewrite Hopen.
  destruct (cancelWalk_open type id o q)
    as (popped & Hsplit & Hevs & Hearly & Hb & Hrest).
  destruct (cancelWalk true type id o q) as [[q' evs] early].
  simpl in *. subst evs early.
  assert (Hlen : exists fuel', fuel = (length popped + S fuel')%nat).
  { exists (fuel - length popped - 1)%nat.
    rewrite Hsplit, length_app in Hfuel. lia. }
  destruct Hlen as [fuel' ->].
  rewrite Hsplit in Hq.
  rewrite (cancelWalk_prefix _ _ _ _ _ q' _ Hq Hopen Hb Hla).
  assert (Htr : forall m, trace_ (setByteEventMap type m st) = trace_ st)
    by (intros m; by destruct type, st).
  rewrite Htr.
  change (set_trace_ _ (setByteEventMap type _ st))
    with (cancelled type id popped q' st).
  cbn [Reentrant.cancelWalk]. rewrite cancelled_lookup.
  destruct q' as [| d q']; [by rewrite cancelled_lookup |].
  rewrite Hrest. by rewrite cancelled_lookup.
Qed.

End ReentrantByteEvents.

Section CancelBelowOffset.

Context (E : Externals).
Context (app : Event -> QuicTransportBase -> QuicTransportBase).

(** The walk returns as soon as a callback leaves the connection not open:
    nothing is done to the transport after that callback. *)
Lemma cancelByteEventCallbacksForStream_returns_early
    fuel type id o popped d rest st :
  isReceivingStream E (nodeType (conn_ st)) id = false ->
  isOpen st = true ->
  getByteEventMap type st !! id = Some (popped ++ d :: rest) ->
  Forall (fun d => match o with
                   | None => true
                   | Some o => offset d <? o
                   end = true) (popped ++ [d]) ->
  leavesAloneOn app (cancellations type id popped) ->
  (length popped < fuel)%nat ->
  let closing :=
    Reentrant.invoke app
      (onByteEventCanceled (callback d) id (offset d) type)
      (cancelled type id popped rest st) in
  closeState_ closing <> OPEN ->
  Reentrant.cancelByteEventCallbacksForStream E app fuel type id o st
  = Some (Done tt closing).
Proof.
  intros Hdir Hopen Hq Hb Hla Hfuel closing Hclosed.
  unfold Reentrant.cancelByteEventCallbacksForStream. rewrite Hdir, Hq.
  apply Forall_app in Hb as [Hb Hd]. rewrite Forall_singleton in Hd.
  assert (Hlen : exists fuel', fuel = (length popped + S fuel')%nat)
    by (exists (fuel - length popped - 1)%nat; lia).
  destruct Hlen as [fuel' ->].
  rewrite (cancelWalk_prefix app _ _ _ _ _ _ _ Hq Hopen Hb Hla).
  cbn [Reentrant.cancelWalk]. rewrite cancelled_lookup, Hd, cancelled_pop.
  fold closing. by rewrite (isOpen_false _ Hclosed).
Qed.


End CancelBelowOffset.

Section CancelResetStreams.

Context (E : Externals).
Context (app : Event -> QuicTransportBase -> QuicTransportBase).

Lemma cancelByteEventCallbacksForStream_allTypes_leavesAlone fuel id st :
  closeState_ st = OPEN ->
  (forall type,
     leavesAloneOn app (cancellations type id (queueOf type id st))) ->
  (forall type, (length (queueOf type id st) < fuel)%nat) ->
  Reentrant.cancelByteEventCallbacksForStream_allTypes E app fuel id None st
  = Some (Done tt (cancelByteEventCallbacksForStream_allTypes E id None st)).
Proof.
  intros Hopen Hla Hfuel.
  unfold Reentrant.cancelByteEventCallbacksForStream_allTypes,
    cancelByteEventCallbacksForStream_allTypes.
  rewrite (cancelByteEventCallbacksForStream_leavesAlone E app fuel ACK id
             None st).
  - destruct (cancelByteEventCallbacksForStream_clears E ACK id st Hopen)
      as (Ho1 & _ & Hm1).
    assert (Hq : queueOf TX id
                   (cancelByteEventCallbacksForStream E ACK id None st)
                 = queueOf TX id st).
    { unfold queueOf. rewrite Hm1.
      rewrite (bool_decide_eq_false_2 (TX = ACK /\ id = id)); [done |].
      by intros [? _]. }
    apply cancelByteEventCallbacksForStream_leavesAlone.
    + by apply isOpen_true.
    + rewrite Hq, cancelWalk_all. apply Hla.
    + rewrite Hq. apply Hfuel.
  - by apply isOpen_true.
  - rewrite cancelWalk_all. apply Hla.
  - apply Hfuel.
Qed.

Lemma handleCancelByteEventCallbacks_leavesAlone fuel resets st :
  closeState_ st = OPEN ->
  (forall id type,
     id ∈ resets ->
     leavesAloneOn app (cancellations type id (queueOf type id st))) ->
  (forall id type, id ∈ resets -> (length (queueOf type id st) < fuel)%nat) ->
  Reentrant.handleCancelByteEventCallbacks E app fuel resets st
  = Some (Done tt (handleCancelByteEventCallbacks E resets st)).
Proof.
  revert st. induction resets as [| id rest IH]; intros st Hopen Hla Hfuel;
    [done |].
  cbn [Reentrant.handleCancelByteEventCallbacks handleCancelByteEventCallbacks].
  rewrite cancelByteEventCallbacksForStream_allTypes_leavesAlone; try done.
  2:{ intros type. apply Hla, list_elem_of_here. }
  2:{ intros type. apply Hfuel, list_elem_of_here. }
  destruct (cancelByteEventCallbacksForStream_allTypes_clears E id st Hopen)
    as (Ho1 & _ & Hm1).
  rewrite (isOpen_true _ Ho1). cbn [negb].
  assert (Hqueue : forall type id',
            queueOf type id'
              (cancelByteEventCallbacksForStream_allTypes E id None st)
            = queueOf type id' st
            \/ queueOf type id'
                 (cancelByteEventCallbacksForStream_allTypes E id None st)
               = []).
  { intros type id'. unfold queueOf. rewrite Hm1.
    destruct (_ && _); [by right | by left]. }
  apply IH; [exact Ho1 | |].
  - intros id' type Hin.
    destruct (Hqueue type id') as [-> | ->];
      [by apply Hla, list_elem_of_further |].
    intros e st0 He. by apply elem_of_nil in He.
  - intros id' type Hin.
    destruct (Hqueue type id') as [-> | ->];
      [by apply Hfuel, list_elem_of_further |].
    specialize (Hfuel id type (list_elem_of_here _ _)). simpl. lia.
Qed.

(** The loop over the pending resets stops at the first stream whose
    cancellation leaves the connection not open, whatever the callbacks
    do. *)
Lemma handleCancelByteEventCallbacks_stops fuel ids1 id ids2 st st1 st2 :
  Reentrant.handleCancelByteEventCallbacks E app fuel ids1 st
  = Some (Done tt st1) ->
  closeState_ st1 = OPEN ->
  Reentrant.cancelByteEventCallbacksForStream_allTypes E app fuel id None st1
  = Some (Done tt st2) ->
  closeState_ st2 <> OPEN ->
  Reentrant.handleCancelByteEventCallbacks E app fuel (ids1 ++ id :: ids2) st
  = Some (Done tt st2).
Proof.
  revert st. induction ids1 as [| i ids1 IH]; intros st H1 Hopen H2 Hclosed.
  - injection H1 as <-.
    rewrite app_nil_l. cbn [Reentrant.handleCancelByteEventCallbacks].
    rewrite H2. by rewrite (isOpen_false _ Hclosed).
  - simpl in *.
    destruct (Reentrant.cancelByteEventCallbacksForStream_allTypes E app fuel
                i None st) as [[[] st' | st'] |]; try discriminate.
    destruct (isOpen st') eqn:Ho; simpl in *.
    + by apply IH.
    + injection H1 as <-. exfalso.
      unfold isOpen in Ho. by apply bool_decide_eq_false_1 in Ho.
Qed.


End CancelResetStreams.

Section FireTxCallbacks.

Context (E : Externals).
Context (app : Event -> QuicTransportBase -> QuicTransportBase).

(** With callbacks that leave the transport alone and enough fuel, the
    loop over the TX callbacks of a stream is that of the opaque model. *)
Lemma callTxCallbacksForStream_leavesAlone fuel id ready q st :
  queueOf TX id st = q ->
  leavesAloneOn app
    (firings TX id (filter (fun d => offset d <= ready) q)) ->
  (length q < fuel)%nat ->
  Reentrant.callTxCallbacksForStream app fuel id ready st
  = Some (callTxCallbacksForStream id ready q st).
Proof.
  revert st fuel. induction q as [| front rest IH]; intros st fuel Hq Hla Hfuel;
    (destruct fuel as [| fuel]; [simpl in Hfuel; lia |]);
    unfold queueOf in Hq; simpl in Hq;
    cbn [Reentrant.callTxCallbacksForStream callTxCallbacksForStream];
    unfold Reentrant.getNextTxCallbackForStreamAndCleanup.
  - destruct (txCallbacks_ st !! id) as [[| ? ?] |]; done.
  - destruct (txCallbacks_ st !! id) as [q' |] eqn:Hq'; [| done].
    simpl in Hq. subst q'.
    destruct (Z.ltb_spec ready (offset front)) as [Hlt | Hle]; [done |].
    rewrite filter_cons, decide_True in Hla by done.
    rewrite (invoke_leavesAloneOn app _ _ _ Hla) by apply list_elem_of_here.
    match goal with
    | |- context [negb (isOpen ?x)] => set (st1 := x)
    end.
    destruct (isOpen st1); [| done]. cbn [negb].
    apply IH.
    + subst st1. unfold queueOf. destruct rest, st; simpl.
      * by rewrite lookup_delete_eq.
      * by rewrite lookup_insert_eq.
    + eapply leavesAloneOn_subseteq; [| exact Hla].
      intros e He. by apply list_elem_of_further.
    + simpl in Hfuel. lia.
Qed.

Lemma dueFirings_ready type id ready stream st :
  getStream id st = Some stream ->
  match type with
  | ACK => getLargestDeliverableOffset E stream
  | TX => getLargestWriteOffsetTxed E stream
  end = Some ready ->
  dueFirings E type st id
  = firings type id (filter (fun d => offset d <= ready) (queueOf type id st)).
Proof.
  intros Hs Hr. unfold dueFirings, dueEntries, largestReadyOffset.
  by rewrite Hs, Hr.
Qed.

Lemma processTxStreams_leavesAlone fuel txStreams st :
  closeState_ st = OPEN ->
  (forall id, StronglySorted Z.le (offset <$> queueOf TX id st)) ->
  NoDup txStreams ->
  (forall id, id ∈ txStreams -> (length (queueOf TX id st) < fuel)%nat) ->
  (forall id, id ∈ txStreams -> leavesAloneOn app (dueFirings E TX st id)) ->
  Reentrant.processTxStreams E app fuel txStreams st
  = Some (processTxStreams E txStreams st).
Proof.
  revert st.
  induction txStreams as [| id rest IH]; intros st Hopen Hq Hnd Hfuel Hla;
    [done |].
  apply NoDup_cons in Hnd as [Hfresh Hnd].
  cbn [Reentrant.processTxStreams processTxStreams].
  destruct (getStream id st) as [stream |] eqn:Hstream; [| done].
  destruct (getLargestWriteOffsetTxed E stream) as [ready |] eqn:Hready;
    [| done].
  change (default [] (txCallbacks_ st !! id)) with (queueOf TX id st).
  rewrite (callTxCallbacksForStream_leavesAlone fuel id ready
             (queueOf TX id st) st eq_refl).
  2:{ rewrite <- (dueFirings_ready TX id ready stream st Hstream Hready).
      apply Hla, list_elem_of_here. }
  2:{ apply Hfuel, list_elem_of_here. }
  destruct (callTxCallbacksForStream_effect id ready (queueOf TX id st) st
              Hopen (Hq id))
    as (st1 & Hrun & Ht1 & Ho1 & Hc1 & Hd1 & Hk1 & Hnone1 & Hsome1).
  rewrite Hrun.
  assert (Hq1 : forall id', id' <> id -> queueOf TX id' st1 = queueOf TX id' st).
  { intros id' Hne. unfold queueOf. simpl. by rewrite Hk1. }
  assert (Hin : forall id', id' ∈ rest -> id' <> id) by (intros id' ? ->; done).
  apply IH; [exact Ho1 | | exact Hnd | |].
  - intros id'. destruct (decide (id' = id)) as [-> | Hne];
      [| by rewrite Hq1].
    destruct (filter (fun d => offset d <= ready) (queueOf TX id st))
      as [| d due] eqn:Hdue.
    + by rewrite (Hnone1 eq_refl).
    + unfold queueOf at 1. simpl. rewrite Hsome1 by discriminate.
      pose proof (filter_pending_sorted ready _ (Hq id)) as Hp.
      destruct (filter (fun d => ready < offset d) (queueOf TX id st));
        [constructor | exact Hp].
  - intros id' Hid'. rewrite Hq1 by auto.
    by apply Hfuel, list_elem_of_further.
  - intros id' Hid'. unfold dueFirings, dueEntries.
    rewrite (largestReadyOffset_same E _ _ _ _ Hc1), Hq1 by auto.
    by apply Hla, list_elem_of_further.
Qed.

Lemma fired_nil type id rest st :
  getByteEventMap type st !! id = Some rest ->
  fired type id [] rest st = st.
Proof.
  intros Hq. unfold fired, firings. simpl.
  rewrite app_nil_r, (insert_id _ _ _ Hq). by destruct type, st.
Qed.

Lemma fired_cons type id d popped q rest st :
  fired type id popped rest
    (log (onByteEvent (callback d) id (offset d) type)
       (setByteEventMap type (<[id := q]> (getByteEventMap type st)) st))
  = fired type id (d :: popped) rest st.
Proof.
  unfold fired, firings, log.
  destruct type, st; simpl; rewrite insert_insert_eq, <- app_assoc;
    reflexivity.
Qed.

Lemma fired_lookup type id popped rest st :
  getByteEventMap type (fired type id popped rest st) !! id = Some rest.
Proof. unfold fired. destruct type, st; simpl; apply lookup_insert_eq. Qed.

Lemma fired_isOpen type id popped rest st :
  isOpen (fired type id popped rest st) = isOpen st.
Proof. unfold fired. by destruct type, st. Qed.

(** As long as the callbacks leave the transport alone, the loop fires the
    entries that are due one after the other. *)
Lemma callTxCallbacksForStream_prefix fuel id ready popped d rest st :
  txCallbacks_ st !! id = Some (popped ++ d :: rest) ->
  isOpen st = true ->
  Forall (fun d => offset d <= ready) popped ->
  leavesAloneOn app (firings TX id popped) ->
  Reentrant.callTxCallbacksForStream app (length popped + fuel) id ready st
  = Reentrant.callTxCallbacksForStream app fuel id ready
      (fired TX id popped (d :: rest) st).
Proof.
  revert st. induction popped as [| p popped IH]; intros st Hq Hopen Hb Hla.
  - simpl. by rewrite fired_nil.
  - apply Forall_cons in Hb as [Hp Hb].
    cbn [length Nat.add Reentrant.callTxCallbacksForStream].
    unfold Reentrant.getNextTxCallbackForStreamAndCleanup.
    rewrite Hq, <- app_comm_cons.
    destruct (Z.ltb_spec ready (offset p)) as [Hlt | _]; [lia |].
    assert (Hmap : match popped ++ d :: rest with
                   | [] => delete id (txCallbacks_ st)
                   | _ :: _ => <[id := popped ++ d :: rest]> (txCallbacks_ st)
                   end = <[id := popped ++ d :: rest]> (txCallbacks_ st))
      by (by destruct popped).
    rewrite Hmap.
    rewrite (invoke_leavesAloneOn app _ _ _ Hla) by apply list_elem_of_here.
    change (set_txCallbacks_ ?m st) with (setByteEventMap TX m st).
    change (txCallbacks_ st) with (getByteEventMap TX st).
    rewrite isOpen_log, isOpen_setByteEventMap, Hopen. cbn [negb].
    rewrite (IH _).
    + by rewrite fired_cons.
    + change (txCallbacks_ ?s) with (getByteEventMap TX s).
      by rewrite getByteEventMap_log, getByteEventMap_set, lookup_insert_eq.
    + by rewrite isOpen_log, isOpen_setByteEventMap.
    + exact Hb.
    + eapply leavesAloneOn_subseteq; [| exact Hla].
      intros e He. by apply list_elem_of_further.
Qed.

Lemma txFired_pop id popped d rest st :
  set_txCallbacks_
    match rest with
    | [] => delete id (txCallbacks_ (fired TX id popped (d :: rest) st))
    | _ => <[id := rest]> (txCallbacks_ (fired TX id popped (d :: rest) st))
    end (fired TX id popped (d :: rest) st)
  = txFired id popped rest st.
Proof.
  unfold fired, txFired.
  destruct rest, st; simpl;
    rewrite ?delete_insert_eq, ?insert_insert_eq; reflexivity.
Qed.

(** The loop over the TX callbacks of a stream returns as soon as a
    callback leaves the connection not open. *)
Lemma callTxCallbacksForStream_returns_early fuel id ready popped d rest st :
  txCallbacks_ st !! id = Some (popped ++ d :: rest) ->
  isOpen st = true ->
  Forall (fun d => offset d <= ready) (popped ++ [d]) ->
  leavesAloneOn app (firings TX id popped) ->
  (length popped < fuel)%nat ->
  let closing :=
    Reentrant.invoke app (onByteEvent (callback d) id (offset d) TX)
      (txFired id popped rest st) in
  closeState_ closing <> OPEN ->
  Reentrant.callTxCallbacksForStream app fuel id ready st
  = Some (closing, true).
Proof.
  intros Hq Hopen Hb Hla Hfuel closing Hclosed.
  apply Forall_app in Hb as [Hb Hd]. rewrite Forall_singleton in Hd.
  assert (Hlen : exists fuel', fuel = (length popped + S fuel')%nat)
    by (exists (fuel - length popped - 1)%nat; lia).
  destruct Hlen as [fuel' ->].
  rewrite (callTxCallbacksForStream_prefix _ _ _ _ _ _ _ Hq Hopen Hb Hla).
  cbn [Reentrant.callTxCallbacksForStream].
  unfold Reentrant.getNextTxCallbackForStreamAndCleanup.
  change (txCallbacks_ ?s !! id) with (getByteEventMap TX s !! id).
  rewrite fired_lookup.
  destruct (Z.ltb_spec ready (offset d)) as [Hlt | _]; [lia |].
  rewrite txFired_pop. fold closing.
  by rewrite (isOpen_false _ Hclosed).
Qed.

Lemma callTxCallbacksForStream_returned fuel id ready st st' :
  Reentrant.callTxCallbacksForStream app fuel id ready st = Some (st', true) ->
  isOpen st' = false.
Proof.
  revert st. induction fuel as [| fuel IH]; intros st; [done |].
  cbn [Reentrant.callTxCallbacksForStream].
  destruct (Reentrant.getNextTxCallbackForStreamAndCleanup id ready st)
    as [[next |] st1]; [| done].
  destruct (isOpen (Reentrant.invoke app _ st1)) eqn:Ho; cbn [negb].
  - apply IH.
  - by intros [= <-].
Qed.

(** The loop over the streams goes on after a stream exactly if the
    connection is open. *)
Lemma processTxStreams_app fuel ids1 ids2 st st1 :
  Reentrant.processTxStreams E app fuel ids1 st = Some (Done [] st1) ->
  isOpen st1 = true ->
  Reentrant.processTxStreams E app fuel (ids1 ++ ids2) st
  = Reentrant.processTxStreams E app fuel ids2 st1.
Proof.
  revert st. induction ids1 as [| i ids1 IH]; intros st H1 Hopen.
  - by injection H1 as <-.
  - rewrite <- app_comm_cons.
    cbn [Reentrant.processTxStreams] in *.
    destruct (getStream i st) as [stream |]; [| discriminate].
    destruct (getLargestWriteOffsetTxed E stream) as [ready |];
      [| discriminate].
    destruct (Reentrant.callTxCallbacksForStream app fuel i ready st)
      as [[st' []] |] eqn:Hrun; [| by apply IH | discriminate].
    injection H1 as -> <-.
    apply callTxCallbacksForStream_returned in Hrun. congruence.
Qed.


End FireTxCallbacks.

Section FireDeliveryCallbacks.

Context (E : Externals).
Context (app : Event -> QuicTransportBase -> QuicTransportBase).

(** With callbacks that leave the transport alone and enough fuel, the
    loop over the delivery callbacks of a stream is that of the opaque
    model. *)
Lemma callDeliveryCallbacksForStream_leavesAlone fuel id ready q st :
  queueOf ACK id st = q ->
  leavesAloneOn app
    (firings ACK id (filter (fun d => offset d <= ready) q)) ->
  (length q < fuel)%nat ->
  Reentrant.callDeliveryCallbacksForStream app fuel id ready st
  = Some (Done (callDeliveryCallbacksForStream id ready q st).2
            (callDeliveryCallbacksForStream id ready q st).1).
Proof.
  revert st fuel. induction q as [| front rest IH]; intros st fuel Hq Hla Hfuel;
    (destruct fuel as [| fuel]; [simpl in Hfuel; lia |]);
    unfold queueOf in Hq; simpl in Hq;
    cbn [Reentrant.callDeliveryCallbacksForStream
           callDeliveryCallbacksForStream];
    unfold Reentrant.hasDeliveryCallbacksToCall.
  - destruct (deliveryCallbacks_ st !! id) as [[| ? ?] |]; done.
  - destruct (deliveryCallbacks_ st !! id) as [q' |] eqn:Hq'; [| done].
    simpl in Hq. subst q'.
    destruct (Z.leb_spec (offset front) ready) as [Hle | Hlt]; [| done].
    cbn [negb].
    rewrite filter_cons, decide_True in Hla by done.
    rewrite (invoke_leavesAloneOn app _ _ _ Hla) by apply list_elem_of_here.
    match goal with
    | |- context [negb (isOpen ?x)] => set (st1 := x)
    end.
    destruct (isOpen st1); [| done]. cbn [negb].
    apply IH.
    + subst st1. unfold queueOf. destruct st; simpl.
      by rewrite lookup_insert_eq.
    + eapply leavesAloneOn_subseteq; [| exact Hla].
      intros e He. by apply list_elem_of_further.
    + simpl in Hfuel. lia.
Qed.

Lemma deliverToStream_leavesAlone fuel id stream st :
  getStream id st = Some stream ->
  leavesAloneOn app (dueFirings E ACK st id) ->
  (length (queueOf ACK id st) < fuel)%nat ->
  Reentrant.deliverToStream E app fuel id stream st
  = Some (Done (deliverToStream E trimWriteBufferTo id stream st).2
            (deliverToStream E trimWriteBufferTo id stream st).1).
Proof.
  intros Hstream Hla Hfuel.
  unfold Reentrant.deliverToStream, deliverToStream.
  destruct (getLargestDeliverableOffset E stream) as [o |] eqn:Ho; [| done].
  rewrite (dueFirings_ready E ACK id o stream st Hstream Ho) in Hla.
  match goal with
  | |- Reentrant.callDeliveryCallbacksForStream _ _ _ _ ?x = _ =>
      set (trimmed := x)
  end.
  assert (Hq : queueOf ACK id trimmed = queueOf ACK id st)
    by (subst trimmed; by destruct st).
  change (default [] (deliveryCallbacks_ trimmed !! id))
    with (queueOf ACK id trimmed).
  apply callDeliveryCallbacksForStream_leavesAlone; [done | |];
    by rewrite Hq.
Qed.

Lemma handleDeliveryCallbacks_leavesAlone fuel deliverableStreams st :
  closeState_ st = OPEN ->
  (forall id, StronglySorted Z.le (offset <$> queueOf ACK id st)) ->
  NoDup deliverableStreams ->
  (forall id, id ∈ deliverableStreams -> is_Some (getStream id st)) ->
  (forall id, id ∈ deliverableStreams ->
              (length (queueOf ACK id st) < fuel)%nat) ->
  (forall id, id ∈ deliverableStreams ->
              leavesAloneOn app (dueFirings E ACK st id)) ->
  Reentrant.handleDeliveryCallbacks E app fuel deliverableStreams st
  = Some (handleDeliveryCallbacks E trimWriteBufferTo deliverableStreams st).
Proof.
  revert st.
  induction deliverableStreams as [| id rest IH];
    intros st Hopen Hq Hnd Hex Hfuel Hla; [done |].
  apply NoDup_cons in Hnd as [Hfresh Hnd].
  destruct (Hex id) as [stream Hstream]; [apply list_elem_of_here |].
  cbn [Reentrant.handleDeliveryCallbacks handleDeliveryCallbacks].
  rewrite Hstream.
  rewrite (deliverToStream_leavesAlone fuel id stream st Hstream)
    by (first [apply Hla | apply Hfuel]; apply list_elem_of_here).
  destruct (deliverToStream_effect E trimWriteBufferTo id stream st Hopen
              Hstream (Hq id))
    as (st1 & Hrun & Ht1 & Ho1 & Htx1 & Hq1 & Hne1 & Hk1 & Hs1 & Hsid).
  rewrite Hrun. cbn [fst snd].
  set (st2 := eraseEmptyDeliveryQueue id st1) in *.
  assert (Hqk : forall id', id' <> id ->
            queueOf ACK id' st2 = queueOf ACK id' st).
  { intros id' Hne. unfold queueOf. simpl. by rewrite Hk1. }
  assert (Hgs : forall id', id' <> id -> getStream id' st2 = getStream id' st).
  { intros id' Hne. unfold getStream. by rewrite Hs1. }
  assert (Hin : forall id', id' ∈ rest -> id' <> id) by (intros id' ? ->; done).
  apply IH; [exact Ho1 | | exact Hnd | | |].
  - intros id'. destruct (decide (id' = id)) as [-> | Hne].
    + rewrite Hq1. unfold pendingEntries.
      destruct (largestReadyOffset E ACK id st); [| apply Hq].
      apply filter_pending_sorted, Hq.
    + rewrite Hqk by done. apply Hq.
  - intros id' Hid'. rewrite Hgs by auto.
    by apply Hex, list_elem_of_further.
  - intros id' Hid'. rewrite Hqk by auto.
    by apply Hfuel, list_elem_of_further.
  - intros id' Hid'. unfold dueFirings, dueEntries, largestReadyOffset.
    rewrite Hgs, Hqk by auto.
    by apply Hla, list_elem_of_further.
Qed.

Lemma callDeliveryCallbacksForStream_prefix fuel id ready popped rest st :
  deliveryCallbacks_ st !! id = Some (popped ++ rest) ->
  isOpen st = true ->
  Forall (fun d => offset d <= ready) popped ->
  leavesAloneOn app (firings ACK id popped) ->
  Reentrant.callDeliveryCallbacksForStream app (length popped + fuel) id
    ready st
  = Reentrant.callDeliveryCallbacksForStream app fuel id ready
      (fired ACK id popped rest st).
Proof.
  revert st. induction popped as [| p popped IH]; intros st Hq Hopen Hb Hla.
  - simpl. by rewrite fired_nil.
  - apply Forall_cons in Hb as [Hp Hb].
    cbn [length Nat.add Reentrant.callDeliveryCallbacksForStream].
    unfold Reentrant.hasDeliveryCallbacksToCall.
    rewrite Hq, <- app_comm_cons.
    destruct (Z.leb_spec (offset p) ready) as [_ | Hlt]; [| lia].
    cbn [negb].
    rewrite (invoke_leavesAloneOn app _ _ _ Hla) by apply list_elem_of_here.
    change (set_deliveryCallbacks_ ?m st) with (setByteEventMap ACK m st).
    change (deliveryCallbacks_ st) with (getByteEventMap ACK st).
    rewrite isOpen_log, isOpen_setByteEventMap, Hopen. cbn [negb].
    rewrite (IH _).
    + by rewrite fired_cons.
    + change (deliveryCallbacks_ ?s) with (getByteEventMap ACK s).
      by rewrite getByteEventMap_log, getByteEventMap_set, lookup_insert_eq.
    + by rewrite isOpen_log, isOpen_setByteEventMap.
    + exact Hb.
    + eapply leavesAloneOn_subseteq; [| exact Hla].
      intros e He. by apply list_elem_of_further.
Qed.

Lemma fired_pop type id popped q rest st :
  setByteEventMap type
    (<[id := rest]> (getByteEventMap type (fired type id popped q st)))
    (fired type id popped q st)
  = fired type id popped rest st.
Proof.
  unfold fired.
  destruct type, st; simpl; rewrite insert_insert_eq; reflexivity.
Qed.

(** The loop over the delivery callbacks of a stream returns as soon as a
    callback leaves the connection not open. *)
Lemma callDeliveryCallbacksForStream_returns_early
    fuel id ready popped d rest st :
  deliveryCallbacks_ st !! id = Some (popped ++ d :: rest) ->
  isOpen st = true ->
  Forall (fun d => offset d <= ready) (popped ++ [d]) ->
  leavesAloneOn app (firings ACK id popped) ->
  (length popped < fuel)%nat ->
  let closing :=
    Reentrant.invoke app (onByteEvent (callback d) id (offset d) ACK)
      (fired ACK id popped rest st) in
  closeState_ closing <> OPEN ->
  Reentrant.callDeliveryCallbacksForStream app fuel id ready st
  = Some (Done true closing).
Proof.
  intros Hq Hopen Hb Hla Hfuel closing Hclosed.
  apply Forall_app in Hb as [Hb Hd]. rewrite Forall_singleton in Hd.
  assert (Hlen : exists fuel', fuel = (length popped + S fuel')%nat)
    by (exists (fuel - length popped - 1)%nat; lia).
  destruct Hlen as [fuel' ->].
  rewrite (callDeliveryCallbacksForStream_prefix _ _ _ _ _ _ Hq Hopen Hb Hla).
  cbn [Reentrant.callDeliveryCallbacksForStream].
  unfold Reentrant.hasDeliveryCallbacksToCall.
  change (deliveryCallbacks_ ?s !! id) with (getByteEventMap ACK s !! id).
  rewrite fired_lookup.
  destruct (Z.leb_spec (offset d) ready) as [_ | Hlt]; [| lia].
  cbn [negb].
  change (set_deliveryCallbacks_ ?m ?s) with (setByteEventMap ACK m s).
  change (deliveryCallbacks_ ?s) with (getByteEventMap ACK s).
  rewrite fired_pop. fold closing.
  by rewrite (isOpen_false _ Hclosed).
Qed.

Lemma callDeliveryCallbacksForStream_returned fuel id ready st st' :
  Reentrant.callDeliveryCallbacksForStream app fuel id ready st
  = Some (Done true st') ->
  isOpen st' = false.
Proof.
  revert st. induction fuel as [| fuel IH]; intros st; [done |].
  cbn [Reentrant.callDeliveryCallbacksForStream].
  destruct (negb (Reentrant.hasDeliveryCallbacksToCall id ready st));
    [done |].
  destruct (deliveryCallbacks_ st !! id) as [[| front rest] |]; try done.
  destruct (isOpen (Reentrant.invoke app _ _)) eqn:Ho; cbn [negb].
  - apply IH.
  - by intros [= <-].
Qed.

(** The loop over the streams goes on after a stream exactly if the
    connection is open. *)
Lemma handleDeliveryCallbacks_app fuel ids1 ids2 st st1 :
  Reentrant.handleDeliveryCallbacks E app fuel ids1 st = Some (Done [] st1) ->
  isOpen st1 = true ->
  Reentrant.handleDeliveryCallbacks E app fuel (ids1 ++ ids2) st
  = Reentrant.handleDeliveryCallbacks E app fuel ids2 st1.
Proof.
  revert st. induction ids1 as [| i ids1 IH]; intros st H1 Hopen.
  - by injection H1 as <-.
  - rewrite <- app_comm_cons.
    cbn [Reentrant.handleDeliveryCallbacks] in *.
    destruct (getStream i st) as [stream |]; [| discriminate].
    unfold Reentrant.deliverToStream in *.
    destruct (getLargestDeliverableOffset E stream) as [o |].
    + destruct (Reentrant.callDeliveryCallbacksForStream app fuel i o _)
        as [[[] st' | st'] |] eqn:Hrun; try discriminate; [| by apply IH].
      injection H1 as -> <-.
      apply callDeliveryCallbacksForStream_returned in Hrun. congruence.
    + by apply IH.
Qed.

(** What the trim does to a stream whose buffer starts at or below the
    offset and reaches it, and to one whose buffer starts beyond it. *)
Lemma trimWriteBufferTo_within o stream :
  0 <= writeBufferStartOffset stream <= o ->
  o < 2 ^ 64 ->
  o - writeBufferStartOffset stream <= Z.of_nat (length (writeBuffer stream)) ->
  writeBufferStartOffset (trimWriteBufferTo o stream) = o
  /\ writeBuffer (trimWriteBufferTo o stream)
     = drop (Z.to_nat (o - writeBufferStartOffset stream)) (writeBuffer stream).
Proof.
  intros Hstart Ho Hlen. unfold trimWriteBufferTo, trimStartAtMost, wrap64.
  simpl. rewrite (Z.mod_small (o - _)) by lia.
  rewrite Z.min_l by lia. split; [| done].
  rewrite Z.mod_small by lia. lia.
Qed.

Lemma trimWriteBufferTo_wraps o stream :
  0 <= o < writeBufferStartOffset stream ->
  writeBufferStartOffset stream < 2 ^ 64 ->
  Z.of_nat (length (writeBuffer stream))
  <= 2 ^ 64 - (writeBufferStartOffset stream - o) ->
  writeBuffer (trimWriteBufferTo o stream) = []
  /\ writeBufferStartOffset (trimWriteBufferTo o stream)
     = wrap64 (writeBufferStartOffset stream
               + Z.of_nat (length (writeBuffer stream))).
Proof.
  intros Ho Hstart Hlen. unfold trimWriteBufferTo, trimStartAtMost, wrap64.
  simpl.
  assert (Hwrap : (o - writeBufferStartOffset stream) mod 2 ^ 64
                  = 2 ^ 64 - (writeBufferStartOffset stream - o)).
  { symmetry. apply (Z.mod_unique_pos _ _ (-1)); lia. }
  rewrite Hwrap, Z.min_r by lia. rewrite Nat2Z.id. split; [| done].
  by apply drop_all.
Qed.


End FireDeliveryCallbacks.

Section UnsetDeliveryCallbacks.

Context (E : Externals).
Context (app : Event -> QuicTransportBase -> QuicTransportBase).

Lemma cancelDeliveryCallbacksForStreams_leavesAlone fuel ids st :
  closeState_ st = OPEN ->
  (forall id, id ∈ ids ->
     leavesAloneOn app (cancellations ACK id (queueOf ACK id st))) ->
  (forall id, id ∈ ids -> (length (queueOf ACK id st) < fuel)%nat) ->
  Reentrant.cancelDeliveryCallbacksForStreams E app fuel ids st
  = Some (Done tt (cancelDeliveryCallbacksForStreams E ids st)).
Proof.
  revert st. induction ids as [| id rest IH]; intros st Hopen Hla Hfuel;
    [done |].
  cbn [Reentrant.cancelDeliveryCallbacksForStreams
         cancelDeliveryCallbacksForStreams].
  unfold Reentrant.cancelDeliveryCallbacksForStream,
    cancelDeliveryCallbacksForStream.
  rewrite cancelByteEventCallbacksForStream_leavesAlone.
  2:{ by apply isOpen_true. }
  2:{ rewrite cancelWalk_all. apply Hla, list_elem_of_here. }
  2:{ apply Hfuel, list_elem_of_here. }
  destruct (cancelByteEventCallbacksForStream_clears E ACK id st Hopen)
    as (Ho1 & _ & Hm1).
  assert (Hqueue : forall id',
            queueOf ACK id' (cancelByteEventCallbacksForStream E ACK id None st)
            = queueOf ACK id' st
            \/ queueOf ACK id'
                 (cancelByteEventCallbacksForStream E ACK id None st)
               = []).
  { intros id'. unfold queueOf. rewrite Hm1.
    destruct (_ && _); [by right | by left]. }
  apply IH; [exact Ho1 | |].
  - intros id' Hin.
    destruct (Hqueue id') as [-> | ->];
      [by apply Hla, list_elem_of_further |].
    intros e st0 He. by apply elem_of_nil in He.
  - intros id' Hin.
    destruct (Hqueue id') as [-> | ->];
      [by apply Hfuel, list_elem_of_further |].
    specialize (Hfuel id (list_elem_of_here _ _)). simpl. lia.
Qed.

(** Once [deliveryCallbacks_] is empty, as a close leaves it, the loop only
    takes the streams out of the stream manager's deliverable set. *)
Lemma cancelDeliveryCallbacksForStreams_empty fuel ids st :
  deliveryCallbacks_ st = ∅ ->
  (forall i, i ∈ ids -> isReceivingStream E (nodeType (conn_ st)) i = false) ->
  Reentrant.cancelDeliveryCallbacksForStreams E app fuel ids st
  = Some (Done tt
            (set_trace_ (trace_ st ++ (removeDeliverable <$> ids)) st)).
Proof.
  revert st. induction ids as [| i ids IH]; intros st Hempty Hdir.
  - simpl. rewrite app_nil_r. by destruct st.
  - cbn [Reentrant.cancelDeliveryCallbacksForStreams].
    unfold Reentrant.cancelDeliveryCallbacksForStream,
      Reentrant.cancelByteEventCallbacksForStream.
    rewrite (Hdir i) by apply list_elem_of_here.
    simpl getByteEventMap. rewrite Hempty, lookup_empty.
    rewrite IH.
    + rewrite fmap_cons. unfold log. destruct st; simpl.
      by rewrite <- app_assoc.
    + by destruct st.
    + intros i' Hi'. rewrite <- (Hdir i') by (by apply list_elem_of_further).
      by destruct st.
Qed.

Lemma cancelDeliveryCallbacksForStreams_app fuel ids1 ids2 st st1 :
  Reentrant.cancelDeliveryCallbacksForStreams E app fuel ids1 st
  = Some (Done tt st1) ->
  Reentrant.cancelDeliveryCallbacksForStreams E app fuel (ids1 ++ ids2) st
  = Reentrant.cancelDeliveryCallbacksForStreams E app fuel ids2 st1.
Proof.
  revert st. induction ids1 as [| i ids1 IH]; intros st H1.
  - by injection H1 as <-.
  - rewrite <- app_comm_cons.
    cbn [Reentrant.cancelDeliveryCallbacksForStreams] in *.
    destruct (Reentrant.cancelDeliveryCallbacksForStream E app fuel i None st)
      as [[[] st' | st'] |]; try discriminate.
    by apply IH.
Qed.


End UnsetDeliveryCallbacks.

(** * The byte-event properties at work *)

Lemma exampleTwoStreams_sorted : byteEventsSorted exampleTwoStreams.
Proof.
  intros type id q Hq.
  assert (Hin : (id, q) ∈ map_to_list (getByteEventMap type exampleTwoStreams))
    by (by apply elem_of_map_to_list).
  destruct type; vm_compute in Hin;
    repeat (apply elem_of_cons in Hin as [[= -> ->] | Hin];
            [unfold queueSorted; simpl; repeat constructor; lia |]);
    by apply elem_of_nil in Hin.
Qed.

Lemma leavesAlone_leavesAloneOn evs : leavesAloneOn leavesAlone evs.
Proof. by intros e st _. Qed.

Lemma exampleTwoStreams_delivery id q :
  deliveryCallbacks_ exampleTwoStreams !! id = Some q ->
  (id = 3
   /\ q = [mkByteEventDetail 10 20%nat; mkByteEventDetail 11 22%nat;
           mkByteEventDetail 15 21%nat])
  \/ (id = 0 /\ q = [mkByteEventDetail 4 23%nat]).
Proof.
  intros Hq. apply elem_of_map_to_list in Hq. vm_compute in Hq.
  apply elem_of_cons in Hq as [[= -> ->] | Hq]; [by left |].
  apply list_elem_of_singleton in Hq as [= -> ->]. by right.
Qed.


Lemma exampleTwoStreams_ready type id :
  id ∈ [0; 3] ->
  is_Some (largestReadyOffset exampleExternals type id exampleTwoStreams)
  /\ is_Some (getStream id exampleTwoStreams)
  /\ (length (queueOf type id exampleTwoStreams) < 4)%nat.
Proof.
  intros Hin. apply elem_of_cons in Hin as [-> | Hin];
    [| apply list_elem_of_singleton in Hin as ->];
    destruct type; vm_compute; (split; [eauto | split; [eauto | lia]]).
Qed.


